(** * BewerberAI: guardrail orchestration pipeline

    A shallow embedding of the deterministic guardrails that wrap the
    three model-backed stages (fact extraction, match scoring, document
    rewriting): privacy redaction, the metrics vault guard, the schema
    validator, the retrieval chunker, the ATS coverage scorer, tier
    selection, the retry policy and the one-shot correction cycle.

    Texts are JavaScript strings, modelled as lists of code units; the
    embedding covers the code units below 256 (Latin-1), which is where
    every character class of the program's regular expressions lives.
    JavaScript numbers that the program only passes along are rationals
    extended with the non-finite values. *)

From Stdlib Require Import List Ascii String Arith Lia Bool ZArith Permutation Sorted.
From Stdlib Require Decimal DecimalString DecimalNat DecimalFacts QArith_base.
Import ListNotations.

Local Open Scope string_scope.
Local Open Scope list_scope.
Local Open Scope nat_scope.

(** ** Strings *)

Definition str := list ascii.

Definition lit (s : string) : str := list_ascii_of_string s.

Module Str.

Definition code (c : ascii) : nat := nat_of_ascii c.

Definition between (lo hi : nat) (c : ascii) : bool :=
  (lo <=? code c) && (code c <=? hi).

Definition isDigit (c : ascii) : bool := between 48 57 c.
Definition isUpper (c : ascii) : bool := between 65 90 c.
Definition isLower (c : ascii) : bool := between 97 122 c.
Definition isAlpha (c : ascii) : bool := isUpper c || isLower c.
Definition isAlnum (c : ascii) : bool := isAlpha c || isDigit c.

(** [\w] of a regular expression without the unicode flag. *)
Definition isWord (c : ascii) : bool := isAlnum c || (code c =? 95).

(** [\s], and the characters [trim] strips: tab, line feed, vertical tab,
    form feed, carriage return, space and the no-break space. *)
Definition isSpace (c : ascii) : bool :=
  between 9 13 c || (code c =? 32) || (code c =? 160).

Definition isOneOf (set : string) (c : ascii) : bool :=
  existsb (Ascii.eqb c) (lit set).

(** [toLowerCase] and [toUpperCase] on one code unit. The three Latin-1
    letters whose upper case leaves Latin-1 (181, 223, 255) are kept. *)
Definition lowerChar (c : ascii) : ascii :=
  if isUpper c || (between 192 222 c && negb (code c =? 215))
  then ascii_of_nat (code c + 32) else c.

Definition upperChar (c : ascii) : ascii :=
  if isLower c || (between 224 254 c && negb (code c =? 247))
  then ascii_of_nat (code c - 32) else c.

Definition toLowerCase (s : str) : str := map lowerChar s.
Definition toUpperCase (s : str) : str := map upperChar s.

Fixpoint eqb (a b : str) : bool :=
  match a, b with
  | [], [] => true
  | x :: a', y :: b' => Ascii.eqb x y && eqb a' b'
  | _, _ => false
  end.

Fixpoint startsWith (p s : str) : bool :=
  match p, s with
  | [], _ => true
  | x :: p', y :: s' => Ascii.eqb x y && startsWith p' s'
  | _ :: _, [] => false
  end.

(** [hay.includes(needle)]. *)
Fixpoint includes (hay needle : str) : bool :=
  startsWith needle hay ||
  match hay with
  | [] => false
  | _ :: hay' => includes hay' needle
  end.

Definition mem (x : str) (l : list str) : bool := existsb (eqb x) l.

Fixpoint dropWhile (p : ascii -> bool) (s : str) : str :=
  match s with
  | [] => []
  | c :: s' => if p c then dropWhile p s' else s
  end.

Definition trimStart (s : str) : str := dropWhile isSpace s.
Definition trimEnd (s : str) : str := rev (dropWhile isSpace (rev s)).
Definition trim (s : str) : str := trimEnd (trimStart s).

(** The maximal runs of characters that are not white space:
    [s.split(/\s+/).filter(Boolean)]. *)
Fixpoint wordsAcc (cur : str) (s : str) : list str :=
  match s with
  | [] => match cur with [] => [] | _ => [rev cur] end
  | c :: s' =>
      if isSpace c
      then match cur with [] => wordsAcc [] s' | _ => rev cur :: wordsAcc [] s' end
      else wordsAcc (c :: cur) s'
  end.

Definition words (s : str) : list str := wordsAcc [] s.

(** [parts.join(sep)]. *)
Fixpoint join (sep : str) (parts : list str) : str :=
  match parts with
  | [] => []
  | [p] => p
  | p :: rest => p ++ sep ++ join sep rest
  end.

(** [s.replace(/\s+/g, " ")]: every maximal run of white space becomes
    one space. *)
Fixpoint collapseFrom (inRun : bool) (s : str) : str :=
  match s with
  | [] => []
  | c :: s' =>
      if isSpace c
      then if inRun then collapseFrom true s' else " "%char :: collapseFrom true s'
      else c :: collapseFrom false s'
  end.

Definition collapseSpaces (s : str) : str := collapseFrom false s.

(** [s.split(sep)] for a literal separator; the walk skips the
    separator's characters once it has been recognised. An empty
    separator splits between all code units. *)
Fixpoint splitAcc (sep : str) (cur : str) (skip : nat) (s : str) : list str :=
  match s with
  | [] => [rev cur]
  | c :: s' =>
      match skip with
      | S k => splitAcc sep cur k s'
      | O =>
          if startsWith sep s
          then rev cur :: splitAcc sep [] (List.length sep - 1) s'
          else splitAcc sep (c :: cur) 0 s'
      end
  end.

Definition split (sep s : str) : list str :=
  match sep with
  | [] => map (fun c => [c]) s
  | _ => splitAcc sep [] 0 s
  end.

(** [String(n)] for a natural number. *)
Definition ofNat (n : nat) : str :=
  lit (DecimalString.NilEmpty.string_of_uint (Nat.to_uint n)).

Definition filterChars (p : ascii -> bool) (s : str) : str := filter p s.

Definition CR : ascii := ascii_of_nat 13.
Definition LF : ascii := ascii_of_nat 10.
Definition DQ : ascii := ascii_of_nat 34.

(** A text between double quotes, and lines joined by line feeds. *)
Definition quoted (s : string) : str := [DQ] ++ lit s ++ [DQ].
Definition lines (l : list str) : str := join [LF] l.

(** [value.replace(/\r\n/g, "\n")] *)
Fixpoint crlfToLf (s : str) : str :=
  match s with
  | [] => []
  | c :: s' =>
      match s' with
      | d :: s'' =>
          if Ascii.eqb c CR && Ascii.eqb d LF then LF :: crlfToLf s''
          else c :: crlfToLf s'
      | [] => [c]
      end
  end.

(** [s.split(/[...]/)] for a class of single code units. *)
Fixpoint splitWhenAcc (p : ascii -> bool) (cur : str) (s : str) : list str :=
  match s with
  | [] => [rev cur]
  | c :: s' =>
      if p c then rev cur :: splitWhenAcc p [] s'
      else splitWhenAcc p (c :: cur) s'
  end.

Definition splitWhen (p : ascii -> bool) (s : str) : list str := splitWhenAcc p [] s.

(** [s.split(/\r?\n/g)] *)
Definition splitLines (s : str) : list str :=
  splitWhen (Ascii.eqb LF) (crlfToLf s).

Definition nonEmpty (s : str) : bool :=
  match s with [] => false | _ :: _ => true end.

(** The integer that a run of decimal digits stands for. *)
Fixpoint parseDigitsAcc (acc : N) (s : str) : N :=
  match s with
  | [] => acc
  | c :: s' => parseDigitsAcc (10 * acc + N.of_nat (code c - 48))%N s'
  end.

Definition parseDigits (s : str) : N := parseDigitsAcc 0%N s.

End Str.

(** ** Regular expressions

    The program's regular expressions are run by a backtracking matcher
    with the priorities of the JavaScript engine: alternatives left to
    right, greedy repetition longest first, an iteration that consumes
    nothing rejected. The matcher is written in continuation-passing
    style; the continuation receives the last consumed code unit (for
    the word-boundary assertion) and the rest of the input. *)

Module Regex.

Inductive re : Type :=
| Eps
| Chr (p : ascii -> bool)
| Seq (a b : re)
| Alt (a b : re)
| Star (a : re)
| StarLazy (a : re)
| Bnd
| Bol
| Start
| End.

Definition wordBefore (prev : option ascii) : bool :=
  match prev with Some c => Str.isWord c | None => false end.

Definition wordAhead (s : str) : bool :=
  match s with c :: _ => Str.isWord c | [] => false end.

Definition isLineTerminator (c : ascii) : bool :=
  (Str.code c =? 10) || (Str.code c =? 13).

Definition lineStart (prev : option ascii) : bool :=
  match prev with Some c => isLineTerminator c | None => true end.

Section Exec.
Context {A : Type}.

Fixpoint exec (r : re) (prev : option ascii) (s : str)
  (k : option ascii -> str -> option A) {struct r} : option A :=
  match r with
  | Eps => k prev s
  | Chr p =>
      match s with
      | c :: s' => if p c then k (Some c) s' else None
      | [] => None
      end
  | Seq a b => exec a prev s (fun prev' s' => exec b prev' s' k)
  | Alt a b =>
      match exec a prev s k with
      | Some x => Some x
      | None => exec b prev s k
      end
  | Star a =>
      (fix loop (fuel : nat) (prev : option ascii) (s : str) {struct fuel} : option A :=
         match fuel with
         | O => k prev s
         | S fuel' =>
             match exec a prev s
                     (fun prev' s' =>
                        if List.length s' <? List.length s
                        then loop fuel' prev' s' else None) with
             | Some x => Some x
             | None => k prev s
             end
         end) (List.length s) prev s
  | StarLazy a =>
      (fix loop (fuel : nat) (prev : option ascii) (s : str) {struct fuel} : option A :=
         match k prev s with
         | Some x => Some x
         | None =>
             match fuel with
             | O => None
             | S fuel' =>
                 exec a prev s
                   (fun prev' s' =>
                      if List.length s' <? List.length s
                      then loop fuel' prev' s' else None)
             end
         end) (List.length s) prev s
  | Bnd => if xorb (wordBefore prev) (wordAhead s) then k prev s else None
  | Bol => if lineStart prev then k prev s else None
  | Start => match prev with None => k prev s | Some _ => None end
  | End => match s with [] => k prev s | _ :: _ => None end
  end.

End Exec.

(** Derived forms. *)
Definition plus (a : re) : re := Seq a (Star a).
Definition opt (a : re) : re := Alt a Eps.

Fixpoint rep (n : nat) (a : re) : re :=
  match n with
  | O => Eps
  | S n' => Seq a (rep n' a)
  end.

(** [a{0,n}], greedy. *)
Fixpoint upTo (n : nat) (a : re) : re :=
  match n with
  | O => Eps
  | S n' => opt (Seq a (upTo n' a))
  end.

(** [a{n,m}] and [a{n,}]. *)
Definition range (n m : nat) (a : re) : re := Seq (rep n a) (upTo (m - n) a).
Definition atLeast (n : nat) (a : re) : re := Seq (rep n a) (Star a).

Definition chr (c : ascii) : re := Chr (Ascii.eqb c).

(** A literal character under the [i] flag. *)
Definition chrI (c : ascii) : re :=
  Chr (fun x => Ascii.eqb (Str.lowerChar x) (Str.lowerChar c)).

Fixpoint seqOf (l : list re) : re :=
  match l with
  | [] => Eps
  | [a] => a
  | a :: l' => Seq a (seqOf l')
  end.

Fixpoint altOf (l : list re) : re :=
  match l with
  | [] => Chr (fun _ => false)
  | [a] => a
  | a :: l' => Alt a (altOf l')
  end.

Definition word (s : string) : re := seqOf (map chr (lit s)).
Definition wordI (s : string) : re := seqOf (map chrI (lit s)).

Definition digit : re := Chr Str.isDigit.
Definition space : re := Chr Str.isSpace.

(** A match reports what it captured and how many code units it took. *)
Definition matcher (I : Type) : Type := option ascii -> str -> option (I * nat).

Definition consumed (s rest : str) : nat := List.length s - List.length rest.

Definition whole (r : re) : matcher unit :=
  fun prev s => exec r prev s (fun _ rest => Some (tt, consumed s rest)).

(** [head (g1) (g2)]: the two capture groups follow the head. *)
Definition twoGroups (head g1 g2 : re) : matcher (str * str) :=
  fun prev s =>
    exec head prev s (fun p1 s1 =>
    exec g1 p1 s1 (fun p2 s2 =>
    exec g2 p2 s2 (fun _ s3 =>
      Some ((firstn (consumed s1 s2) s1, firstn (consumed s2 s3) s2),
            consumed s s3)))).

(** [re.test(s)] for a regular expression without the [g] flag. *)
Fixpoint testFrom (r : re) (prev : option ascii) (s : str) : bool :=
  match exec r prev s (fun _ _ => Some tt) with
  | Some _ => true
  | None =>
      match s with
      | [] => false
      | c :: s' => testFrom r (Some c) s'
      end
  end.

Definition test (r : re) (s : str) : bool := testFrom r None s.

(** The input cut by the successive matches of a global regular
    expression: literal code units and matches, left to right. After a
    match of [n] code units the walk skips them; an empty match keeps
    the code unit it stands before. *)
Inductive segment (I : Type) : Type :=
| Lit (c : ascii)
| Hit (text : str) (info : I).

Arguments Lit {I} c.
Arguments Hit {I} text info.

Fixpoint segmentsFrom {I : Type} (m : matcher I) (prev : option ascii)
  (skip : nat) (s : str) : list (segment I) :=
  match s with
  | [] =>
      match skip with
      | O => match m prev [] with Some (i, _) => [Hit [] i] | None => [] end
      | S _ => []
      end
  | c :: s' =>
      match skip with
      | S k => segmentsFrom m (Some c) k s'
      | O =>
          match m prev s with
          | Some (i, O) => Hit [] i :: Lit c :: segmentsFrom m (Some c) 0 s'
          | Some (i, S k) => Hit (firstn (S k) s) i :: segmentsFrom m (Some c) k s'
          | None => Lit c :: segmentsFrom m (Some c) 0 s'
          end
      end
  end.

Definition segments {I : Type} (m : matcher I) (s : str) : list (segment I) :=
  segmentsFrom m None 0 s.

(** [s.match(re)] and [s.matchAll(re)] for a global [re]. *)
Definition hits {I : Type} (m : matcher I) (s : str) : list (str * I) :=
  flat_map (fun g => match g with Lit _ => [] | Hit t i => [(t, i)] end)
           (segments m s).

Definition matches {I : Type} (m : matcher I) (s : str) : list str :=
  map fst (hits m s).

(** [s.replace(re, fn)] for a global [re] and a pure callback. *)
Definition replace {I : Type} (m : matcher I) (fn : str -> I -> str) (s : str) : str :=
  flat_map (fun g => match g with Lit c => [c] | Hit t i => fn t i end)
           (segments m s).

(** The same with a callback that threads a state: the matches are
    collected first, the callback then runs on each in order. *)
Fixpoint replaceSegments {I S : Type} (fn : str -> I -> S -> str * S)
  (segs : list (segment I)) (st : S) : str * S :=
  match segs with
  | [] => ([], st)
  | Lit c :: rest =>
      let (out, st') := replaceSegments fn rest st in (c :: out, st')
  | Hit t i :: rest =>
      let (r, st1) := fn t i st in
      let (out, st2) := replaceSegments fn rest st1 in
      (r ++ out, st2)
  end.

Definition replaceWith {I S : Type} (m : matcher I)
  (fn : str -> I -> S -> str * S) (s : str) (st : S) : str * S :=
  replaceSegments fn (segments m s) st.

(** [s.split(re)] for a regular expression that consumes input. *)
Fixpoint piecesAcc {I : Type} (cur : str) (segs : list (segment I)) : list str :=
  match segs with
  | [] => [rev cur]
  | Lit c :: rest => piecesAcc (c :: cur) rest
  | Hit _ _ :: rest => rev cur :: piecesAcc [] rest
  end.

Definition splitBy {I : Type} (m : matcher I) (s : str) : list str :=
  piecesAcc [] (segments m s).

(** [s.match(re)] for a regular expression without the [g] flag. *)
Definition firstHit {I : Type} (m : matcher I) (s : str) : option (str * I) :=
  match hits m s with
  | [] => None
  | h :: _ => Some h
  end.

(** The code units a match can contain, and the least length of a match. *)
Fixpoint alphabet (r : re) (c : ascii) : bool :=
  match r with
  | Chr p => p c
  | Seq a b | Alt a b => alphabet a c || alphabet b c
  | Star a | StarLazy a => alphabet a c
  | Eps | Bnd | Bol | Start | End => false
  end.

Fixpoint minLen (r : re) : nat :=
  match r with
  | Chr _ => 1
  | Seq a b => minLen a + minLen b
  | Alt a b => Nat.min (minLen a) (minLen b)
  | Eps | Star _ | StarLazy _ | Bnd | Bol | Start | End => 0
  end.

End Regex.

(** [s.replace(pattern, replacement)] for a string pattern: the first
    occurrence only. The replacements of this program contain no [$]. *)
Fixpoint replaceFirst (pat rep s : str) : str :=
  if Str.startsWith pat s then rep ++ skipn (List.length pat) s
  else match s with
       | [] => []
       | c :: s' => c :: replaceFirst pat rep s'
       end.

(** ** JavaScript values

    What [JSON.parse] returns and what the validators inspect with
    [typeof]. An object keeps its own properties in insertion order; a
    property that is absent reads as [undefined]. *)

Module Js.

Inductive JsNumber : Type :=
| Finite (q : QArith_base.Q)
| PosInfinity
| NegInfinity
| NaN.

Definition ofNat (n : nat) : JsNumber := Finite (QArith_base.Qmake (Z.of_nat n) 1).

Definition isFinite (n : JsNumber) : bool :=
  match n with Finite _ => true | _ => false end.

(** [a <= b] on numbers; [b >= a] is the same. *)
Definition leb (a b : JsNumber) : bool :=
  match a, b with
  | NaN, _ | _, NaN => false
  | NegInfinity, _ | _, PosInfinity => true
  | Finite x, Finite y => QArith_base.Qle_bool x y
  | _, _ => false
  end.

(** The larger of two numbers, [NaN] when one of them is. *)
Definition max2 (a b : JsNumber) : JsNumber :=
  match a, b with
  | NaN, _ | _, NaN => NaN
  | _, _ => if leb a b then b else a
  end.

(** [Math.max(...values)]: [-Infinity] of no value. *)
Definition mathMax (values : list JsNumber) : JsNumber := fold_left max2 values NegInfinity.

#[warnings="-register-all"]
Inductive JsValue : Type :=
| JUndefined
| JNull
| JBool (b : bool)
| JNumber (n : JsNumber)
| JString (s : str)
| JArray (items : list JsValue)
| JObject (props : list (str * JsValue)).

Fixpoint lookup (k : str) (props : list (str * JsValue)) : JsValue :=
  match props with
  | [] => JUndefined
  | (k', v) :: props' => if Str.eqb k k' then v else lookup k props'
  end.

(** [value.name] on a value known to be an object; on anything else the
    program has already branched away. *)
Definition get (v : JsValue) (name : string) : JsValue :=
  match v with
  | JObject props => lookup (lit name) props
  | _ => JUndefined
  end.

(** [{ ...obj, name: v }]: the property keeps its place when the object
    has it already. *)
Fixpoint setProp (k : str) (v : JsValue) (props : list (str * JsValue))
  : list (str * JsValue) :=
  match props with
  | [] => [(k, v)]
  | (k', v') :: props' =>
      if Str.eqb k k' then (k', v) :: props' else (k', v') :: setProp k v props'
  end.

Definition withProp (obj : JsValue) (name : string) (v : JsValue) : JsValue :=
  match obj with
  | JObject props => JObject (setProp (lit name) v props)
  | other => other
  end.

Definition isString (v : JsValue) : bool :=
  match v with JString _ => true | _ => false end.

Definition isNumber (v : JsValue) : bool :=
  match v with JNumber _ => true | _ => false end.

Definition isArray (v : JsValue) : bool :=
  match v with JArray _ => true | _ => false end.

Definition nullable {A : Type} (f : A -> JsValue) (x : option A) : JsValue :=
  match x with Some a => f a | None => JNull end.

Definition strings (l : list str) : JsValue := JArray (map JString l).

(** What the program asks of the JavaScript runtime and cannot be read
    off its own source:
    - [floatToString s]: [Number.parseFloat(s).toString()] for a decimal
      literal [s] of more than 15 significant digits or outside the range
      printed in plain notation, [None] when the value is not finite;
    - [JSON_parse], [None] when it throws, and [JSON_stringify];
    - [sha256Hex], the hexadecimal SHA-256 digest of the Web Crypto API,
      [None] when the API is unavailable;
    - [nowISO], the clock reading of [new Date().toISOString()];
    - [localeCompare], the collation order of the default locale;
    - [envApiKey], the build-time variable [VITE_GEMINI_API_KEY];
    - [largeParseInt digits]: [Number.parseInt(digits, 10)] for a run of
      decimal digits that stands for 2^53 or more, where the result is
      a double near the integer (which the standard lets an
      implementation read off the first 20 digits) or [Infinity]. *)
Record Host : Type := {
  envApiKey : option str;
  largeParseInt : str -> JsNumber;
  floatToString : str -> option str;
  localeCompare : str -> str -> comparison;
  JSON_parse : str -> option JsValue;
  JSON_stringify : JsValue -> str;
  sha256Hex : option (str -> str);
  nowISO : str
}.

End Js.

(** ** types.ts *)

Module types.
Import Js.

Inductive AnalysisMode : Type := fast | balanced | deep.

Inductive MetricKey : Type :=
| projectImpact | latencyReduction | costSavings | usersServed | uptime | otherMetrics.

Definition MetricKey_eqb (a b : MetricKey) : bool :=
  match a, b with
  | projectImpact, projectImpact | latencyReduction, latencyReduction
  | costSavings, costSavings | usersServed, usersServed
  | uptime, uptime | otherMetrics, otherMetrics => true
  | _, _ => false
  end.

(** The vault is an object with optional string properties; its own
    properties are kept in insertion order, which [Object.values]
    follows. *)
Definition MetricsVault : Type := list (MetricKey * str).

Fixpoint vaultGet (k : MetricKey) (v : MetricsVault) : option str :=
  match v with
  | [] => None
  | (k', x) :: v' => if MetricKey_eqb k k' then Some x else vaultGet k v'
  end.

Fixpoint vaultSet (k : MetricKey) (x : str) (v : MetricsVault) : MetricsVault :=
  match v with
  | [] => [(k, x)]
  | (k', y) :: v' =>
      if MetricKey_eqb k k' then (k', x) :: v' else (k', y) :: vaultSet k x v'
  end.

Definition vaultValues (v : MetricsVault) : list str := map snd v.

Record ApplicationInput : Type := {
  jobDescription : str;
  companyInfo : str;
  resumeContent : str;
  coverLetterContent : str;
  portfolioLinks : str;
  additionalContext : str;
  analysisMode : AnalysisMode;
  privacyMode : bool;
  metricsVault : MetricsVault
}.

Record ImprovementEvidence : Type := {
  resumeQuotes : list str;
  jdQuotes : list str;
  missingKeywords : list str
}.

Inductive Category : Type := critical | optional.

Record Improvement : Type := {
  point : option str;
  category : Category;
  impact : option str;
  evidence : ImprovementEvidence
}.

Record ScoreBreakdown : Type := {
  baseline : option JsNumber;
  enhanced : option JsNumber;
  explanation : option str
}.

Record KeywordCoverage : Type := {
  matched : list str;
  missing : list str;
  partial : list str
}.

Record RetrievalTraceEntry : Type := { chunkId : str; reason : str }.

Record AnalysisTrace : Type := {
  inputHash : str;
  retrievalChunkIds : list str;
  retrievalTrace : list RetrievalTraceEntry;
  modelName : str;
  tier : str;
  timestamp : str;
  retries : JsNumber
}.

Inductive Language : Type := English | German.

Record AnalysisResult : Type := {
  scoreBreakdown : ScoreBreakdown;
  jobFitScore : option JsNumber;
  overallFeedback : option str;
  improvements : list Improvement;
  optimizedResume : option str;
  optimizedCoverLetter : option str;
  languageDetected : option Language;
  portfolioAdvice : option str;
  recruiterNotes : option str;
  evidenceSnippetWordLimit : JsNumber;
  keywordCoverage : KeywordCoverage;
  hardRequirementsMissing : list str;
  analysisTrace : AnalysisTrace
}.

(** A typed result as the object the validator receives. *)
Definition evidenceToJs (e : ImprovementEvidence) : JsValue :=
  JObject [(lit "resumeQuotes", strings (resumeQuotes e));
           (lit "jdQuotes", strings (jdQuotes e));
           (lit "missingKeywords", strings (missingKeywords e))].

Definition categoryName (c : Category) : str :=
  match c with critical => lit "critical" | optional => lit "optional" end.

Definition improvementToJs (i : Improvement) : JsValue :=
  JObject [(lit "point", nullable JString (point i));
           (lit "category", JString (categoryName (category i)));
           (lit "impact", nullable JString (impact i));
           (lit "evidence", evidenceToJs (evidence i))].

Definition languageName (l : Language) : str :=
  match l with English => lit "English" | German => lit "German" end.

Definition traceEntryToJs (e : RetrievalTraceEntry) : JsValue :=
  JObject [(lit "chunkId", JString (chunkId e)); (lit "reason", JString (reason e))].

Definition traceToJs (t : AnalysisTrace) : JsValue :=
  JObject [(lit "inputHash", JString (inputHash t));
           (lit "retrievalChunkIds", strings (retrievalChunkIds t));
           (lit "retrievalTrace", JArray (map traceEntryToJs (retrievalTrace t)));
           (lit "modelName", JString (modelName t));
           (lit "tier", JString (tier t));
           (lit "timestamp", JString (timestamp t));
           (lit "retries", JNumber (retries t))].

Definition resultToJs (r : AnalysisResult) : JsValue :=
  JObject [(lit "scoreBreakdown",
            JObject [(lit "baseline", nullable JNumber (baseline (scoreBreakdown r)));
                     (lit "enhanced", nullable JNumber (enhanced (scoreBreakdown r)));
                     (lit "explanation", nullable JString (explanation (scoreBreakdown r)))]);
           (lit "jobFitScore", nullable JNumber (jobFitScore r));
           (lit "overallFeedback", nullable JString (overallFeedback r));
           (lit "improvements", JArray (map improvementToJs (improvements r)));
           (lit "optimizedResume", nullable JString (optimizedResume r));
           (lit "optimizedCoverLetter", nullable JString (optimizedCoverLetter r));
           (lit "languageDetected", nullable (fun l => JString (languageName l)) (languageDetected r));
           (lit "portfolioAdvice", nullable JString (portfolioAdvice r));
           (lit "recruiterNotes", nullable JString (recruiterNotes r));
           (lit "evidenceSnippetWordLimit", JNumber (evidenceSnippetWordLimit r));
           (lit "keywordCoverage",
            JObject [(lit "matched", strings (matched (keywordCoverage r)));
                     (lit "missing", strings (missing (keywordCoverage r)));
                     (lit "partial", strings (partial (keywordCoverage r)))]);
           (lit "hardRequirementsMissing", strings (hardRequirementsMissing r));
           (lit "analysisTrace", traceToJs (analysisTrace r))].

End types.

(** ** services/analysisSchemaService.ts *)

Module analysisSchemaService.
Import Js.

Record ValidationResult : Type := { valid : bool; errors : list str }.

Definition isObject (value : JsValue) : bool :=
  match value with JObject _ => true | _ => false end.

Definition isStringArray (value : JsValue) : bool :=
  match value with
  | JArray items => forallb isString items
  | _ => false
  end.

Definition isRetrievalTraceArray (value : JsValue) : bool :=
  match value with
  | JArray items =>
      forallb (fun entry =>
                 isObject entry && isString (get entry "chunkId")
                 && isString (get entry "reason")) items
  | _ => false
  end.

Definition isNullableNumber (value : JsValue) : bool :=
  match value with JNull | JNumber _ => true | _ => false end.

Definition isNullableString (value : JsValue) : bool :=
  match value with JNull | JString _ => true | _ => false end.

Definition isStringLit (value : JsValue) (s : string) : bool :=
  match value with JString x => Str.eqb x (lit s) | _ => false end.

(** [if (!ok) errors.push(message)] *)
Definition check (ok : bool) (message : str) : list str :=
  if ok then [] else [message].

Definition improvementErrors (index : nat) (improvement : JsValue) : list str :=
  let at_ (rest : string) : str := lit "improvements[" ++ Str.ofNat index ++ lit rest in
  if negb (isObject improvement) then [at_ "] must be an object."]
  else
    check (isNullableString (get improvement "point")) (at_ "].point must be string|null.")
    ++ check (isStringLit (get improvement "category") "critical"
              || isStringLit (get improvement "category") "optional")
             (at_ "].category must be " ++ Str.quoted "critical" ++ lit "|"
              ++ Str.quoted "optional" ++ lit ".")
    ++ check (isNullableString (get improvement "impact")) (at_ "].impact must be string|null.")
    ++ (let evidence := get improvement "evidence" in
        if negb (isObject evidence) then [at_ "].evidence must be an object."]
        else
          check (isStringArray (get evidence "resumeQuotes"))
                (at_ "].evidence.resumeQuotes must be string[].")
          ++ check (isStringArray (get evidence "jdQuotes"))
                   (at_ "].evidence.jdQuotes must be string[].")
          ++ check (isStringArray (get evidence "missingKeywords"))
                   (at_ "].evidence.missingKeywords must be string[].")).

Fixpoint eachImprovement (index : nat) (items : list JsValue) : list str :=
  match items with
  | [] => []
  | improvement :: rest =>
      improvementErrors index improvement ++ eachImprovement (S index) rest
  end.

Definition validateAnalysisResultSchema (value : JsValue) : ValidationResult :=
  if negb (isObject value)
  then {| valid := false; errors := [lit "Result must be an object."] |}
  else
    let result := value in
    let errors :=
      (let scoreBreakdown := get result "scoreBreakdown" in
       if negb (isObject scoreBreakdown)
       then [lit "scoreBreakdown is required and must be an object."]
       else
         check (isNullableNumber (get scoreBreakdown "baseline"))
               (lit "scoreBreakdown.baseline must be number|null.")
         ++ check (isNullableNumber (get scoreBreakdown "enhanced"))
                  (lit "scoreBreakdown.enhanced must be number|null.")
         ++ check (isNullableString (get scoreBreakdown "explanation"))
                  (lit "scoreBreakdown.explanation must be string|null."))
      ++ check (isNullableNumber (get result "jobFitScore")) (lit "jobFitScore must be number|null.")
      ++ check (isNullableString (get result "overallFeedback"))
               (lit "overallFeedback must be string|null.")
      ++ check (isNullableString (get result "optimizedResume"))
               (lit "optimizedResume must be string|null.")
      ++ check (isNullableString (get result "optimizedCoverLetter"))
               (lit "optimizedCoverLetter must be string|null.")
      ++ check (isNullableString (get result "portfolioAdvice"))
               (lit "portfolioAdvice must be string|null.")
      ++ check (isNullableString (get result "recruiterNotes"))
               (lit "recruiterNotes must be string|null.")
      ++ check (isNumber (get result "evidenceSnippetWordLimit"))
               (lit "evidenceSnippetWordLimit must be a number.")
      ++ (let keywordCoverage := get result "keywordCoverage" in
          if negb (isObject keywordCoverage)
          then [lit "keywordCoverage is required and must be an object."]
          else
            check (isStringArray (get keywordCoverage "matched"))
                  (lit "keywordCoverage.matched must be string[].")
            ++ check (isStringArray (get keywordCoverage "missing"))
                     (lit "keywordCoverage.missing must be string[].")
            ++ check (isStringArray (get keywordCoverage "partial"))
                     (lit "keywordCoverage.partial must be string[]."))
      ++ check (isStringArray (get result "hardRequirementsMissing"))
               (lit "hardRequirementsMissing must be string[].")
      ++ match get result "improvements" with
         | JArray items => eachImprovement 0 items
         | _ => [lit "improvements must be an array."]
         end
      ++ (let analysisTrace := get result "analysisTrace" in
          if negb (isObject analysisTrace)
          then [lit "analysisTrace is required and must be an object."]
          else
            check (isString (get analysisTrace "inputHash"))
                  (lit "analysisTrace.inputHash must be string.")
            ++ check (isStringArray (get analysisTrace "retrievalChunkIds"))
                     (lit "analysisTrace.retrievalChunkIds must be string[].")
            ++ check (isRetrievalTraceArray (get analysisTrace "retrievalTrace"))
                     (lit "analysisTrace.retrievalTrace must be { chunkId: string; reason: string }[].")
            ++ check (isString (get analysisTrace "modelName"))
                     (lit "analysisTrace.modelName must be string.")
            ++ check (isString (get analysisTrace "tier"))
                     (lit "analysisTrace.tier must be string.")
            ++ check (isString (get analysisTrace "timestamp"))
                     (lit "analysisTrace.timestamp must be string.")
            ++ check (isNumber (get analysisTrace "retries"))
                     (lit "analysisTrace.retries must be number.")) in
    {| valid := (List.length errors =? 0); errors := errors |}.

End analysisSchemaService.

(** ** services/privacyService.ts *)

Module privacyService.
Import Regex types.

Inductive PiiType : Type := EMAIL | PHONE | STREET_ADDRESS | BIRTH_DATE | PERSONAL_ID.

Definition PiiType_eqb (a b : PiiType) : bool :=
  match a, b with
  | EMAIL, EMAIL | PHONE, PHONE | STREET_ADDRESS, STREET_ADDRESS
  | BIRTH_DATE, BIRTH_DATE | PERSONAL_ID, PERSONAL_ID => true
  | _, _ => false
  end.

Definition typeName (t : PiiType) : str :=
  match t with
  | EMAIL => lit "EMAIL"
  | PHONE => lit "PHONE"
  | STREET_ADDRESS => lit "STREET_ADDRESS"
  | BIRTH_DATE => lit "BIRTH_DATE"
  | PERSONAL_ID => lit "PERSONAL_ID"
  end.

Record PiiDetection : Type := { d_type : PiiType; d_value : str }.

Record PiiRedactionEntry : Type := {
  placeholder : str;
  original : str;
  type : PiiType
}.

Record PiiValidationIssue : Type := { count : nat; i_type : PiiType }.

(** [/\b[A-Z0-9._%+-]+@[A-Z0-9.-]+\.[A-Z]{2,}\b/gi] *)
Definition emailLocal (c : ascii) : bool := Str.isAlnum c || Str.isOneOf "._%+-" c.
Definition emailDomain (c : ascii) : bool := Str.isAlnum c || Str.isOneOf ".-" c.

Definition EMAIL_REGEX : re :=
  seqOf [Bnd; plus (Chr emailLocal); chr "@"; plus (Chr emailDomain); chr ".";
         atLeast 2 (Chr Str.isAlpha); Bnd].

(** [/(?:\+?\d[\d()\s.-]{7,}\d)/g] *)
Definition phoneBody (c : ascii) : bool :=
  Str.isDigit c || Str.isOneOf "()" c || Str.isSpace c || Str.isOneOf ".-" c.

Definition PHONE_CANDIDATE_REGEX : re :=
  seqOf [opt (chr "+"); digit; atLeast 7 (Chr phoneBody); digit].

(** [/\b\d{1,5}\s+[A-Za-z0-9.'-]+(?:\s+[A-Za-z0-9.'-]+){0,4}\s(?:Street|St|...|Pkwy)\b\.?/gi] *)
Definition addressWord (c : ascii) : bool := Str.isAlnum c || Str.isOneOf ".'-" c.

Definition STREET_SUFFIXES : list string :=
  ["Street"; "St"; "Avenue"; "Ave"; "Road"; "Rd"; "Boulevard"; "Blvd"; "Lane";
   "Ln"; "Drive"; "Dr"; "Way"; "Court"; "Ct"; "Place"; "Pl"; "Parkway"; "Pkwy"].

Definition STREET_ADDRESS_REGEX : re :=
  seqOf [Bnd; range 1 5 digit; plus space; plus (Chr addressWord);
         upTo 4 (Seq (plus space) (plus (Chr addressWord)));
         space; altOf (map wordI STREET_SUFFIXES); Bnd; opt (chr ".")].

(** BIRTH_DATE_LABELED_REGEX, flags [gi]: the label
    [\b(?:date of birth|dob|born)\b], group 1 the separator (white space,
    an optional colon or hyphen, white space), group 2 the date in one of
    the shapes [[A-Za-z]+\s+\d{1,2},\s*\d{4}],
    [\d{1,2}[./-]\d{1,2}[./-]\d{2,4}] and [\d{4}[./-]\d{1,2}[./-]\d{1,2}]. *)
Definition dateSep : re := Chr (Str.isOneOf "./-").

Definition BIRTH_DATE_HEAD : re :=
  seqOf [Bnd; altOf (map wordI ["date of birth"; "dob"; "born"]); Bnd].

Definition BIRTH_DATE_SEP : re :=
  seqOf [Star space; opt (Chr (Str.isOneOf ":-")); Star space].

Definition BIRTH_DATE_VALUE : re :=
  altOf [seqOf [plus (Chr Str.isAlpha); plus space; range 1 2 digit; chr ",";
                Star space; rep 4 digit];
         seqOf [range 1 2 digit; dateSep; range 1 2 digit; dateSep; range 2 4 digit];
         seqOf [rep 4 digit; dateSep; range 1 2 digit; dateSep; range 1 2 digit]].

Definition BIRTH_DATE_LABELED_REGEX : matcher (str * str) :=
  twoGroups BIRTH_DATE_HEAD BIRTH_DATE_SEP BIRTH_DATE_VALUE.

(** PERSONAL_ID_LABELED_REGEX, flags [gi]: one of the labels ssn, social
    security number, passport (with an optional no, no. or number),
    national id, id number, tax id, tin, aadhaar, driver license or
    driver's license between word boundaries; group 1 the separator
    (white space, an optional colon, hash or hyphen, white space);
    group 2 the value [[A-Za-z0-9-]{4,}]. *)
Definition PERSONAL_ID_HEAD : re :=
  seqOf [Bnd;
         altOf [wordI "ssn"; wordI "social security number";
                Seq (wordI "passport")
                    (opt (Seq (Star space)
                              (Alt (Seq (wordI "no") (opt (chr "."))) (wordI "number"))));
                wordI "national id"; wordI "id number"; wordI "tax id"; wordI "tin";
                wordI "aadhaar";
                seqOf [wordI "driver"; opt (wordI "'s"); wordI " license"]];
         Bnd].

Definition PERSONAL_ID_SEP : re :=
  seqOf [Star space; opt (Chr (Str.isOneOf ":#-")); Star space].

Definition idChar (c : ascii) : bool := Str.isAlnum c || Str.isOneOf "-" c.

Definition PERSONAL_ID_VALUE : re := atLeast 4 (Chr idChar).

Definition PERSONAL_ID_LABELED_REGEX : matcher (str * str) :=
  twoGroups PERSONAL_ID_HEAD PERSONAL_ID_SEP PERSONAL_ID_VALUE.

(** [/\[PII_[A-Z_]+_\d+\]/g] *)
Definition PII_PLACEHOLDER_REGEX : re :=
  seqOf [word "[PII_"; plus (Chr (fun c => Str.isUpper c || Str.isOneOf "_" c));
         chr "_"; plus digit; chr "]"].

Inductive TextField : Type :=
| f_jobDescription | f_companyInfo | f_resumeContent | f_coverLetterContent
| f_portfolioLinks | f_additionalContext.

Definition TEXT_FIELDS : list TextField :=
  [f_jobDescription; f_companyInfo; f_resumeContent; f_coverLetterContent;
   f_portfolioLinks; f_additionalContext].

Definition METRIC_FIELDS : list MetricKey :=
  [projectImpact; latencyReduction; costSavings; usersServed; uptime; otherMetrics].

Definition getField (f : TextField) (i : ApplicationInput) : str :=
  match f with
  | f_jobDescription => jobDescription i
  | f_companyInfo => companyInfo i
  | f_resumeContent => resumeContent i
  | f_coverLetterContent => coverLetterContent i
  | f_portfolioLinks => portfolioLinks i
  | f_additionalContext => additionalContext i
  end.

Definition setField (f : TextField) (x : str) (i : ApplicationInput) : ApplicationInput :=
  let jd := if match f with f_jobDescription => true | _ => false end then x else jobDescription i in
  let ci := if match f with f_companyInfo => true | _ => false end then x else companyInfo i in
  let rc := if match f with f_resumeContent => true | _ => false end then x else resumeContent i in
  let cl := if match f with f_coverLetterContent => true | _ => false end then x else coverLetterContent i in
  let pl := if match f with f_portfolioLinks => true | _ => false end then x else portfolioLinks i in
  let ac := if match f with f_additionalContext => true | _ => false end then x else additionalContext i in
  {| jobDescription := jd; companyInfo := ci; resumeContent := rc;
     coverLetterContent := cl; portfolioLinks := pl; additionalContext := ac;
     analysisMode := analysisMode i; privacyMode := privacyMode i;
     metricsVault := metricsVault i |}.

Definition setVault (v : MetricsVault) (i : ApplicationInput) : ApplicationInput :=
  {| jobDescription := jobDescription i; companyInfo := companyInfo i;
     resumeContent := resumeContent i; coverLetterContent := coverLetterContent i;
     portfolioLinks := portfolioLinks i; additionalContext := additionalContext i;
     analysisMode := analysisMode i; privacyMode := privacyMode i;
     metricsVault := v |}.

Definition FOUR_FOUR_RANGE : re :=
  seqOf [Start; rep 4 digit; Star space; Chr (Str.isOneOf "-/"); Star space;
         rep 4 digit; End].

Definition isLikelyPhoneNumber (value : str) : bool :=
  let trimmed := Str.trim value in
  let digitsOnly := Str.filterChars Str.isDigit trimmed in
  if (List.length digitsOnly <? 8) || (15 <? List.length digitsOnly) then false
  else if test FOUR_FOUR_RANGE trimmed then false
  else true.

Definition normalizeForKey (value : str) : str :=
  Str.toLowerCase (Str.trim (Str.collapseSpaces value)).

Definition normalizePiiKey (t : PiiType) (value : str) : str :=
  match t with
  | PHONE => Str.filterChars Str.isDigit value
  | EMAIL => normalizeForKey value
  | PERSONAL_ID => Str.toUpperCase (Str.filterChars Str.isAlnum value)
  | _ => normalizeForKey value
  end.

(** The redactor's closure state: the per-type counters and the two
    maps, each in insertion order. *)
Record Redactor : Type := {
  counters : PiiType -> nat;
  keyToPlaceholder : list (str * str);
  placeholderToOriginal : list (str * (str * PiiType))
}.

Fixpoint mapGet {V : Type} (k : str) (m : list (str * V)) : option V :=
  match m with
  | [] => None
  | (k', v) :: m' => if Str.eqb k k' then Some v else mapGet k m'
  end.

Fixpoint mapSet {V : Type} (k : str) (v : V) (m : list (str * V)) : list (str * V) :=
  match m with
  | [] => [(k, v)]
  | (k', v') :: m' =>
      if Str.eqb k k' then (k', v) :: m' else (k', v') :: mapSet k v m'
  end.

Definition createRedactor : Redactor :=
  {| counters := fun _ => 0; keyToPlaceholder := []; placeholderToOriginal := [] |}.

Definition bump (t : PiiType) (c : PiiType -> nat) : PiiType -> nat :=
  fun t' => if PiiType_eqb t t' then c t' + 1 else c t'.

Definition makePlaceholder (t : PiiType) (n : nat) : str :=
  lit "[PII_" ++ typeName t ++ lit "_" ++ Str.ofNat n ++ lit "]".

Definition register (value : str) (t : PiiType) (r : Redactor) : str * Redactor :=
  let normalized := normalizePiiKey t value in
  let key := typeName t ++ lit ":" ++ normalized in
  match mapGet key (keyToPlaceholder r) with
  | Some (c :: existing) => (c :: existing, r)
  | _ =>
      let counters' := bump t (counters r) in
      let placeholder := makePlaceholder t (counters' t) in
      (placeholder,
       {| counters := counters';
          keyToPlaceholder := mapSet key placeholder (keyToPlaceholder r);
          placeholderToOriginal :=
            mapSet placeholder (value, t) (placeholderToOriginal r) |})
  end.

Definition entries (r : Redactor) : list PiiRedactionEntry :=
  map (fun e => {| placeholder := fst e; original := fst (snd e); type := snd (snd e) |})
      (placeholderToOriginal r).

Section ApplyPiiRedaction.
Context {S : Type}.
Variable register : str -> PiiType -> S -> str * S.

Definition redactEmail (text : str) : S -> str * S :=
  replaceWith (whole EMAIL_REGEX) (fun value _ => register value EMAIL) text.

Definition redactBirthDate (text : str) : S -> str * S :=
  replaceWith BIRTH_DATE_LABELED_REGEX
    (fun full groups st =>
       let birthDate := snd groups in
       let (p, st') := register birthDate BIRTH_DATE st in
       (replaceFirst birthDate p full, st')) text.

Definition redactPersonalId (text : str) : S -> str * S :=
  replaceWith PERSONAL_ID_LABELED_REGEX
    (fun full groups st =>
       let sep := fst groups in
       let idValue := snd groups in
       let (p, st') := register idValue PERSONAL_ID st in
       (replaceFirst (sep ++ idValue) (sep ++ p) full, st')) text.

Definition redactPhone (text : str) : S -> str * S :=
  replaceWith (whole PHONE_CANDIDATE_REGEX)
    (fun candidate _ st =>
       if negb (isLikelyPhoneNumber candidate) then (candidate, st)
       else register candidate PHONE st) text.

Definition redactStreetAddress (text : str) : S -> str * S :=
  replaceWith (whole STREET_ADDRESS_REGEX)
    (fun value _ => register value STREET_ADDRESS) text.

Definition applyPiiRedaction (text : str) (st : S) : str * S :=
  let (r1, st1) := redactEmail text st in
  let (r2, st2) := redactBirthDate r1 st1 in
  let (r3, st3) := redactPersonalId r2 st2 in
  let (r4, st4) := redactPhone r3 st3 in
  redactStreetAddress r4 st4.

End ApplyPiiRedaction.

Record PrivacyPreparationResult : Type := {
  redactionEntries : list PiiRedactionEntry;
  sanitizedInput : ApplicationInput
}.

Fixpoint redactTextFields (fields : list TextField) (i : ApplicationInput)
  (r : Redactor) : ApplicationInput * Redactor :=
  match fields with
  | [] => (i, r)
  | f :: rest =>
      let (x, r') := applyPiiRedaction register (getField f i) r in
      redactTextFields rest (setField f x i) r'
  end.

Fixpoint redactMetricFields (fields : list MetricKey) (v : MetricsVault)
  (r : Redactor) : MetricsVault * Redactor :=
  match fields with
  | [] => (v, r)
  | f :: rest =>
      match vaultGet f v with
      | Some (c :: value) =>
          let (x, r') := applyPiiRedaction register (c :: value) r in
          redactMetricFields rest (vaultSet f x v) r'
      | _ => redactMetricFields rest v r
      end
  end.

(** The preview text is for display only and is left out. *)
Definition prepareApplicationForGemini (input : ApplicationInput) : PrivacyPreparationResult :=
  if negb (privacyMode input)
  then {| redactionEntries := []; sanitizedInput := input |}
  else
    let redactor := createRedactor in
    let (i1, r1) := redactTextFields TEXT_FIELDS input redactor in
    let (v, r2) := redactMetricFields METRIC_FIELDS (metricsVault i1) r1 in
    {| redactionEntries := entries r2; sanitizedInput := setVault v i1 |}.

Definition replaceEvery (pat rep s : str) : str := Str.join rep (Str.split pat s).

Fixpoint restoreAll (es : list PiiRedactionEntry) (restored : str) : str :=
  match es with
  | [] => restored
  | e :: rest => restoreAll rest (replaceEvery (placeholder e) (original e) restored)
  end.

Definition reinsertRedactedPii (text : option str) (es : list PiiRedactionEntry) : option str :=
  match text with
  | None => None
  | Some t => Some (restoreAll es t)
  end.

Definition detectPii (text : str) : list PiiDetection :=
  map (fun m => {| d_type := EMAIL; d_value := m |}) (matches (whole EMAIL_REGEX) text)
  ++ map (fun m => {| d_type := PHONE; d_value := m |})
         (filter isLikelyPhoneNumber (matches (whole PHONE_CANDIDATE_REGEX) text))
  ++ map (fun m => {| d_type := STREET_ADDRESS; d_value := m |})
         (matches (whole STREET_ADDRESS_REGEX) text)
  ++ flat_map (fun h => match snd (snd h) with
                        | [] => []
                        | v => [{| d_type := BIRTH_DATE; d_value := v |}]
                        end) (hits BIRTH_DATE_LABELED_REGEX text)
  ++ flat_map (fun h => match snd (snd h) with
                        | [] => []
                        | v => [{| d_type := PERSONAL_ID; d_value := v |}]
                        end) (hits PERSONAL_ID_LABELED_REGEX text).

Definition piiKey (t : PiiType) (value : str) : str :=
  typeName t ++ lit ":" ++ normalizePiiKey t value.

Fixpoint countUp (t : PiiType) (counts : list (PiiType * nat)) : list (PiiType * nat) :=
  match counts with
  | [] => [(t, 1)]
  | (t', n) :: rest =>
      if PiiType_eqb t t' then (t', n + 1) :: rest else (t', n) :: countUp t rest
  end.

Definition findUnauthorizedPii (text : str) (es : list PiiRedactionEntry) : list PiiValidationIssue :=
  let allowed := map (fun e => piiKey (type e) (original e)) es in
  let counts :=
    fold_left
      (fun counts d =>
         if Str.mem (piiKey (d_type d) (d_value d)) allowed then counts
         else countUp (d_type d) counts)
      (detectPii text) [] in
  map (fun c => {| count := snd c; i_type := fst c |}) counts.

Fixpoint unique (l : list str) (seen : list str) : list str :=
  match l with
  | [] => []
  | x :: l' => if Str.mem x seen then unique l' seen else x :: unique l' (x :: seen)
  end.

Definition findUnresolvedPiiPlaceholders (text : str) (es : list PiiRedactionEntry) : list str :=
  let known := map placeholder es in
  let found := matches (whole PII_PLACEHOLDER_REGEX) text in
  let unresolved := filter (fun token => negb (Str.mem token known)) found in
  unique unresolved [].

End privacyService.

(** ** services/metricsGuardService.ts *)

Module metricsGuardService.
Import Regex Js types.

(** [/(?:\d{1,3}(?:,\d{3})+|\d+)(?:\.\d+)?/g] *)
Definition NUMBER_TOKEN_REGEX : re :=
  Seq (Alt (Seq (range 1 3 digit) (plus (Seq (chr ",") (rep 3 digit)))) (plus digit))
      (opt (Seq (chr ".") (plus digit))).

(** [/^\s*\d+\.\s+/gm] *)
Definition LIST_NUMBERING_REGEX : re :=
  seqOf [Bol; Star space; plus digit; chr "."; plus space].

Definition isZero (c : ascii) : bool := Ascii.eqb c "0".

Definition stripLeadingZeros (digits : str) : str := Str.dropWhile isZero digits.
Definition stripTrailingZeros (digits : str) : str := rev (Str.dropWhile isZero (rev digits)).

Fixpoint takeWhile (p : ascii -> bool) (s : str) : str :=
  match s with
  | [] => []
  | c :: s' => if p c then c :: takeWhile p s' else []
  end.

Definition integerPart (compact : str) : str := takeWhile Str.isDigit compact.
Definition fractionPart (compact : str) : str :=
  match Str.dropWhile Str.isDigit compact with
  | _ :: frac => frac
  | [] => []
  end.

(** The decimal literal without leading zeros of the integer part and
    trailing zeros of the fraction: how a number that a double holds
    exactly to its printed digits is written by [toString]. *)
Definition canonicalDecimal (compact : str) : str :=
  let int_ := match stripLeadingZeros (integerPart compact) with
              | [] => lit "0" | d => d end in
  match stripTrailingZeros (fractionPart compact) with
  | [] => int_
  | frac => int_ ++ lit "." ++ frac
  end.

(** A literal of at most 15 significant digits, below 10^21, and not
    below 10^-6 unless zero: [parseFloat] followed by [toString] writes
    it back in canonical form. *)
Definition decimalExact (compact : str) : bool :=
  let int_ := stripLeadingZeros (integerPart compact) in
  let frac := stripTrailingZeros (fractionPart compact) in
  let significant := stripTrailingZeros (stripLeadingZeros (int_ ++ frac)) in
  (List.length significant <=? 15)
  && (List.length int_ <=? 21)
  && match int_, frac with
     | [], _ :: _ => List.length (takeWhile isZero frac) <=? 5
     | _, _ => true
     end.

Section WithHost.
Variable host : Host.

Definition normalizeNumberToken (value : str) : option str :=
  let compact := Str.trim (Str.filterChars (fun c => negb (Ascii.eqb c ",")) value) in
  match compact with
  | [] => None
  | _ => if decimalExact compact then Some (canonicalDecimal compact)
         else floatToString host compact
  end.

Fixpoint dedupeTokens (matches : list str) (seen : list str) : list str :=
  match matches with
  | [] => []
  | token :: rest =>
      match normalizeNumberToken token with
      | Some (c :: n) =>
          if Str.mem (c :: n) seen then dedupeTokens rest seen
          else (c :: n) :: dedupeTokens rest ((c :: n) :: seen)
      | _ => dedupeTokens rest seen
      end
  end.

Definition extractNormalizedNumberTokens (value : str) : list str :=
  let cleaned := Regex.replace (whole LIST_NUMBERING_REGEX) (fun _ _ => []) value in
  let found := matches (whole NUMBER_TOKEN_REGEX) cleaned in
  dedupeTokens found [].

Definition getAllowedMetricNumbers (metricsVault : MetricsVault) : list str :=
  extractNormalizedNumberTokens (Str.join (lit " ") (vaultValues metricsVault)).

Definition findUnauthorizedNumbersInText (text : str) (metricsVault : MetricsVault) : list str :=
  let allowed := getAllowedMetricNumbers metricsVault in
  let outputNumbers := extractNormalizedNumberTokens text in
  filter (fun numberToken => negb (Str.mem numberToken allowed)) outputNumbers.

Definition orEmpty (x : option str) : str :=
  match x with Some s => s | None => [] end.

Definition findUnauthorizedNumbersForRewrite
  (optimizedResume optimizedCoverLetter : option str) (metricsVault : MetricsVault) : list str :=
  let outputText := orEmpty optimizedResume ++ [ascii_of_nat 10] ++ orEmpty optimizedCoverLetter in
  findUnauthorizedNumbersInText outputText metricsVault.

End WithHost.

End metricsGuardService.

(** ** services/retrievalService.ts *)

Module retrievalService.
Import Js types.

Inductive RetrievalSource : Type :=
| s_jobDescription | s_resumeContent | s_coverLetterContent | s_companyInfo
| s_additionalContext.

Definition sourceName (s : RetrievalSource) : str :=
  match s with
  | s_jobDescription => lit "jobDescription"
  | s_resumeContent => lit "resumeContent"
  | s_coverLetterContent => lit "coverLetterContent"
  | s_companyInfo => lit "companyInfo"
  | s_additionalContext => lit "additionalContext"
  end.

(** [Pick<ApplicationInput, RetrievalSource>] *)
Record RetrievalInput : Type := {
  r_jobDescription : str;
  r_resumeContent : str;
  r_coverLetterContent : str;
  r_companyInfo : str;
  r_additionalContext : str
}.

Definition field (input : RetrievalInput) (s : RetrievalSource) : str :=
  match s with
  | s_jobDescription => r_jobDescription input
  | s_resumeContent => r_resumeContent input
  | s_coverLetterContent => r_coverLetterContent input
  | s_companyInfo => r_companyInfo input
  | s_additionalContext => r_additionalContext input
  end.

Record RetrievalChunk : Type := {
  id : str;
  source : RetrievalSource;
  text : str;
  start : nat;
  end_ : nat;
  tokenEstimate : nat
}.

Definition SOURCE_PRIORITY (s : RetrievalSource) : nat :=
  match s with
  | s_jobDescription => 5
  | s_resumeContent => 4
  | s_coverLetterContent => 3
  | s_companyInfo => 2
  | s_additionalContext => 1
  end.

Definition APPROX_CHARS_PER_TOKEN : nat := 4.
Definition DEFAULT_MAX_CHARS : nat := 900.
Definition DEFAULT_OVERLAP : nat := 140.
Definition MIN_SPLIT_POINT : nat := 220.

Definition normalizeText (value : str) : str :=
  Str.trim (Str.collapseSpaces (Str.crlfToLf value)).

(** [Math.ceil(n / d)] on lengths. *)
Definition ceilDiv (n d : nat) : nat := (n + d - 1) / d.

Definition estimateTokens (value : str) : nat :=
  Nat.max 1 (ceilDiv (List.length value) APPROX_CHARS_PER_TOKEN).

Definition slice (s : str) (from to : nat) : str := firstn (to - from) (skipn from s).

(** [s.lastIndexOf(needle)], [None] for -1. *)
Fixpoint lastIndexFrom (needle s : str) (i : nat) (found : option nat) : option nat :=
  let found' := if Str.startsWith needle s then Some i else found in
  match s with
  | [] => found'
  | _ :: s' => lastIndexFrom needle s' (S i) found'
  end.

Definition lastIndexOf (s needle : str) : option nat := lastIndexFrom needle s 0 None.

Definition maxIndex (a b : option nat) : option nat :=
  match a, b with
  | Some x, Some y => Some (Nat.max x y)
  | Some x, None => Some x
  | None, y => y
  end.

Definition atLeastSplit (i : option nat) : option nat :=
  match i with
  | Some n => if MIN_SPLIT_POINT <=? n then Some n else None
  | None => None
  end.

Definition findSplitPoint (text : str) (start end_ : nat) : nat :=
  let candidate := slice text start end_ in
  let punctuation :=
    maxIndex (maxIndex (lastIndexOf candidate (lit ". ")) (lastIndexOf candidate (lit "! ")))
             (lastIndexOf candidate (lit "? ")) in
  match atLeastSplit punctuation with
  | Some p => start + p + 1
  | None =>
      match atLeastSplit (lastIndexOf candidate [Str.LF]) with
      | Some n => start + n + 1
      | None =>
          match atLeastSplit (lastIndexOf candidate (lit " ")) with
          | Some w => start + w
          | None => end_
          end
      end
  end.

Definition chunkId (source : RetrievalSource) (index start end_ : nat) : str :=
  sourceName source ++ lit ":" ++ Str.ofNat index ++ lit ":" ++ Str.ofNat start
  ++ lit "-" ++ Str.ofNat end_.

(** The [while (start < normalized.length)] loop. Every round moves
    [start] forward by at least one, so [fuel] rounds with
    [fuel = normalized.length] are never used up. *)
Fixpoint chunkLoop (fuel : nat) (source : RetrievalSource) (normalized : str)
  (maxChars overlap : nat) (start index : nat) : list RetrievalChunk :=
  match fuel with
  | O => []
  | S fuel' =>
      if start <? List.length normalized then
        let hardEnd := Nat.min (start + maxChars) (List.length normalized) in
        let splitPoint :=
          if hardEnd <? List.length normalized
          then findSplitPoint normalized start hardEnd else hardEnd in
        let end_ := Nat.max splitPoint (Nat.min (start + MIN_SPLIT_POINT) (List.length normalized)) in
        let chunkText := Str.trim (slice normalized start end_) in
        let here :=
          match chunkText with
          | [] => []
          | _ => [{| id := chunkId source index start end_; source := source;
                     text := chunkText; start := start; end_ := end_;
                     tokenEstimate := estimateTokens chunkText |}]
          end in
        let index' := match chunkText with [] => index | _ => index + 1 end in
        if List.length normalized <=? end_ then here
        else
          let nextStart := Nat.max (end_ - overlap) (start + 1) in
          here ++ chunkLoop fuel' source normalized maxChars overlap nextStart index'
      else []
  end.

Definition chunkTextForRetrieval (source : RetrievalSource) (text : str)
  (maxChars overlap : nat) : list RetrievalChunk :=
  let normalized := normalizeText text in
  match normalized with
  | [] => []
  | _ => chunkLoop (List.length normalized) source normalized maxChars overlap 0 0
  end.

Definition SOURCES : list RetrievalSource :=
  [s_jobDescription; s_resumeContent; s_coverLetterContent; s_companyInfo;
   s_additionalContext].

Definition buildRetrievalChunks (input : RetrievalInput) (maxChars overlap : nat)
  : list RetrievalChunk :=
  flat_map (fun source => chunkTextForRetrieval source (field input source) maxChars overlap)
           SOURCES.

(** [scoreChunk] times 200. The program adds [min(tokenEstimate / 200, 1)]
    to the priority in double precision; the sums are compared, never
    printed, and two of them that differ do so by at least 1/200, so the
    doubles are ordered as these integers. *)
Definition scoreChunk200 (chunk : RetrievalChunk) : nat :=
  200 * SOURCE_PRIORITY (source chunk) + Nat.min (tokenEstimate chunk) 200.

Section WithHost.
Variable host : Host.

(** The comparator of [selectRetrievalChunks]: [true] when [left] may
    stay before [right] (the callback's result is not positive). *)
Definition keepsOrder (left right : RetrievalChunk) : bool :=
  match Nat.compare (scoreChunk200 right) (scoreChunk200 left) with
  | Lt => true
  | Gt => false
  | Eq => match localeCompare host (id left) (id right) with
          | Gt => false
          | _ => true
          end
  end.

(** [Array.prototype.sort] is stable; on a comparator that is a total
    preorder its result is the stable insertion sort's. *)
Fixpoint insertSorted (x : RetrievalChunk) (sorted : list RetrievalChunk)
  : list RetrievalChunk :=
  match sorted with
  | [] => [x]
  | y :: rest => if keepsOrder x y then x :: sorted else y :: insertSorted x rest
  end.

Definition sortChunks (chunks : list RetrievalChunk) : list RetrievalChunk :=
  fold_right insertSorted [] chunks.

Definition selectRetrievalChunks (input : RetrievalInput) (limit : nat)
  : list RetrievalChunk :=
  let chunks := buildRetrievalChunks input DEFAULT_MAX_CHARS DEFAULT_OVERLAP in
  firstn limit (sortChunks chunks).

Definition selectRetrievalChunkIds (input : RetrievalInput) (limit : nat) : list str :=
  map id (selectRetrievalChunks input limit).

Definition buildRetrievalReason (chunk : RetrievalChunk) : str :=
  lit "Prioritized " ++ sourceName (source chunk) ++ lit " chunk (sourcePriority="
  ++ Str.ofNat (SOURCE_PRIORITY (source chunk)) ++ lit ", tokenEstimate="
  ++ Str.ofNat (tokenEstimate chunk) ++ lit ").".

Definition selectRetrievalTrace (input : RetrievalInput) (limit : nat)
  : list RetrievalTraceEntry :=
  map (fun chunk => {| types.chunkId := id chunk; reason := buildRetrievalReason chunk |})
      (selectRetrievalChunks input limit).

End WithHost.

End retrievalService.

(** ** services/atsCoverageService.ts *)

Module atsCoverageService.
Import Regex Js types.

Definition phrases (l : list string) : re := altOf (map wordI l).

Definition HARD_SIGNAL_REGEX : re :=
  seqOf [Bnd;
         phrases ["must"; "required"; "required qualifications"; "minimum qualifications";
                  "mandatory"; "essential"; "need to"; "you have"; "at least"; "min."];
         Bnd].

Definition SOFT_SIGNAL_REGEX : re :=
  seqOf [Bnd;
         phrases ["preferred"; "nice to have"; "bonus"; "plus"; "desirable"; "ideally";
                  "good to have"];
         Bnd].

Definition HARD_HEADING_REGEX : re :=
  seqOf [Bnd;
         altOf [wordI "requirements"; wordI "required qualifications";
                wordI "minimum qualifications";
                seqOf [wordI "must"; opt (Chr (Str.isOneOf "- ")); wordI "have"];
                seqOf [wordI "what you"; Alt (wordI "'ll") (wordI " will"); wordI " need"];
                wordI "qualifications"];
         Bnd].

Definition SOFT_HEADING_REGEX : re :=
  seqOf [Bnd;
         phrases ["preferred qualifications"; "nice to have"; "bonus points"; "plus";
                  "desirable"; "good to have"];
         Bnd].

(** [/(\d+)\s*\+?\s*(?:years|year|yrs|yr)\b/i], reporting group 1. *)
Definition YEARS_REGEX : matcher str :=
  fun prev s =>
    exec (plus digit) prev s (fun p1 s1 =>
    exec (seqOf [Star space; opt (chr "+"); Star space;
                 phrases ["years"; "year"; "yrs"; "yr"]; Bnd]) p1 s1 (fun _ s2 =>
      Some (firstn (consumed s s1) s, consumed s s2))).

Definition STOPWORDS : list string :=
  ["a"; "an"; "and"; "are"; "as"; "at"; "be"; "by"; "for"; "from"; "in"; "is"; "it";
   "of"; "on"; "or"; "our"; "that"; "the"; "their"; "this"; "to"; "we"; "with"; "you";
   "your"; "will"; "ability"; "experience"; "knowledge"; "strong"; "excellent"; "skills"].

Definition KNOWN_TECH_KEYWORDS : list string :=
  ["python"; "sql"; "r"; "scala"; "java"; "javascript"; "typescript"; "react";
   "node.js"; "node"; "pandas"; "numpy"; "scikit-learn"; "sklearn"; "tensorflow";
   "pytorch"; "keras"; "spark"; "hadoop"; "airflow"; "dbt"; "docker"; "kubernetes";
   "aws"; "gcp"; "azure"; "snowflake"; "databricks"; "postgresql"; "postgres"; "mysql";
   "mongodb"; "redis"; "kafka"; "tableau"; "power bi"; "looker"; "git"; "linux"; "bash";
   "terraform"; "ansible"; "ci/cd"; "ml"; "ai"; "llm"; "rag"; "nlp"; "computer vision";
   "langchain"; "llamaindex"; "rest api"; "graphql"; "c++"; "c#"; ".net"].

Definition SHORT_TECH_ALLOWLIST : list string := ["ai"; "ml"; "nlp"; "llm"; "ci"; "cd"; "r"].

Definition inWords (l : list string) (x : str) : bool := Str.mem x (map lit l).

Inductive RequirementSection : Type := hard | soft | neutral.

Record ExperienceForCoverage : Type := {
  employer : option str;
  role : option str;
  startDate : option str;
  endDate : option str;
  x_achievements : list str
}.

Record ResumeFactsForCoverage : Type := {
  skills : list str;
  experience : list ExperienceForCoverage;
  achievements : list str;
  education : list str;
  certifications : list str
}.

Record ParsedJdRequirements : Type := {
  hardRequirements : list str;
  softRequirements : list str;
  toolsTechKeywords : list str
}.

Record AtsCoverageResult : Type := {
  keywordCoverage : KeywordCoverage;
  hardRequirementsMissing : list str
}.

(** [tokenSet] is only asked for membership and searched with [some], so
    the list of tokens stands for the set. *)
Record ResumeCorpus : Type := {
  rawText : str;
  normalizedText : str;
  tokenSet : list str
}.

Definition normalizeSpace (value : str) : str := Str.trim (Str.collapseSpaces value).

Definition normalizeForMatch (value : str) : str := Str.toLowerCase (normalizeSpace value).

Definition normalizeKeyword (value : str) : str := Str.collapseSpaces (normalizeForMatch value).

(** The leading run of white space, hyphens, asterisks and bullets is
    removed, then the line is trimmed; the bullet U+2022 lies outside
    the code units of the embedding. *)
Definition stripBulletPrefix (line : str) : str :=
  Str.trim (Str.dropWhile (fun c => Str.isSpace c || Str.isOneOf "-*" c) line).

Fixpoint dedupeFrom (items : list str) (seen : list str) : list str :=
  match items with
  | [] => []
  | item :: rest =>
      let canonical := normalizeForMatch item in
      if negb (Str.nonEmpty canonical) || Str.mem canonical seen
      then dedupeFrom rest seen
      else item :: dedupeFrom rest (canonical :: seen)
  end.

Definition dedupePreserveOrder (items : list str) : list str := dedupeFrom items [].

Definition tokenChar (c : ascii) : bool :=
  Str.isLower c || Str.isDigit c || Str.isOneOf "+#." c.

Definition tokenize (value : str) : list str :=
  filter Str.nonEmpty (matches (whole (plus (Chr tokenChar))) (Str.toLowerCase value)).

Definition significantTokens (value : str) : list str :=
  filter (fun token =>
            if inWords SHORT_TECH_ALLOWLIST token then true
            else (3 <=? List.length token) && negb (inWords STOPWORDS token))
         (tokenize value).

Definition splitLineIntoClauses (line : str) : list str :=
  filter Str.nonEmpty (map normalizeSpace (Str.splitWhen (Str.isOneOf ";|") line)).

(** The trailing run of colons and hyphens, [/[:\-]+$/], is removed. *)
Definition stripTrailingColons (line : str) : str :=
  rev (Str.dropWhile (Str.isOneOf ":-") (rev line)).

Definition detectSectionHeading (line : str) : option RequirementSection :=
  let clean := normalizeForMatch (stripTrailingColons line) in
  if test SOFT_HEADING_REGEX clean then Some soft
  else if test HARD_HEADING_REGEX clean then Some hard
  else None.

Definition isHard (s : RequirementSection) : bool :=
  match s with hard => true | _ => false end.
Definition isSoft (s : RequirementSection) : bool :=
  match s with soft => true | _ => false end.

(** [/[a-z0-9+#.]/i] *)
Definition keywordChar (c : ascii) : bool := Str.isAlnum c || Str.isOneOf "+#." c.

(** [new RegExp(`(^|[^a-z0-9+#.])${escaped}([^a-z0-9+#.]|$)`, "i")] *)
Definition isWholeWordMatch (keyword text : str) : bool :=
  let escaped := seqOf (map chrI (Str.toLowerCase keyword)) in
  let outside := Chr (fun c => negb (keywordChar c)) in
  test (seqOf [Alt Start outside; escaped; Alt outside End]) text.

(** [/\b[A-Z][A-Z0-9+#.-]{1,12}\b/g] *)
Definition ACRONYM_REGEX : re :=
  seqOf [Bnd; Chr Str.isUpper;
         range 1 12 (Chr (fun c => Str.isUpper c || Str.isDigit c || Str.isOneOf "+#.-" c));
         Bnd].

Definition extractTechKeywords (jobDescription : str) : list str :=
  let normalizedJd := normalizeForMatch jobDescription in
  let known :=
    filter (fun keyword =>
              let keywordLower := Str.toLowerCase keyword in
              if Str.includes keywordLower (lit " ")
              then Str.includes normalizedJd keywordLower
              else isWholeWordMatch keywordLower normalizedJd)
           (map lit KNOWN_TECH_KEYWORDS) in
  let acronymMatches := matches (whole ACRONYM_REGEX) jobDescription in
  let acronyms :=
    filter (fun acronym => (2 <=? List.length acronym) && existsb Str.isUpper acronym)
           acronymMatches in
  dedupePreserveOrder (known ++ acronyms).

Definition hardSignal (clause : str) : bool :=
  test HARD_SIGNAL_REGEX clause && negb (test SOFT_SIGNAL_REGEX clause).

(** The clauses of one line, added to the two lists. *)
Fixpoint classifyClauses (section : RequirementSection) (clauses : list str)
  (acc : list str * list str) : list str * list str :=
  match clauses with
  | [] => acc
  | clause :: rest =>
      let (hardRequirements, softRequirements) := acc in
      if isHard section || hardSignal clause
      then classifyClauses section rest (hardRequirements ++ [clause], softRequirements)
      else if isSoft section || test SOFT_SIGNAL_REGEX clause
      then classifyClauses section rest (hardRequirements, softRequirements ++ [clause])
      else classifyClauses section rest acc
  end.

Fixpoint classifyLines (section : RequirementSection) (lines : list str)
  (acc : list str * list str) : list str * list str :=
  match lines with
  | [] => acc
  | line :: rest =>
      match detectSectionHeading line with
      | Some sectionHeading => classifyLines sectionHeading rest acc
      | None => classifyLines section rest (classifyClauses section (splitLineIntoClauses line) acc)
      end
  end.

Fixpoint classifySentences (sentences : list str) (acc : list str * list str)
  : list str * list str :=
  match sentences with
  | [] => acc
  | sentence :: rest =>
      let (hardRequirements, softRequirements) := acc in
      if hardSignal sentence
      then classifySentences rest (hardRequirements ++ [sentence], softRequirements)
      else if test SOFT_SIGNAL_REGEX sentence
      then classifySentences rest (hardRequirements, softRequirements ++ [sentence])
      else classifySentences rest acc
  end.

Definition parseJdRequirements (jobDescription : str) : ParsedJdRequirements :=
  let lines :=
    filter Str.nonEmpty
      (map (fun line => stripBulletPrefix (normalizeSpace line)) (Str.splitLines jobDescription)) in
  let afterLines := classifyLines neutral lines ([], []) in
  let sentences :=
    filter Str.nonEmpty
      (map (fun sentence => stripBulletPrefix (normalizeSpace sentence))
           (splitBy (whole (Seq (Chr (Str.isOneOf ".!?")) (plus space))) jobDescription)) in
  let (hardRequirements, softRequirements) := classifySentences sentences afterLines in
  let toolsTechKeywords := extractTechKeywords jobDescription in
  {| hardRequirements := dedupePreserveOrder hardRequirements;
     softRequirements := dedupePreserveOrder softRequirements;
     toolsTechKeywords := dedupePreserveOrder toolsTechKeywords |}.

Definition truthy (x : option str) : list str :=
  match x with Some (c :: s) => [c :: s] | _ => [] end.

Definition buildResumeCorpus (resumeFacts : ResumeFactsForCoverage) : ResumeCorpus :=
  let chunks :=
    skills resumeFacts ++ achievements resumeFacts ++ education resumeFacts
    ++ certifications resumeFacts
    ++ flat_map (fun e => truthy (employer e) ++ truthy (role e) ++ x_achievements e)
                (experience resumeFacts) in
  let rawText := normalizeSpace (Str.join (lit " ") chunks) in
  let normalizedText := normalizeForMatch rawText in
  {| rawText := rawText; normalizedText := normalizedText;
     tokenSet := tokenize normalizedText |}.

(** The matched tokens and the number of tokens: the score is their
    quotient, and zero when there is no token. *)
Definition keywordTokenOverlapScore (keyword : str) (tokens : list str) : nat * nat :=
  let keywordTokens := significantTokens keyword in
  let hit token :=
    Str.mem token tokens
    || ((4 <=? List.length token)
        && existsb (fun resumeToken =>
                      Str.includes resumeToken token || Str.includes token resumeToken)
                   tokens) in
  (List.length (filter hit keywordTokens), List.length keywordTokens).

Inductive KeywordStatus : Type := k_matched | k_partial | k_missing.

(** [overlap >= 0.5] on the quotient of two list lengths. *)
Definition atLeastHalf (score : nat * nat) : bool :=
  (0 <? snd score) && (snd score <=? 2 * fst score).

Definition classifyKeyword (keyword : str) (corpus : ResumeCorpus) : KeywordStatus :=
  let normalizedKeyword := normalizeKeyword keyword in
  if negb (Str.nonEmpty normalizedKeyword) then k_missing
  else if (List.length normalizedKeyword <=? 2)
          && negb (inWords SHORT_TECH_ALLOWLIST normalizedKeyword)
  then k_missing
  else if Str.includes normalizedKeyword (lit " ") then
    if Str.includes (normalizedText corpus) normalizedKeyword then k_matched
    else if atLeastHalf (keywordTokenOverlapScore normalizedKeyword (tokenSet corpus))
    then k_partial else k_missing
  else if isWholeWordMatch normalizedKeyword (normalizedText corpus) then k_matched
  else if (4 <=? List.length normalizedKeyword)
          && existsb (fun token =>
                        Str.includes token normalizedKeyword
                        || Str.includes normalizedKeyword token)
                     (tokenSet corpus)
  then k_partial
  else k_missing.

(** [matchedTokens / tokens.length >= 0.6] on two list lengths. *)
Definition atLeastSixTenths (m t : nat) : bool := 3 * t <=? 5 * m.

Definition isStatus (a b : KeywordStatus) : bool :=
  match a, b with
  | k_matched, k_matched | k_partial, k_partial | k_missing, k_missing => true
  | _, _ => false
  end.

Section WithHost.
Variable host : Host.

(** [Number.parseInt(digits, 10)] of a run of decimal digits: the
    integer itself below 2^53, where every integer is a double, and
    what the host makes of it from there on. *)
Definition parseInt (digits : str) : JsNumber :=
  let n := Str.parseDigits digits in
  if (n <? 2 ^ 53)%N then Finite (QArith_base.Qmake (Z.of_N n) 1)
  else largeParseInt host digits.

Definition extractMaxYears (value : str) : option JsNumber :=
  let matches := hits YEARS_REGEX value in
  match matches with
  | [] => None
  | _ =>
      let values := filter isFinite (map (fun h => parseInt (snd h)) matches) in
      match values with
      | [] => None
      | _ => Some (mathMax values)
      end
  end.

Definition hardRequirementSatisfied (requirement : str) (corpus : ResumeCorpus)
  (matchedKeywords : list str) : bool :=
  let normalizedRequirement := normalizeForMatch requirement in
  if existsb (fun keyword => Str.includes normalizedRequirement keyword) matchedKeywords
  then true
  else
    let tokens := significantTokens normalizedRequirement in
    let matchedTokens :=
      List.length (filter (fun token => Str.mem token (tokenSet corpus)) tokens) in
    if (0 <? List.length tokens) && atLeastSixTenths matchedTokens (List.length tokens)
    then true
    else
      let requiredYears :=
        match firstHit YEARS_REGEX normalizedRequirement with
        | None => None
        | Some (_, digits) =>
            let parsed := parseInt digits in
            if isFinite parsed then Some parsed else None
        end in
      match requiredYears with
      | Some requiredYears =>
          match extractMaxYears (rawText corpus) with
          | None => false
          | Some resumeYears => Js.leb requiredYears resumeYears
          end
      | None => false
      end.

Definition computeAtsCoverage (jobDescription : str) (resumeFacts : ResumeFactsForCoverage)
  : AtsCoverageResult :=
  let parsedJd := parseJdRequirements jobDescription in
  let corpus := buildResumeCorpus resumeFacts in
  let withStatus st :=
    filter (fun keyword => isStatus (classifyKeyword keyword corpus) st)
           (toolsTechKeywords parsedJd) in
  let matched := withStatus k_matched in
  let partial := withStatus k_partial in
  let missing := withStatus k_missing in
  let matchedKeywordSet := map normalizeForMatch matched in
  let hardRequirementsMissing :=
    filter (fun requirement =>
              negb (hardRequirementSatisfied requirement corpus matchedKeywordSet))
           (hardRequirements parsedJd) in
  {| keywordCoverage :=
       {| types.matched := dedupePreserveOrder matched;
          types.missing := dedupePreserveOrder missing;
          types.partial := dedupePreserveOrder partial |};
     hardRequirementsMissing := dedupePreserveOrder hardRequirementsMissing |}.

End WithHost.

End atsCoverageService.

(** ** services/geminiService.ts *)

Module geminiService.
Import Regex Js types.
Import privacyService.

Record ExtractedExperience : Type := {
  employer : option str;
  role : option str;
  startDate : option str;
  endDate : option str;
  x_achievements : list str
}.

Record JdFacts : Type := {
  roleTitle : option str;
  companyName : option str;
  mustHaveSkills : list str;
  niceToHaveSkills : list str;
  responsibilities : list str;
  requiredExperienceYears : option JsNumber;
  keywords : list str
}.

Record ResumeFacts : Type := {
  candidateName : option str;
  skills : list str;
  experience : list ExtractedExperience;
  achievements : list str;
  education : list str;
  certifications : list str
}.

Record CoverLetterFacts : Type := {
  keyClaims : list str;
  motivations : list str
}.

Record ExtractFactsResult : Type := {
  languageDetected : option Language;
  jdFacts : JdFacts;
  resumeFacts : ResumeFacts;
  coverLetterFacts : CoverLetterFacts;
  explicitUserAchievements : list str;
  missingData : list str
}.

(** [GapItem] has the fields of [Improvement]. *)
Definition GapItem : Type := Improvement.

Record ScoreMatchResult : Type := {
  baselineScore : option JsNumber;
  enhancedScore : option JsNumber;
  jobFitScore : option JsNumber;
  explanation : option str;
  overallFeedback : option str;
  gapAnalysis : list GapItem;
  portfolioAdvice : option str;
  recruiterNotes : option str;
  confidenceNotes : list str
}.

Record RewriteDocsResult : Type := {
  optimizedResume : option str;
  optimizedCoverLetter : option str;
  rewriteNotes : option str
}.

Inductive StageName : Type := extractFacts | scoreMatch | rewriteDocs.
Inductive AnalysisTier : Type := SIMPLE | MEDIUM | COMPLEX.

Definition stageLabel (s : StageName) : str :=
  match s with
  | extractFacts => lit "extractFacts"
  | scoreMatch => lit "scoreMatch"
  | rewriteDocs => lit "rewriteDocs"
  end.

Definition tierLabel (t : AnalysisTier) : str :=
  match t with
  | SIMPLE => lit "SIMPLE"
  | MEDIUM => lit "MEDIUM"
  | COMPLEX => lit "COMPLEX"
  end.

Record TierConfig : Type := {
  tier : AnalysisTier;
  model : str;
  stageMaxOutputTokens : StageName -> nat;
  stageGuidance : StageName -> str
}.

(** The three response schemas are fixed objects of the generator's
    interface; a request names the one it carries. *)
Inductive ResponseSchema : Type :=
| ExtractFactsSchema | ScoreMatchSchema | RewriteDocsSchema.

Record StageGenerationParams : Type := {
  p_model : str;
  contents : str;
  systemInstruction : str;
  responseSchema : ResponseSchema;
  maxOutputTokens : nat
}.

Record GenerationResponse : Type := { text : option str }.

Record StageRequestTrace : Type := {
  t_stageName : StageName;
  t_model : str;
  t_tier : AnalysisTier;
  t_prompt : str;
  t_systemInstruction : str
}.

(** A thrown value as the retry policy reads it: its [status] and [code]
    properties, and the text [String(error?.message ?? error ?? "")]
    with the empty string for a missing message and error. *)
Record JsError : Type := {
  e_status : JsValue;
  e_code : JsValue;
  e_text : str
}.

(** [new Error(message)] *)
Definition newError (message : str) : JsError :=
  {| e_status := JUndefined; e_code := JUndefined; e_text := message |}.

#[local] Set Warnings "-abstract-large-number".

Definition SIMPLE_DOC_CHAR_LIMIT : nat := 3000.
Definition COMPLEX_DOC_CHAR_LIMIT : nat := 9000.
Definition COMPLEX_TOTAL_CHAR_LIMIT : nat := 18000.
Definition APPROX_CHARS_PER_TOKEN : nat := 4.
Definition COMPLEX_TOKEN_LIMIT : nat := 4500.

Definition TIER_CONFIG (t : AnalysisTier) : TierConfig :=
  match t with
  | SIMPLE =>
      {| tier := SIMPLE; model := lit "gemini-2.5-flash";
         stageMaxOutputTokens := fun s =>
           match s with extractFacts => 900 | scoreMatch => 1200 | rewriteDocs => 1600 end;
         stageGuidance := fun s =>
           match s with
           | extractFacts =>
               lit "Compact extraction. Keep lists concise and prioritize strongest facts only."
           | scoreMatch =>
               lit "Compact scoring. Limit gapAnalysis to the highest-impact items only."
           | rewriteDocs =>
               lit "Compact rewrite. Keep wording concise and avoid adding extra sections."
           end |}
  | MEDIUM =>
      {| tier := MEDIUM; model := lit "gemini-2.5-pro";
         stageMaxOutputTokens := fun s =>
           match s with extractFacts => 1400 | scoreMatch => 2000 | rewriteDocs => 2600 end;
         stageGuidance := fun s =>
           match s with
           | extractFacts => lit "Standard extraction depth for typical hiring workflows."
           | scoreMatch =>
               lit "Balanced scoring depth with actionable yet concise gap coverage."
           | rewriteDocs =>
               lit "Balanced rewrite detail with professional clarity and ATS alignment."
           end |}
  | COMPLEX =>
      {| tier := COMPLEX; model := lit "gemini-3-pro-preview";
         stageMaxOutputTokens := fun s =>
           match s with extractFacts => 2200 | scoreMatch => 3200 | rewriteDocs => 4200 end;
         stageGuidance := fun s =>
           match s with
           | extractFacts =>
               lit "Deep extraction. Capture comprehensive role, skills, and evidence context."
           | scoreMatch =>
               lit "Deep scoring with richer gap decomposition and nuanced ATS rationale."
           | rewriteDocs =>
               lit "Deep rewrite with thorough optimization while preserving factual grounding."
           end |}
  end.

Definition MAX_RETRY_ATTEMPTS : nat := 3.
Definition BASE_BACKOFF_MS : nat := 400.
Definition MAX_EVIDENCE_WORDS : nat := 20.
Definition TRANSIENT_STATUS_CODES : list nat := [408; 409; 425; 429; 500; 502; 503; 504].

(** [/\bdeep\s+analysis\b|\bdeep\b/i] *)
Definition DEEP_ANALYSIS_REGEX : re :=
  Alt (seqOf [Bnd; wordI "deep"; plus space; wordI "analysis"; Bnd])
      (seqOf [Bnd; wordI "deep"; Bnd]).

Definition METRICS_HASH_FIELDS : list MetricKey :=
  [projectImpact; latencyReduction; costSavings; usersServed; uptime; otherMetrics].

Definition ceilDiv (n d : nat) : nat := (n + d - 1) / d.

Definition estimateTokensFromChars (chars : nat) : nat := ceilDiv chars APPROX_CHARS_PER_TOKEN.

Definition normalizeInputText (value : str) : str := Str.trim (Str.collapseSpaces value).

Definition isMode (a b : AnalysisMode) : bool :=
  match a, b with
  | fast, fast | balanced, balanced | deep, deep => true
  | _, _ => false
  end.

Definition selectTier (input : ApplicationInput) : AnalysisTier :=
  let jdChars := List.length (jobDescription input) in
  let resumeChars := List.length (resumeContent input) in
  let coverChars := List.length (coverLetterContent input) in
  let companyChars := List.length (companyInfo input) in
  let contextChars := List.length (additionalContext input) in
  let metricsChars := List.length (Str.join (lit " ") (vaultValues (metricsVault input))) in
  let totalChars := jdChars + resumeChars + coverChars + companyChars + contextChars + metricsChars in
  let estimatedTokens := estimateTokensFromChars totalChars in
  let isSimpleCandidate :=
    (jdChars <? SIMPLE_DOC_CHAR_LIMIT) && (resumeChars <? SIMPLE_DOC_CHAR_LIMIT) in
  let isFastSimpleCandidate :=
    (jdChars <? 4500) && (resumeChars <? 4500) && (estimatedTokens <? 3200) in
  let isComplexByLength :=
    (COMPLEX_DOC_CHAR_LIMIT <? jdChars) || (COMPLEX_DOC_CHAR_LIMIT <? resumeChars)
    || (COMPLEX_TOTAL_CHAR_LIMIT <? totalChars) || (COMPLEX_TOKEN_LIMIT <? estimatedTokens) in
  let deepRequestedByText :=
    test DEEP_ANALYSIS_REGEX
      (additionalContext input ++ [Str.LF] ++ companyInfo input ++ [Str.LF]
       ++ jobDescription input) in
  if isMode (analysisMode input) deep || deepRequestedByText || isComplexByLength
  then COMPLEX
  else if isMode (analysisMode input) fast
  then (if isFastSimpleCandidate then SIMPLE else MEDIUM)
  else (if isSimpleCandidate then SIMPLE else MEDIUM).

Definition getTierConfig (t : AnalysisTier) : TierConfig := TIER_CONFIG t.

Definition tierFromMode (analysisMode : AnalysisMode) : AnalysisTier :=
  match analysisMode with
  | deep => COMPLEX
  | fast => SIMPLE
  | balanced => MEDIUM
  end.

(** [TRANSIENT_STATUS_CODES.has(status)] *)
Definition isTransientStatus (n : JsNumber) : bool :=
  match n with
  | Finite q =>
      existsb (fun code => QArith_base.Qeq_bool q (QArith_base.Qmake (Z.of_nat code) 1))
              TRANSIENT_STATUS_CODES
  | _ => false
  end.

Definition TRANSIENT_HINTS : list string :=
  ["timeout"; "timed out"; "rate limit"; "too many requests"; "temporar"; "network";
   "econnreset"; "503"; "502"; "500"; "429"].

Definition isTransientError (error : JsError) : bool :=
  let status :=
    match e_status error with
    | JNumber n => Some n
    | _ => match e_code error with JNumber n => Some n | _ => None end
    end in
  if match status with Some n => isTransientStatus n | None => false end then true
  else
    let message := Str.toLowerCase (e_text error) in
    existsb (fun hint => Str.includes message (lit hint)) TRANSIENT_HINTS.

Definition asRecord (value : JsValue) : JsValue :=
  match value with
  | JObject props => JObject props
  | _ => JObject []
  end.

Definition asArray (value : JsValue) : list JsValue :=
  match value with
  | JArray items => items
  | _ => []
  end.

Definition asNullableString (value : JsValue) : option str :=
  match value with
  | JString s => match Str.trim s with [] => None | trimmed => Some trimmed end
  | _ => None
  end.

Definition keepSome {A : Type} (l : list (option A)) : list A :=
  flat_map (fun x => match x with Some a => [a] | None => [] end) l.

Definition asStringArray (value : JsValue) : list str :=
  keepSome (map asNullableString (asArray value)).

Definition clampSnippetWords (value : str) : str :=
  Str.join (lit " ") (firstn MAX_EVIDENCE_WORDS (Str.words value)).

Definition asSnippetArray (value : JsValue) : list str :=
  map clampSnippetWords (keepSome (map asNullableString (asArray value))).

Definition asNullableNumber (value : JsValue) : option JsNumber :=
  match value with
  | JNumber n => if isFinite n then Some n else None
  | _ => None
  end.

Definition normalizeLanguage (value : JsValue) : option Language :=
  match value with
  | JString s =>
      if Str.eqb s (lit "English") then Some English
      else if Str.eqb s (lit "German") then Some German
      else None
  | _ => None
  end.

Definition normalizeGapCategory (value : JsValue) : Category :=
  match value with
  | JString s => if Str.eqb s (lit "optional") then optional else critical
  | _ => critical
  end.

Definition normalizeEvidence (value : JsValue) : ImprovementEvidence :=
  let evidence := asRecord value in
  {| resumeQuotes := asSnippetArray (get evidence "resumeQuotes");
     jdQuotes := asSnippetArray (get evidence "jdQuotes");
     missingKeywords := asSnippetArray (get evidence "missingKeywords") |}.

Definition normalizeForMatch (value : str) : str :=
  Str.toLowerCase (Str.trim (Str.collapseSpaces value)).

Definition existsInSource (snippet source : str) : bool :=
  match snippet, source with
  | [], _ | _, [] => false
  | _, _ => Str.includes (normalizeForMatch source) (normalizeForMatch snippet)
  end.

(** [Pick<ApplicationInput, "jobDescription" | "resumeContent" | "coverLetterContent">] *)
Record SourceText : Type := {
  s_jobDescription : str;
  s_resumeContent : str;
  s_coverLetterContent : str
}.

Definition withEvidence (gap : GapItem) (e : ImprovementEvidence) : GapItem :=
  {| point := point gap; category := category gap; impact := impact gap; evidence := e |}.

Definition withGapAnalysis (scoring : ScoreMatchResult) (gaps : list GapItem) : ScoreMatchResult :=
  {| baselineScore := baselineScore scoring; enhancedScore := enhancedScore scoring;
     jobFitScore := jobFitScore scoring; explanation := explanation scoring;
     overallFeedback := overallFeedback scoring; gapAnalysis := gaps;
     portfolioAdvice := portfolioAdvice scoring; recruiterNotes := recruiterNotes scoring;
     confidenceNotes := confidenceNotes scoring |}.

Definition enforceEvidenceFromSource (scoring : ScoreMatchResult) (sourceText : SourceText)
  : ScoreMatchResult :=
  let resumeCorpus := s_resumeContent sourceText ++ [Str.LF] ++ s_coverLetterContent sourceText in
  withGapAnalysis scoring
    (map (fun gap =>
            withEvidence gap
              {| resumeQuotes :=
                   filter (fun quote => existsInSource quote resumeCorpus)
                          (resumeQuotes (evidence gap));
                 jdQuotes :=
                   filter (fun quote => existsInSource quote (s_jobDescription sourceText))
                          (jdQuotes (evidence gap));
                 missingKeywords :=
                   filter (fun keyword => existsInSource keyword (s_jobDescription sourceText))
                          (missingKeywords (evidence gap)) |})
         (gapAnalysis scoring)).

Definition normalizeExtractFacts (raw : JsValue) : ExtractFactsResult :=
  let root := asRecord raw in
  let jd := asRecord (get root "jdFacts") in
  let resume := asRecord (get root "resumeFacts") in
  let cover := asRecord (get root "coverLetterFacts") in
  {| languageDetected := normalizeLanguage (get root "languageDetected");
     jdFacts :=
       {| roleTitle := asNullableString (get jd "roleTitle");
          companyName := asNullableString (get jd "companyName");
          mustHaveSkills := asStringArray (get jd "mustHaveSkills");
          niceToHaveSkills := asStringArray (get jd "niceToHaveSkills");
          responsibilities := asStringArray (get jd "responsibilities");
          requiredExperienceYears := asNullableNumber (get jd "requiredExperienceYears");
          keywords := asStringArray (get jd "keywords") |};
     resumeFacts :=
       {| candidateName := asNullableString (get resume "candidateName");
          skills := asStringArray (get resume "skills");
          experience :=
            map (fun item =>
                   let entry := asRecord item in
                   {| employer := asNullableString (get entry "employer");
                      role := asNullableString (get entry "role");
                      startDate := asNullableString (get entry "startDate");
                      endDate := asNullableString (get entry "endDate");
                      x_achievements := asStringArray (get entry "achievements") |})
                (asArray (get resume "experience"));
          achievements := asStringArray (get resume "achievements");
          education := asStringArray (get resume "education");
          certifications := asStringArray (get resume "certifications") |};
     coverLetterFacts :=
       {| keyClaims := asStringArray (get cover "keyClaims");
          motivations := asStringArray (get cover "motivations") |};
     explicitUserAchievements := asStringArray (get root "explicitUserAchievements");
     missingData := asStringArray (get root "missingData") |}.

Definition normalizeScoreMatch (raw : JsValue) : ScoreMatchResult :=
  let root := asRecord raw in
  {| baselineScore := asNullableNumber (get root "baselineScore");
     enhancedScore := asNullableNumber (get root "enhancedScore");
     jobFitScore := asNullableNumber (get root "jobFitScore");
     explanation := asNullableString (get root "explanation");
     overallFeedback := asNullableString (get root "overallFeedback");
     gapAnalysis :=
       map (fun item =>
              let gap := asRecord item in
              {| point := asNullableString (get gap "point");
                 category := normalizeGapCategory (get gap "category");
                 impact := asNullableString (get gap "impact");
                 evidence := normalizeEvidence (get gap "evidence") |})
           (asArray (get root "gapAnalysis"));
     portfolioAdvice := asNullableString (get root "portfolioAdvice");
     recruiterNotes := asNullableString (get root "recruiterNotes");
     confidenceNotes := asStringArray (get root "confidenceNotes") |}.

Definition normalizeRewriteDocs (raw : JsValue) : RewriteDocsResult :=
  let root := asRecord raw in
  {| optimizedResume := asNullableString (get root "optimizedResume");
     optimizedCoverLetter := asNullableString (get root "optimizedCoverLetter");
     rewriteNotes := asNullableString (get root "rewriteNotes") |}.

Definition parseExplicitUserAchievements (additionalContext : str) : list str :=
  filter Str.nonEmpty
    (map Str.trim
         (Str.splitWhen (fun c => Ascii.eqb c Str.LF || Ascii.eqb c ";"%char)
                        (Str.crlfToLf additionalContext))).

(** *** The stages and the generator

    The generator is an external collaborator: a call answers with a
    response or throws, and may depend on everything it was asked
    before, which [World] stands for. A run threads the world, the retry
    counter of [analyzeApplication] (a local variable, which every call
    declares anew with 0) and the list of what was observed:
    the stage requests handed to [onStageRequest], the calls of
    [generateContent] and the back-off sleeps. *)

Inductive Event : Type :=
| StageRequested (trace : StageRequestTrace)
| Generated (params : StageGenerationParams)
| Slept (ms : nat).

Inductive ModelMode : Type := real | mock.

Record AnalysisRuntimeOptions : Type := {
  modelMode : option ModelMode;
  apiKey : option str
}.

Section Pipeline.
Variable host : Host.
Variable World : Type.
Variable generateContent :
  StageGenerationParams -> World -> (JsError + GenerationResponse) * World.

Record Run : Type := {
  world : World;
  retryCount : nat;
  events : list Event
}.

Definition M (A : Type) : Type := Run -> (JsError + A) * Run.

Definition ret {A : Type} (x : A) : M A := fun st => (inr x, st).

Definition throw {A : Type} (e : JsError) : M A := fun st => (inl e, st).

Definition bind {A B : Type} (c : M A) (k : A -> M B) : M B :=
  fun st =>
    match c st with
    | (inr x, st') => k x st'
    | (inl e, st') => (inl e, st')
    end.

Notation "x <- c ;; k" := (bind c (fun x => k))
  (at level 61, c at next level, right associativity).
Notation "c ;;; k" := (bind c (fun _ => k))
  (at level 61, right associativity).

Definition emit (e : Event) : M unit :=
  fun st => (inr tt, {| world := world st; retryCount := retryCount st;
                        events := events st ++ [e] |}).

Definition sleep (ms : nat) : M unit := emit (Slept ms).

Definition incrementRetry : M unit :=
  fun st => (inr tt, {| world := world st; retryCount := retryCount st + 1;
                        events := events st |}).

(** [let retryCount = 0;] *)
Definition resetRetry : M unit :=
  fun st => (inr tt, {| world := world st; retryCount := 0; events := events st |}).

(** [onRetry?.()] *)
Definition callOptional (cb : option (M unit)) : M unit :=
  match cb with Some c => c | None => ret tt end.

(** [ai.models.generateContent(params)] *)
Definition callGenerator (params : StageGenerationParams) : M GenerationResponse :=
  fun st =>
    let (outcome, w) := generateContent params (world st) in
    (outcome, {| world := w; retryCount := retryCount st;
                 events := events st ++ [Generated params] |}).

(** The [for] loop of [withRetry], [remaining] rounds from [attempt] on.
    The loop is left from inside; the error after it is reached only
    with no round at all. *)
Fixpoint retryLoop {A : Type} (operationName : str) (operation : M A)
  (maxAttempts : nat) (onRetry : option (M unit)) (remaining attempt : nat)
  (lastError : option JsError) : M A :=
  match remaining with
  | O =>
      throw (newError (operationName ++ lit " failed after " ++ Str.ofNat maxAttempts
                       ++ lit " attempts: "
                       ++ match lastError with
                          | Some e => e_text e
                          | None => lit "undefined"
                          end))
  | S remaining' =>
      fun st =>
        match operation st with
        | (inr x, st') => (inr x, st')
        | (inl error, st') =>
            let shouldRetry := (attempt <? maxAttempts) && isTransientError error in
            if negb shouldRetry then (inl error, st')
            else
              (callOptional onRetry ;;;
               let delayMs := BASE_BACKOFF_MS * 2 ^ (attempt - 1) in
               sleep delayMs ;;;
               retryLoop operationName operation maxAttempts onRetry remaining'
                         (attempt + 1) (Some error)) st'
        end
  end.

Definition withRetry {A : Type} (operationName : str) (operation : M A)
  (maxAttempts : nat) (onRetry : option (M unit)) : M A :=
  retryLoop operationName operation maxAttempts onRetry maxAttempts 1 None.

(** The fenced block of [parseJsonText]: three backquotes, an optional
    [json], the body (group 1, as short as possible) and three
    backquotes at the end, under the [i] flag. *)
Definition anyChar : re := Chr (fun _ => true).

Definition fenceBody (trimmed : str) : option str :=
  exec (seqOf [Start; word "```"; opt (wordI "json"); Star space]) None trimmed
    (fun p1 s1 =>
       exec (StarLazy anyChar) p1 s1 (fun p2 s2 =>
         exec (seqOf [Star space; word "```"; End]) p2 s2 (fun _ _ =>
           Some (firstn (consumed s1 s2) s1)))).

Definition parseJsonText (stageName : str) (text_ : option str) : M JsValue :=
  match text_ with
  | None | Some [] => throw (newError (stageName ++ lit ": empty response from model"))
  | Some t =>
      let trimmed := Str.trim t in
      let jsonText := match fenceBody trimmed with Some body => body | None => trimmed end in
      match JSON_parse host jsonText with
      | Some v => ret v
      | None => throw (newError (stageName ++ lit ": invalid JSON response"))
      end
  end.

Definition schemaFor (s : StageName) : ResponseSchema :=
  match s with
  | extractFacts => ExtractFactsSchema
  | scoreMatch => ScoreMatchSchema
  | rewriteDocs => RewriteDocsSchema
  end.

Definition runStructuredStage {T : Type} (tierConfig : TierConfig) (stageName : StageName)
  (systemInstruction prompt : str) (normalize : JsValue -> T)
  (onRetry : option (M unit)) : M T :=
  emit (StageRequested {| t_stageName := stageName; t_model := model tierConfig;
                          t_tier := tier tierConfig; t_prompt := prompt;
                          t_systemInstruction := systemInstruction |}) ;;;
  response <- withRetry (stageLabel stageName)
                (callGenerator {| p_model := model tierConfig; contents := prompt;
                                  systemInstruction := systemInstruction;
                                  responseSchema := schemaFor stageName;
                                  maxOutputTokens := stageMaxOutputTokens tierConfig stageName |})
                MAX_RETRY_ATTEMPTS onRetry ;;
  raw <- parseJsonText (stageLabel stageName) (text response) ;;
  ret (normalize raw).

(** The objects handed to [JSON.stringify]. *)
Definition metricName (k : MetricKey) : str :=
  match k with
  | projectImpact => lit "projectImpact"
  | latencyReduction => lit "latencyReduction"
  | costSavings => lit "costSavings"
  | usersServed => lit "usersServed"
  | uptime => lit "uptime"
  | otherMetrics => lit "otherMetrics"
  end.

Definition vaultToJs (v : MetricsVault) : JsValue :=
  JObject (map (fun kv => (metricName (fst kv), JString (snd kv))) v).

Definition experienceToJs (e : ExtractedExperience) : JsValue :=
  JObject [(lit "employer", nullable JString (employer e));
           (lit "role", nullable JString (role e));
           (lit "startDate", nullable JString (startDate e));
           (lit "endDate", nullable JString (endDate e));
           (lit "achievements", strings (x_achievements e))].

Definition extractedToJs (x : ExtractFactsResult) : JsValue :=
  JObject
    [(lit "languageDetected", nullable (fun l => JString (languageName l)) (languageDetected x));
     (lit "jdFacts",
      JObject [(lit "roleTitle", nullable JString (roleTitle (jdFacts x)));
               (lit "companyName", nullable JString (companyName (jdFacts x)));
               (lit "mustHaveSkills", strings (mustHaveSkills (jdFacts x)));
               (lit "niceToHaveSkills", strings (niceToHaveSkills (jdFacts x)));
               (lit "responsibilities", strings (responsibilities (jdFacts x)));
               (lit "requiredExperienceYears",
                nullable JNumber (requiredExperienceYears (jdFacts x)));
               (lit "keywords", strings (keywords (jdFacts x)))]);
     (lit "resumeFacts",
      JObject [(lit "candidateName", nullable JString (candidateName (resumeFacts x)));
               (lit "skills", strings (skills (resumeFacts x)));
               (lit "experience", JArray (map experienceToJs (experience (resumeFacts x))));
               (lit "achievements", strings (achievements (resumeFacts x)));
               (lit "education", strings (education (resumeFacts x)));
               (lit "certifications", strings (certifications (resumeFacts x)))]);
     (lit "coverLetterFacts",
      JObject [(lit "keyClaims", strings (keyClaims (coverLetterFacts x)));
               (lit "motivations", strings (motivations (coverLetterFacts x)))]);
     (lit "explicitUserAchievements", strings (explicitUserAchievements x));
     (lit "missingData", strings (missingData x))].

Definition scoringToJs (x : ScoreMatchResult) : JsValue :=
  JObject
    [(lit "baselineScore", nullable JNumber (baselineScore x));
     (lit "enhancedScore", nullable JNumber (enhancedScore x));
     (lit "jobFitScore", nullable JNumber (jobFitScore x));
     (lit "explanation", nullable JString (explanation x));
     (lit "overallFeedback", nullable JString (overallFeedback x));
     (lit "gapAnalysis", JArray (map improvementToJs (gapAnalysis x)));
     (lit "portfolioAdvice", nullable JString (portfolioAdvice x));
     (lit "recruiterNotes", nullable JString (recruiterNotes x));
     (lit "confidenceNotes", strings (confidenceNotes x))].

Definition sourceTextToJs (x : SourceText) : JsValue :=
  JObject [(lit "jobDescription", JString (s_jobDescription x));
           (lit "resumeContent", JString (s_resumeContent x));
           (lit "coverLetterContent", JString (s_coverLetterContent x))].

Definition stringify (v : JsValue) : str := JSON_stringify host v.

Definition buildMetricsVaultSummary (metricsVault : MetricsVault) : str :=
  stringify
    (JObject (map (fun k => (metricName k, nullable JString (vaultGet k metricsVault)))
                  METRICS_HASH_FIELDS)).

Definition summarizePiiIssues (unauthorizedPiiIssues : list PiiValidationIssue)
  (unresolvedPlaceholders : list str) : str :=
  let first :=
    match unauthorizedPiiIssues with
    | [] => []
    | _ =>
        let piiSummary :=
          Str.join (lit ", ")
            (map (fun issue => typeName (i_type issue) ++ lit ":" ++ Str.ofNat (count issue))
                 unauthorizedPiiIssues) in
        [lit "Unauthorized PII detected (" ++ piiSummary ++ lit ")."]
    end in
  let second :=
    match unresolvedPlaceholders with
    | [] => []
    | _ => [lit "Unknown PII placeholders detected ("
            ++ Str.ofNat (List.length unresolvedPlaceholders) ++ lit ")."]
    end in
  Str.join (lit " ") (first ++ second).

Definition applyPiiReinsertionToRewrite (rewrite : RewriteDocsResult)
  (redactionEntries : list PiiRedactionEntry) : RewriteDocsResult :=
  {| optimizedResume := reinsertRedactedPii (optimizedResume rewrite) redactionEntries;
     optimizedCoverLetter := reinsertRedactedPii (optimizedCoverLetter rewrite) redactionEntries;
     rewriteNotes := rewriteNotes rewrite |}.

Definition extractFactsInstruction (tierConfig : TierConfig) : str :=
  Str.lines
    [[]; lit "You are Stage 1: FACT EXTRACTION.";
     lit "Tier: " ++ tierLabel (tier tierConfig) ++ lit ".";
     lit "Tier Guidance: " ++ stageGuidance tierConfig extractFacts;
     lit "Rules:";
     lit "- Extract facts only. Do not rewrite documents.";
     lit "- Use only information explicitly present in the input text.";
     lit "- If a value is missing or uncertain, return null.";
     lit "- Never invent numbers, employers, dates, certifications, or metrics.";
     lit "- explicitUserAchievements must contain user-provided achievement statements from ADDITIONAL USER CONTEXT only.";
     lit "- Return valid JSON only."; []].

Definition extractFactsWithClient (data : ApplicationInput) (tierConfig : TierConfig)
  (onRetry : option (M unit)) : M ExtractFactsResult :=
  let prompt :=
    Str.lines
      [[]; lit "INPUT JSON:";
       stringify
         (JObject [(lit "jobDescription", JString (jobDescription data));
                   (lit "companyInfo", JString (companyInfo data));
                   (lit "resumeContent", JString (resumeContent data));
                   (lit "coverLetterContent", JString (coverLetterContent data));
                   (lit "portfolioLinks", JString (portfolioLinks data));
                   (lit "additionalUserContext", JString (additionalContext data));
                   (lit "metricsVault", vaultToJs (metricsVault data));
                   (lit "privacyMode", JBool (privacyMode data))]);
       []] in
  runStructuredStage tierConfig extractFacts (extractFactsInstruction tierConfig) prompt
    normalizeExtractFacts onRetry.

Definition scoreMatchInstruction (tierConfig : TierConfig) : str :=
  Str.lines
    [[]; lit "You are Stage 2: ATS MATCH SCORING + GAP ANALYSIS.";
     lit "Tier: " ++ tierLabel (tier tierConfig) ++ lit ".";
     lit "Tier Guidance: " ++ stageGuidance tierConfig scoreMatch;
     lit "Rules:";
     lit "- Compute ATS scoring and gap analysis from extracted facts.";
     lit "- Do not rewrite resume or cover letter text.";
     lit "- If there is insufficient evidence for a score, return null for that score.";
     lit "- Never invent numbers, employers, dates, or metrics.";
     lit "- gapAnalysis must contain concise actionable points with category critical|optional.";
     lit "- For every gapAnalysis item, include evidence with:";
     lit "  - evidence.resumeQuotes: exact phrases copied from resume or cover letter text.";
     lit "  - evidence.jdQuotes: exact phrases copied from job description text.";
     lit "  - evidence.missingKeywords: missing keywords/phrases explicitly present in the job description.";
     lit "- Every evidence snippet must be 20 words or fewer.";
     lit "- If no supporting text exists, return empty evidence arrays.";
     lit "- Return valid JSON only."; []].

Definition scoreMatchWithClient (extracted : ExtractFactsResult) (sourceText : SourceText)
  (tierConfig : TierConfig) (onRetry : option (M unit)) : M ScoreMatchResult :=
  let prompt :=
    Str.lines
      [[]; lit "EXTRACTED_FACTS_JSON:"; stringify (extractedToJs extracted); [];
       lit "SOURCE_TEXT_JSON:"; stringify (sourceTextToJs sourceText); []] in
  scored <- runStructuredStage tierConfig scoreMatch (scoreMatchInstruction tierConfig) prompt
              normalizeScoreMatch onRetry ;;
  ret (enforceEvidenceFromSource scored sourceText).

Definition rewriteDocsInstruction (tierConfig : TierConfig) : str :=
  Str.lines
    [[]; lit "You are Stage 3: DOCUMENT REWRITE.";
     lit "Tier: " ++ tierLabel (tier tierConfig) ++ lit ".";
     lit "Tier Guidance: " ++ stageGuidance tierConfig rewriteDocs;
     lit "Rules:";
     lit "- Rewrite resume and cover letter using ONLY:";
     lit "  1) extracted facts";
     lit "  2) explicit user-provided achievements";
     lit "- Do not introduce new employers, dates, titles, certifications, technologies, or metrics.";
     lit "- Any claim introduced in rewritten text must be grounded in extracted facts and score-stage evidence.";
     lit "- Numeric metrics constraint:";
     lit "  - You may use numeric values ONLY if present in metricsVault.";
     lit "  - If a sentence needs performance impact but no vault number applies, write "
       ++ Str.quoted "improved X" ++ lit " with no numeric tokens.";
     lit "- Privacy constraint:";
     lit "  - Input may include redacted placeholders like [PII_EMAIL_1], [PII_PHONE_1], [PII_STREET_ADDRESS_1], [PII_BIRTH_DATE_1], [PII_PERSONAL_ID_1].";
     lit "  - If placeholders exist, preserve them exactly and do not invent any new personal data.";
     lit "  - Do not generate new emails, phone numbers, street addresses, birth dates, or personal IDs.";
     lit "- If safe rewriting is not possible due to missing evidence, return null for the affected document.";
     lit "- Keep output as plain text (no markdown).";
     lit "- Return valid JSON only."; []].

Record DraftValidation : Type := {
  correctedDraft : RewriteDocsResult;
  isValid : bool;
  unauthorizedNumbers : list str;
  unauthorizedPiiIssues : list PiiValidationIssue;
  unresolvedPlaceholders : list str
}.

Definition isEmpty {A : Type} (l : list A) : bool :=
  match l with [] => true | _ :: _ => false end.

Definition validateDraft (metricsVault : MetricsVault)
  (redactionEntries : list PiiRedactionEntry) (draft : RewriteDocsResult) : DraftValidation :=
  let privacyModeEnabled := negb (isEmpty redactionEntries) in
  let unauthorizedNumbers :=
    metricsGuardService.findUnauthorizedNumbersForRewrite host
      (optimizedResume draft) (optimizedCoverLetter draft) metricsVault in
  let withReinsertedPii :=
    if privacyModeEnabled then applyPiiReinsertionToRewrite draft redactionEntries else draft in
  let combinedOutput :=
    metricsGuardService.orEmpty (optimizedResume withReinsertedPii) ++ [Str.LF]
    ++ metricsGuardService.orEmpty (optimizedCoverLetter withReinsertedPii) in
  let unauthorizedPiiIssues :=
    if privacyModeEnabled then findUnauthorizedPii combinedOutput redactionEntries else [] in
  let unresolvedPlaceholders :=
    if privacyModeEnabled then findUnresolvedPiiPlaceholders combinedOutput redactionEntries
    else [] in
  {| correctedDraft := withReinsertedPii;
     isValid := isEmpty unauthorizedNumbers && isEmpty unauthorizedPiiIssues
                && isEmpty unresolvedPlaceholders;
     unauthorizedNumbers := unauthorizedNumbers;
     unauthorizedPiiIssues := unauthorizedPiiIssues;
     unresolvedPlaceholders := unresolvedPlaceholders |}.

Definition rewriteBasePrompt (extracted : ExtractFactsResult) (scoring : ScoreMatchResult)
  (explicitUserAchievements : list str) (metricsVault : MetricsVault)
  (redactionEntries : list PiiRedactionEntry) : str :=
  let allowedMetricNumbers := metricsGuardService.getAllowedMetricNumbers host metricsVault in
  let piiPlaceholders := map placeholder redactionEntries in
  Str.lines
    [[]; lit "INPUT_JSON:";
     stringify
       (JObject [(lit "extractedFacts", extractedToJs extracted);
                 (lit "scoreMatch", scoringToJs scoring);
                 (lit "explicitUserAchievements", strings explicitUserAchievements);
                 (lit "metricsVault", vaultToJs metricsVault)]);
     [];
     lit "METRICS_VAULT_JSON:"; buildMetricsVaultSummary metricsVault; [];
     lit "ALLOWED_NUMERIC_VALUES_FROM_VAULT_JSON:"; stringify (strings allowedMetricNumbers); [];
     lit "PII_PLACEHOLDERS_JSON:"; stringify (strings piiPlaceholders); []].

Definition rewriteCorrectionPrompt (basePrompt : str) (metricsVault : MetricsVault)
  (redactionEntries : list PiiRedactionEntry) (firstValidation : DraftValidation) : str :=
  let allowedMetricNumbers := metricsGuardService.getAllowedMetricNumbers host metricsVault in
  let piiPlaceholders := map placeholder redactionEntries in
  Str.lines
    [[]; basePrompt; [];
     lit "CORRECTION_REQUIRED:";
     lit "The previous rewrite violated output constraints.";
     lit "Unauthorized numeric values detected: "
       ++ stringify (strings (unauthorizedNumbers firstValidation)) ++ lit ".";
     summarizePiiIssues (unauthorizedPiiIssues firstValidation)
                        (unresolvedPlaceholders firstValidation);
     lit "Rewrite both documents again and fix all violations.";
     lit "Use only allowed metrics vault numbers: "
       ++ stringify (strings allowedMetricNumbers) ++ lit ".";
     lit "Use only provided PII placeholders: " ++ stringify (strings piiPlaceholders) ++ lit ".";
     lit "If no allowed number applies, use " ++ Str.quoted "improved X"
       ++ lit " without numeric tokens.";
     []].

Definition rewriteDocsWithClient (extracted : ExtractFactsResult) (scoring : ScoreMatchResult)
  (explicitUserAchievements : list str) (metricsVault : MetricsVault)
  (redactionEntries : list PiiRedactionEntry) (tierConfig : TierConfig)
  (onRetry : option (M unit)) : M RewriteDocsResult :=
  let systemInstruction := rewriteDocsInstruction tierConfig in
  let basePrompt :=
    rewriteBasePrompt extracted scoring explicitUserAchievements metricsVault redactionEntries in
  firstDraft <- runStructuredStage tierConfig rewriteDocs systemInstruction basePrompt
                  normalizeRewriteDocs onRetry ;;
  let firstValidation := validateDraft metricsVault redactionEntries firstDraft in
  if isValid firstValidation then ret (correctedDraft firstValidation)
  else
    let correctionPrompt :=
      rewriteCorrectionPrompt basePrompt metricsVault redactionEntries firstValidation in
    callOptional onRetry ;;;
    secondDraft <- runStructuredStage tierConfig rewriteDocs systemInstruction correctionPrompt
                     normalizeRewriteDocs onRetry ;;
    let correctedValidation := validateDraft metricsVault redactionEntries secondDraft in
    if negb (isValid correctedValidation)
    then throw (newError (lit "rewriteDocs failed validation after correction prompt."))
    else ret (correctedDraft correctedValidation).

(** [getGeminiClient]: the mock client, or the real one when a key is
    configured. Either way the client is the [generateContent] at hand. *)
Definition nonBlank (x : option str) : bool :=
  match x with Some k => Str.nonEmpty (Str.trim k) | None => false end.

Definition getGeminiClient (runtimeOptions : AnalysisRuntimeOptions) : M unit :=
  match modelMode runtimeOptions with
  | Some mock => ret tt
  | _ =>
      if nonBlank (apiKey runtimeOptions) || nonBlank (envApiKey host) then ret tt
      else throw (newError (lit "Missing Gemini API key: set VITE_GEMINI_API_KEY in .env.local and restart the Vite dev server."))
  end.

Definition computeInputHash (input : ApplicationInput) : M str :=
  let normalizedPayload :=
    stringify
      (JObject
         [(lit "jobDescription", JString (normalizeInputText (jobDescription input)));
          (lit "companyInfo", JString (normalizeInputText (companyInfo input)));
          (lit "resumeContent", JString (normalizeInputText (resumeContent input)));
          (lit "coverLetterContent", JString (normalizeInputText (coverLetterContent input)));
          (lit "portfolioLinks", JString (normalizeInputText (portfolioLinks input)));
          (lit "additionalContext", JString (normalizeInputText (additionalContext input)));
          (lit "analysisMode",
           JString (match analysisMode input with
                    | fast => lit "fast" | balanced => lit "balanced" | deep => lit "deep"
                    end));
          (lit "privacyMode", JBool (privacyMode input));
          (lit "metricsVault",
           JObject (map (fun key =>
                           (metricName key,
                            JString (normalizeInputText
                                       (metricsGuardService.orEmpty
                                          (vaultGet key (metricsVault input))))))
                        METRICS_HASH_FIELDS))]) in
  match sha256Hex host with
  | None => throw (newError (lit "Web Crypto API is unavailable; cannot compute SHA-256 input hash."))
  | Some digest => ret (digest normalizedPayload)
  end.

Definition forCoverage (facts : ResumeFacts) : atsCoverageService.ResumeFactsForCoverage :=
  {| atsCoverageService.skills := skills facts;
     atsCoverageService.experience :=
       map (fun e =>
              {| atsCoverageService.employer := employer e;
                 atsCoverageService.role := role e;
                 atsCoverageService.startDate := startDate e;
                 atsCoverageService.endDate := endDate e;
                 atsCoverageService.x_achievements := x_achievements e |})
           (experience facts);
     atsCoverageService.achievements := achievements facts;
     atsCoverageService.education := education facts;
     atsCoverageService.certifications := certifications facts |}.

Definition sourceOf (input : ApplicationInput) : SourceText :=
  {| s_jobDescription := jobDescription input;
     s_resumeContent := resumeContent input;
     s_coverLetterContent := coverLetterContent input |}.

Definition extractFacts_ (data : ApplicationInput) (runtimeOptions : AnalysisRuntimeOptions)
  : M ExtractFactsResult :=
  getGeminiClient runtimeOptions ;;;
  let preparedPrivacyInput := prepareApplicationForGemini data in
  let tierConfig := getTierConfig (selectTier (sanitizedInput preparedPrivacyInput)) in
  extractFactsWithClient (sanitizedInput preparedPrivacyInput) tierConfig None.

Definition scoreMatch_ (extracted : ExtractFactsResult) (sourceText : SourceText)
  (analysisMode : AnalysisMode) (runtimeOptions : AnalysisRuntimeOptions)
  : M ScoreMatchResult :=
  getGeminiClient runtimeOptions ;;;
  let tierConfig := getTierConfig (tierFromMode analysisMode) in
  scoreMatchWithClient extracted sourceText tierConfig None.

Definition rewriteDocs_ (extracted : ExtractFactsResult) (scoring : ScoreMatchResult)
  (explicitUserAchievements : list str) (metricsVault : MetricsVault)
  (redactionEntries : list PiiRedactionEntry) (analysisMode : AnalysisMode)
  (runtimeOptions : AnalysisRuntimeOptions) : M RewriteDocsResult :=
  getGeminiClient runtimeOptions ;;;
  let tierConfig := getTierConfig (tierFromMode analysisMode) in
  rewriteDocsWithClient extracted scoring explicitUserAchievements metricsVault
    redactionEntries tierConfig None.

Definition nonBlankNote (x : option str) : list str :=
  match x with
  | Some v => if Str.nonEmpty (Str.trim v) then [v] else []
  | None => []
  end.

Definition analyzeApplication (data : ApplicationInput)
  (runtimeOptions : AnalysisRuntimeOptions) : M AnalysisResult :=
  getGeminiClient runtimeOptions ;;;
  let preparedPrivacyInput := prepareApplicationForGemini data in
  let sanitizedInput := sanitizedInput preparedPrivacyInput in
  let redactionEntries := redactionEntries preparedPrivacyInput in
  let tierConfig := getTierConfig (selectTier sanitizedInput) in
  let explicitUserAchievements :=
    parseExplicitUserAchievements (additionalContext sanitizedInput) in
  let timestamp := nowISO host in
  inputHash <- computeInputHash sanitizedInput ;;
  resetRetry ;;;
  extracted <- extractFactsWithClient sanitizedInput tierConfig (Some incrementRetry) ;;
  scored <- scoreMatchWithClient extracted (sourceOf sanitizedInput) tierConfig
              (Some incrementRetry) ;;
  rewritten <- rewriteDocsWithClient extracted scored
                 (match explicitUserAchievements with
                  | [] => geminiService.explicitUserAchievements extracted
                  | _ => explicitUserAchievements
                  end)
                 (metricsVault sanitizedInput) redactionEntries tierConfig
                 (Some incrementRetry) ;;
  fun st =>
    let recruiterNotes :=
      Str.join [Str.LF; Str.LF]
        (nonBlankNote (recruiterNotes scored) ++ nonBlankNote (rewriteNotes rewritten)) in
    let deterministicCoverage :=
      atsCoverageService.computeAtsCoverage host (jobDescription sanitizedInput)
        (forCoverage (resumeFacts extracted)) in
    let retrievalTrace :=
      retrievalService.selectRetrievalTrace host
        {| retrievalService.r_jobDescription := jobDescription sanitizedInput;
           retrievalService.r_resumeContent := resumeContent sanitizedInput;
           retrievalService.r_coverLetterContent := coverLetterContent sanitizedInput;
           retrievalService.r_companyInfo := companyInfo sanitizedInput;
           retrievalService.r_additionalContext := additionalContext sanitizedInput |} 8 in
    let retrievalChunkIds := map chunkId retrievalTrace in
    let finalResult :=
      {| types.scoreBreakdown :=
           {| baseline := baselineScore scored; enhanced := enhancedScore scored;
              types.explanation := explanation scored |};
         types.jobFitScore := jobFitScore scored;
         types.overallFeedback := overallFeedback scored;
         improvements :=
           map (fun gap => {| point := point gap; category := category gap;
                              impact := impact gap; evidence := evidence gap |})
               (gapAnalysis scored);
         types.optimizedResume := optimizedResume rewritten;
         types.optimizedCoverLetter := optimizedCoverLetter rewritten;
         types.languageDetected := languageDetected extracted;
         types.portfolioAdvice := portfolioAdvice scored;
         types.recruiterNotes := match recruiterNotes with [] => None | n => Some n end;
         evidenceSnippetWordLimit := Js.ofNat MAX_EVIDENCE_WORDS;
         types.keywordCoverage := atsCoverageService.keywordCoverage deterministicCoverage;
         types.hardRequirementsMissing :=
           atsCoverageService.hardRequirementsMissing deterministicCoverage;
         analysisTrace :=
           {| inputHash := inputHash; retrievalChunkIds := retrievalChunkIds;
              types.retrievalTrace := retrievalTrace; modelName := model tierConfig;
              types.tier := tierLabel (tier tierConfig); timestamp := timestamp;
              retries := Js.ofNat (retryCount st) |} |} in
    let schemaValidation :=
      analysisSchemaService.validateAnalysisResultSchema (resultToJs finalResult) in
    if negb (analysisSchemaService.valid schemaValidation)
    then throw (newError (lit "AnalysisResult schema validation failed: "
                          ++ Str.join (lit " | ") (analysisSchemaService.errors schemaValidation))) st
    else ret finalResult st.

End Pipeline.

Arguments world {World}.
Arguments retryCount {World}.
Arguments events {World}.
Arguments ret {World A}.
Arguments throw {World A}.
Arguments bind {World A B}.
Arguments emit {World}.
Arguments sleep {World}.
Arguments incrementRetry {World}.
Arguments resetRetry {World}.
Arguments callOptional {World}.
Arguments callGenerator {World}.
Arguments retryLoop {World A}.
Arguments withRetry {World A}.
Arguments parseJsonText host {World}.
Arguments runStructuredStage host {World} generateContent {T}.
Arguments extractFactsWithClient host {World}.
Arguments scoreMatchWithClient host {World}.
Arguments rewriteDocsWithClient host {World}.
Arguments getGeminiClient host {World}.
Arguments computeInputHash host {World}.
Arguments analyzeApplication host {World}.

End geminiService.

(** ** services/geminiService.ts: the rewrite of the mock client *)

Module geminiMock.
Import Regex Js types geminiService.

(** [/\d+(?:[.,]\d+)*/g] *)
Definition NUMBER_RUN_REGEX : re :=
  Seq (plus digit) (Star (Seq (Chr (Str.isOneOf ".,")) (plus digit))).

Definition sanitizeTextWithoutNumbers (value : str) : str :=
  Str.trim (Str.collapseSpaces
              (Regex.replace (whole NUMBER_RUN_REGEX) (fun _ _ => []) value)).

(** [value ?? fallback] *)
Definition orElse (value : option str) (fallback : string) : str :=
  match value with Some v => v | None => lit fallback end.

(** [list.length > 0 ? list : fallback] *)
Definition orLines (lines fallback : list str) : list str :=
  match lines with [] => fallback | _ :: _ => lines end.

Definition bulleted (items : list str) : list str :=
  map (fun item => lit "- " ++ item)
      (filter Str.nonEmpty (map sanitizeTextWithoutNumbers items)).

Definition buildMockRewrite (extracted : ExtractFactsResult)
  (explicitUserAchievements : list str) : RewriteDocsResult :=
  let experienceLines :=
    map (fun item =>
           let role := sanitizeTextWithoutNumbers (orElse (role item) "Role") in
           let employer := sanitizeTextWithoutNumbers (orElse (employer item) "Employer") in
           lit "- " ++ role ++ lit " at " ++ employer
           ++ lit ": improved X through collaboration and delivery.")
        (firstn 4 (experience (resumeFacts extracted))) in
  let achievementLines := bulleted (firstn 4 explicitUserAchievements) in
  let fallbackAchievements := bulleted (firstn 3 (achievements (resumeFacts extracted))) in
  let skillsLine :=
    Str.join (lit ", ")
      (filter Str.nonEmpty (map sanitizeTextWithoutNumbers (skills (resumeFacts extracted)))) in
  let resumeSections :=
    [sanitizeTextWithoutNumbers (orElse (candidateName (resumeFacts extracted)) "Candidate");
     lit "Skills: " ++ match skillsLine with [] => lit "Not specified" | _ :: _ => skillsLine end;
     lit "Experience Highlights:"]
    ++ orLines experienceLines [lit "- improved X in relevant initiatives."]
    ++ [lit "Selected Achievements:"]
    ++ orLines achievementLines (orLines fallbackAchievements [lit "- improved X."]) in
  let coverLetterLines :=
    [lit "Dear Hiring Team,";
     lit "I am applying for "
       ++ sanitizeTextWithoutNumbers (orElse (roleTitle (jdFacts extracted)) "this role")
       ++ lit ".";
     lit "My background shows consistent execution and improved X outcomes.";
     lit "I can contribute quickly using proven delivery patterns and collaboration.";
     lit "Sincerely,";
     sanitizeTextWithoutNumbers (orElse (candidateName (resumeFacts extracted)) "Candidate")] in
  {| optimizedResume := Some (Str.lines resumeSections);
     optimizedCoverLetter := Some (Str.lines coverLetterLines);
     rewriteNotes := Some (lit "Deterministic mock rewrite generated for local evaluation.") |}.

End geminiMock.

(** ** services/geminiService.ts: the JSON that the mock client reads
    back from a prompt *)

Module geminiJson.
Import Js.

Definition BACKSLASH : ascii := ascii_of_nat 92.

(** [text.indexOf(needle, position)], [None] for -1; [s] is the text
    from index [i] on. *)
Fixpoint indexOfFrom (needle s : str) (i : nat) : option nat :=
  if Str.startsWith needle s then Some i
  else match s with
       | [] => None
       | _ :: s' => indexOfFrom needle s' (S i)
       end.

Definition indexOf (text needle : str) (position : nat) : option nat :=
  let from := Nat.min position (List.length text) in
  indexOfFrom needle (skipn from text) from.

Definition findJsonStart (text : str) (fromIndex : nat) : option nat :=
  let objectStart := indexOf text (lit "{") fromIndex in
  let arrayStart := indexOf text (lit "[") fromIndex in
  match objectStart, arrayStart with
  | None, _ => arrayStart
  | _, None => objectStart
  | Some o, Some a => Some (Nat.min o a)
  end.

(** The [for] loop of [extractBalancedJson] over the text from [start]
    on; [taken] code units lie behind. It answers how many code units
    the slice holds. *)
Fixpoint scanBalanced (opener closer : ascii) (depth : Z) (inString escaped : bool)
  (taken : nat) (s : str) : option nat :=
  match s with
  | [] => None
  | char :: rest =>
      if inString then
        if escaped then scanBalanced opener closer depth true false (S taken) rest
        else if Ascii.eqb char BACKSLASH
        then scanBalanced opener closer depth true true (S taken) rest
        else if Ascii.eqb char Str.DQ
        then scanBalanced opener closer depth false escaped (S taken) rest
        else scanBalanced opener closer depth true escaped (S taken) rest
      else if Ascii.eqb char Str.DQ
      then scanBalanced opener closer depth true escaped (S taken) rest
      else
        let depth1 := if Ascii.eqb char opener then (depth + 1)%Z else depth in
        let depth2 := if Ascii.eqb char closer then (depth1 - 1)%Z else depth1 in
        if (depth2 =? 0)%Z then Some (S taken)
        else scanBalanced opener closer depth2 false escaped (S taken) rest
  end.

Definition closerOf (opener : option ascii) : option ascii :=
  match opener with
  | Some c =>
      if Ascii.eqb c "{" then Some "}"%char
      else if Ascii.eqb c "[" then Some "]"%char
      else None
  | None => None
  end.

Definition extractBalancedJson (text : str) (start : nat) : option str :=
  let opener := nth_error text start in
  match opener, closerOf opener with
  | Some opener, Some closer =>
      match scanBalanced opener closer 0 false false 0 (skipn start text) with
      | Some n => Some (firstn n (skipn start text))
      | None => None
      end
  | _, _ => None
  end.

Definition parseJsonAfterMarker (host : Host) (prompt marker : str) : option JsValue :=
  match indexOf prompt marker 0 with
  | None => None
  | Some markerIndex =>
      match findJsonStart prompt (markerIndex + List.length marker) with
      | None => None
      | Some start =>
          match extractBalancedJson prompt start with
          | None | Some [] => None
          | Some jsonText => JSON_parse host jsonText
          end
      end
  end.

End geminiJson.

(** * The vocabulary of the properties

    What the theorems below speak of besides the program itself:
    observations of a run, relations between a text and its redaction,
    and the sample inputs of the examples. *)

(** ** Words and white space *)

Section WordTerms.

Definition SP : ascii := " "%char.

(** A word: not empty, no white space in it. *)
Definition wordy (w : str) : Prop := w <> [] /\ forallb (fun c => negb (Str.isSpace c)) w = true.

Definition notSpace (c : ascii) : bool := negb (Str.isSpace c).

Definition startsClean (s : str) : Prop :=
  match s with [] => True | c :: _ => Str.isSpace c = false end.

Definition lastChar (s : str) : option ascii :=
  match rev s with c :: _ => Some c | [] => None end.

(** The code unit before the rest of a text of which [s] was read, and
    [prev] before that. *)
Definition lastOr (prev : option ascii) (s : str) : option ascii :=
  match rev s with c :: _ => Some c | [] => prev end.

Definition OPEN : ascii := "["%char.
Definition CLOSE : ascii := "]"%char.

(** The opening of every placeholder, after its bracket. *)
Definition TOKEN_HEAD : str := lit "PII_".

(** No placeholder can start anywhere in [s]. *)
Definition tokenFree (s : str) : bool := negb (Str.includes s (OPEN :: TOKEN_HEAD)).

(** A bracketed token: an opening bracket, a body free of brackets that
    starts like a placeholder, a closing bracket. *)
Definition bracketed (p : str) : Prop :=
  exists body,
    p = OPEN :: body ++ [CLOSE] /\ ~ In OPEN body /\ ~ In CLOSE body
    /\ Str.startsWith TOKEN_HEAD body = true.

End WordTerms.

(** ** Matches *)

Section MatchTerms.
Import Regex.

(** A successful run of [exec] consumed a prefix of the input, made of
    code units of the expression's alphabet and at least as long as its
    least match, and handed the rest to the continuation. *)
Definition consumes {A : Type} (r : re) (prev : option ascii) (s : str)
  (k : option ascii -> str -> option A) (x : A) : Prop :=
  exists mt rest,
    s = mt ++ rest
    /\ k (lastOr prev mt) rest = Some x
    /\ forallb (alphabet r) mt = true
    /\ minLen r <= List.length mt.

(** No match starts inside the token [ph], whatever stands around it. *)
Definition NoHit {I : Type} (m : matcher I) (ph : str) : Prop :=
  forall pre c suf rest prev, ph = pre ++ c :: suf -> m (lastOr prev pre) (c :: suf ++ rest) = None.

(** A match is a non-empty prefix of the input without an opening
    bracket. *)
Definition plainMatch {I : Type} (m : matcher I) : Prop :=
  forall prev s i n, m prev s = Some (i, n) ->
    exists mt rest, s = mt ++ rest /\ n = List.length mt /\ mt <> [] /\ ~ In OPEN mt.

(** Matchers that open with a word boundary. *)
Definition firstIn {I : Type} (m : matcher I) (ok : ascii -> bool) : Prop :=
  forall prev c s i n, m prev (c :: s) = Some (i, n) -> ok c = true.

Definition wordLed {I : Type} (m : matcher I) : Prop :=
  forall prev c s, wordBefore prev = true -> Str.isWord c = true -> m prev (c :: s) = None.

Definition skipsPI {I : Type} (m : matcher I) : Prop :=
  forall s, m (Some OPEN) ("P"%char :: "I"%char :: s) = None.

(** A word that stands alone in a text: an occurrence, in any letter
    case, with no word character right before or right after it. *)
Definition standsAlone (w : string) (text : str) : Prop :=
  exists pre mid post,
    text = pre ++ mid ++ post
    /\ Str.toLowerCase mid = lit w
    /\ wordBefore (lastChar pre) = false
    /\ wordAhead post = false.

End MatchTerms.

(** ** The metrics guard and the schema validator *)

Section GuardTerms.
Import Js types analysisSchemaService.

Definition c1Vault : MetricsVault :=
  [(projectImpact, lit "conversion +18%"); (latencyReduction, lit "120 ms")].

Definition c1Text : str :=
  lit "Improved conversion by 18% and retention by 42%. Reduced latency by 120 ms.".

(** A result whose retry count is a string, and one whose job fit score
    is a string as well. *)
Definition retriesAsString (r : AnalysisResult) (s : str) : JsValue :=
  withProp (resultToJs r) "analysisTrace"
    (withProp (traceToJs (analysisTrace r)) "retries" (JString s)).

Definition twoDefects (r : AnalysisResult) (s : str) : JsValue :=
  withProp (retriesAsString r s) "jobFitScore" (JString s).

(** A result with nothing in it, and an object that has a retry count,
    as a string, and nothing else. *)
Definition sampleResult : AnalysisResult :=
  {| scoreBreakdown := {| baseline := None; enhanced := None; explanation := None |};
     jobFitScore := None; overallFeedback := None; improvements := [];
     optimizedResume := None; optimizedCoverLetter := None; languageDetected := None;
     portfolioAdvice := None; recruiterNotes := None;
     evidenceSnippetWordLimit := Js.ofNat 20;
     keywordCoverage := {| matched := []; missing := []; partial := [] |};
     hardRequirementsMissing := [];
     analysisTrace :=
       {| inputHash := []; retrievalChunkIds := []; retrievalTrace := [];
          modelName := []; tier := []; timestamp := []; retries := Js.ofNat 0 |} |}.

Definition retriesOnly : list (str * JsValue) :=
  [(lit "analysisTrace", JObject [(lit "retries", JString (lit "3"))])].

End GuardTerms.

(** ** Runs of the pipeline *)

Section RunTerms.
Import Js types privacyService geminiService.

(** The callback [analyzeApplication] passes as [onRetry], or none. *)
Definition retryCallback {World : Type} (counting : bool) : option (M World unit) :=
  if counting then Some incrementRetry else None.

Definition bumped (counting : bool) (k n : nat) : nat :=
  if counting then n + k else n.


Definition afterBackoff {World : Type} (counting : bool) (ms : nat) (st : Run World)
  : Run World :=
  {| world := world st; retryCount := bumped counting 1 (retryCount st);
     events := events st ++ [Slept ms] |}.

Definition requestsOf (evs : list Event) : list StageRequestTrace :=
  flat_map (fun e => match e with StageRequested t => [t] | _ => [] end) evs.

Definition promptsOf (evs : list Event) : list str := map t_prompt (requestsOf evs).

Definition generationsOf (evs : list Event) : nat :=
  List.length (filter (fun e => match e with Generated _ => true | _ => false end) evs).

(** What a computation added to the observed events. *)
Definition adds {World A : Type} (run : (JsError + A) * Run World) (st : Run World)
  (new : list Event) : Prop :=
  events (snd run) = events st ++ new.

(** One request of the rewrite stage, as [rewriteDocsWithClient] makes
    it for a prompt. *)
Definition rewriteStage (host : Host) {World : Type}
  (generateContent :
     StageGenerationParams -> World -> (JsError + GenerationResponse) * World)
  (tierConfig : TierConfig) (counting : bool) (prompt : str)
  : M World RewriteDocsResult :=
  runStructuredStage host generateContent tierConfig rewriteDocs
    (rewriteDocsInstruction tierConfig) prompt normalizeRewriteDocs (retryCallback counting).

Definition validationFailure : JsError :=
  newError (lit "rewriteDocs failed validation after correction prompt.").

Definition quickJob (jd : str) : ApplicationInput :=
  {| jobDescription := jd; companyInfo := []; resumeContent := [];
     coverLetterContent := []; portfolioLinks := []; additionalContext := [];
     analysisMode := fast; privacyMode := false; metricsVault := [] |}.





(** A host, a generator and an input for the examples: the generator
    answers every request with an empty object. No example holds a run
    of digits that stands for 2^53 or more. *)
Fixpoint codeUnitOrder (a b : str) : comparison :=
  match a, b with
  | [], [] => Eq
  | [], _ :: _ => Lt
  | _ :: _, [] => Gt
  | x :: a', y :: b' =>
      match Nat.compare (Str.code x) (Str.code y) with
      | Eq => codeUnitOrder a' b'
      | c => c
      end
  end.

Definition sampleHost : Host :=
  {| envApiKey := Some (lit "key");
     largeParseInt := fun _ => PosInfinity;
     floatToString := fun s => Some s;
     localeCompare := codeUnitOrder;
     JSON_parse := fun _ => Some (JObject []);
     JSON_stringify := fun _ => lit "{}";
     sha256Hex := Some (fun _ => lit "00");
     nowISO := lit "2026-01-01T00:00:00.000Z" |}.

Definition sampleGenerator (p : StageGenerationParams) (w : unit)
  : (JsError + GenerationResponse) * unit :=
  (inr {| text := Some (lit "{}") |}, w).

Definition sampleInput : ApplicationInput :=
  {| jobDescription := lit "Required: Python. Contact jobs@example.com.";
     companyInfo := []; resumeContent := lit "Python developer.";
     coverLetterContent := []; portfolioLinks := []; additionalContext := [];
     analysisMode := fast; privacyMode := true; metricsVault := [] |}.

Definition sampleOptions : AnalysisRuntimeOptions := {| modelMode := None; apiKey := None |}.

Definition sampleStart : Run unit := {| world := tt; retryCount := 0; events := [] |}.

(** A rewrite that leaks: the JSON text
    [{"optimizedResume": "Mail x@y.org or [PII_PHONE_9]."}], with an
    address that was never redacted and a placeholder that was never
    issued; a generator that answers with it whatever it is asked, and a
    host whose [JSON.parse] reads this text as [JSON.parse] does, and no
    other. *)
Definition leakingText : str :=
  lit "{" ++ Str.quoted "optimizedResume" ++ lit ": "
  ++ Str.quoted "Mail x@y.org or [PII_PHONE_9]." ++ lit "}".

Definition leakingHost : Host :=
  {| envApiKey := envApiKey sampleHost;
     largeParseInt := largeParseInt sampleHost;
     floatToString := floatToString sampleHost;
     localeCompare := localeCompare sampleHost;
     JSON_parse := fun s =>
       if Str.eqb s leakingText
       then Some (JObject [(lit "optimizedResume",
                            JString (lit "Mail x@y.org or [PII_PHONE_9]."))])
       else None;
     JSON_stringify := JSON_stringify sampleHost;
     sha256Hex := sha256Hex sampleHost;
     nowISO := nowISO sampleHost |}.

Definition leakingGenerator (p : StageGenerationParams) (w : unit)
  : (JsError + GenerationResponse) * unit :=
  (inr {| text := Some leakingText |}, w).

End RunTerms.

(** ** Retrieval *)

Section RetrievalTerms.
Import Js types retrievalService.

(** Two inputs differ only in white space when each of the five fields
    has the same words in the same order: runs of white space between
    words may differ in length and kind, and so may the leading and
    trailing white space. *)
Definition sameWords (a b : RetrievalInput) : Prop :=
  forall s : RetrievalSource, Str.words (field a s) = Str.words (field b s).

Definition pad (s : str) : str := lit "  " ++ s ++ [Str.LF; Str.LF].

End RetrievalTerms.

(** ** The redactor *)

Section RedactorTerms.
Import Regex types privacyService.

(** A first detection: the type, the normalized key and the value as it
    was first spelled. *)
Definition Detection : Type := (PiiType * str * str)%type.

Definition dType (d : Detection) : PiiType := fst (fst d).
Definition dKey (d : Detection) : str := snd (fst d).
Definition dValue (d : Detection) : str := snd d.

Definition sameKey (t : PiiType) (k : str) (d : Detection) : bool :=
  PiiType_eqb t (dType d) && Str.eqb k (dKey d).

(** The distinct (type, normalized value) pairs of a sequence of
    [register] calls, in the order of their first detection. *)
Fixpoint firstDetectionsFrom (seen : list Detection) (calls : list (str * PiiType))
  : list Detection :=
  match calls with
  | [] => seen
  | (v, t) :: rest =>
      let k := normalizePiiKey t v in
      if existsb (sameKey t k) seen then firstDetectionsFrom seen rest
      else firstDetectionsFrom (seen ++ [(t, k, v)]) rest
  end.

Definition firstDetections (calls : list (str * PiiType)) : list Detection :=
  firstDetectionsFrom [] calls.

(** The number of a key among the first detections of its type,
    counting from [n]. *)
Fixpoint rankFrom (n : nat) (t : PiiType) (k : str) (l : list Detection) : option nat :=
  match l with
  | [] => None
  | d :: l' =>
      if PiiType_eqb t (dType d)
      then if Str.eqb k (dKey d) then Some n else rankFrom (S n) t k l'
      else rankFrom n t k l'
  end.

Definition rank (t : PiiType) (k : str) (l : list Detection) : option nat := rankFrom 1 t k l.

Definition countType (t : PiiType) (l : list Detection) : nat :=
  List.length (filter (fun d => PiiType_eqb t (dType d)) l).

Definition entryOf (l : list Detection) (d : Detection) : PiiRedactionEntry :=
  {| placeholder :=
       makePlaceholder (dType d)
         (match rank (dType d) (dKey d) l with Some n => n | None => 0 end);
     original := dValue d;
     type := dType d |}.

(** A sequence of [register] calls, within one text or across fields. *)
Fixpoint registerAll (calls : list (str * PiiType)) (r : Redactor) : list str * Redactor :=
  match calls with
  | [] => ([], r)
  | (v, t) :: rest =>
      let (p, r') := register v t r in
      let (ps, r'') := registerAll rest r' in
      (p :: ps, r'')
  end.

(** The redactor's state after the first detections [seen]. *)
Record Tracks (seen : list Detection) (r : Redactor) : Prop := {
  tr_counters : forall t, counters r t = countType t seen;
  tr_keys : forall t k,
    mapGet (typeName t ++ lit ":" ++ k) (keyToPlaceholder r)
    = option_map (makePlaceholder t) (rank t k seen);
  tr_entries : entries r = map (entryOf seen) seen
}.

(** [Redacts E T R U]: the text [R] is the text [T] with some
    occurrences of originals of entries of [E] replaced by the entries'
    placeholders; [U] lists the entries used, left to right. An opening
    bracket that is kept does not open a placeholder in [T]. *)
Inductive Redacts (E : list PiiRedactionEntry) : str -> str -> list PiiRedactionEntry -> Prop :=
| Redacts_nil : Redacts E [] [] []
| Redacts_keep (c : ascii) (T R : str) (U : list PiiRedactionEntry) :
    (c = OPEN -> Str.startsWith TOKEN_HEAD T = false) ->
    Redacts E T R U -> Redacts E (c :: T) (c :: R) U
| Redacts_hide (e : PiiRedactionEntry) (T R : str) (U : list PiiRedactionEntry) :
    In e E -> Redacts E T R U ->
    Redacts E (original e ++ T) (placeholder e ++ R) (e :: U).

Record wellFormed (E : list PiiRedactionEntry) : Prop := {
  wf_shape : forall e, In e E -> bracketed (placeholder e);
  wf_distinct : NoDup (map placeholder E);
  wf_plain : forall e, In e E -> ~ In OPEN (original e)
}.

(** The redactor together with the calls of [register] so far. *)
Definition State : Type := (Redactor * list (str * PiiType))%type.

Definition registerLogged (value : str) (t : PiiType) (st : State) : str * State :=
  let (p, r) := register value t (fst st) in (p, (r, snd st ++ [(value, t)])).

(** The calls made while one text is redacted from the state [r], and
    by a fresh redactor. *)
Definition textCalls (text : str) (r : Redactor) : list (str * PiiType) :=
  snd (snd (applyPiiRedaction registerLogged text (r, []))).

Definition registrations (text : str) : list (str * PiiType) :=
  textCalls text createRedactor.

(** The calls of a whole run, field after field as
    [prepareApplicationForGemini] scans them. *)
Fixpoint fieldCalls (fields : list TextField) (i : ApplicationInput) (r : Redactor)
  : list (str * PiiType) :=
  match fields with
  | [] => []
  | f :: rest =>
      let (x, r') := applyPiiRedaction register (getField f i) r in
      textCalls (getField f i) r ++ fieldCalls rest (setField f x i) r'
  end.

Fixpoint metricCalls (fields : list MetricKey) (v : MetricsVault) (r : Redactor)
  : list (str * PiiType) :=
  match fields with
  | [] => []
  | f :: rest =>
      match vaultGet f v with
      | Some (c :: value) =>
          let (x, r') := applyPiiRedaction register (c :: value) r in
          textCalls (c :: value) r ++ metricCalls rest (vaultSet f x v) r'
      | _ => metricCalls rest v r
      end
  end.

Definition runRegistrations (input : ApplicationInput) : list (str * PiiType) :=
  let (i1, r1) := redactTextFields TEXT_FIELDS input createRedactor in
  fieldCalls TEXT_FIELDS input createRedactor
  ++ metricCalls METRIC_FIELDS (metricsVault i1) r1.

(** Values of one type with one normalized key are spelled alike. *)
Definition spelledAlike (calls : list (str * PiiType)) : bool :=
  forallb (fun a =>
    forallb (fun b =>
      implb (PiiType_eqb (snd a) (snd b)
             && Str.eqb (normalizePiiKey (snd a) (fst a)) (normalizePiiKey (snd b) (fst b)))
            (Str.eqb (fst a) (fst b))) calls) calls.

Definition Alike (calls : list (str * PiiType)) : Prop :=
  forall v v' t, In (v, t) calls -> In (v', t) calls ->
    normalizePiiKey t v = normalizePiiKey t v' -> v = v'.

(** What the redactor's state satisfies after the calls [log]. *)
Record Sound (log : list (str * PiiType)) (r : Redactor) : Prop := {
  so_shape : forall e, In e (entries r) ->
    exists n, placeholder e = makePlaceholder (type e) n /\ 1 <= n <= counters r (type e);
  so_distinct : NoDup (map placeholder (entries r));
  so_keys : forall key p, mapGet key (keyToPlaceholder r) = Some p ->
    exists e, In e (entries r) /\ placeholder e = p /\ key = piiKey (type e) (original e);
  so_count : forall t, counters r t <= List.length (entries r);
  so_logged : forall e, In e (entries r) -> In (original e, type e) log;
  so_plain : forall c, In c log -> ~ In OPEN (fst c)
}.

(** [hides E mt rep U]: before any text redacted by entries that
    include [E], [rep] redacts [mt] using the entries [U]. *)
Definition hides (E : list PiiRedactionEntry) (mt rep : str)
  (U : list PiiRedactionEntry) : Prop :=
  forall E' T R U',
    incl E E' -> Redacts E' T R U' -> Redacts E' (mt ++ T) (rep ++ R) (U ++ U').

(** What a step made of a state [st]: the state stays sound, the log
    and the entries grow and, when the values logged are spelled alike,
    the step's result satisfies [P] of entries that include every new
    one. *)
Definition steps (st : State) (out : str * State)
  (P : list PiiRedactionEntry -> Prop) : Prop :=
  Sound (snd (snd out)) (fst (snd out))
  /\ (exists ext, snd (snd out) = snd st ++ ext)
  /\ exists new,
       entries (fst (snd out)) = entries (fst st) ++ new
       /\ (Alike (snd (snd out)) -> exists U', P U' /\ incl new U').

(** The value and the type that an entry stands for. *)
Definition callOf (e : PiiRedactionEntry) : str * PiiType := (original e, type e).

(** The calls that lead from the state [st] to the state [st']. *)
Definition added (st st' : State) : list (str * PiiType) :=
  skipn (List.length (snd st)) (snd st').

(** A pass redacts [T], keeping what [U] had used: what it hides in
    addition is what it registered, one occurrence for each call. *)
Definition advances (st : State) (T : str) (U : list PiiRedactionEntry)
  (out : str * State) : Prop :=
  steps st out
    (fun U' => Redacts (entries (fst (snd out))) T (fst out) U' /\ incl U U'
               /\ Permutation (map callOf U') (map callOf U ++ added st (snd out))).

(** The callback redacts the match it is given, hiding what it
    registers. *)
Definition respects {I : Type} (m : matcher I) (fn : str -> I -> State -> str * State)
  : Prop :=
  forall prev s i n st, m prev s = Some (i, n) -> Sound (snd st) (fst st) ->
    steps st (fn (firstn n s) i st)
      (fun U => hides (entries (fst (snd (fn (firstn n s) i st)))) (firstn n s)
                      (fst (fn (firstn n s) i st)) U
                /\ map callOf U = added st (snd (fn (firstn n s) i st))).

(** The log grows by the calls that lead from one redactor to the
    next. *)
Definition grows (st st' : State) : Prop :=
  exists ext, snd st' = snd st ++ ext /\ fst st' = snd (registerAll ext (fst st)).

(** Logging the calls changes neither the text nor the redactor. *)
Definition agrees {A : Type} (x : A * State) (y : A * Redactor) : Prop :=
  fst x = fst y /\ fst (snd x) = snd y.

(** The resume of the redaction test. *)
Definition sampleResume : str :=
  lit "John Doe, born 01/12/1990. Email john.doe@example.com, phone +1 (415) 555-1212. Address 221 Baker Street. Senior ML Engineer at DataCorp in Berlin.".

End RedactorTerms.

(** ** Retrieval chunks *)

Section ChunkTerms.
Import retrievalService.

(** A chunk of [source] cut from the normalized text: a window of the
    text, not empty, no longer than the larger of [maxChars] and the
    least chunk length; its text is the window, trimmed, and not empty;
    its token estimate is that of its text. *)
Definition windowOf (src : RetrievalSource) (normalized : str) (maxChars : nat)
  (c : RetrievalChunk) : Prop :=
  source c = src
  /\ start c < end_ c /\ end_ c <= List.length normalized
  /\ end_ c - start c <= Nat.max maxChars MIN_SPLIT_POINT
  /\ text c = Str.trim (slice normalized (start c) (end_ c))
  /\ text c <> []
  /\ tokenEstimate c = estimateTokens (text c).

(** The identifier that [chunkTextForRetrieval] gives the [k]-th chunk. *)
Definition numbered (src : RetrievalSource) (k : nat) (c : RetrievalChunk) : Prop :=
  id c = chunkId src k (start c) (end_ c).

(** The position [i] of the normalized text lies in the window of [c]. *)
Definition covers (i : nat) (c : RetrievalChunk) : Prop := start c <= i < end_ c.

(** No white space at either end of [s] after [afterSpace], and no two
    white-space characters side by side. *)
Fixpoint spacedFrom (afterSpace : bool) (s : str) : bool :=
  match s with
  | [] => negb afterSpace
  | c :: s' =>
      if Str.isSpace c then negb afterSpace && spacedFrom true s' else spacedFrom false s'
  end.

(** [left] may stand before [right] in the selection: its score is not
    the smaller one. *)
Definition scoredBefore (left right : RetrievalChunk) : Prop :=
  scoreChunk200 right <= scoreChunk200 left.

Definition sourceBefore (left right : RetrievalChunk) : Prop :=
  SOURCE_PRIORITY (source right) <= SOURCE_PRIORITY (source left).

End ChunkTerms.

(** ** Keyword coverage *)

Section CoverageTerms.
Import types atsCoverageService.

(** Items that [dedupePreserveOrder] tells apart: none is blank and no
    two have the same form under [normalizeForMatch]. *)
Definition distinctItems (items : list str) : Prop :=
  NoDup (map normalizeForMatch items) /\ Forall (fun x => normalizeForMatch x <> []) items.

(** [kept] is [items] with some items left out, the others in place. *)
Inductive keptFrom {A : Type} : list A -> list A -> Prop :=
| keptFrom_nil : keptFrom [] []
| keptFrom_take x kept items : keptFrom kept items -> keptFrom (x :: kept) (x :: items)
| keptFrom_drop x kept items : keptFrom kept items -> keptFrom kept (x :: items).

(** A resume without a single fact. *)
Definition noFacts : ResumeFactsForCoverage :=
  {| skills := []; experience := []; achievements := []; education := [];
     certifications := [] |}.

End CoverageTerms.

(** ** Where a match can start *)

Section FirstTerms.
Import Regex.

(** The characters a match of [r] that is not empty can start with. *)
Fixpoint firstOf (r : re) (c : ascii) : bool :=
  match r with
  | Chr p => p c
  | Seq a b => firstOf a c || ((minLen a =? 0) && firstOf b c)
  | Alt a b => firstOf a c || firstOf b c
  | Star a | StarLazy a => firstOf a c
  | Eps | Bnd | Bol | Start | End => false
  end.

(** How a matched text starts. *)
Definition startsIn (ok : ascii -> bool) (mt : str) : bool :=
  match mt with
  | [] => true
  | c :: _ => ok c
  end.

Definition noDigit (c : ascii) : bool := negb (Str.isDigit c).

End FirstTerms.

(** ** The trace of an analysis *)

Section TraceTerms.
Import Js types privacyService geminiService.

(** The back-off sleeps among the observed events. *)
Definition sleepsOf (evs : list Event) : nat :=
  List.length (filter (fun e => match e with Slept _ => true | _ => false end) evs).

(** The request that a stage hands to [onStageRequest]. *)
Definition requestOf (tierConfig : TierConfig) (stageName : StageName)
  (instruction prompt : str) : StageRequestTrace :=
  {| t_stageName := stageName; t_model := model tierConfig; t_tier := tier tierConfig;
     t_prompt := prompt; t_systemInstruction := instruction |}.

(** The fields of an input that retrieval reads. *)
Definition retrievalInputOf (input : ApplicationInput) : retrievalService.RetrievalInput :=
  {| retrievalService.r_jobDescription := jobDescription input;
     retrievalService.r_resumeContent := resumeContent input;
     retrievalService.r_coverLetterContent := coverLetterContent input;
     retrievalService.r_companyInfo := companyInfo input;
     retrievalService.r_additionalContext := additionalContext input |}.

(** The two documents of a rewrite, as the validations read them. *)
Definition combinedOutput (draft : RewriteDocsResult) : str :=
  metricsGuardService.orEmpty (optimizedResume draft) ++ [Str.LF]
  ++ metricsGuardService.orEmpty (optimizedCoverLetter draft).

(** A host for the examples whose generator answers are read as one
    object: a gap with three pieces of evidence, of which the missing
    keyword is not in the job description, and a resume that keeps the
    placeholder of the redacted address. *)
Definition sampleAnswer : JsValue :=
  JObject
    [(lit "gapAnalysis",
      JArray [JObject
                [(lit "point", JString (lit "Name the language."));
                 (lit "category", JString (lit "critical"));
                 (lit "evidence",
                  JObject [(lit "resumeQuotes", strings [lit "python   DEVELOPER"]);
                           (lit "jdQuotes", strings [lit "Required: Python"]);
                           (lit "missingKeywords", strings [lit "Rust"])])]]);
     (lit "optimizedResume", JString (lit "Python developer. Write to [PII_EMAIL_1]."))].

Definition answeringHost : Host :=
  {| envApiKey := envApiKey sampleHost;
     largeParseInt := largeParseInt sampleHost;
     floatToString := floatToString sampleHost;
     localeCompare := localeCompare sampleHost;
     JSON_parse := fun _ => Some sampleAnswer;
     JSON_stringify := JSON_stringify sampleHost;
     sha256Hex := sha256Hex sampleHost;
     nowISO := nowISO sampleHost |}.

(** The sample input with one metric in its vault. *)
Definition vaultedInput : ApplicationInput :=
  {| jobDescription := jobDescription sampleInput;
     companyInfo := companyInfo sampleInput;
     resumeContent := resumeContent sampleInput;
     coverLetterContent := coverLetterContent sampleInput;
     portfolioLinks := portfolioLinks sampleInput;
     additionalContext := additionalContext sampleInput;
     analysisMode := analysisMode sampleInput;
     privacyMode := privacyMode sampleInput;
     metricsVault := [(usersServed, lit "1 million users")] |}.

End TraceTerms.

(** ** The response of a stage *)

Section ResponseTerms.
Import Js types geminiService.

Definition FENCE : str := lit "```".

(** A response inside a fence: the tag after the opening backquotes, the
    white space around the body. *)
Definition fenced (tag before body after : str) : str :=
  FENCE ++ tag ++ before ++ body ++ after ++ FENCE.

(** The tag of a fence that [parseJsonText] removes: [json] in any
    letter case, or none before a body that does not begin with the
    letter j. *)
Definition jsonTag (tag body : str) : Prop :=
  Str.toLowerCase tag = lit "json"
  \/ (tag = [] /\ forall c rest, body = c :: rest -> Str.lowerChar c <> "j"%char).

Definition blank (s : str) : Prop := forallb Str.isSpace s = true.

(** What [parseJsonText] answers once it has found the text to parse. *)
Definition parsedAs {World : Type} (host : Host) (stageName jsonText : str) (st : Run World)
  : (JsError + JsValue) * Run World :=
  match JSON_parse host jsonText with
  | Some v => (inr v, st)
  | None => (inl (newError (stageName ++ lit ": invalid JSON response")), st)
  end.

End ResponseTerms.

(** ** Detections *)

Section DetectionTerms.
Import Regex types privacyService.

(** No detector finds anything in the text. *)
Definition piiFree (text : str) : Prop := detectPii text = [].

(** The text a list of segments came from. *)
Definition segmentText {I : Type} (g : segment I) : str :=
  match g with Lit c => [c] | Hit t _ => t end.

(** The detections of a text that the entries do not account for. *)
Definition unaccounted (text : str) (es : list PiiRedactionEntry) : list PiiDetection :=
  filter (fun d => negb (Str.mem (piiKey (d_type d) (d_value d))
                           (map (fun e => piiKey (type e) (original e)) es)))
         (detectPii text).

Definition ofType (t : PiiType) (ds : list PiiDetection) : list PiiDetection :=
  filter (fun d => PiiType_eqb t (d_type d)) ds.

(** The occurrences that the issues report for one type. *)
Definition issueCount (t : PiiType) (issues : list PiiValidationIssue) : nat :=
  list_sum (map count (filter (fun i => PiiType_eqb t (i_type i)) issues)).

(** An input in which the detectors find nothing. *)
Definition plainInput : ApplicationInput :=
  {| jobDescription := lit "Required: Python and SQL.";
     companyInfo := lit "A small team."; resumeContent := lit "Python developer since 2019.";
     coverLetterContent := []; portfolioLinks := []; additionalContext := [];
     analysisMode := fast; privacyMode := true;
     metricsVault := [(uptime, lit "99.9% uptime"); (usersServed, [])] |}.

End DetectionTerms.

(** ** Keywords that the resume names *)

Section NamingTerms.
Import types atsCoverageService.

(** The words of a text, in lower case. *)
Definition wordsOf (x : str) : list str := map Str.toLowerCase (Str.words x).

(** The item holds the words of the keyword, in sequence, as words of
    its own. *)
Definition names (item keyword : str) : Prop :=
  exists pre post, wordsOf item = pre ++ wordsOf keyword ++ post.

(** The texts that [buildResumeCorpus] joins. *)
Definition resumeItems (resumeFacts : ResumeFactsForCoverage) : list str :=
  skills resumeFacts ++ achievements resumeFacts ++ education resumeFacts
  ++ certifications resumeFacts
  ++ flat_map (fun e => truthy (employer e) ++ truthy (role e) ++ x_achievements e)
              (experience resumeFacts).

(** A keyword long enough to be classified, or one of the short ones
    let through. *)
Definition classifiable (keyword : str) : Prop :=
  2 < List.length (normalizeKeyword keyword)
  \/ inWords SHORT_TECH_ALLOWLIST (normalizeKeyword keyword) = true.

Definition pythonFacts : ResumeFactsForCoverage :=
  {| skills := [lit "SQL"]; experience := [];
     achievements := [lit "Built ETL jobs in  Python 3"]; education := [];
     certifications := [] |}.

End NamingTerms.

(** ** Bracketed values *)

Section BracketTerms.
Import Js geminiJson.

(** The rest of a string literal after its opening quote, the closing
    quote included: a backslash takes the code unit after it along. *)
Inductive stringTail : str -> Prop :=
| tail_close : stringTail [Str.DQ]
| tail_char (ch : ascii) (t : str) :
    ch <> Str.DQ -> ch <> BACKSLASH -> stringTail t -> stringTail (ch :: t)
| tail_escape (ch : ascii) (t : str) :
    stringTail t -> stringTail (BACKSLASH :: ch :: t).

(** A text in which the brackets [o] and [c] outside of string literals
    are balanced and every string literal is closed. *)
Inductive closedText (o c : ascii) : str -> Prop :=
| closed_nil : closedText o c []
| closed_plain (ch : ascii) (t : str) :
    ch <> o -> ch <> c -> ch <> Str.DQ -> closedText o c t -> closedText o c (ch :: t)
| closed_string (l t : str) :
    stringTail l -> closedText o c t -> closedText o c (Str.DQ :: l ++ t)
| closed_nest (inner t : str) :
    closedText o c inner -> closedText o c t -> closedText o c (o :: inner ++ c :: t).

(** An object or an array: its brackets around a closed text. *)
Definition bracketedValue (value : str) : Prop :=
  exists o c body,
    value = o :: body ++ [c]
    /\ ((o = "{"%char /\ c = "}"%char) \/ (o = "["%char /\ c = "]"%char))
    /\ closedText o c body.

(** The needle does not occur in the text before position [n]. *)
Definition firstAt (needle text : str) (n : nat) : Prop :=
  Str.startsWith needle (skipn n text) = true
  /\ forall i, i < n -> Str.startsWith needle (skipn i text) = false.

Definition noBracket (gap : str) : Prop :=
  forallb (fun ch => negb (Ascii.eqb ch "{" || Ascii.eqb ch "[")) gap = true.

(** The JSON text [{"k": [{}, "}"]}], with a closing brace inside a
    string literal, and the value that [JSON.parse] returns for it. *)
Definition quotedBrace : str :=
  lit "{" ++ [Str.DQ] ++ lit "k" ++ [Str.DQ] ++ lit ": [{}, "
  ++ [Str.DQ] ++ lit "}" ++ [Str.DQ] ++ lit "]}".

Definition quotedBraceValue : JsValue :=
  JObject [(lit "k", JArray [JObject []; JString (lit "}")])].

(** A host for the example: its [JSON.parse] knows this one text, as
    [JSON.parse] reads it, and no other, so that a value read back also
    tells which text was handed over. *)
Definition readingHost : Host :=
  {| envApiKey := envApiKey sampleHost;
     largeParseInt := largeParseInt sampleHost;
     floatToString := floatToString sampleHost;
     localeCompare := localeCompare sampleHost;
     JSON_parse := fun s => if Str.eqb s quotedBrace then Some quotedBraceValue else None;
     JSON_stringify := JSON_stringify sampleHost;
     sha256Hex := sha256Hex sampleHost;
     nowISO := nowISO sampleHost |}.

End BracketTerms.

(** ** Normalized stage results *)

Section NormalTerms.
Import Js types geminiService.

(** A text that is not empty and has no white space at its ends. *)
Definition trimmedText (s : str) : Prop := s <> [] /\ Str.trim s = s.

Definition cleanOpt (x : option str) : Prop :=
  match x with Some s => trimmedText s | None => True end.

Definition finiteOpt (x : option JsNumber) : Prop :=
  match x with Some n => isFinite n = true | None => True end.

(** An evidence snippet as the normalizer leaves it: not empty, its
    words (at most 20) separated by single spaces. *)
Definition snippetText (s : str) : Prop := s <> [] /\ clampSnippetWords s = s.

Definition cleanEvidence (e : ImprovementEvidence) : Prop :=
  Forall snippetText (resumeQuotes e) /\ Forall snippetText (jdQuotes e)
  /\ Forall snippetText (missingKeywords e).

Definition cleanGap (g : GapItem) : Prop :=
  cleanOpt (point g) /\ cleanOpt (impact g) /\ cleanEvidence (evidence g).

Definition cleanScoring (x : ScoreMatchResult) : Prop :=
  finiteOpt (baselineScore x) /\ finiteOpt (enhancedScore x) /\ finiteOpt (jobFitScore x)
  /\ cleanOpt (explanation x) /\ cleanOpt (overallFeedback x)
  /\ Forall cleanGap (gapAnalysis x)
  /\ cleanOpt (portfolioAdvice x) /\ cleanOpt (recruiterNotes x)
  /\ Forall trimmedText (confidenceNotes x).

Definition cleanExperience (e : ExtractedExperience) : Prop :=
  cleanOpt (employer e) /\ cleanOpt (role e) /\ cleanOpt (startDate e)
  /\ cleanOpt (endDate e) /\ Forall trimmedText (x_achievements e).

Definition cleanExtracted (x : ExtractFactsResult) : Prop :=
  (cleanOpt (roleTitle (jdFacts x)) /\ cleanOpt (companyName (jdFacts x))
   /\ Forall trimmedText (mustHaveSkills (jdFacts x))
   /\ Forall trimmedText (niceToHaveSkills (jdFacts x))
   /\ Forall trimmedText (responsibilities (jdFacts x))
   /\ finiteOpt (requiredExperienceYears (jdFacts x))
   /\ Forall trimmedText (keywords (jdFacts x)))
  /\ (cleanOpt (candidateName (resumeFacts x))
      /\ Forall trimmedText (skills (resumeFacts x))
      /\ Forall cleanExperience (experience (resumeFacts x))
      /\ Forall trimmedText (achievements (resumeFacts x))
      /\ Forall trimmedText (education (resumeFacts x))
      /\ Forall trimmedText (certifications (resumeFacts x)))
  /\ (Forall trimmedText (keyClaims (coverLetterFacts x))
      /\ Forall trimmedText (motivations (coverLetterFacts x)))
  /\ Forall trimmedText (explicitUserAchievements x)
  /\ Forall trimmedText (missingData x).

Definition cleanRewrite (x : RewriteDocsResult) : Prop :=
  cleanOpt (optimizedResume x) /\ cleanOpt (optimizedCoverLetter x)
  /\ cleanOpt (rewriteNotes x).

(** An answer of the score stage with untidy texts. *)
Definition untidyScoring : JsValue :=
  JObject [(lit "baselineScore", JNumber NaN);
           (lit "jobFitScore", JNumber (Js.ofNat 70));
           (lit "explanation", JString (lit "  close match "));
           (lit "gapAnalysis",
            JArray [JObject [(lit "point", JString (lit " "));
                             (lit "category", JString (lit "minor"));
                             (lit "evidence",
                              JObject [(lit "jdQuotes",
                                        JArray [JString (lit " Required:   Python ");
                                                JNull])])]]);
           (lit "confidenceNotes", JString (lit "none"))].

End NormalTerms.

(** ** The input hash *)

Section HashTerms.
Import Js types privacyService geminiService.

Definition sameTextWords (a b : str) : Prop := Str.words a = Str.words b.

(** Two inputs that differ at most in the white space of their texts
    and metrics, and in what the hash does not read. *)
Definition sameSpacedInput (a b : ApplicationInput) : Prop :=
  Forall (fun f => sameTextWords (getField f a) (getField f b)) TEXT_FIELDS
  /\ analysisMode a = analysisMode b
  /\ privacyMode a = privacyMode b
  /\ Forall (fun k => sameTextWords (metricsGuardService.orEmpty (vaultGet k (metricsVault a)))
                                (metricsGuardService.orEmpty (vaultGet k (metricsVault b))))
            METRICS_HASH_FIELDS.

Definition spacedInput : ApplicationInput :=
  {| jobDescription := lit "  Required:   Python and SQL. ";
     companyInfo := lit "A small" ++ [Str.LF] ++ lit "team.";
     resumeContent := lit "Python   developer since 2019.";
     coverLetterContent := lit " "; portfolioLinks := []; additionalContext := [];
     analysisMode := fast; privacyMode := true;
     metricsVault := [(usersServed, lit " "); (uptime, lit "99.9%  uptime")] |}.

End HashTerms.

(** * Properties *)

(** ** Strings: equality and decimal numerals *)

Lemma Str_eqb_eq (a b : str) : Str.eqb a b = true <-> a = b.
Proof.
  revert b. induction a as [| x a IH]; intros [| y b]; simpl; split; intros H;
    try reflexivity; try discriminate.
  - apply andb_true_iff in H. destruct H as [H1 H2].
    apply Ascii.eqb_eq in H1. apply IH in H2. subst. reflexivity.
  - injection H as -> ->. rewrite Ascii.eqb_refl. simpl. apply IH. reflexivity.
Qed.

Lemma Str_eqb_refl (a : str) : Str.eqb a a = true.
Proof. apply Str_eqb_eq. reflexivity. Qed.

Lemma Str_eqb_neq (a b : str) : Str.eqb a b = false <-> a <> b.
Proof.
  split.
  - intros H E. apply Str_eqb_eq in E. congruence.
  - intros H. destruct (Str.eqb a b) eqn:E; [| reflexivity].
    apply Str_eqb_eq in E. contradiction.
Qed.

Lemma lit_inj (a b : string) : lit a = lit b -> a = b.
Proof.
  unfold lit. intros H.
  rewrite <- (string_of_list_ascii_of_string a), <- (string_of_list_ascii_of_string b).
  rewrite H. reflexivity.
Qed.

Lemma ofNat_inj (n m : nat) : Str.ofNat n = Str.ofNat m -> n = m.
Proof.
  unfold Str.ofNat. intros H. apply lit_inj in H.
  assert (E : Nat.to_uint n = Nat.to_uint m).
  { assert (S : Some (Nat.to_uint n) = Some (Nat.to_uint m)).
    { rewrite <- (DecimalString.NilEmpty.usu (Nat.to_uint n)),
              <- (DecimalString.NilEmpty.usu (Nat.to_uint m)), H. reflexivity. }
    injection S as S. exact S. }
  apply DecimalNat.Unsigned.to_uint_inj. exact E.
Qed.

Lemma Forall2_nth_error {A B : Type} (P : A -> B -> Prop) (l : list A) (l' : list B) :
  Forall2 P l l' ->
  forall i a b, nth_error l i = Some a -> nth_error l' i = Some b -> P a b.
Proof.
  induction 1 as [| x y l l' H F IH]; intros [| i] a b Ha Hb; simpl in *;
    try discriminate.
  - injection Ha as <-. injection Hb as <-. exact H.
  - eapply IH; eassumption.
Qed.

(** ** Words and white space *)

Section WordFacts.

Lemma isSpace_SP : Str.isSpace SP = true.
Proof. reflexivity. Qed.

Lemma wordsAcc_word (w cur rest : str) :
  forallb (fun c => negb (Str.isSpace c)) w = true ->
  Str.wordsAcc cur (w ++ rest) = Str.wordsAcc (rev w ++ cur) rest.
Proof.
  revert cur. induction w as [| c w IH]; intros cur H; simpl in *; [reflexivity |].
  apply andb_true_iff in H. destruct H as [Hc Hw].
  apply negb_true_iff in Hc. rewrite Hc. rewrite IH by exact Hw.
  rewrite <- app_assoc. reflexivity.
Qed.

Lemma words_all_wordy_acc (s cur : str) :
  forallb (fun c => negb (Str.isSpace c)) cur = true ->
  Forall wordy (Str.wordsAcc cur s).
Proof.
  revert cur. induction s as [| c s IH]; intros cur H; simpl.
  - destruct cur as [| x cur]; constructor; [| constructor].
    split.
    + intros E. apply (f_equal (@List.length ascii)) in E.
      rewrite length_rev in E. discriminate E.
    + apply forallb_forall. intros y Hy. apply in_rev in Hy.
      rewrite forallb_forall in H. apply H. exact Hy.
  - destruct (Str.isSpace c) eqn:E.
    + destruct cur as [| x cur]; [apply IH; reflexivity |].
      constructor; [| apply IH; reflexivity].
      split.
      * intros Q. apply (f_equal (@List.length ascii)) in Q.
        rewrite length_rev in Q. discriminate Q.
      * apply forallb_forall. intros y Hy. apply in_rev in Hy.
        rewrite forallb_forall in H. apply H. exact Hy.
    + apply IH. simpl. rewrite E. exact H.
Qed.

Lemma words_all_wordy (s : str) : Forall wordy (Str.words s).
Proof. apply words_all_wordy_acc. reflexivity. Qed.

(** Reading the words back from their join. *)
Lemma words_join (ws : list str) :
  Forall wordy ws -> Str.words (Str.join [SP] ws) = ws.
Proof.
  unfold Str.words.
  induction 1 as [| w ws [N H] F IH]; [reflexivity |].
  destruct ws as [| w' ws].
  - simpl. rewrite <- (app_nil_r w) at 1.
    rewrite wordsAcc_word by exact H. simpl. rewrite app_nil_r.
    destruct (rev w) eqn:E; [| rewrite <- E, rev_involutive; reflexivity].
    apply (f_equal (@rev ascii)) in E. rewrite rev_involutive in E. contradiction.
  - change (Str.join [SP] (w :: w' :: ws)) with (w ++ [SP] ++ Str.join [SP] (w' :: ws)).
    rewrite wordsAcc_word by exact H. rewrite app_nil_r.
    cbn [app Str.wordsAcc]. rewrite isSpace_SP.
    destruct (rev w) eqn:E.
    + apply (f_equal (@rev ascii)) in E. rewrite rev_involutive in E. contradiction.
    + rewrite <- E, rev_involutive. f_equal. exact IH.
Qed.

Lemma dropWhile_app (p : ascii -> bool) (x y : str) :
  Str.dropWhile p (x ++ y)
  = match Str.dropWhile p x with
    | [] => Str.dropWhile p y
    | d => d ++ y
    end.
Proof.
  induction x as [| c x IH]; simpl; [destruct (Str.dropWhile p y); reflexivity |].
  destruct (p c); [exact IH | reflexivity].
Qed.

Lemma trimEnd_app (a b : str) :
  Str.trimEnd (a ++ b)
  = match Str.trimEnd b with
    | [] => Str.trimEnd a
    | t => a ++ t
    end.
Proof.
  unfold Str.trimEnd. rewrite rev_app_distr, dropWhile_app.
  destruct (Str.dropWhile Str.isSpace (rev b)) as [| c d] eqn:E; [reflexivity |].
  rewrite rev_app_distr, rev_involutive.
  destruct (rev (c :: d)) eqn:R; [| reflexivity].
  apply (f_equal (@List.length ascii)) in R. rewrite length_rev in R. discriminate R.
Qed.

Lemma dropWhile_clean (s : str) : startsClean s -> Str.dropWhile Str.isSpace s = s.
Proof. destruct s as [| c s]; simpl; [reflexivity |]. intros ->. reflexivity. Qed.

Lemma dropWhile_startsClean (s : str) : startsClean (Str.dropWhile Str.isSpace s).
Proof.
  induction s as [| c s IH]; simpl; [exact I |].
  destruct (Str.isSpace c) eqn:E; [exact IH | exact E].
Qed.

Lemma dropWhile_length (p : ascii -> bool) (s : str) :
  List.length (Str.dropWhile p s) <= List.length s.
Proof.
  induction s as [| c s IH]; simpl; [lia |]. destruct (p c); simpl; lia.
Qed.

Lemma trimEnd_word (w : str) :
  forallb notSpace w = true -> Str.trimEnd w = w.
Proof.
  intros H. unfold Str.trimEnd.
  rewrite dropWhile_clean; [apply rev_involutive |].
  destruct (rev w) as [| c r] eqn:E; [exact I |]. simpl.
  assert (I : In c w) by (apply in_rev; rewrite E; left; reflexivity).
  rewrite forallb_forall in H. specialize (H c I). unfold notSpace in H.
  apply negb_true_iff in H. exact H.
Qed.

Lemma collapseFrom_run (s : str) :
  Str.collapseFrom true s = Str.collapseFrom false (Str.dropWhile Str.isSpace s).
Proof.
  induction s as [| c s IH]; simpl; [reflexivity |].
  destruct (Str.isSpace c) eqn:E; [exact IH |]. simpl. rewrite E. reflexivity.
Qed.

Lemma wordsAcc_skip (s : str) :
  Str.wordsAcc [] s = Str.wordsAcc [] (Str.dropWhile Str.isSpace s).
Proof.
  induction s as [| c s IH]; simpl; [reflexivity |].
  destruct (Str.isSpace c) eqn:E; [exact IH |]. simpl. rewrite E. reflexivity.
Qed.

Lemma join_cons (w : str) (ws : list str) :
  Str.join [SP] (w :: ws)
  = match ws with [] => w | _ => w ++ [SP] ++ Str.join [SP] ws end.
Proof. destruct ws; reflexivity. Qed.

Lemma join_wordy_nonempty (w : str) (ws : list str) :
  wordy w -> Str.join [SP] (w :: ws) <> [].
Proof.
  intros [N _]. rewrite join_cons. destruct ws; [exact N |].
  destruct w; [contradiction | discriminate].
Qed.

(** Collapsing the runs and trimming the end leaves the words joined by
    single spaces; [cur] is the word being read, reversed. *)
Lemma collapse_words (n : nat) (s cur : str) :
  List.length s <= n ->
  forallb notSpace cur = true ->
  cur <> [] \/ startsClean s ->
  Str.trimEnd (rev cur ++ Str.collapseFrom false s) = Str.join [SP] (Str.wordsAcc cur s).
Proof.
  revert s cur. induction n as [| n IH]; intros s cur L H C.
  - destruct s; [| simpl in L; lia]. simpl. rewrite app_nil_r.
    assert (H' : forallb notSpace (rev cur) = true).
    { apply forallb_forall. intros x Hx. apply in_rev in Hx.
      rewrite forallb_forall in H. apply H. exact Hx. }
    rewrite trimEnd_word by exact H'. destruct cur; reflexivity.
  - destruct s as [| c s].
    + apply (IH [] cur); [simpl; lia | exact H | exact C].
    + simpl in L. cbn [Str.collapseFrom Str.wordsAcc].
      destruct (Str.isSpace c) eqn:E.
      * assert (N : cur <> []) by (destruct C as [N | N]; [exact N | simpl in N; congruence]).
        rewrite collapseFrom_run, (wordsAcc_skip s).
        pose proof (dropWhile_length Str.isSpace s) as Ld.
        pose proof (dropWhile_startsClean s) as Cd.
        set (t := Str.dropWhile Str.isSpace s) in *.
        assert (IHt : Str.trimEnd (Str.collapseFrom false t) = Str.join [SP] (Str.wordsAcc [] t)).
        { apply (IH t []); [lia | reflexivity | right; exact Cd]. }
        assert (H' : forallb notSpace (rev cur) = true).
        { apply forallb_forall. intros x Hx. apply in_rev in Hx.
          rewrite forallb_forall in H. apply H. exact Hx. }
        rewrite trimEnd_app.
        replace (" "%char :: Str.collapseFrom false t)
          with ([SP] ++ Str.collapseFrom false t) by reflexivity.
        rewrite trimEnd_app, IHt.
        pose proof (words_all_wordy_acc t [] eq_refl) as W.
        destruct (Str.wordsAcc [] t) as [| w ws] eqn:Ew.
        -- cbn [Str.join]. change (Str.trimEnd [SP]) with (@nil ascii).
           rewrite trimEnd_word by exact H'.
           destruct cur; [contradiction | reflexivity].
        -- inversion W as [| ? ? Ww Wws]; subst.
           destruct (Str.join [SP] (w :: ws)) eqn:J.
           ++ exfalso. exact (join_wordy_nonempty w ws Ww J).
           ++ cbn [app]. destruct cur as [| x cur]; [contradiction |].
              change (Str.join [SP] (rev (x :: cur) :: w :: ws))
                with (rev (x :: cur) ++ [SP] ++ Str.join [SP] (w :: ws)).
              rewrite J. reflexivity.
      * change (rev cur ++ c :: Str.collapseFrom false s)
          with (rev cur ++ [c] ++ Str.collapseFrom false s).
        rewrite app_assoc. change (rev cur ++ [c]) with (rev (c :: cur)).
        apply IH; [lia | | left; discriminate].
        cbn [forallb]. unfold notSpace at 1. rewrite E. exact H.
Qed.

Lemma trimStart_collapse (s : str) :
  Str.trimStart (Str.collapseSpaces s) = Str.collapseSpaces (Str.trimStart s).
Proof.
  unfold Str.trimStart, Str.collapseSpaces.
  assert (K : forall t, startsClean t ->
                        Str.dropWhile Str.isSpace (Str.collapseFrom false t)
                        = Str.collapseFrom false t).
  { intros [| c t]; simpl; [reflexivity |]. intros E. rewrite E. simpl. rewrite E. reflexivity. }
  destruct s as [| c s]; [reflexivity |]. simpl.
  destruct (Str.isSpace c) eqn:E.
  - simpl. rewrite collapseFrom_run. apply K. apply dropWhile_startsClean.
  - simpl. rewrite E. reflexivity.
Qed.

(** [s.replace(/\s+/g, " ").trim()] is the words of [s] joined by single
    spaces. *)
Lemma trim_collapse_words (s : str) :
  Str.trim (Str.collapseSpaces s) = Str.join [SP] (Str.words s).
Proof.
  unfold Str.trim. rewrite trimStart_collapse.
  unfold Str.words. rewrite (wordsAcc_skip s).
  unfold Str.collapseSpaces, Str.trimStart.
  apply (collapse_words (List.length (Str.dropWhile Str.isSpace s)) _ []);
    [lia | reflexivity | right; apply dropWhile_startsClean].
Qed.

End WordFacts.

(** ** Substrings *)

Section SubstringFacts.

Lemma startsWith_prefix (p s : str) :
  Str.startsWith p s = true <-> exists post, s = p ++ post.
Proof.
  revert s. induction p as [| x p IH]; intros s; simpl.
  - split; [intros _; exists s; reflexivity | reflexivity].
  - destruct s as [| y s].
    + split; [discriminate | intros [post H]; discriminate H].
    + rewrite andb_true_iff, IH. split.
      * intros [E [post ->]]. apply Ascii.eqb_eq in E. subst. exists post. reflexivity.
      * intros [post H]. injection H as -> ->. rewrite Ascii.eqb_refl.
        split; [reflexivity | exists post; reflexivity].
Qed.

(** [hay.includes(needle)] holds exactly when [needle] occurs in [hay]. *)
Lemma includes_infix (hay needle : str) :
  Str.includes hay needle = true <-> exists pre post, hay = pre ++ needle ++ post.
Proof.
  induction hay as [| c hay IH]; simpl.
  - rewrite orb_false_r, startsWith_prefix. split.
    + intros [post H]. exists [], post. exact H.
    + intros (pre & post & H). destruct pre; [exists post; exact H |]. discriminate H.
  - rewrite orb_true_iff, startsWith_prefix, IH. split.
    + intros [[post H] | (pre & post & ->)].
      * exists [], post. exact H.
      * exists (c :: pre), post. reflexivity.
    + intros (pre & post & H). destruct pre as [| x pre].
      * left. exists post. exact H.
      * right. injection H as -> ->. exists pre, post. reflexivity.
Qed.

End SubstringFacts.

(** ** Metrics guard *)

Section MetricsGuardFacts.
Import Js types metricsGuardService.
Variable host : Host.

(** C1. With the vault [{projectImpact: "conversion +18%",
    latencyReduction: "120 ms"}] the guard returns exactly ["42"] on the
    sample text: 42 is flagged, 18 and 120 are not. The tokens "2,300",
    "2300" and "2300.0" normalize to the one token "2300", alone and
    side by side, whatever the runtime does outside the exact range. *)
Theorem C1_metrics_authorization :
  findUnauthorizedNumbersInText host c1Text c1Vault = [lit "42"]
  /\ getAllowedMetricNumbers host c1Vault = [lit "18"; lit "120"]
  /\ extractNormalizedNumberTokens host c1Text = [lit "18"; lit "42"; lit "120"]
  /\ extractNormalizedNumberTokens host (lit "2,300") = [lit "2300"]
  /\ extractNormalizedNumberTokens host (lit "2300") = [lit "2300"]
  /\ extractNormalizedNumberTokens host (lit "2300.0") = [lit "2300"]
  /\ normalizeNumberToken host (lit "2,300") = normalizeNumberToken host (lit "2300")
  /\ normalizeNumberToken host (lit "2300") = normalizeNumberToken host (lit "2300.0")
  /\ extractNormalizedNumberTokens host (lit "2,300 2300 2300.0") = [lit "2300"].
Proof.
  repeat split; vm_compute; reflexivity.
Qed.

End MetricsGuardFacts.

(** ** Schema validation *)

Section SchemaFacts.
Import Js types analysisSchemaService.

Lemma isStringArray_strings (l : list str) : isStringArray (strings l) = true.
Proof.
  unfold strings. simpl. induction l as [| x l IH]; simpl; auto.
Qed.

Lemma isNullableNumber_nullable (x : option JsNumber) :
  isNullableNumber (nullable JNumber x) = true.
Proof. destruct x; reflexivity. Qed.

Lemma isNullableString_nullable (x : option str) :
  isNullableString (nullable JString x) = true.
Proof. destruct x; reflexivity. Qed.

Lemma isRetrievalTraceArray_entries (l : list RetrievalTraceEntry) :
  isRetrievalTraceArray (JArray (map traceEntryToJs l)) = true.
Proof.
  simpl. induction l as [| x l IH]; simpl; auto.
Qed.

Lemma category_accepted (c : Category) :
  isStringLit (JString (categoryName c)) "critical"
  || isStringLit (JString (categoryName c)) "optional" = true.
Proof. destruct c; reflexivity. Qed.

Lemma improvementErrors_typed (n : nat) (i : Improvement) :
  improvementErrors n (improvementToJs i) = [].
Proof.
  unfold improvementErrors, improvementToJs, evidenceToJs.
  cbn [isObject negb get lookup Str.eqb lit list_ascii_of_string Ascii.eqb Bool.eqb andb].
  rewrite !isNullableString_nullable, category_accepted, !isStringArray_strings.
  reflexivity.
Qed.

Lemma eachImprovement_typed (l : list Improvement) (n : nat) :
  eachImprovement n (map improvementToJs l) = [].
Proof.
  revert n. induction l as [| i l IH]; intros n; simpl; auto.
  rewrite improvementErrors_typed, IH. reflexivity.
Qed.

Ltac lookups :=
  cbn [isObject negb get lookup setProp withProp Str.eqb lit list_ascii_of_string
       Ascii.eqb Bool.eqb andb resultToJs traceToJs retriesAsString twoDefects].

Ltac typedFields :=
  rewrite ?isNullableNumber_nullable, ?isNullableString_nullable, ?isStringArray_strings,
    ?isRetrievalTraceArray_entries, ?eachImprovement_typed.

(** A retry count that is not a number is reported whatever else is
    wrong with the result. *)
Lemma retries_reported (props trace : list (str * JsValue)) :
  get (JObject props) "analysisTrace" = JObject trace ->
  isNumber (get (JObject trace) "retries") = false ->
  In (lit "analysisTrace.retries must be number.")
     (errors (validateAnalysisResultSchema (JObject props))).
Proof.
  intros Ht Hr. unfold validateAnalysisResultSchema.
  cbn [isObject negb errors]. cbv zeta. rewrite Ht. cbn [isObject negb]. rewrite Hr.
  repeat (apply in_or_app; right). left. reflexivity.
Qed.

Lemma jobFitScore_reported (props : list (str * JsValue)) :
  isNullableNumber (get (JObject props) "jobFitScore") = false ->
  In (lit "jobFitScore must be number|null.")
     (errors (validateAnalysisResultSchema (JObject props))).
Proof.
  intros Hj. unfold validateAnalysisResultSchema.
  cbn [isObject negb errors]. cbv zeta. rewrite Hj.
  apply in_or_app. right. apply in_or_app. left. left. reflexivity.
Qed.

Lemma reported_invalid (value : JsValue) (message : str) :
  In message (errors (validateAnalysisResultSchema value)) ->
  valid (validateAnalysisResultSchema value) = false.
Proof.
  unfold validateAnalysisResultSchema.
  destruct (negb (isObject value)); [reflexivity |].
  cbn [errors valid]. cbv zeta.
  match goal with |- In _ ?l -> _ => destruct l end; [contradiction | reflexivity].
Qed.

(** C9. The validator accepts every well-typed [AnalysisResult] with no
    error; it rejects the same result with [analysisTrace.retries] set to
    a string, with the one error that names that field path; and it does
    not stop at the first defect: with [jobFitScore] a string as well,
    both errors are reported, in the order of the checks, and in any
    object at all a retry count that is not a number and a job fit score
    that is neither a number nor null are each reported, whatever else
    is wrong. *)
Theorem C9_schema_validation (r : AnalysisResult) (s : str) :
  validateAnalysisResultSchema (resultToJs r) = {| valid := true; errors := [] |}
  /\ validateAnalysisResultSchema (retriesAsString r s)
     = {| valid := false; errors := [lit "analysisTrace.retries must be number."] |}
  /\ Str.includes (lit "analysisTrace.retries must be number.") (lit "analysisTrace.retries") = true
  /\ validateAnalysisResultSchema (twoDefects r s)
     = {| valid := false;
          errors := [lit "jobFitScore must be number|null.";
                     lit "analysisTrace.retries must be number."] |}
  /\ (forall props trace,
        get (JObject props) "analysisTrace" = JObject trace ->
        isNumber (get (JObject trace) "retries") = false ->
        valid (validateAnalysisResultSchema (JObject props)) = false
        /\ In (lit "analysisTrace.retries must be number.")
              (errors (validateAnalysisResultSchema (JObject props))))
  /\ (forall props,
        isNullableNumber (get (JObject props) "jobFitScore") = false ->
        valid (validateAnalysisResultSchema (JObject props)) = false
        /\ In (lit "jobFitScore must be number|null.")
              (errors (validateAnalysisResultSchema (JObject props)))).
Proof.
  split; [| split; [| split; [| split; [| split]]]].
  - unfold validateAnalysisResultSchema. lookups. typedFields. reflexivity.
  - unfold validateAnalysisResultSchema. lookups. typedFields. reflexivity.
  - vm_compute. reflexivity.
  - unfold validateAnalysisResultSchema. lookups. typedFields. reflexivity.
  - intros props trace Ht Hr.
    pose proof (retries_reported props trace Ht Hr) as I.
    split; [exact (reported_invalid _ _ I) | exact I].
  - intros props Hj.
    pose proof (jobFitScore_reported props Hj) as I.
    split; [exact (reported_invalid _ _ I) | exact I].
Qed.

(** The object with a string for its retry count and nothing else: the
    retry count is reported next to all that is missing. *)
Lemma C9_schema_validation_witness :
  valid (validateAnalysisResultSchema (JObject retriesOnly)) = false
  /\ In (lit "analysisTrace.retries must be number.")
        (errors (validateAnalysisResultSchema (JObject retriesOnly))).
Proof.
  exact (proj1 (proj2 (proj2 (proj2 (proj2 (C9_schema_validation sampleResult [])))))
           retriesOnly _ eq_refl eq_refl).
Defined.

End SchemaFacts.

(** ** Tier selection *)

Section TierFacts.
Import Regex Js types geminiService.

Lemma lastChar_snoc (s : str) (c : ascii) : lastChar (s ++ [c]) = Some c.
Proof. unfold lastChar. rewrite rev_app_distr. reflexivity. Qed.

Lemma lastChar_cons (c : ascii) (s : str) :
  lastChar (c :: s) = match lastChar s with Some d => Some d | None => Some c end.
Proof.
  unfold lastChar. simpl. destruct (rev s) as [| d r]; reflexivity.
Qed.

Lemma lastChar_app (a b : str) :
  lastChar (a ++ b) = match lastChar b with Some d => Some d | None => lastChar a end.
Proof.
  unfold lastChar. rewrite rev_app_distr.
  destruct (rev b) as [| d r]; reflexivity.
Qed.

(** The first position where [r] matches is never later than one where
    it is known to match. *)
Lemma testFrom_found (r : re) (pre s : str) (prev : option ascii) :
  exec r (match lastChar pre with Some d => Some d | None => prev end) s
       (fun _ _ => Some tt) = Some tt ->
  testFrom r prev (pre ++ s) = true.
Proof.
  revert prev. induction pre as [| c pre IH]; intros prev H.
  - simpl in *. destruct s; simpl; rewrite H; reflexivity.
  - simpl. destruct (exec r prev (c :: pre ++ s) (fun _ _ => Some tt)); [reflexivity |].
    apply IH. rewrite lastChar_cons in H.
    destruct (lastChar pre); exact H.
Qed.

Lemma lower_is_word (c x : ascii) :
  Str.isWord x = true -> Str.isLower x = true -> Str.lowerChar c = x -> Str.isWord c = true.
Proof.
  intros Hw Hl <-. revert Hw Hl.
  destruct c as [[] [] [] [] [] [] [] []]; vm_compute; intros; congruence.
Qed.

Lemma deep_matches (prev : option ascii) (mid post : str) :
  Str.toLowerCase mid = lit "deep" ->
  wordBefore prev = false ->
  wordAhead post = false ->
  exec DEEP_ANALYSIS_REGEX prev (mid ++ post) (fun _ _ => Some tt) = Some tt.
Proof.
  intros Hmid Hprev Hpost.
  destruct mid as [| c1 [| c2 [| c3 [| c4 [| c5 mid]]]]]; try discriminate Hmid.
  simpl in Hmid. injection Hmid as H1 H2 H3 H4.
  assert (W1 : Str.isWord c1 = true) by (eapply lower_is_word; [| | exact H1]; reflexivity).
  assert (W4 : Str.isWord c4 = true) by (eapply lower_is_word; [| | exact H4]; reflexivity).
  unfold DEEP_ANALYSIS_REGEX.
  cbn [exec].
  match goal with
  | |- match ?X with Some x => Some x | None => ?Y end = _ =>
      assert (HY : Y = Some tt); [| destruct X as [[] |]; [reflexivity | exact HY]]
  end.
  cbn [seqOf wordI map lit list_ascii_of_string exec chrI app].
  unfold wordAhead at 1. rewrite Hprev, W1. cbn [xorb].
  rewrite H1, H2, H3, H4.
  cbn [Str.lowerChar]. vm_compute Ascii.eqb.
  cbn [wordBefore]. rewrite W4, Hpost. reflexivity.
Qed.

Lemma deep_found (text : str) (before after : str) :
  standsAlone "deep" text ->
  wordBefore (lastChar before) = false ->
  wordAhead after = false ->
  test DEEP_ANALYSIS_REGEX (before ++ text ++ after) = true.
Proof.
  intros (pre & mid & post & -> & Hmid & Hpre & Hpost) Hb Ha.
  unfold test.
  replace (before ++ (pre ++ mid ++ post) ++ after)
    with ((before ++ pre) ++ (mid ++ (post ++ after)))
    by (rewrite <- !app_assoc; reflexivity).
  apply testFrom_found. apply deep_matches; auto.
  - rewrite lastChar_app. destruct (lastChar pre) eqn:E.
    + exact Hpre.
    + destruct (lastChar before); [exact Hb | reflexivity].
  - destruct post; [exact Ha | exact Hpost].
Qed.

(** C10. Whenever the word "deep" stands alone, in any letter case, in
    the additional context, the company info or the job description,
    [selectTier] answers COMPLEX, whatever the requested mode and the
    lengths, and the run gets the COMPLEX model; a short job
    description that mentions "deep learning" does so in fast mode. *)
Theorem C10_deep_word_routes_to_complex (input : ApplicationInput) :
  standsAlone "deep" (additionalContext input)
  \/ standsAlone "deep" (companyInfo input)
  \/ standsAlone "deep" (jobDescription input) ->
  selectTier input = COMPLEX
  /\ model (getTierConfig (selectTier input)) = lit "gemini-3-pro-preview".
Proof.
  intros H.
  assert (T : test DEEP_ANALYSIS_REGEX
                (additionalContext input ++ [Str.LF] ++ companyInfo input ++ [Str.LF]
                 ++ jobDescription input) = true).
  { destruct H as [H | [H | H]].
    - apply (deep_found _ [] _ H); reflexivity.
    - replace (additionalContext input ++ [Str.LF] ++ companyInfo input ++ [Str.LF]
               ++ jobDescription input)
        with ((additionalContext input ++ [Str.LF]) ++ companyInfo input
              ++ ([Str.LF] ++ jobDescription input))
        by (rewrite <- !app_assoc; reflexivity).
      apply deep_found; auto. rewrite lastChar_snoc. reflexivity.
    - replace (additionalContext input ++ [Str.LF] ++ companyInfo input ++ [Str.LF]
               ++ jobDescription input)
        with ((additionalContext input ++ [Str.LF] ++ companyInfo input ++ [Str.LF])
              ++ jobDescription input ++ [])
        by (rewrite app_nil_r, <- !app_assoc; reflexivity).
      apply deep_found; auto.
      rewrite !app_assoc, lastChar_snoc. reflexivity. }
  assert (S : selectTier input = COMPLEX).
  { unfold selectTier. cbv zeta. rewrite T.
    rewrite orb_true_r. reflexivity. }
  split; [exact S | rewrite S; reflexivity].
Qed.

Lemma C10_deep_word_routes_to_complex_witness :
  standsAlone "deep" (jobDescription (quickJob (lit "We build deep learning systems.")))
  /\ selectTier (quickJob (lit "We build deep learning systems.")) = COMPLEX
  /\ model (getTierConfig (selectTier (quickJob (lit "We build deep learning systems."))))
     = lit "gemini-3-pro-preview".
Proof.
  assert (H : standsAlone "deep"
                (jobDescription (quickJob (lit "We build deep learning systems.")))).
  { exists (lit "We build "), (lit "deep"), (lit " learning systems.").
    repeat split; reflexivity. }
  split; [exact H |].
  apply (C10_deep_word_routes_to_complex (quickJob (lit "We build deep learning systems."))).
  right. right. exact H.
Defined.

End TierFacts.

(** ** Retry policy *)

Section RetryFacts.
Import Js types privacyService geminiService.
Variable host : Host.
Variable World : Type.
Variable generateContent :
  StageGenerationParams -> World -> (JsError + GenerationResponse) * World.

Lemma retryLoop_step {A : Type} (name : str) (op : M World A) (maxAttempts : nat)
  (counting : bool) (remaining attempt : nat) (last : option JsError) (st : Run World) :
  retryLoop name op maxAttempts (retryCallback counting) (S remaining) attempt last st
  = match op st with
    | (inr x, st') => (inr x, st')
    | (inl error, st') =>
        if negb ((attempt <? maxAttempts) && isTransientError error) then (inl error, st')
        else retryLoop name op maxAttempts (retryCallback counting) remaining
               (attempt + 1) (Some error)
               (afterBackoff counting (BASE_BACKOFF_MS * 2 ^ (attempt - 1)) st')
    end.
Proof.
  cbn [retryLoop]. destruct (op st) as [[error | x] st']; [| reflexivity].
  destruct (negb ((attempt <? maxAttempts) && isTransientError error)); [reflexivity |].
  destruct counting; reflexivity.
Qed.

Lemma callGenerator_run (params : StageGenerationParams) (st : Run World) :
  callGenerator generateContent params st
  = (fst (generateContent params (world st)),
     {| world := snd (generateContent params (world st));
        retryCount := retryCount st;
        events := events st ++ [Generated params] |}).
Proof.
  unfold geminiService.callGenerator.
  destruct (generateContent params (world st)); reflexivity.
Qed.


(** *** The rewrite stage and its one correction *)

Lemma requestsOf_app (a b : list Event) : requestsOf (a ++ b) = requestsOf a ++ requestsOf b.
Proof. unfold requestsOf. apply flat_map_app. Qed.

Lemma generationsOf_app (a b : list Event) :
  generationsOf (a ++ b) = generationsOf a + generationsOf b.
Proof. unfold generationsOf. rewrite filter_app, length_app. reflexivity. Qed.

Lemma retryLoop_adds (name : str) (params : StageGenerationParams) (counting : bool)
  (maxAttempts remaining attempt : nat) (last : option JsError) (st : Run World) :
  exists new,
    adds (retryLoop name (callGenerator generateContent params) maxAttempts
            (retryCallback counting) remaining attempt last st) st new
    /\ requestsOf new = [] /\ generationsOf new <= remaining.
Proof.
  revert attempt last st. induction remaining as [| remaining IH]; intros attempt last st.
  - exists []. unfold adds. simpl. rewrite app_nil_r. repeat split.
    unfold generationsOf. simpl. lia.
  - rewrite retryLoop_step, callGenerator_run.
    destruct (generateContent params (world st)) as [[e | r] w]; cbn [fst snd].
    + destruct (negb ((attempt <? maxAttempts) && isTransientError e)).
      * exists [Generated params]. unfold adds. simpl. repeat split.
        unfold generationsOf. simpl. lia.
      * match goal with
        | |- context [retryLoop _ _ _ _ _ ?a ?l ?s] =>
            destruct (IH a l s) as (new & A & R & G)
        end.
        exists ([Generated params; Slept (BASE_BACKOFF_MS * 2 ^ (attempt - 1))] ++ new).
        unfold adds in *. rewrite A. cbn [afterBackoff events].
        rewrite <- !app_assoc. split; [reflexivity |].
        rewrite requestsOf_app, generationsOf_app, R. split; [reflexivity |].
        change (generationsOf [Generated params; Slept (BASE_BACKOFF_MS * 2 ^ (attempt - 1))])
          with 1. lia.
    + exists [Generated params]. unfold adds. simpl. repeat split.
      unfold generationsOf. simpl. lia.
Qed.

Lemma parseJsonText_pure (name : str) (t : option str) (st : Run World) :
  snd (parseJsonText host name t st) = st.
Proof.
  unfold parseJsonText. destruct t as [[| c t] |]; try reflexivity.
  destruct (JSON_parse host _); reflexivity.
Qed.

(** One stage run: one request, then at most three generator calls. *)
Lemma runStructuredStage_adds {T : Type} (tierConfig : TierConfig) (stageName : StageName)
  (instruction prompt : str) (normalize : JsValue -> T) (counting : bool) (st : Run World) :
  exists new,
    adds (runStructuredStage host generateContent tierConfig stageName instruction prompt
            normalize (retryCallback counting) st) st new
    /\ promptsOf new = [prompt] /\ generationsOf new <= 3.
Proof.
  unfold runStructuredStage, withRetry, MAX_RETRY_ATTEMPTS.
  unfold bind at 1. cbn [emit].
  match goal with
  | |- context [callGenerator generateContent ?p] => set (params := p)
  end.
  set (loop := retryLoop (stageLabel stageName) (callGenerator generateContent params) 3
                 (retryCallback counting) 3 1 None).
  match goal with
  | |- context [StageRequested ?t] => set (tr := t)
  end.
  set (st0 := {| world := world st; retryCount := retryCount st;
                 events := events st ++ [StageRequested tr] |}).
  destruct (retryLoop_adds (stageLabel stageName) params counting 3 3 1 None st0)
    as (new & A & R & G).
  fold loop in A.
  exists ([StageRequested tr] ++ new).
  assert (E : forall (res : (JsError + T) * Run World) st',
              snd res = st' -> events st' = events st0 ++ new ->
              adds res st ([StageRequested tr] ++ new)).
  { intros res st' <- Ev. unfold adds. rewrite Ev. subst st0. cbn [events].
    rewrite <- app_assoc. reflexivity. }
  split.
  - unfold bind. unfold adds in A.
    destruct (loop st0) as [[e | response] st1] eqn:L; cbn [snd] in A.
    + apply (E _ st1); [reflexivity | exact A].
    + pose proof (parseJsonText_pure (stageLabel stageName) (text response) st1) as P.
      destruct (parseJsonText host (stageLabel stageName) (text response) st1)
        as [[e | raw] st2]; cbn [snd] in P; subst st2;
        (apply (E _ st1); [reflexivity | exact A]).
  - unfold promptsOf. rewrite requestsOf_app, generationsOf_app, R.
    split; [reflexivity |]. change (generationsOf [StageRequested tr]) with 0. lia.
Qed.

Lemma includes_refl (x : str) : Str.includes x x = true.
Proof. apply includes_infix. exists [], []. rewrite app_nil_r. reflexivity. Qed.

Lemma includes_app_l (a b x : str) : Str.includes a x = true -> Str.includes (a ++ b) x = true.
Proof.
  rewrite !includes_infix. intros (pre & post & ->).
  exists pre, (post ++ b). rewrite <- !app_assoc. reflexivity.
Qed.

Lemma includes_app_r (a b x : str) : Str.includes b x = true -> Str.includes (a ++ b) x = true.
Proof.
  rewrite !includes_infix. intros (pre & post & ->).
  exists (a ++ pre), post. rewrite <- !app_assoc. reflexivity.
Qed.

Ltac findIncluded :=
  solve [ apply includes_refl
        | apply includes_app_l; findIncluded
        | apply includes_app_r; findIncluded ].

Lemma includes_trans (a b c : str) :
  Str.includes a b = true -> Str.includes b c = true -> Str.includes a c = true.
Proof.
  rewrite !includes_infix. intros (p & q & ->) (p' & q' & ->).
  exists (p ++ p'), (q' ++ q). rewrite <- !app_assoc. reflexivity.
Qed.

Lemma join_includes (sep x : str) (l : list str) :
  In x l -> Str.includes (Str.join sep l) x = true.
Proof.
  induction l as [| y l IH]; [intros [] |]. intros [-> | H].
  - destruct l; [apply includes_refl |]. cbn [Str.join]. apply includes_app_l, includes_refl.
  - destruct l as [| z l]; [destruct H |].
    change (Str.join sep (y :: z :: l)) with (y ++ sep ++ Str.join sep (z :: l)).
    apply includes_app_r, includes_app_r, IH, H.
Qed.

(** What [summarizePiiIssues] writes: when there are issues, one
    sentence with every type and its count, in their order; when there
    are unknown placeholders, one sentence with their number. *)
Lemma summarizePiiIssues_lists (issues : list PiiValidationIssue) (unresolved : list str) :
  (issues <> [] ->
   Str.includes (summarizePiiIssues issues unresolved)
     (lit "Unauthorized PII detected ("
      ++ Str.join (lit ", ")
           (map (fun issue => typeName (i_type issue) ++ lit ":" ++ Str.ofNat (count issue))
                issues)
      ++ lit ").") = true)
  /\ (unresolved <> [] ->
      Str.includes (summarizePiiIssues issues unresolved)
        (lit "Unknown PII placeholders detected (" ++ Str.ofNat (List.length unresolved)
         ++ lit ").") = true).
Proof.
  unfold summarizePiiIssues. cbv zeta. split; intros N.
  - destruct issues as [| i issues]; [contradiction |].
    apply join_includes. left. reflexivity.
  - destruct unresolved as [| u unresolved]; [contradiction |].
    apply join_includes. apply in_or_app. right. left. reflexivity.
Qed.

(** A validation fails on something: a number, a PII issue or an
    unknown placeholder. *)
Lemma invalid_draft (metricsVault : MetricsVault) (redactionEntries : list PiiRedactionEntry)
  (draft : RewriteDocsResult) :
  let v := validateDraft host metricsVault redactionEntries draft in
  isValid v = false ->
  unauthorizedNumbers v <> [] \/ unauthorizedPiiIssues v <> []
  \/ unresolvedPlaceholders v <> [].
Proof.
  cbv zeta. unfold validateDraft. cbv zeta.
  cbn [isValid unauthorizedNumbers unauthorizedPiiIssues unresolvedPlaceholders].
  intros V.
  destruct (metricsGuardService.findUnauthorizedNumbersForRewrite host _ _ _);
    [| left; discriminate].
  destruct (if negb (isEmpty redactionEntries) then findUnauthorizedPii _ _ else []);
    [| right; left; discriminate].
  destruct (if negb (isEmpty redactionEntries) then findUnresolvedPiiPlaceholders _ _ else []);
    [discriminate V | right; right; discriminate].
Qed.

(** The correction prompt names what was wrong and what is allowed. *)
Lemma correction_lists (basePrompt : str) (metricsVault : MetricsVault)
  (redactionEntries : list PiiRedactionEntry) (v : DraftValidation) :
  let prompt := rewriteCorrectionPrompt host basePrompt metricsVault redactionEntries v in
  Str.includes prompt (stringify host (strings (unauthorizedNumbers v))) = true
  /\ Str.includes prompt
       (summarizePiiIssues (unauthorizedPiiIssues v) (unresolvedPlaceholders v)) = true
  /\ Str.includes prompt
       (stringify host (strings (metricsGuardService.getAllowedMetricNumbers host metricsVault)))
     = true
  /\ Str.includes prompt (stringify host (strings (map placeholder redactionEntries))) = true.
Proof.
  cbv zeta. unfold rewriteCorrectionPrompt, Str.lines. cbn [Str.join].
  repeat split; findIncluded.
Qed.

(** The PII part of the correction prompt: the sentence with every
    issue's type and count, each of them, and the number of unknown
    placeholders. *)
Lemma correction_lists_pii (basePrompt : str) (metricsVault : MetricsVault)
  (redactionEntries : list PiiRedactionEntry) (v : DraftValidation) :
  let prompt := rewriteCorrectionPrompt host basePrompt metricsVault redactionEntries v in
  let listed issue := typeName (i_type issue) ++ lit ":" ++ Str.ofNat (count issue) in
  (unauthorizedPiiIssues v <> [] ->
   Str.includes prompt
     (lit "Unauthorized PII detected ("
      ++ Str.join (lit ", ") (map listed (unauthorizedPiiIssues v)) ++ lit ").") = true)
  /\ (forall issue, In issue (unauthorizedPiiIssues v) ->
        Str.includes prompt (listed issue) = true)
  /\ (unresolvedPlaceholders v <> [] ->
      Str.includes prompt
        (lit "Unknown PII placeholders detected ("
         ++ Str.ofNat (List.length (unresolvedPlaceholders v)) ++ lit ").") = true).
Proof.
  cbv zeta.
  destruct (correction_lists basePrompt metricsVault redactionEntries v) as (_ & L & _).
  cbv zeta in L.
  destruct (summarizePiiIssues_lists (unauthorizedPiiIssues v) (unresolvedPlaceholders v))
    as [S1 S2].
  split; [| split].
  - intros N. exact (includes_trans _ _ _ L (S1 N)).
  - intros issue I.
    assert (N : unauthorizedPiiIssues v <> []) by (intros Z; rewrite Z in I; destruct I).
    apply (includes_trans _ _ _ (includes_trans _ _ _ L (S1 N))).
    apply includes_app_r, includes_app_l, join_includes.
    apply in_map_iff. exists issue. split; [reflexivity | exact I].
  - intros N. exact (includes_trans _ _ _ L (S2 N)).
Qed.

Lemma rewriteDocs_unfold (extracted : ExtractFactsResult)
  (scoring : ScoreMatchResult) (explicitUserAchievements : list str)
  (metricsVault : MetricsVault) (redactionEntries : list PiiRedactionEntry)
  (tierConfig : TierConfig) (counting : bool) (st : Run World) :
  let basePrompt :=
    rewriteBasePrompt host extracted scoring explicitUserAchievements metricsVault
      redactionEntries in
  let validate := validateDraft host metricsVault redactionEntries in
  rewriteDocsWithClient host generateContent extracted scoring explicitUserAchievements
    metricsVault redactionEntries tierConfig (retryCallback counting) st
  = match rewriteStage host generateContent tierConfig counting basePrompt st with
    | (inl e, st1) => (inl e, st1)
    | (inr d1, st1) =>
        if isValid (validate d1) then (inr (correctedDraft (validate d1)), st1)
        else
          match rewriteStage host generateContent tierConfig counting
                  (rewriteCorrectionPrompt host basePrompt metricsVault redactionEntries
                     (validate d1))
                  (snd (callOptional (retryCallback counting) st1)) with
          | (inl e, st2) => (inl e, st2)
          | (inr d2, st2) =>
              if isValid (validate d2) then (inr (correctedDraft (validate d2)), st2)
              else (inl validationFailure, st2)
          end
    end.
Proof.
  cbv zeta. unfold rewriteDocsWithClient, rewriteStage. cbv zeta.
  unfold bind at 1.
  match goal with
  | |- (let (_, _) := ?X in _) = _ => destruct X as [[e | d1] st1]
  end; [reflexivity |].
  match goal with
  | |- (if ?b then _ else _) _ = _ => destruct b
  end; [reflexivity |].
  unfold bind at 1.
  destruct counting; cbn [retryCallback callOptional incrementRetry ret snd];
    unfold bind at 1;
    match goal with
    | |- (let (_, _) := ?X in _) = _ => destruct X as [[e2 | d2] st2]
    end; try reflexivity;
    match goal with
    | |- (if negb ?b then _ else _) _ = _ => destruct b
    end; reflexivity.
Qed.

(** C3. The rewrite stage, for any generator. It asks for a first
    draft. If the stage run fails, so does the stage; if the draft
    passes the combined validation it is returned and nobody is asked
    again. Otherwise the validation found an unauthorized number, a PII
    issue or an unknown placeholder, and exactly one correction prompt
    is issued, which lists the unauthorized numbers, the PII issues
    (the sentence "Unauthorized PII detected (...)." with the type and
    the count of every issue, and the sentence "Unknown PII placeholders
    detected (n)." with the number of unknown placeholders, each when
    there is something to report), the allowed vault numbers and the
    known placeholders; its draft is validated again and is either
    returned or the stage throws, with no further request. So there are
    at most two requests to rewrite (each with at most three generator
    calls under the retry policy), and a result is returned exactly
    when the first draft, or else the corrected one, passes. *)
Theorem C3_single_correction_cycle (extracted : ExtractFactsResult)
  (scoring : ScoreMatchResult) (explicitUserAchievements : list str)
  (metricsVault : MetricsVault) (redactionEntries : list PiiRedactionEntry)
  (tierConfig : TierConfig) (counting : bool) (st : Run World) :
  let run :=
    rewriteDocsWithClient host generateContent extracted scoring explicitUserAchievements
      metricsVault redactionEntries tierConfig (retryCallback counting) st in
  let basePrompt :=
    rewriteBasePrompt host extracted scoring explicitUserAchievements metricsVault
      redactionEntries in
  let validate := validateDraft host metricsVault redactionEntries in
  let correction d :=
    rewriteCorrectionPrompt host basePrompt metricsVault redactionEntries (validate d) in
  let listed issue := typeName (i_type issue) ++ lit ":" ++ Str.ofNat (count issue) in
  exists new,
    adds run st new
    /\ List.length (promptsOf new) <= 2
    /\ generationsOf new <= 6
    /\ match rewriteStage host generateContent tierConfig counting basePrompt st with
       | (inl e, st1) => run = (inl e, st1) /\ promptsOf new = [basePrompt]
       | (inr d1, st1) =>
           if isValid (validate d1)
           then run = (inr (correctedDraft (validate d1)), st1)
                /\ promptsOf new = [basePrompt]
           else
             promptsOf new = [basePrompt; correction d1]
             /\ Str.includes (correction d1)
                  (stringify host (strings (unauthorizedNumbers (validate d1)))) = true
             /\ Str.includes (correction d1)
                  (summarizePiiIssues (unauthorizedPiiIssues (validate d1))
                                      (unresolvedPlaceholders (validate d1))) = true
             /\ (unauthorizedPiiIssues (validate d1) <> [] ->
                 Str.includes (correction d1)
                   (lit "Unauthorized PII detected ("
                    ++ Str.join (lit ", ") (map listed (unauthorizedPiiIssues (validate d1)))
                    ++ lit ").") = true)
             /\ (forall issue, In issue (unauthorizedPiiIssues (validate d1)) ->
                   Str.includes (correction d1) (listed issue) = true)
             /\ (unresolvedPlaceholders (validate d1) <> [] ->
                 Str.includes (correction d1)
                   (lit "Unknown PII placeholders detected ("
                    ++ Str.ofNat (List.length (unresolvedPlaceholders (validate d1)))
                    ++ lit ").") = true)
             /\ (unauthorizedNumbers (validate d1) <> []
                 \/ unauthorizedPiiIssues (validate d1) <> []
                 \/ unresolvedPlaceholders (validate d1) <> [])
             /\ Str.includes (correction d1)
                  (stringify host
                     (strings (metricsGuardService.getAllowedMetricNumbers host metricsVault)))
                = true
             /\ Str.includes (correction d1)
                  (stringify host (strings (map placeholder redactionEntries))) = true
             /\ match rewriteStage host generateContent tierConfig counting (correction d1)
                        (snd (callOptional (retryCallback counting) st1)) with
                | (inl e, st2) => run = (inl e, st2)
                | (inr d2, st2) =>
                    if isValid (validate d2)
                    then run = (inr (correctedDraft (validate d2)), st2)
                    else run = (inl validationFailure, st2)
                end
       end.
Proof.
  cbv zeta.
  set (base := rewriteBasePrompt host extracted scoring explicitUserAchievements
                 metricsVault redactionEntries).
  set (validate := validateDraft host metricsVault redactionEntries).
  rewrite (rewriteDocs_unfold extracted scoring explicitUserAchievements metricsVault
             redactionEntries tierConfig counting st).
  fold base. fold validate.
  destruct (runStructuredStage_adds tierConfig rewriteDocs (rewriteDocsInstruction tierConfig)
              base normalizeRewriteDocs counting st) as (new1 & A1 & P1 & G1).
  fold (rewriteStage host generateContent tierConfig counting base) in A1.
  destruct (rewriteStage host generateContent tierConfig counting base st) as [[e | d1] st1] eqn:S1.
  - exists new1. rewrite P1. repeat split; simpl; try lia. exact A1.
  - destruct (isValid (validate d1)) eqn:V1.
    + exists new1. rewrite P1. repeat split; simpl; try lia. exact A1.
    + set (corr := rewriteCorrectionPrompt host base metricsVault redactionEntries
                     (validate d1)).
      set (st1' := snd (callOptional (retryCallback counting) st1)).
      assert (Ev1' : events st1' = events st1) by (subst st1'; destruct counting; reflexivity).
      destruct (runStructuredStage_adds tierConfig rewriteDocs
                  (rewriteDocsInstruction tierConfig) corr normalizeRewriteDocs counting st1')
        as (new2 & A2 & P2 & G2).
      fold (rewriteStage host generateContent tierConfig counting corr) in A2.
      destruct (correction_lists base metricsVault redactionEntries (validate d1))
        as (L1 & L2 & L3 & L4).
      destruct (correction_lists_pii base metricsVault redactionEntries (validate d1))
        as (P1' & P2' & P3').
      pose proof (invalid_draft metricsVault redactionEntries d1 V1) as Inv.
      fold validate in Inv.
      fold corr in L1, L2, L3, L4, P1', P2', P3'.
      exists (new1 ++ new2).
      assert (Ad : forall (res : (JsError + RewriteDocsResult) * Run World),
                   snd res = snd (rewriteStage host generateContent tierConfig counting corr st1') ->
                   adds res st (new1 ++ new2)).
      { intros res Hres. unfold adds in *. rewrite Hres, A2, Ev1'. cbn [snd] in A1.
        rewrite A1, app_assoc. reflexivity. }
      unfold promptsOf in *. rewrite requestsOf_app, map_app, generationsOf_app.
      rewrite P1, P2.
      destruct (rewriteStage host generateContent tierConfig counting corr st1') as [[e2 | d2] st2] eqn:S2.
      * split; [apply Ad; reflexivity |].
        repeat split; simpl; try lia; assumption.
      * destruct (isValid (validate d2));
          (split; [apply Ad; reflexivity |]);
          repeat split; simpl; try lia; assumption.
Qed.

End RetryFacts.

Section CorrectionExample.
Import Js types privacyService geminiService.

(** A generator that leaks an address and an unknown placeholder in
    both of its drafts: the stage asks twice and throws, and its
    correction prompt reports one EMAIL issue and one unknown
    placeholder. *)
Lemma C3_single_correction_cycle_witness :
  let entries := redactionEntries (prepareApplicationForGemini sampleInput) in
  let extracted := normalizeExtractFacts JNull in
  let scoring := normalizeScoreMatch JNull in
  let base := rewriteBasePrompt leakingHost extracted scoring [] [] entries in
  let run :=
    rewriteDocsWithClient leakingHost leakingGenerator extracted scoring [] [] entries
      (getTierConfig SIMPLE) (retryCallback true) sampleStart in
  fst run = inl validationFailure
  /\ exists new correction,
       adds run sampleStart new
       /\ promptsOf new = [base; correction]
       /\ generationsOf new <= 6
       /\ Str.includes correction (lit "Unauthorized PII detected (EMAIL:1).") = true
       /\ Str.includes correction (lit "Unknown PII placeholders detected (1).") = true.
Proof.
  cbv zeta. split; [vm_compute; reflexivity |].
  pose proof (C3_single_correction_cycle leakingHost unit leakingGenerator
                (normalizeExtractFacts JNull) (normalizeScoreMatch JNull) [] []
                (redactionEntries (prepareApplicationForGemini sampleInput))
                (getTierConfig SIMPLE) true sampleStart) as T.
  cbv zeta in T. destruct T as (new & A & L & G & T).
  destruct (rewriteStage leakingHost leakingGenerator (getTierConfig SIMPLE) true _ sampleStart)
    as [[e | d1] st1] eqn:E1; vm_compute in E1; [discriminate E1 |].
  injection E1 as <- <-.
  match type of T with
  | if ?b then _ else _ =>
      assert (V : b = false) by (vm_compute; reflexivity); rewrite V in T
  end.
  destruct T as (P & _ & _ & I1 & _ & I3 & _).
  match type of I1 with
  | ?l <> [] -> _ =>
      assert (Is : l = [{| count := 1; i_type := EMAIL |}]) by (vm_compute; reflexivity);
      rewrite Is in I1
  end.
  match type of I3 with
  | ?l <> [] -> _ =>
      assert (Us : l = [lit "[PII_PHONE_9]"]) by (vm_compute; reflexivity);
      rewrite Us in I3
  end.
  eexists new, _. split; [exact A |]. split; [exact P |]. split; [exact G |].
  split; [apply I1; discriminate | apply I3; discriminate].
Defined.

End CorrectionExample.

(** ** The redactor *)

Section RedactorFacts.
Import privacyService.

Lemma PiiType_eqb_eq (a b : PiiType) : PiiType_eqb a b = true <-> a = b.
Proof. destruct a, b; simpl; split; intros H; try reflexivity; discriminate. Qed.

Lemma PiiType_eqb_refl (a : PiiType) : PiiType_eqb a a = true.
Proof. destruct a; reflexivity. Qed.

Lemma piiKey_inj (t t' : PiiType) (k k' : str) :
  typeName t ++ lit ":" ++ k = typeName t' ++ lit ":" ++ k' -> t = t' /\ k = k'.
Proof.
  destruct t, t'; cbn; intros H; try (injection H as H; split; [reflexivity | exact H]);
    discriminate H.
Qed.

Lemma makePlaceholder_inj (t t' : PiiType) (n n' : nat) :
  makePlaceholder t n = makePlaceholder t' n' -> t = t' /\ n = n'.
Proof.
  unfold makePlaceholder.
  destruct t, t'; cbn; intros H; try discriminate H;
    (split; [reflexivity |]); injection H as H;
    apply app_inv_tail in H; apply ofNat_inj in H; exact H.
Qed.

Lemma makePlaceholder_nonempty (t : PiiType) (n : nat) :
  exists c s, makePlaceholder t n = c :: s.
Proof. unfold makePlaceholder. simpl. eauto. Qed.

Lemma mapGet_mapSet_same {V : Type} (k : str) (v : V) (m : list (str * V)) :
  mapGet k (mapSet k v m) = Some v.
Proof.
  induction m as [| [k' v'] m IH]; simpl.
  - rewrite Str_eqb_refl. reflexivity.
  - destruct (Str.eqb k k') eqn:E; simpl; rewrite E; auto.
Qed.

Lemma mapGet_mapSet_other {V : Type} (k k0 : str) (v : V) (m : list (str * V)) :
  k0 <> k -> mapGet k0 (mapSet k v m) = mapGet k0 m.
Proof.
  intros N. induction m as [| [k' v'] m IH]; simpl.
  - apply Str_eqb_neq in N. rewrite N. reflexivity.
  - destruct (Str.eqb k k') eqn:E; simpl.
    + apply Str_eqb_eq in E. subst k'. apply Str_eqb_neq in N. rewrite N. reflexivity.
    + rewrite IH. reflexivity.
Qed.

Lemma mapSet_fresh {V : Type} (k : str) (v : V) (m : list (str * V)) :
  mapGet k m = None -> mapSet k v m = m ++ [(k, v)].
Proof.
  induction m as [| [k' v'] m IH]; simpl; intros H; [reflexivity |].
  destruct (Str.eqb k k'); [discriminate H |]. rewrite IH by exact H. reflexivity.
Qed.

Lemma rankFrom_none (n : nat) (t : PiiType) (k : str) (l : list Detection) :
  rankFrom n t k l = None <-> existsb (sameKey t k) l = false.
Proof.
  revert n. induction l as [| d l IH]; intros n; simpl; [tauto |].
  unfold sameKey at 1.
  destruct (PiiType_eqb t (dType d)); simpl; [| apply IH].
  destruct (Str.eqb k (dKey d)); simpl; [split; discriminate | apply IH].
Qed.

Lemma rankFrom_app (n : nat) (t : PiiType) (k : str) (l l' : list Detection) :
  rankFrom n t k (l ++ l')
  = match rankFrom n t k l with
    | Some m => Some m
    | None => rankFrom (n + countType t l) t k l'
    end.
Proof.
  revert n. induction l as [| d l IH]; intros n; simpl.
  - rewrite Nat.add_0_r. reflexivity.
  - unfold countType. simpl.
    destruct (PiiType_eqb t (dType d)); simpl.
    + destruct (Str.eqb k (dKey d)); [reflexivity |].
      rewrite IH. unfold countType. rewrite Nat.add_succ_r. reflexivity.
    + apply IH.
Qed.

Lemma rankFrom_bound (n m : nat) (t : PiiType) (k : str) (l : list Detection) :
  rankFrom n t k l = Some m -> n <= m < n + countType t l.
Proof.
  revert n. induction l as [| d l IH]; intros n; simpl; [discriminate |].
  unfold countType. simpl.
  destruct (PiiType_eqb t (dType d)); simpl.
  - destruct (Str.eqb k (dKey d)).
    + intros H. injection H as <-. lia.
    + intros H. apply IH in H. unfold countType in H. lia.
  - intros H. apply IH in H. unfold countType in H. lia.
Qed.

Lemma rankFrom_inj (n m : nat) (t : PiiType) (k k' : str) (l : list Detection) :
  rankFrom n t k l = Some m -> rankFrom n t k' l = Some m -> k = k'.
Proof.
  revert n. induction l as [| d l IH]; intros n; simpl; [discriminate |].
  destruct (PiiType_eqb t (dType d)); [| apply IH].
  destruct (Str.eqb k (dKey d)) eqn:E1, (Str.eqb k' (dKey d)) eqn:E2.
  - apply Str_eqb_eq in E1, E2. congruence.
  - intros H1 H2. injection H1 as <-. apply rankFrom_bound in H2. lia.
  - intros H1 H2. injection H2 as <-. apply rankFrom_bound in H1. lia.
  - apply IH.
Qed.

Lemma Tracks_fresh : Tracks [] createRedactor.
Proof. split; reflexivity. Qed.

Lemma entries_lookup (seen : list Detection) (r : Redactor) (p : str) :
  entries r = map (entryOf seen) seen ->
  (forall d, In d seen -> placeholder (entryOf seen d) <> p) ->
  mapGet p (placeholderToOriginal r) = None.
Proof.
  unfold entries. intros E N.
  assert (G : forall e, In e (placeholderToOriginal r) -> fst e <> p).
  { intros e He.
    assert (I : In {| placeholder := fst e; original := fst (snd e); type := snd (snd e) |}
                   (map (entryOf seen) seen)).
    { rewrite <- E. apply in_map_iff. exists e. split; [reflexivity | exact He]. }
    apply in_map_iff in I. destruct I as (d & Hd & Hin).
    specialize (N d Hin). rewrite Hd in N. exact N. }
  clear E. revert G. generalize (placeholderToOriginal r) as m.
  induction m as [| [k v] m IH]; simpl; intros G; [reflexivity |].
  destruct (Str.eqb p k) eqn:Ek.
  - apply Str_eqb_eq in Ek. exfalso. apply (G (k, v)); [left; reflexivity | simpl; congruence].
  - apply IH. intros e He. apply G. right. exact He.
Qed.

Lemma entryOf_extend (seen : list Detection) (d0 d : Detection) :
  In d seen -> entryOf (seen ++ [d0]) d = entryOf seen d.
Proof.
  intros Hin. unfold entryOf. f_equal. f_equal.
  unfold rank. rewrite rankFrom_app.
  destruct (rankFrom 1 (dType d) (dKey d) seen) eqn:E; [reflexivity |].
  exfalso. apply (rankFrom_none 1) in E.
  assert (X : existsb (sameKey (dType d) (dKey d)) seen = true).
  { apply existsb_exists. exists d. split; [exact Hin |].
    unfold sameKey. rewrite PiiType_eqb_refl, Str_eqb_refl. reflexivity. }
  congruence.
Qed.

(** One call of [register]: a key seen before gets its placeholder back
    and changes nothing; a new key gets the next number of its type. *)
Lemma register_tracks (seen : list Detection) (r : Redactor) (v : str) (t : PiiType) :
  Tracks seen r ->
  let k := normalizePiiKey t v in
  let seen' := if existsb (sameKey t k) seen then seen else seen ++ [(t, k, v)] in
  Tracks seen' (snd (register v t r))
  /\ exists n, rank t k seen' = Some n /\ fst (register v t r) = makePlaceholder t n.
Proof.
  intros [Hc Hk He] k seen'. unfold register. fold k.
  rewrite Hk. subst seen'.
  destruct (rank t k seen) as [n |] eqn:R; cbn [option_map].
  - assert (X : existsb (sameKey t k) seen = true).
    { destruct (existsb (sameKey t k) seen) eqn:E; [reflexivity |].
      apply (rankFrom_none 1) in E. unfold rank in R. congruence. }
    rewrite X.
    destruct (makePlaceholder_nonempty t n) as (c & s & P). rewrite P. cbn [fst snd].
    split; [split; assumption |]. exists n. split; [exact R | symmetry; exact P].
  - assert (X : existsb (sameKey t k) seen = false) by (apply (rankFrom_none 1); exact R).
    rewrite X. cbn [fst snd].
    assert (C : bump t (counters r) t = countType t seen + 1).
    { unfold bump. rewrite PiiType_eqb_refl, Hc. reflexivity. }
    assert (R' : rank t k (seen ++ [(t, k, v)]) = Some (countType t seen + 1)).
    { unfold rank. rewrite rankFrom_app. unfold rank in R. rewrite R. simpl.
      unfold dType, dKey. simpl. rewrite PiiType_eqb_refl, Str_eqb_refl.
      f_equal. lia. }
    split; [| exists (countType t seen + 1); split; [exact R' | rewrite C; reflexivity]].
    split.
    + intros t'. cbn [counters snd]. unfold bump, countType.
      rewrite filter_app, length_app. cbn [filter dType fst].
      rewrite Hc. unfold countType.
      destruct (PiiType_eqb t t') eqn:E.
      * apply PiiType_eqb_eq in E. subst t'. rewrite PiiType_eqb_refl. reflexivity.
      * assert (E' : PiiType_eqb t' t = false).
        { destruct (PiiType_eqb t' t) eqn:E'; [| reflexivity].
          apply PiiType_eqb_eq in E'. subst. rewrite PiiType_eqb_refl in E. discriminate. }
        rewrite E'. simpl. lia.
    + intros t' k'. cbn [keyToPlaceholder snd].
      destruct (PiiType_eqb t' t && Str.eqb k' k) eqn:E.
      * apply andb_true_iff in E. destruct E as [E1 E2].
        apply PiiType_eqb_eq in E1. apply Str_eqb_eq in E2. subst t' k'.
        rewrite mapGet_mapSet_same, R', C. reflexivity.
      * rewrite mapGet_mapSet_other.
        2: { intros Q. apply piiKey_inj in Q. destruct Q as [-> ->].
             rewrite PiiType_eqb_refl, Str_eqb_refl in E. discriminate. }
        rewrite Hk. unfold rank. rewrite rankFrom_app.
        destruct (rankFrom 1 t' k' seen); [reflexivity |].
        cbn [rankFrom dType dKey fst snd].
        destruct (PiiType_eqb t' t); [| reflexivity].
        cbn [andb] in E. rewrite E. reflexivity.
    + unfold entries. cbn [placeholderToOriginal snd].
      rewrite mapSet_fresh.
      2: { apply (entries_lookup seen); [exact He |].
           intros d Hd Q. unfold entryOf in Q. cbn [placeholder] in Q.
           apply makePlaceholder_inj in Q. destruct Q as [Q1 Q2].
           destruct (rank (dType d) (dKey d) seen) as [m |] eqn:Rd.
           - apply rankFrom_bound in Rd. rewrite Q1 in Rd. rewrite C in Q2. lia.
           - rewrite C in Q2. lia. }
      rewrite !map_app. f_equal.
      * fold (entries r). rewrite He. apply map_ext_in. intros d Hd.
        symmetry. apply entryOf_extend. exact Hd.
      * cbn [map fst snd]. unfold entryOf. cbn [dType dKey dValue fst snd].
        rewrite R', C. reflexivity.
Qed.

Lemma rank_stable (t : PiiType) (k : str) (seen : list Detection)
  (calls : list (str * PiiType)) (n : nat) :
  rank t k seen = Some n -> rank t k (firstDetectionsFrom seen calls) = Some n.
Proof.
  revert seen. induction calls as [| [v t'] calls IH]; intros seen H; simpl; [exact H |].
  destruct (existsb _ seen); apply IH; [exact H |].
  unfold rank. rewrite rankFrom_app. unfold rank in H. rewrite H. reflexivity.
Qed.

Lemma registerAll_tracks (calls : list (str * PiiType)) (seen : list Detection) (r : Redactor) :
  Tracks seen r ->
  Tracks (firstDetectionsFrom seen calls) (snd (registerAll calls r))
  /\ Forall2 (fun c p =>
                exists n,
                  rank (snd c) (normalizePiiKey (snd c) (fst c))
                       (firstDetectionsFrom seen calls) = Some n
                  /\ p = makePlaceholder (snd c) n)
             calls (fst (registerAll calls r)).
Proof.
  revert seen r. induction calls as [| [v t] calls IH]; intros seen r T; simpl.
  - split; [exact T | constructor].
  - destruct (register_tracks seen r v t T) as [T' (n & Rn & Pn)].
    destruct (register v t r) as [p r'] eqn:Er. simpl in T', Pn.
    specialize (IH _ _ T'). destruct IH as [T'' F].
    destruct (registerAll calls r') as [ps r''] eqn:Ea. simpl in *.
    destruct (existsb (sameKey t (normalizePiiKey t v)) seen) eqn:X.
    + split; [exact T'' |]. constructor; [| exact F].
      exists n. split; [apply rank_stable; exact Rn | exact Pn].
    + split; [exact T'' |]. constructor; [| exact F].
      exists n. split; [apply rank_stable; exact Rn | exact Pn].
Qed.

End RedactorFacts.

(** ** Logged runs of the redaction *)

Section LoggedRuns.
Import Regex types privacyService.

Lemma registerAll_app (a b : list (str * PiiType)) (r : Redactor) :
  snd (registerAll (a ++ b) r) = snd (registerAll b (snd (registerAll a r))).
Proof.
  revert r. induction a as [| [v t] a IH]; intros r; cbn [app registerAll]; [reflexivity |].
  destruct (register v t r) as [p r1]. specialize (IH r1).
  destruct (registerAll (a ++ b) r1), (registerAll a r1). cbn [snd] in *. exact IH.
Qed.

Lemma mapSet_length {V : Type} (k : str) (v : V) (l : list (str * V)) :
  List.length l <= List.length (mapSet k v l).
Proof.
  induction l as [| [k' v'] l IH]; cbn [mapSet List.length]; [lia |].
  destruct (Str.eqb k k'); cbn [List.length]; lia.
Qed.

Lemma register_length (v : str) (t : PiiType) (r : Redactor) :
  List.length (entries r) <= List.length (entries (snd (register v t r))).
Proof.
  unfold register.
  destruct (mapGet _ (keyToPlaceholder r)) as [[| c x] |]; cbn [snd]; unfold entries;
    cbn [placeholderToOriginal]; rewrite ?length_map; try lia; apply mapSet_length.
Qed.

Lemma registerAll_length (calls : list (str * PiiType)) (r : Redactor) :
  List.length (entries r) <= List.length (entries (snd (registerAll calls r))).
Proof.
  revert r. induction calls as [| [v t] calls IH]; intros r; cbn [registerAll snd]; [lia |].
  pose proof (register_length v t r) as L.
  destruct (register v t r) as [p r1]. specialize (IH r1).
  destruct (registerAll calls r1). cbn [snd] in *. lia.
Qed.

Lemma grows_refl (st : State) : grows st st.
Proof. exists []. split; [symmetry; apply app_nil_r | reflexivity]. Qed.

Lemma grows_trans (a b c : State) : grows a b -> grows b c -> grows a c.
Proof.
  intros (x & X & P) (y & Y & Q). exists (x ++ y).
  split; [rewrite Y, X, app_assoc; reflexivity |].
  rewrite registerAll_app, <- P. exact Q.
Qed.

Lemma grows_length (st st' : State) :
  grows st st' -> List.length (entries (fst st)) <= List.length (entries (fst st')).
Proof. intros (x & _ & ->). apply registerAll_length. Qed.

Lemma grows_log (st st' : State) : grows st st' -> incl (snd st) (snd st').
Proof. intros (x & -> & _). apply incl_appl, incl_refl. Qed.

Lemma registerLogged_grows (v : str) (t : PiiType) (st : State) :
  grows st (snd (registerLogged v t st)).
Proof.
  unfold registerLogged. exists [(v, t)]. cbn [registerAll].
  destruct (register v t (fst st)). split; reflexivity.
Qed.

Lemma replaceSegments_grows {I : Type} (fn : str -> I -> State -> str * State) :
  (forall t i st, grows st (snd (fn t i st))) ->
  forall segs st, grows st (snd (replaceSegments fn segs st)).
Proof.
  intros H. induction segs as [| [c | t i] segs IH]; intros st; cbn [replaceSegments].
  - apply grows_refl.
  - specialize (IH st). destruct (replaceSegments fn segs st). exact IH.
  - specialize (H t i st). destruct (fn t i st) as [r st1]. specialize (IH st1).
    destruct (replaceSegments fn segs st1). cbn [snd] in *.
    apply (grows_trans _ st1); assumption.
Qed.

Lemma redactEmail_grows (text : str) (st : State) :
  grows st (snd (redactEmail registerLogged text st)).
Proof. apply replaceSegments_grows. intros. apply registerLogged_grows. Qed.

Lemma redactStreetAddress_grows (text : str) (st : State) :
  grows st (snd (redactStreetAddress registerLogged text st)).
Proof. apply replaceSegments_grows. intros. apply registerLogged_grows. Qed.

Lemma redactPhone_grows (text : str) (st : State) :
  grows st (snd (redactPhone registerLogged text st)).
Proof.
  apply replaceSegments_grows. intros t i st0.
  destruct (negb (isLikelyPhoneNumber t)); [apply grows_refl | apply registerLogged_grows].
Qed.

Lemma redactBirthDate_grows (text : str) (st : State) :
  grows st (snd (redactBirthDate registerLogged text st)).
Proof.
  apply replaceSegments_grows. intros t i st0. cbv zeta.
  pose proof (registerLogged_grows (snd i) BIRTH_DATE st0) as G.
  destruct (registerLogged (snd i) BIRTH_DATE st0). exact G.
Qed.

Lemma redactPersonalId_grows (text : str) (st : State) :
  grows st (snd (redactPersonalId registerLogged text st)).
Proof.
  apply replaceSegments_grows. intros t i st0. cbv zeta.
  pose proof (registerLogged_grows (snd i) PERSONAL_ID st0) as G.
  destruct (registerLogged (snd i) PERSONAL_ID st0). exact G.
Qed.

Lemma applyPiiRedaction_grows (text : str) (st : State) :
  grows st (snd (applyPiiRedaction registerLogged text st)).
Proof.
  unfold applyPiiRedaction.
  pose proof (redactEmail_grows text st) as G1.
  destruct (redactEmail registerLogged text st) as [r1 st1].
  pose proof (redactBirthDate_grows r1 st1) as G2.
  destruct (redactBirthDate registerLogged r1 st1) as [r2 st2].
  pose proof (redactPersonalId_grows r2 st2) as G3.
  destruct (redactPersonalId registerLogged r2 st2) as [r3 st3].
  pose proof (redactPhone_grows r3 st3) as G4.
  destruct (redactPhone registerLogged r3 st3) as [r4 st4].
  pose proof (redactStreetAddress_grows r4 st4) as G5.
  cbn [snd] in *.
  apply (grows_trans _ st1); [exact G1 |].
  apply (grows_trans _ st2); [exact G2 |].
  apply (grows_trans _ st3); [exact G3 |].
  apply (grows_trans _ st4); [exact G4 | exact G5].
Qed.

Lemma registerLogged_agrees (v : str) (t : PiiType) (st : State) :
  agrees (registerLogged v t st) (register v t (fst st)).
Proof. unfold registerLogged. destruct (register v t (fst st)). split; reflexivity. Qed.

Lemma replaceSegments_agrees {I : Type} (fn' : str -> I -> State -> str * State)
  (fn : str -> I -> Redactor -> str * Redactor) :
  (forall t i st, agrees (fn' t i st) (fn t i (fst st))) ->
  forall segs st, agrees (replaceSegments fn' segs st) (replaceSegments fn segs (fst st)).
Proof.
  unfold agrees.
  intros H. induction segs as [| [c | t i] segs IH]; intros st; cbn [replaceSegments].
  - split; reflexivity.
  - destruct (IH st) as [A B].
    destruct (replaceSegments fn' segs st), (replaceSegments fn segs (fst st)).
    cbn [fst snd] in *. split; congruence.
  - destruct (H t i st) as [A B].
    destruct (fn' t i st) as [r' st1], (fn t i (fst st)) as [r r1]. cbn [fst snd] in *.
    subst r1 r'. destruct (IH st1) as [C D].
    destruct (replaceSegments fn' segs st1), (replaceSegments fn segs (fst st1)).
    cbn [fst snd] in *. split; congruence.
Qed.

Lemma applyPiiRedaction_agrees (text : str) (st : State) :
  agrees (applyPiiRedaction registerLogged text st) (applyPiiRedaction register text (fst st)).
Proof.
  unfold applyPiiRedaction.
  assert (E : agrees (redactEmail registerLogged text st) (redactEmail register text (fst st))).
  { apply replaceSegments_agrees. intros. apply registerLogged_agrees. }
  destruct (redactEmail registerLogged text st) as [r1 st1],
           (redactEmail register text (fst st)) as [r1' q1].
  destruct E as [E1 E2]. cbn [fst snd] in E1, E2. subst r1' q1.
  assert (B : agrees (redactBirthDate registerLogged r1 st1)
                     (redactBirthDate register r1 (fst st1))).
  { apply replaceSegments_agrees. intros t i st0. cbv zeta.
    pose proof (registerLogged_agrees (snd i) BIRTH_DATE st0) as [X Y].
    destruct (registerLogged (snd i) BIRTH_DATE st0), (register (snd i) BIRTH_DATE (fst st0)).
    cbn [fst snd] in *. subst. split; reflexivity. }
  destruct (redactBirthDate registerLogged r1 st1) as [r2 st2],
           (redactBirthDate register r1 (fst st1)) as [r2' q2].
  destruct B as [B1 B2]. cbn [fst snd] in B1, B2. subst r2' q2.
  assert (P : agrees (redactPersonalId registerLogged r2 st2)
                     (redactPersonalId register r2 (fst st2))).
  { apply replaceSegments_agrees. intros t i st0. cbv zeta.
    pose proof (registerLogged_agrees (snd i) PERSONAL_ID st0) as [X Y].
    destruct (registerLogged (snd i) PERSONAL_ID st0), (register (snd i) PERSONAL_ID (fst st0)).
    cbn [fst snd] in *. subst. split; reflexivity. }
  destruct (redactPersonalId registerLogged r2 st2) as [r3 st3],
           (redactPersonalId register r2 (fst st2)) as [r3' q3].
  destruct P as [P1 P2]. cbn [fst snd] in P1, P2. subst r3' q3.
  assert (F : agrees (redactPhone registerLogged r3 st3) (redactPhone register r3 (fst st3))).
  { apply replaceSegments_agrees. intros t i st0.
    destruct (negb (isLikelyPhoneNumber t)); [split; reflexivity |].
    apply registerLogged_agrees. }
  destruct (redactPhone registerLogged r3 st3) as [r4 st4],
           (redactPhone register r3 (fst st3)) as [r4' q4].
  destruct F as [F1 F2]. cbn [fst snd] in F1, F2. subst r4' q4.
  apply replaceSegments_agrees. intros. apply registerLogged_agrees.
Qed.

(** The redactor after a text is the redactor after the text's calls. *)
Lemma applied_is_registerAll (text : str) (r : Redactor) :
  snd (applyPiiRedaction register text r) = snd (registerAll (textCalls text r) r).
Proof.
  destruct (applyPiiRedaction_agrees text (r, [])) as [_ E]. cbn [fst] in E. rewrite <- E.
  destruct (applyPiiRedaction_grows text (r, [])) as (ext & X & Y).
  unfold textCalls. cbn [fst snd app] in *. rewrite X. exact Y.
Qed.

Lemma redactTextFields_is_registerAll (fields : list TextField) (i : ApplicationInput)
  (r : Redactor) :
  snd (redactTextFields fields i r) = snd (registerAll (fieldCalls fields i r) r).
Proof.
  revert i r. induction fields as [| f rest IH]; intros i r;
    cbn [redactTextFields fieldCalls]; [reflexivity |].
  pose proof (applied_is_registerAll (getField f i) r) as A.
  destruct (applyPiiRedaction register (getField f i) r) as [x r']. cbn [snd] in A.
  rewrite registerAll_app, <- A. apply IH.
Qed.

Lemma redactMetricFields_is_registerAll (fields : list MetricKey) (v : MetricsVault)
  (r : Redactor) :
  snd (redactMetricFields fields v r) = snd (registerAll (metricCalls fields v r) r).
Proof.
  revert v r. induction fields as [| f rest IH]; intros v r;
    cbn [redactMetricFields metricCalls]; [reflexivity |].
  destruct (vaultGet f v) as [[| c value] |]; try apply IH.
  pose proof (applied_is_registerAll (c :: value) r) as A.
  destruct (applyPiiRedaction register (c :: value) r) as [x r']. cbn [snd] in A.
  rewrite registerAll_app, <- A. apply IH.
Qed.

(** The entries of a run are those of a fresh redactor after the run's
    calls. *)
Lemma run_is_registerAll (input : ApplicationInput) :
  redactionEntries (prepareApplicationForGemini input)
  = if privacyMode input
    then entries (snd (registerAll (runRegistrations input) createRedactor))
    else [].
Proof.
  unfold prepareApplicationForGemini, runRegistrations.
  destruct (privacyMode input); cbn [negb]; [| reflexivity].
  pose proof (redactTextFields_is_registerAll TEXT_FIELDS input createRedactor) as A.
  destruct (redactTextFields TEXT_FIELDS input createRedactor) as [i1 r1]. cbn [snd] in A.
  pose proof (redactMetricFields_is_registerAll METRIC_FIELDS (metricsVault i1) r1) as B.
  destruct (redactMetricFields METRIC_FIELDS (metricsVault i1) r1) as [v r2]. cbn [snd] in B.
  cbn [redactionEntries]. rewrite registerAll_app, <- A, <- B. reflexivity.
Qed.

End LoggedRuns.

Section StablePlaceholders.
Import types privacyService.

(** C7. After any sequence of [register] calls on a fresh redactor,
    within one text or across the fields of a run:
    - each call's placeholder is [[PII_<TYPE>_<n>]] with [n] the number,
      from 1, of the value's normalized key among the first detections
      of its type;
    - two calls get the same placeholder exactly when they agree on the
      type and the normalized key, so a repeat reuses the placeholder
      and distinct keys of one type get distinct numbers;
    - the entries are one per first detection, in that order, each with
      the value as first spelled;
    - and the entries that [prepareApplicationForGemini] returns in
      privacy mode are those of the calls of its run, over all text
      fields and then the metric fields. *)
Theorem C7_stable_placeholders (calls : list (str * PiiType)) (input : ApplicationInput) :
  let ps := fst (registerAll calls createRedactor) in
  let r := snd (registerAll calls createRedactor) in
  let firsts := firstDetections calls in
  Forall2 (fun c p =>
             exists n,
               rank (snd c) (normalizePiiKey (snd c) (fst c)) firsts = Some n
               /\ 1 <= n /\ p = makePlaceholder (snd c) n)
          calls ps
  /\ (forall i j ci cj pi pj,
        nth_error calls i = Some ci -> nth_error calls j = Some cj ->
        nth_error ps i = Some pi -> nth_error ps j = Some pj ->
        (pi = pj <->
         snd ci = snd cj
         /\ normalizePiiKey (snd ci) (fst ci) = normalizePiiKey (snd cj) (fst cj)))
  /\ entries r = map (entryOf firsts) firsts
  /\ redactionEntries (prepareApplicationForGemini input)
     = if privacyMode input
       then map (entryOf (firstDetections (runRegistrations input)))
                (firstDetections (runRegistrations input))
       else [].
Proof.
  cbv zeta.
  destruct (registerAll_tracks calls [] createRedactor Tracks_fresh) as [T F].
  fold (firstDetections calls) in T, F.
  split; [| split; [| split]].
  - eapply Forall2_impl; [| exact F].
    intros c p (n & R & P). exists n. split; [exact R |]. split; [| exact P].
    apply rankFrom_bound in R. lia.
  - intros i j ci cj pi pj Hi Hj Hpi Hpj.
    pose proof (Forall2_nth_error _ _ _ F) as A. cbv beta in A.
    destruct (A _ _ _ Hi Hpi) as (n & Rn & Pn).
    destruct (A _ _ _ Hj Hpj) as (m & Rm & Pm).
    subst pi pj. split.
    + intros E. apply makePlaceholder_inj in E. destruct E as [Et En]. subst m.
      split; [exact Et |]. rewrite <- Et in Rm |- *.
      eapply rankFrom_inj; [exact Rn | exact Rm].
    + intros [Et Ek]. rewrite <- Ek, <- Et in Rm.
      unfold rank in *. rewrite Rn in Rm. injection Rm as <-. rewrite Et. reflexivity.
  - apply (tr_entries _ _ T).
  - rewrite run_is_registerAll. destruct (privacyMode input); [| reflexivity].
    destruct (registerAll_tracks (runRegistrations input) [] createRedactor Tracks_fresh)
      as [T' _].
    apply (tr_entries _ _ T').
Qed.

(** Two spellings of one address, a phone number and another address. *)
Lemma C7_stable_placeholders_witness :
  let calls := [(lit "a@b.co", EMAIL); (lit "+1 415 555 1212", PHONE);
                (lit "A@B.CO", EMAIL); (lit "c@d.io", EMAIL)] in
  fst (registerAll calls createRedactor)
  = [lit "[PII_EMAIL_1]"; lit "[PII_PHONE_1]"; lit "[PII_EMAIL_1]"; lit "[PII_EMAIL_2]"]
  /\ (lit "[PII_EMAIL_1]" = lit "[PII_EMAIL_1]" <->
      EMAIL = EMAIL
      /\ normalizePiiKey EMAIL (lit "a@b.co") = normalizePiiKey EMAIL (lit "A@B.CO")).
Proof.
  cbv zeta. split; [vm_compute; reflexivity |].
  exact (proj1 (proj2 (C7_stable_placeholders
                         [(lit "a@b.co", EMAIL); (lit "+1 415 555 1212", PHONE);
                          (lit "A@B.CO", EMAIL); (lit "c@d.io", EMAIL)] sampleInput))
           0 2 _ _ _ _ eq_refl eq_refl eq_refl eq_refl).
Defined.

End StablePlaceholders.

(** ** Retrieval chunking *)

Section RetrievalFacts.
Import Js types retrievalService.
Variable host : Host.

Lemma crlfToLf_step (c d : ascii) (s : str) :
  Str.crlfToLf (c :: d :: s)
  = if Ascii.eqb c Str.CR && Ascii.eqb d Str.LF then Str.LF :: Str.crlfToLf s
    else c :: Str.crlfToLf (d :: s).
Proof. reflexivity. Qed.

Lemma wordsAcc_crlf (n : nat) (s cur : str) :
  List.length s <= n ->
  Str.wordsAcc cur (Str.crlfToLf s) = Str.wordsAcc cur s.
Proof.
  revert s cur. induction n as [| n IH]; intros s cur L.
  - destruct s; [reflexivity | simpl in L; lia].
  - destruct s as [| c [| d s]]; [reflexivity | reflexivity |].
    simpl in L. rewrite crlfToLf_step.
    destruct (Ascii.eqb c Str.CR && Ascii.eqb d Str.LF) eqn:E.
    + apply andb_true_iff in E. destruct E as [Ec Ed].
      apply Ascii.eqb_eq in Ec, Ed. subst c d.
      cbn [Str.wordsAcc].
      change (Str.isSpace Str.LF) with true. change (Str.isSpace Str.CR) with true.
      cbv iota. rewrite !IH by lia. destruct cur; reflexivity.
    + cbn [Str.wordsAcc]. destruct (Str.isSpace c);
        [destruct cur |]; rewrite IH by (simpl; lia); reflexivity.
Qed.

Lemma normalizeText_words (s : str) :
  normalizeText s = Str.join [SP] (Str.words s).
Proof.
  unfold normalizeText. rewrite trim_collapse_words. unfold Str.words.
  rewrite (wordsAcc_crlf (List.length s)) by lia. reflexivity.
Qed.

(** The loop of [chunkTextForRetrieval] never runs out of rounds: any
    number of rounds that covers the text still to be read gives the
    same chunks. *)
Lemma chunkLoop_fuel (fuel fuel' : nat) (src : RetrievalSource) (normalized : str)
  (maxChars overlap start index : nat) :
  List.length normalized - start <= fuel ->
  List.length normalized - start <= fuel' ->
  chunkLoop fuel src normalized maxChars overlap start index
  = chunkLoop fuel' src normalized maxChars overlap start index.
Proof.
  revert fuel' start index.
  induction fuel as [| fuel IH]; intros fuel' start index L L'.
  - assert (E : (start <? List.length normalized) = false) by (apply Nat.ltb_ge; lia).
    destruct fuel'; simpl; [reflexivity |]. rewrite E. reflexivity.
  - destruct fuel' as [| fuel'].
    + assert (E : (start <? List.length normalized) = false) by (apply Nat.ltb_ge; lia).
      simpl. rewrite E. reflexivity.
    + cbn [chunkLoop].
      destruct (start <? List.length normalized) eqn:E; [| reflexivity].
      apply Nat.ltb_lt in E. cbv zeta.
      match goal with
      | |- (if ?b then _ else _) = _ => destruct b; [reflexivity |]
      end.
      f_equal. apply IH; lia.
Qed.

(** The collation is all that the selection takes from its host. *)
Lemma insertSorted_collation (other : Host) (x : RetrievalChunk)
  (sorted : list RetrievalChunk) :
  (forall l r, localeCompare other l r = localeCompare host l r) ->
  insertSorted other x sorted = insertSorted host x sorted.
Proof.
  intros H. induction sorted as [| y rest IH]; cbn [insertSorted]; [reflexivity |].
  unfold keepsOrder. rewrite H, IH. reflexivity.
Qed.

Lemma sortChunks_collation (other : Host) (chunks : list RetrievalChunk) :
  (forall l r, localeCompare other l r = localeCompare host l r) ->
  sortChunks other chunks = sortChunks host chunks.
Proof.
  intros H. unfold sortChunks.
  induction chunks as [| x chunks IH]; cbn [fold_right]; [reflexivity |].
  rewrite IH. apply insertSorted_collation. exact H.
Qed.

(** C6. [selectRetrievalChunkIds] is a function of the input, the limit
    and the locale's collation only: two calls on one input return the
    same ordered ids, also under two hosts that collate alike; and two
    inputs whose five fields differ only in leading, trailing or
    internal runs of white space get the same ordered ids. *)
Theorem C6_retrieval_determinism (a b : RetrievalInput) (limit : nat) :
  selectRetrievalChunkIds host a limit = selectRetrievalChunkIds host a limit
  /\ (forall other : Host,
        (forall l r, localeCompare other l r = localeCompare host l r) ->
        selectRetrievalChunkIds other a limit = selectRetrievalChunkIds host a limit)
  /\ (sameWords a b ->
      selectRetrievalChunkIds host a limit = selectRetrievalChunkIds host b limit).
Proof.
  split; [reflexivity |]. split.
  - intros other H. unfold selectRetrievalChunkIds, selectRetrievalChunks.
    rewrite (sortChunks_collation other _ H). reflexivity.
  - intros H.
    unfold selectRetrievalChunkIds, selectRetrievalChunks. f_equal. f_equal. f_equal.
    unfold buildRetrievalChunks.
    apply flat_map_ext. intros src.
    unfold chunkTextForRetrieval. rewrite !normalizeText_words, (H src). reflexivity.
Qed.

End RetrievalFacts.

Section RetrievalExample.
Import Js types retrievalService.

Lemma C6_retrieval_determinism_witness :
  let a := {| r_jobDescription := lit "Senior engineer. Python required.";
              r_resumeContent := lit "Ten years of Python.";
              r_coverLetterContent := []; r_companyInfo := [];
              r_additionalContext := [] |} in
  let b := {| r_jobDescription := pad (lit "Senior   engineer. Python required.");
              r_resumeContent := pad (lit "Ten years  of  Python.");
              r_coverLetterContent := lit " "; r_companyInfo := [];
              r_additionalContext := [] |} in
  sameWords a b
  /\ selectRetrievalChunkIds sampleHost a 8 = selectRetrievalChunkIds sampleHost b 8.
Proof.
  cbv zeta.
  match goal with
  | |- sameWords ?a ?b /\ _ =>
      assert (H : sameWords a b) by (intros s; destruct s; vm_compute; reflexivity);
      split; [exact H | exact (proj2 (proj2 (C6_retrieval_determinism sampleHost a b 8)) H)]
  end.
Defined.

End RetrievalExample.

(** ** Evidence snippets *)

Section EvidenceFacts.
Import Js types geminiService.


Lemma dropWhile_split (p : ascii -> bool) (s : str) :
  exists run, s = run ++ Str.dropWhile p s /\ forallb p run = true.
Proof.
  induction s as [| c s (run & E & H)]; simpl.
  - exists []. split; reflexivity.
  - destruct (p c) eqn:Pc.
    + exists (c :: run). simpl. rewrite Pc, H. split; [f_equal; exact E | reflexivity].
    + exists []. split; reflexivity.
Qed.


Lemma Forall_firstn {A : Type} (P : A -> Prop) (n : nat) (l : list A) :
  Forall P l -> Forall P (firstn n l).
Proof.
  intros H. revert n. induction H as [| x l Hx H IH]; intros [| n]; simpl;
    constructor; auto.
Qed.






End EvidenceFacts.

(** ** Final assembly *)

Section AssemblyFacts.
Import Js types privacyService geminiService.
Variable host : Host.
Variable World : Type.
Variable generateContent :
  StageGenerationParams -> World -> (JsError + GenerationResponse) * World.

Lemma bind_inr {A B : Type} (c : M World A) (k : A -> M World B) (st st' : Run World) (r : B) :
  bind c k st = (inr r, st') ->
  exists x st1, c st = (inr x, st1) /\ k x st1 = (inr r, st').
Proof.
  unfold bind. destruct (c st) as [[e | x] st1]; intros H; [discriminate H |].
  exists x, st1. split; [reflexivity | exact H].
Qed.

Lemma getGeminiClient_pure (o : AnalysisRuntimeOptions) (st st' : Run World) (u : unit) :
  getGeminiClient host o st = (inr u, st') -> st' = st.
Proof.
  unfold getGeminiClient.
  destruct (modelMode o) as [[] |];
    try destruct (nonBlank (apiKey o) || nonBlank (envApiKey host));
    unfold ret, throw; intros H; inversion H; reflexivity.
Qed.

Lemma computeInputHash_pure (i : ApplicationInput) (st st' : Run World) (h : str) :
  computeInputHash host i st = (inr h, st') -> st' = st.
Proof.
  unfold computeInputHash. destruct (sha256Hex host);
    unfold ret, throw; intros H; inversion H; reflexivity.
Qed.

Lemma lookup_setProp_other (k k0 : str) (v : JsValue) (props : list (str * JsValue)) :
  Str.eqb k0 k = false -> lookup k0 (setProp k v props) = lookup k0 props.
Proof.
  intros N. induction props as [| [k' v'] props IH]; simpl.
  - rewrite N. reflexivity.
  - destruct (Str.eqb k k') eqn:E; simpl.
    + apply Str_eqb_eq in E. subst k'. rewrite N. reflexivity.
    + rewrite IH. reflexivity.
Qed.

(** The score stage's normal form has no place for coverage: a
    [keywordCoverage] or [hardRequirementsMissing] property of the
    model's answer changes nothing. *)
Lemma normalizeScoreMatch_ignores (raw v : JsValue) :
  normalizeScoreMatch (withProp raw "keywordCoverage" v) = normalizeScoreMatch raw
  /\ normalizeScoreMatch (withProp raw "hardRequirementsMissing" v) = normalizeScoreMatch raw.
Proof.
  destruct raw; try (split; reflexivity).
  unfold normalizeScoreMatch, withProp, asRecord, get.
  split; rewrite !lookup_setProp_other by reflexivity; reflexivity.
Qed.

(** What a stage answers does not depend on the retry counter it is
    started with: runs from two states with the same world and the same
    events answer alike and end with the same world and events. *)
Lemma retryLoop_counter (name : str) (params : StageGenerationParams) (counting : bool)
  (maxAttempts remaining attempt : nat) (last : option JsError) (a b : Run World) :
  world a = world b -> events a = events b ->
  let run := retryLoop name (callGenerator generateContent params) maxAttempts
               (retryCallback counting) remaining attempt last in
  fst (run a) = fst (run b)
  /\ world (snd (run a)) = world (snd (run b))
  /\ events (snd (run a)) = events (snd (run b)).
Proof.
  cbv zeta. revert attempt last a b.
  induction remaining as [| remaining IH]; intros attempt last a b W E.
  - cbn [retryLoop throw fst snd]. repeat split; assumption.
  - rewrite !retryLoop_step, !callGenerator_run. rewrite W, E.
    destruct (generateContent params (world b)) as [[e | r] w]; cbn [fst snd].
    + destruct (negb ((attempt <? maxAttempts) && isTransientError e)).
      * cbn [fst snd world events]. repeat split; reflexivity.
      * apply IH; reflexivity.
    + cbn [fst snd world events]. repeat split; reflexivity.
Qed.

Lemma parseJsonText_answer (name : str) (t : option str) (a b : Run World) :
  fst (parseJsonText host name t a) = fst (parseJsonText host name t b).
Proof.
  unfold parseJsonText. destruct t as [[| c t] |]; try reflexivity.
  destruct (JSON_parse host _); reflexivity.
Qed.

Lemma runStructuredStage_counter {T : Type} (tierConfig : TierConfig) (stageName : StageName)
  (instruction prompt : str) (normalize : JsValue -> T) (counting : bool) (a b : Run World) :
  world a = world b -> events a = events b ->
  let run := runStructuredStage host generateContent tierConfig stageName instruction prompt
               normalize (retryCallback counting) in
  fst (run a) = fst (run b)
  /\ world (snd (run a)) = world (snd (run b))
  /\ events (snd (run a)) = events (snd (run b)).
Proof.
  intros W E. cbv zeta.
  set (requested := fun st : Run World =>
         {| world := world st; retryCount := retryCount st;
            events := events st
                      ++ [StageRequested (requestOf tierConfig stageName instruction prompt)] |}).
  set (loop := withRetry (stageLabel stageName)
                 (callGenerator generateContent
                    {| p_model := model tierConfig; contents := prompt;
                       systemInstruction := instruction;
                       responseSchema := schemaFor stageName;
                       maxOutputTokens := stageMaxOutputTokens tierConfig stageName |})
                 MAX_RETRY_ATTEMPTS (retryCallback counting)).
  assert (U : forall st,
             runStructuredStage host generateContent tierConfig stageName instruction prompt
               normalize (retryCallback counting) st
             = match loop (requested st) with
               | (inl e, s) => (inl e, s)
               | (inr response, s) =>
                   match parseJsonText host (stageLabel stageName) (text response) s with
                   | (inl e, s') => (inl e, s')
                   | (inr raw, s') => (inr (normalize raw), s')
                   end
               end).
  { intros st. unfold runStructuredStage, bind, emit, ret. fold loop.
    change {| world := world st; retryCount := retryCount st;
              events := events st ++ [StageRequested _] |} with (requested st).
    destruct (loop (requested st)) as [[e | response] s]; [reflexivity |].
    destruct (parseJsonText host (stageLabel stageName) (text response) s) as [[e | raw] s'];
      reflexivity. }
  rewrite !U.
  destruct (retryLoop_counter (stageLabel stageName)
              {| p_model := model tierConfig; contents := prompt;
                 systemInstruction := instruction;
                 responseSchema := schemaFor stageName;
                 maxOutputTokens := stageMaxOutputTokens tierConfig stageName |}
              counting MAX_RETRY_ATTEMPTS MAX_RETRY_ATTEMPTS 1 None
              (requested a) (requested b))
    as (F & W' & E'); [exact W | subst requested; cbn [events]; rewrite E; reflexivity |].
  cbv zeta in F, W', E'. fold (withRetry (stageLabel stageName)
    (callGenerator generateContent
       {| p_model := model tierConfig; contents := prompt;
          systemInstruction := instruction;
          responseSchema := schemaFor stageName;
          maxOutputTokens := stageMaxOutputTokens tierConfig stageName |})
    MAX_RETRY_ATTEMPTS (retryCallback counting)) in F, W', E'.
  fold loop in F, W', E'.
  destruct (loop (requested a)) as [[ea | ra] a1];
    destruct (loop (requested b)) as [[eb | rb] b1];
    cbn [fst snd] in F, W', E'; try discriminate F.
  - injection F as <-. cbn [fst snd]. repeat split; assumption.
  - injection F as <-.
    pose proof (parseJsonText_answer (stageLabel stageName) (text ra) a1 b1) as P.
    pose proof (parseJsonText_pure host World (stageLabel stageName) (text ra) a1) as Pa.
    pose proof (parseJsonText_pure host World (stageLabel stageName) (text ra) b1) as Pb.
    destruct (parseJsonText host (stageLabel stageName) (text ra) a1) as [[e1 | raw1] a2];
      destruct (parseJsonText host (stageLabel stageName) (text ra) b1) as [[e2 | raw2] b2];
      cbn [fst snd] in P, Pa, Pb; subst a2 b2; try discriminate P;
      injection P as <-; cbn [ret fst snd]; repeat split; assumption.
Qed.

(** C4. Whenever [analyzeApplication] returns a result, for any
    generator, the extract stage had returned facts, and the result's
    [keywordCoverage] and [hardRequirementsMissing] are those of
    [computeAtsCoverage] on the sanitized job description and these
    resume facts; what the model puts under these names in its score
    answer is dropped by the stage's normalization. *)
Theorem C4_deterministic_coverage (data : ApplicationInput)
  (runtimeOptions : AnalysisRuntimeOptions) (st st' : Run World) (result : AnalysisResult) :
  analyzeApplication host generateContent data runtimeOptions st = (inr result, st') ->
  let sanitized := sanitizedInput (prepareApplicationForGemini data) in
  let tierConfig := getTierConfig (selectTier sanitized) in
  (exists extracted st1,
     extractFactsWithClient host generateContent sanitized tierConfig (Some incrementRetry) st
     = (inr extracted, st1)
     /\ keywordCoverage result
        = atsCoverageService.keywordCoverage
            (atsCoverageService.computeAtsCoverage host (jobDescription sanitized)
               (forCoverage (resumeFacts extracted)))
     /\ hardRequirementsMissing result
        = atsCoverageService.hardRequirementsMissing
            (atsCoverageService.computeAtsCoverage host (jobDescription sanitized)
               (forCoverage (resumeFacts extracted))))
  /\ (forall raw v,
        normalizeScoreMatch (withProp raw "keywordCoverage" v) = normalizeScoreMatch raw
        /\ normalizeScoreMatch (withProp raw "hardRequirementsMissing" v)
           = normalizeScoreMatch raw).
Proof.
  intros H. cbv zeta. split; [| exact normalizeScoreMatch_ignores].
  unfold analyzeApplication in H. cbv zeta in H.
  apply bind_inr in H. destruct H as (u & s0 & H0 & H).
  apply getGeminiClient_pure in H0. subst s0.
  apply bind_inr in H. destruct H as (hash & s1 & H1 & H).
  apply computeInputHash_pure in H1. subst s1.
  apply bind_inr in H. destruct H as (u' & s1 & H1 & H).
  unfold resetRetry in H1. injection H1 as _ <-.
  apply bind_inr in H. destruct H as (extracted & s2 & H2 & H).
  apply bind_inr in H. destruct H as (scored & s3 & H3 & H).
  apply bind_inr in H. destruct H as (rewritten & s4 & H4 & H).
  exists extracted.
  exists (snd (extractFactsWithClient host generateContent
                 (sanitizedInput (prepareApplicationForGemini data))
                 (getTierConfig (selectTier (sanitizedInput (prepareApplicationForGemini data))))
                 (Some incrementRetry) st)).
  split.
  { unfold extractFactsWithClient in *. cbv zeta in *.
    match goal with
    | |- runStructuredStage _ _ ?c ?s ?i ?p ?n _ st = _ =>
        destruct (runStructuredStage_counter c s i p n true st
                    {| world := world st; retryCount := 0; events := events st |}
                    eq_refl eq_refl) as (F & _)
    end.
    cbv zeta in F. change (retryCallback true) with (Some (@incrementRetry World)) in F.
    rewrite H2 in F. cbn [fst] in F.
    apply injective_projections; [exact F | reflexivity]. }
  match type of H with
  | (if ?b then _ else _) = _ => destruct b
  end; [discriminate H |].
  unfold ret in H. injection H as <- _. split; reflexivity.
Qed.

End AssemblyFacts.

Section AssemblyExample.
Import Js types privacyService geminiService.

Lemma C4_deterministic_coverage_witness :
  exists result st',
    analyzeApplication sampleHost sampleGenerator sampleInput sampleOptions sampleStart
    = (inr result, st')
    /\ exists extracted,
         keywordCoverage result
         = atsCoverageService.keywordCoverage
             (atsCoverageService.computeAtsCoverage sampleHost
                (jobDescription (sanitizedInput (prepareApplicationForGemini sampleInput)))
                (forCoverage (resumeFacts extracted)))
         /\ hardRequirementsMissing result
            = atsCoverageService.hardRequirementsMissing
                (atsCoverageService.computeAtsCoverage sampleHost
                   (jobDescription (sanitizedInput (prepareApplicationForGemini sampleInput)))
                   (forCoverage (resumeFacts extracted))).
Proof.
  eexists. eexists.
  assert (H : analyzeApplication sampleHost sampleGenerator sampleInput sampleOptions
                sampleStart = (inr _, _)) by (vm_compute; reflexivity).
  split; [exact H |].
  destruct (C4_deterministic_coverage sampleHost unit sampleGenerator _ _ _ _ _ H)
    as [(extracted & st1 & _ & K & M) _].
  exists extracted. split; [exact K | exact M].
Defined.

End AssemblyExample.

(** ** Regular expressions: what a match consists of *)

Section MatchFacts.
Import Regex.

Lemma lastOr_app (prev : option ascii) (a b : str) :
  lastOr prev (a ++ b) = lastOr (lastOr prev a) b.
Proof.
  unfold lastOr. rewrite rev_app_distr. destruct (rev b); reflexivity.
Qed.

Lemma lastOr_cons (prev : option ascii) (c : ascii) (s : str) :
  lastOr prev (c :: s) = lastOr (Some c) s.
Proof.
  change (c :: s) with ([c] ++ s). rewrite lastOr_app. reflexivity.
Qed.

Lemma exec_sound {A : Type} (r : re) :
  forall (prev : option ascii) (s : str) (k : option ascii -> str -> option A) (x : A),
    exec r prev s k = Some x -> consumes r prev s k x.
Proof.
  induction r as [| p | a IHa b IHb | a IHa b IHb | a IHa | a IHa | | | |];
    intros prev s k x H; unfold consumes; cbn [exec alphabet minLen] in *.
  - exists [], s. repeat split; auto.
  - destruct s as [| c s]; [discriminate |].
    destruct (p c) eqn:P; [| discriminate].
    exists [c], s. cbn. rewrite P. repeat split; auto.
  - apply IHa in H. destruct H as (m1 & r1 & -> & H & F1 & L1).
    apply IHb in H. destruct H as (m2 & r2 & -> & H & F2 & L2).
    exists (m1 ++ m2), r2. rewrite lastOr_app, <- app_assoc.
    split; [reflexivity |]. split; [exact H |]. split.
    + rewrite forallb_app. apply andb_true_iff. split.
      * eapply forallb_forall. intros c Hc. rewrite forallb_forall in F1.
        rewrite (F1 c Hc). reflexivity.
      * eapply forallb_forall. intros c Hc. rewrite forallb_forall in F2.
        rewrite (F2 c Hc). apply orb_true_r.
    + rewrite length_app. lia.
  - destruct (exec a prev s k) as [y |] eqn:Ea.
    + injection H as <-. apply IHa in Ea. destruct Ea as (m1 & r1 & -> & H & F1 & L1).
      exists m1, r1. repeat split; auto; [| lia].
      eapply forallb_forall. intros c Hc. rewrite forallb_forall in F1.
      rewrite (F1 c Hc). reflexivity.
    + apply IHb in H. destruct H as (m1 & r1 & -> & H & F1 & L1).
      exists m1, r1. repeat split; auto; [| lia].
      eapply forallb_forall. intros c Hc. rewrite forallb_forall in F1.
      rewrite (F1 c Hc). apply orb_true_r.
  - revert H. generalize (List.length s) at 1 as fuel. intros fuel.
    revert prev s x. induction fuel as [| fuel IHf]; intros prev s x H.
    + exists [], s. repeat split; auto.
    + match type of H with
      | match ?E with _ => _ end = _ => destruct E as [y |] eqn:Ea
      end.
      * injection H as <-. apply IHa in Ea.
        destruct Ea as (m1 & r1 & -> & H & F1 & _).
        destruct (List.length r1 <? List.length (m1 ++ r1)); [| discriminate].
        apply IHf in H. destruct H as (m2 & r2 & -> & H & F2 & _).
        exists (m1 ++ m2), r2. rewrite lastOr_app, <- app_assoc.
        repeat split; auto; [| lia].
        rewrite forallb_app. apply andb_true_iff. split; [exact F1 | exact F2].
      * exists [], s. repeat split; auto.
  - revert H. generalize (List.length s) at 1 as fuel. intros fuel.
    revert prev s x. induction fuel as [| fuel IHf]; intros prev s x H.
    + destruct (k prev s) as [y |] eqn:K; [| discriminate].
      injection H as <-. exists [], s. repeat split; auto.
    + destruct (k prev s) as [y |] eqn:K.
      * injection H as <-. exists [], s. repeat split; auto.
      * apply IHa in H. destruct H as (m1 & r1 & -> & H & F1 & _).
        destruct (List.length r1 <? List.length (m1 ++ r1)); [| discriminate].
        apply IHf in H. destruct H as (m2 & r2 & -> & H & F2 & _).
        exists (m1 ++ m2), r2. rewrite lastOr_app, <- app_assoc.
        repeat split; auto; [| lia].
        rewrite forallb_app. apply andb_true_iff. split; [exact F1 | exact F2].
  - destruct (xorb (wordBefore prev) (wordAhead s)); [| discriminate].
    exists [], s. repeat split; auto.
  - destruct (lineStart prev); [| discriminate].
    exists [], s. repeat split; auto.
  - destruct prev; [discriminate |]. exists [], s. repeat split; auto.
  - destruct s; [| discriminate]. exists [], []. repeat split; auto.
Qed.

End MatchFacts.

(** ** Regular expressions: the rounds of a repetition are enough *)

Section RepetitionFacts.
Import Regex.

(** [exec] uses its continuation only through the answers it gives. *)
Lemma exec_ext {A : Type} (r : re) :
  forall (prev : option ascii) (s : str) (k1 k2 : option ascii -> str -> option A),
    (forall p t, k1 p t = k2 p t) -> exec r prev s k1 = exec r prev s k2.
Proof.
  induction r as [| p | a IHa b IHb | a IHa b IHb | a IHa | a IHa | | | |];
    intros prev s k1 k2 H; cbn [exec].
  - apply H.
  - destruct s as [| c s]; [reflexivity |]. destruct (p c); [apply H | reflexivity].
  - apply IHa. intros p t. apply IHb. exact H.
  - rewrite (IHa prev s k1 k2 H), (IHb prev s k1 k2 H). reflexivity.
  - generalize (List.length s) as fuel. intros fuel. revert prev s.
    induction fuel as [| fuel IHf]; intros prev s; [apply H |].
    rewrite H.
    match goal with
    | |- match exec _ _ _ ?K1 with _ => _ end = match exec _ _ _ ?K2 with _ => _ end =>
        rewrite (IHa prev s K1 K2); [reflexivity |]
    end.
    intros p t. destruct (List.length t <? List.length s); [apply IHf | reflexivity].
  - generalize (List.length s) as fuel. intros fuel. revert prev s.
    induction fuel as [| fuel IHf]; intros prev s; rewrite H; [reflexivity |].
    destruct (k2 prev s); [reflexivity |].
    apply IHa.
    intros p t. destruct (List.length t <? List.length s); [apply IHf | reflexivity].
  - destruct (xorb (wordBefore prev) (wordAhead s)); [apply H | reflexivity].
  - destruct (lineStart prev); [apply H | reflexivity].
  - destruct prev; [reflexivity | apply H].
  - destruct s; [apply H | reflexivity].
Qed.

(** A continuation that refuses everything makes the match fail. *)
Lemma exec_refused {A : Type} (r : re) (prev : option ascii) (s : str)
  (k : option ascii -> str -> option A) :
  (forall p t, k p t = None) -> exec r prev s k = None.
Proof.
  intros H. destruct (exec r prev s k) as [x |] eqn:E; [| reflexivity].
  apply exec_sound in E. destruct E as (mt & rest & _ & K & _).
  rewrite H in K. discriminate.
Qed.

(** The greedy repetition is one round of its body followed by the
    repetition again, a round that consumes nothing being refused, or
    else no round at all: the rounds the model allows itself, one for
    each code unit of the input, never run out before the input does. *)
Lemma exec_Star {A : Type} (a : re) (prev : option ascii) (s : str)
  (k : option ascii -> str -> option A) :
  exec (Star a) prev s k
  = match exec a prev s
            (fun prev' s' =>
               if List.length s' <? List.length s
               then exec (Star a) prev' s' k else None) with
    | Some x => Some x
    | None => k prev s
    end.
Proof.
  cbn [exec].
  match goal with
  | |- ?L (List.length s) prev s = _ => set (loop := L)
  end.
  assert (Fuel : forall f f' p t,
             List.length t <= f -> List.length t <= f' -> loop f p t = loop f' p t).
  { induction f as [| f IHf]; intros f' p t L L'.
    - destruct t; [| simpl in L; lia].
      destruct f' as [| f']; [reflexivity |]. cbn.
      rewrite exec_refused; [reflexivity | reflexivity].
    - destruct f' as [| f'].
      + destruct t; [| simpl in L'; lia]. cbn.
        rewrite exec_refused; [reflexivity | reflexivity].
      + cbn [loop].
        match goal with
        | |- match exec _ _ _ ?K1 with _ => _ end = match exec _ _ _ ?K2 with _ => _ end =>
            rewrite (exec_ext a p t K1 K2); [reflexivity |]
        end.
        intros q u. destruct (Nat.ltb_spec (List.length u) (List.length t)); [| reflexivity].
        apply IHf; lia. }
  destruct s as [| c s].
  - cbn. rewrite exec_refused; [reflexivity | reflexivity].
  - cbn [List.length loop].
    match goal with
    | |- match exec _ _ _ ?K1 with _ => _ end = match exec _ _ _ ?K2 with _ => _ end =>
        rewrite (exec_ext a prev (c :: s) K1 K2); [reflexivity |]
    end.
    intros q u. cbn [List.length].
    destruct (Nat.ltb_spec (List.length u) (S (List.length s))); [| reflexivity].
    apply Fuel; lia.
Qed.

(** The same for the lazy repetition, which tries what follows it
    before each round. *)
Lemma exec_StarLazy {A : Type} (a : re) (prev : option ascii) (s : str)
  (k : option ascii -> str -> option A) :
  exec (StarLazy a) prev s k
  = match k prev s with
    | Some x => Some x
    | None =>
        exec a prev s
          (fun prev' s' =>
             if List.length s' <? List.length s
             then exec (StarLazy a) prev' s' k else None)
    end.
Proof.
  cbn [exec].
  match goal with
  | |- ?L (List.length s) prev s = _ => set (loop := L)
  end.
  assert (Fuel : forall f f' p t,
             List.length t <= f -> List.length t <= f' -> loop f p t = loop f' p t).
  { induction f as [| f IHf]; intros f' p t L L'.
    - destruct t; [| simpl in L; lia].
      destruct f' as [| f']; [reflexivity |]. cbn.
      destruct (k p []); [reflexivity |].
      rewrite exec_refused; [reflexivity | reflexivity].
    - destruct f' as [| f'].
      + destruct t; [| simpl in L'; lia]. cbn.
        destruct (k p []); [reflexivity |].
        rewrite exec_refused; [reflexivity | reflexivity].
      + cbn [loop]. destruct (k p t); [reflexivity |].
        apply exec_ext.
        intros q u. destruct (Nat.ltb_spec (List.length u) (List.length t)); [| reflexivity].
        apply IHf; lia. }
  destruct s as [| c s].
  - cbn. destruct (k prev []); [reflexivity |].
    rewrite exec_refused; [reflexivity | reflexivity].
  - cbn [List.length loop]. destruct (k prev (c :: s)); [reflexivity |].
    apply exec_ext.
    intros q u. cbn [List.length].
    destruct (Nat.ltb_spec (List.length u) (S (List.length s))); [| reflexivity].
    apply Fuel; lia.
Qed.

End RepetitionFacts.

(** ** Replacing a substring *)

Section ReplaceFacts.
Import privacyService.

Lemma startsWith_app (p s : str) : Str.startsWith p (p ++ s) = true.
Proof.
  induction p as [| c p IH]; simpl; [reflexivity |].
  rewrite Ascii.eqb_refl. exact IH.
Qed.

Lemma startsWith_head (p : str) (c d : ascii) (s : str) :
  c <> d -> Str.startsWith (c :: p) (d :: s) = false.
Proof.
  intros N. simpl. destruct (Ascii.eqb c d) eqn:E; [| reflexivity].
  apply Ascii.eqb_eq in E. contradiction.
Qed.

Lemma splitAcc_nonempty (sep cur : str) (skip : nat) (s : str) :
  Str.splitAcc sep cur skip s <> [].
Proof.
  revert cur skip. induction s as [| c s IH]; intros cur skip; simpl; [discriminate |].
  destruct skip; [| apply IH].
  destruct (Str.startsWith sep (c :: s)); [discriminate | apply IH].
Qed.

Lemma join_two (sep p : str) (rest : list str) :
  rest <> [] -> Str.join sep (p :: rest) = p ++ sep ++ Str.join sep rest.
Proof. destruct rest; [congruence | reflexivity]. Qed.

Lemma join_splitAcc (sep rep cur : str) (skip : nat) (s : str) :
  Str.join rep (Str.splitAcc sep cur skip s)
  = rev cur ++ Str.join rep (Str.splitAcc sep [] skip s).
Proof.
  revert cur skip. induction s as [| c s IH]; intros cur skip; simpl.
  - rewrite app_nil_r. reflexivity.
  - destruct skip; [| apply IH].
    destruct (Str.startsWith sep (c :: s)).
    + rewrite !join_two by apply splitAcc_nonempty. reflexivity.
    + rewrite IH. rewrite (IH [c]). simpl. rewrite <- app_assoc. reflexivity.
Qed.

Lemma splitAcc_skip (sep cur u s : str) :
  Str.splitAcc sep cur (List.length u) (u ++ s) = Str.splitAcc sep cur 0 s.
Proof.
  induction u as [| c u IH]; simpl; [| exact IH].
  destruct s; reflexivity.
Qed.

Lemma replaceEvery_nil (pat rep : str) : replaceEvery pat rep [] = [].
Proof. unfold replaceEvery, Str.split. destruct pat; reflexivity. Qed.

Lemma replaceEvery_skip (pat rep : str) (c : ascii) (s : str) :
  Str.startsWith pat (c :: s) = false ->
  replaceEvery pat rep (c :: s) = c :: replaceEvery pat rep s.
Proof.
  intros H. unfold replaceEvery, Str.split.
  destruct pat as [| x pat]; [discriminate H |].
  cbn [Str.splitAcc]. rewrite H. rewrite join_splitAcc. reflexivity.
Qed.

Lemma replaceEvery_hit (x : ascii) (pat rep s : str) :
  replaceEvery (x :: pat) rep ((x :: pat) ++ s) = rep ++ replaceEvery (x :: pat) rep s.
Proof.
  unfold replaceEvery, Str.split.
  cbn [Str.splitAcc app].
  change (x :: pat ++ s) with ((x :: pat) ++ s). rewrite startsWith_app.
  replace (List.length (x :: pat) - 1) with (List.length pat) by (simpl; lia).
  rewrite splitAcc_skip, join_two by apply splitAcc_nonempty.
  reflexivity.
Qed.

(** Text after which no occurrence of [x :: pat] starts is copied. *)
Lemma replaceEvery_copy (x : ascii) (pat rep u s : str) :
  ~ In x u ->
  replaceEvery (x :: pat) rep (u ++ s) = u ++ replaceEvery (x :: pat) rep s.
Proof.
  induction u as [| c u IH]; intros N; [reflexivity |].
  cbn [app]. rewrite replaceEvery_skip.
  - rewrite IH; [reflexivity |]. intros H. apply N. right. exact H.
  - apply startsWith_head. intros E. apply N. left. symmetry. exact E.
Qed.

Lemma replaceFirst_spec (pat rep s x y : str) :
  s = x ++ pat ++ y ->
  exists a b, s = a ++ pat ++ b /\ replaceFirst pat rep s = a ++ rep ++ b.
Proof.
  revert s. induction x as [| c x IH]; intros s ->.
  - exists [], y. split; [reflexivity |].
    destruct (pat ++ y) eqn:E; cbn [replaceFirst app]; rewrite <- E;
      rewrite startsWith_app; rewrite skipn_app, skipn_all, Nat.sub_diag; reflexivity.
  - cbn [app replaceFirst].
    destruct (Str.startsWith pat (c :: x ++ pat ++ y)) eqn:E.
    + apply startsWith_prefix in E. destruct E as (r & E).
      exists [], r. split; [exact E |]. cbn [app]. rewrite E.
      rewrite skipn_app, skipn_all, Nat.sub_diag. reflexivity.
    + destruct (IH (x ++ pat ++ y) eq_refl) as (a & b & E1 & E2).
      exists (c :: a), b. cbn [app]. rewrite E2, <- E1. split; reflexivity.
Qed.

End ReplaceFacts.

(** ** Redacted text and its restoration *)

Section RestoreFacts.
Import privacyService.

(** A text in which no placeholder can start redacts itself. *)
Lemma Redacts_self (E : list PiiRedactionEntry) (u : str) :
  tokenFree u = true -> Redacts E u u [].
Proof.
  unfold tokenFree. intros H. apply negb_true_iff in H.
  induction u as [| c u IH]; [constructor |].
  cbn [Str.includes] in H. apply orb_false_iff in H. destruct H as [H1 H2].
  constructor; [| apply IH; exact H2].
  intros ->. cbn [Str.startsWith] in H1. rewrite Ascii.eqb_refl in H1. exact H1.
Qed.

Lemma hides_plain (E : list PiiRedactionEntry) (u : str) :
  ~ In OPEN u -> hides E u u [].
Proof.
  intros N E' T R U _ H. cbn [app].
  induction u as [| c u IH]; [exact H |].
  cbn [app]. constructor.
  - intros ->. exfalso. apply N. left. reflexivity.
  - apply IH. intros I. apply N. right. exact I.
Qed.

Lemma hides_entry (E : list PiiRedactionEntry) (e : PiiRedactionEntry) :
  In e E -> hides E (original e) (placeholder e) [e].
Proof. intros I E' T R U Inc H. constructor; [apply Inc; exact I | exact H]. Qed.

Lemma hides_app (E : list PiiRedactionEntry) (a b c d : str)
  (U V : list PiiRedactionEntry) :
  hides E a b U -> hides E c d V -> hides E (a ++ c) (b ++ d) (U ++ V).
Proof.
  intros H K E' T R W Inc G. rewrite <- !app_assoc. apply H; [exact Inc |].
  apply K; [exact Inc | exact G].
Qed.

Lemma Redacts_used (E : list PiiRedactionEntry) (T R : str) (U : list PiiRedactionEntry) :
  Redacts E T R U ->
  forall e, In e U -> exists x y, R = x ++ placeholder e ++ y.
Proof.
  induction 1 as [| c T R U N H IH | e0 T R U I H IH]; intros e He; [destruct He | |].
  - destruct (IH e He) as (x & y & ->). exists (c :: x), y. reflexivity.
  - destruct He as [<- | He].
    + exists [], R. reflexivity.
    + destruct (IH e He) as (x & y & ->). exists (placeholder e0 ++ x), y.
      rewrite <- app_assoc. reflexivity.
Qed.

(** What a redacted text starts with, short of an opening bracket, the
    text starts with. *)
Lemma Redacts_prefix (E : list PiiRedactionEntry) (u T R : str)
  (U : list PiiRedactionEntry) :
  (forall e, In e E -> bracketed (placeholder e)) ->
  ~ In OPEN u -> Redacts E T R U ->
  Str.startsWith u R = true -> Str.startsWith u T = true.
Proof.
  intros B. revert T R U. induction u as [| x u IH]; intros T R U N H S; [reflexivity |].
  destruct H as [| c T R U Nc H | e T R U Ie H].
  - discriminate S.
  - cbn [Str.startsWith] in S |- *. apply andb_true_iff in S. destruct S as [S1 S2].
    rewrite S1. cbn [andb]. apply (IH T R U); [| exact H | exact S2].
    intros I. apply N. right. exact I.
  - exfalso. destruct (B e Ie) as (b & P & _). rewrite P in S.
    cbn [app Str.startsWith] in S. apply andb_true_iff in S. destruct S as [S _].
    apply Ascii.eqb_eq in S. apply N. left. exact S.
Qed.

Lemma first_occurrence (x : ascii) (a b s s' : str) :
  ~ In x a -> ~ In x b -> a ++ x :: s = b ++ x :: s' -> a = b.
Proof.
  revert b. induction a as [| c a IH]; intros [| d b] Na Nb H; cbn [app] in H.
  - reflexivity.
  - injection H as H _. exfalso. apply Nb. left. symmetry. exact H.
  - injection H as H _. exfalso. apply Na. left. exact H.
  - injection H as -> H. f_equal. apply IH with (b := b); [| | exact H].
    + intros I. apply Na. right. exact I.
    + intros I. apply Nb. right. exact I.
Qed.

Lemma startsWith_app_l (a b s : str) :
  Str.startsWith (a ++ b) s = true -> Str.startsWith a s = true.
Proof.
  intros H. apply startsWith_prefix in H. destruct H as (r & ->).
  rewrite <- app_assoc. apply startsWith_app.
Qed.

(** Restoring one entry of a well-formed set leaves a redaction by the
    remaining entries. *)
Lemma restore_one (e : PiiRedactionEntry) (E : list PiiRedactionEntry)
  (T R : str) (U : list PiiRedactionEntry) :
  wellFormed (e :: E) -> Redacts (e :: E) T R U ->
  exists U', Redacts E T (replaceEvery (placeholder e) (original e) R) U'.
Proof.
  intros [Hs Hd Hp] H.
  destruct (Hs e (or_introl eq_refl)) as (b & Pe & Ob & Cb & Sb).
  induction H as [| c T R U N H IH | e0 T R U I H IH].
  - exists []. rewrite replaceEvery_nil. constructor.
  - destruct IH as (U' & IH). exists U'.
    rewrite replaceEvery_skip; [constructor; assumption |].
    rewrite Pe. cbn [Str.startsWith].
    destruct (Ascii.eqb OPEN c) eqn:Ec; [| reflexivity]. cbn [andb].
    apply Ascii.eqb_eq in Ec. symmetry in Ec. specialize (N Ec).
    destruct (Str.startsWith (b ++ [CLOSE]) R) eqn:S; [| reflexivity].
    exfalso. apply startsWith_app_l in S.
    apply startsWith_prefix in Sb. destruct Sb as (b' & Eb). rewrite Eb in S.
    apply startsWith_app_l in S.
    apply (Redacts_prefix (e :: E) TOKEN_HEAD T R U Hs) in S; [congruence | | exact H].
    intros F. vm_compute in F. repeat (destruct F as [F | F]; [discriminate F |]). exact F.
  - destruct IH as (U' & IH).
    destruct (list_eq_dec ascii_dec (placeholder e0) (placeholder e)) as [Q | Q].
    + assert (e0 = e) as ->.
      { destruct I as [I | I]; [congruence |]. exfalso.
        cbn [map] in Hd. apply NoDup_cons_iff in Hd. destruct Hd as [Hd _].
        apply Hd. rewrite <- Q. apply in_map. exact I. }
      exists ([] ++ U'). rewrite Pe at 1 2. rewrite replaceEvery_hit, <- Pe.
      apply (hides_plain E); [| apply incl_refl | exact IH]. apply Hp. left. reflexivity.
    + assert (I' : In e0 E) by (destruct I as [I | I]; [congruence | exact I]).
      destruct (Hs e0 (or_intror I')) as (b0 & P0 & O0 & C0 & _).
      exists (e0 :: U').
      assert (X : replaceEvery (placeholder e) (original e) (placeholder e0 ++ R)
                  = placeholder e0 ++ replaceEvery (placeholder e) (original e) R).
      { rewrite Pe, P0. cbn [app]. rewrite replaceEvery_skip.
        - rewrite <- app_assoc, replaceEvery_copy.
          + rewrite <- app_assoc, replaceEvery_copy; [reflexivity |].
            intros [F | []]. discriminate F.
          + exact O0.
        - destruct (Str.startsWith (OPEN :: b ++ [CLOSE]) (OPEN :: (b0 ++ [CLOSE]) ++ R)) eqn:S;
            [| reflexivity].
          exfalso. apply startsWith_prefix in S. destruct S as (r & S).
          cbn [app] in S. injection S as S. rewrite <- !app_assoc in S. cbn [app] in S.
          apply first_occurrence in S; [| exact C0 | exact Cb].
          apply Q. rewrite Pe, P0, S. reflexivity. }
      rewrite X. constructor; assumption.
Qed.

Lemma wellFormed_tail (e : PiiRedactionEntry) (E : list PiiRedactionEntry) :
  wellFormed (e :: E) -> wellFormed E.
Proof.
  intros [Hs Hd Hp]. split.
  - intros e0 I. apply Hs. right. exact I.
  - cbn [map] in Hd. apply NoDup_cons_iff in Hd. apply Hd.
  - intros e0 I. apply Hp. right. exact I.
Qed.

(** Restoring every entry of a well-formed set, in any order the set is
    listed in, gives the text back. *)
Lemma restoreAll_Redacts (E : list PiiRedactionEntry) (T R : str)
  (U : list PiiRedactionEntry) :
  wellFormed E -> Redacts E T R U -> restoreAll E R = T.
Proof.
  revert R U. induction E as [| e E IH]; intros R U W H; cbn [restoreAll].
  - induction H as [| c T R U N H IHr | e0 T R U [] H IHr]; [reflexivity |].
    rewrite IHr. reflexivity.
  - destruct (restore_one e E T R U W H) as (U' & H').
    apply (IH _ U'); [apply (wellFormed_tail e); exact W | exact H'].
Qed.

End RestoreFacts.

(** ** One pass of the redaction *)

Section ScanFacts.
Import Regex privacyService.

Context {I : Type}.
Variable m : matcher I.

Lemma segmentsFrom_skip (p : option ascii) (u rest : str) :
  segmentsFrom m p (List.length u) (u ++ rest) = segmentsFrom m (lastOr p u) 0 rest.
Proof.
  revert p. induction u as [| c u IH]; intros p.
  - destruct rest; reflexivity.
  - rewrite lastOr_cons. cbn [List.length app segmentsFrom]. apply IH.
Qed.

Lemma segments_hit (p : option ascii) (mt rest : str) (i : I) :
  mt <> [] -> m p (mt ++ rest) = Some (i, List.length mt) ->
  segmentsFrom m p 0 (mt ++ rest) = Hit mt i :: segmentsFrom m (lastOr p mt) 0 rest.
Proof.
  destruct mt as [| c u]; [congruence |]. intros _ M.
  cbn [app segmentsFrom]. cbn [app] in M. rewrite M. cbn [List.length].
  rewrite segmentsFrom_skip, lastOr_cons. f_equal. f_equal.
  cbn [firstn]. f_equal. rewrite firstn_app, firstn_all, Nat.sub_diag. cbn [firstn].
  apply app_nil_r.
Qed.

Lemma segments_token (ph rest : str) (p : option ascii) :
  NoHit m ph ->
  segmentsFrom m p 0 (ph ++ rest) = map Lit ph ++ segmentsFrom m (lastOr p ph) 0 rest.
Proof.
  intros N.
  assert (G : forall suf pre, ph = pre ++ suf ->
              segmentsFrom m (lastOr p pre) 0 (suf ++ rest)
              = map Lit suf ++ segmentsFrom m (lastOr p ph) 0 rest).
  { induction suf as [| c suf IH]; intros pre E.
    - rewrite app_nil_r in E. subst pre. reflexivity.
    - cbn [app segmentsFrom map]. rewrite (N pre c suf rest p E). f_equal.
      specialize (IH (pre ++ [c])). rewrite <- app_assoc in IH. specialize (IH E).
      rewrite lastOr_app in IH. exact IH. }
  apply (G ph []). reflexivity.
Qed.

Lemma replaceSegments_lits {S : Type} (fn : str -> I -> S -> str * S)
  (u : str) (segs : list (segment I)) (st : S) :
  replaceSegments fn (map Lit u ++ segs) st
  = (u ++ fst (replaceSegments fn segs st), snd (replaceSegments fn segs st)).
Proof.
  induction u as [| c u IH]; cbn [map app replaceSegments].
  - destruct (replaceSegments fn segs st); reflexivity.
  - rewrite IH. reflexivity.
Qed.

End ScanFacts.

Section PassFacts.
Import Regex privacyService.

Lemma spelledAlike_Alike (calls : list (str * PiiType)) :
  spelledAlike calls = true -> Alike calls.
Proof.
  unfold spelledAlike. intros H v v' t Hv Hv' K.
  rewrite forallb_forall in H. specialize (H _ Hv).
  rewrite forallb_forall in H. specialize (H _ Hv'). cbn [fst snd] in H.
  rewrite PiiType_eqb_refl, K, Str_eqb_refl in H. cbn in H.
  apply Str_eqb_eq. exact H.
Qed.

Lemma Alike_incl (l l' : list (str * PiiType)) : incl l l' -> Alike l' -> Alike l.
Proof. intros I A v v' t Hv Hv'. apply A; apply I; assumption. Qed.

Lemma Sound_fresh : Sound [] createRedactor.
Proof.
  split; cbn; try contradiction; try discriminate; [constructor | lia].
Qed.

Lemma mapGet_none {V : Type} (k : str) (l : list (str * V)) :
  (forall kv, In kv l -> fst kv <> k) -> mapGet k l = None.
Proof.
  induction l as [| [k' v] l IH]; intros N; cbn [mapGet]; [reflexivity |].
  destruct (Str.eqb k k') eqn:E.
  - apply Str_eqb_eq in E. exfalso. apply (N (k', v)); [left; reflexivity | symmetry; exact E].
  - apply IH. intros kv H. apply N. right. exact H.
Qed.

Lemma bump_le (t t' : PiiType) (c : PiiType -> nat) : c t' <= bump t c t'.
Proof. unfold bump. destruct (PiiType_eqb t t'); lia. Qed.

Lemma bump_same (t : PiiType) (c : PiiType -> nat) : bump t c t = c t + 1.
Proof. unfold bump. rewrite PiiType_eqb_refl. reflexivity. Qed.

Lemma bump_le_succ (t t' : PiiType) (c : PiiType -> nat) : bump t c t' <= c t' + 1.
Proof. unfold bump. destruct (PiiType_eqb t t'); lia. Qed.

(** One call of [register] keeps the state sound, adds at most one
    entry, and answers with the placeholder of an entry of the same type
    and normalized key. *)
Lemma register_sound (log : list (str * PiiType)) (r : Redactor) (v : str) (t : PiiType) :
  Sound log r -> ~ In OPEN v ->
  Sound (log ++ [(v, t)]) (snd (register v t r))
  /\ exists new e,
       entries (snd (register v t r)) = entries r ++ new
       /\ In e (entries (snd (register v t r)))
       /\ placeholder e = fst (register v t r)
       /\ type e = t
       /\ normalizePiiKey t (original e) = normalizePiiKey t v
       /\ incl new [e].
Proof.
  intros [Hs Hd Hk Hc Hl Hp] Nv.
  assert (Hp' : forall c, In c (log ++ [(v, t)]) -> ~ In OPEN (fst c)).
  { intros c Hc'. apply in_app_or in Hc'.
    destruct Hc' as [Hc' | [<- | []]]; [apply Hp; exact Hc' | exact Nv]. }
  unfold register.
  destruct (mapGet (typeName t ++ lit ":" ++ normalizePiiKey t v) (keyToPlaceholder r))
    as [[| c existing] |] eqn:G.
  1: { exfalso. destruct (Hk _ _ G) as (e & He & P & _).
       destruct (Hs e He) as (n & Q & _). rewrite P in Q.
       destruct (makePlaceholder_nonempty (type e) n) as (x & y & Z). congruence. }
  - cbn [fst snd]. split.
    + split; auto. intros e He. apply in_or_app. left. apply Hl. exact He.
    + destruct (Hk _ _ G) as (e & He & P & K). unfold piiKey in K.
      apply piiKey_inj in K. destruct K as [Kt Kk].
      exists [], e. rewrite app_nil_r. subst t.
      repeat split; auto. intros x [].
  - cbn [fst snd].
    set (p := makePlaceholder t (bump t (counters r) t)).
    set (e := {| placeholder := p; original := v; type := t |}).
    assert (F : mapGet p (placeholderToOriginal r) = None).
    { apply mapGet_none. intros kv Hkv Q.
      assert (X : In {| placeholder := fst kv; original := fst (snd kv); type := snd (snd kv) |}
                     (entries r)).
      { unfold entries. apply in_map_iff. exists kv. split; [reflexivity | exact Hkv]. }
      destruct (Hs _ X) as (n & Pn & Ln). cbn [placeholder type] in Pn, Ln.
      rewrite Q in Pn. unfold p in Pn. apply makePlaceholder_inj in Pn.
      destruct Pn as [Pt Pn]. rewrite <- Pt, <- Pn, bump_same in Ln. lia. }
    assert (X : entries {| counters := bump t (counters r);
                           keyToPlaceholder :=
                             mapSet (typeName t ++ lit ":" ++ normalizePiiKey t v) p
                                    (keyToPlaceholder r);
                           placeholderToOriginal :=
                             mapSet p (v, t) (placeholderToOriginal r) |}
                = entries r ++ [e]).
    { unfold entries. cbn [placeholderToOriginal]. rewrite mapSet_fresh by exact F.
      rewrite map_app. reflexivity. }
    split.
    + split.
      * rewrite X. intros e' He'. apply in_app_or in He'. cbn [counters].
        destruct He' as [He' | [<- | []]].
        -- destruct (Hs _ He') as (n & Pn & Ln). exists n. split; [exact Pn |].
           pose proof (bump_le t (type e') (counters r)). lia.
        -- exists (bump t (counters r) t). split; [reflexivity |].
           cbn [type e]. rewrite bump_same. lia.
      * rewrite X, map_app. cbn [map placeholder e].
        apply NoDup_app; [exact Hd | constructor; [intros [] | constructor] |].
        intros a Ha [<- | []].
        apply in_map_iff in Ha. destruct Ha as (e' & Pe' & He').
        destruct (Hs _ He') as (n & Pn & Ln). rewrite Pe' in Pn. unfold p in Pn.
        apply makePlaceholder_inj in Pn. destruct Pn as [Pt Pn].
        rewrite <- Pt, <- Pn, bump_same in Ln. lia.
      * rewrite X. cbn [keyToPlaceholder]. intros key q Q.
        destruct (list_eq_dec ascii_dec key (typeName t ++ lit ":" ++ normalizePiiKey t v))
          as [-> | D].
        -- rewrite mapGet_mapSet_same in Q. injection Q as <-.
           exists e. split; [apply in_or_app; right; left; reflexivity |].
           split; reflexivity.
        -- rewrite mapGet_mapSet_other in Q by exact D.
           destruct (Hk _ _ Q) as (e' & He' & Pe' & Ke').
           exists e'. split; [apply in_or_app; left; exact He' | split; assumption].
      * rewrite X, length_app. cbn [counters List.length]. intros t'.
        pose proof (bump_le_succ t t' (counters r)). specialize (Hc t'). lia.
      * rewrite X. intros e' He'. apply in_app_or in He'. apply in_or_app.
        destruct He' as [He' | [<- | []]]; [left; apply Hl; exact He' |].
        right. left. reflexivity.
      * exact Hp'.
    + exists [e], e. rewrite X.
      repeat split; auto; [apply in_or_app; right; left; reflexivity | apply incl_refl].
Qed.

End PassFacts.

Section PassLemma.
Import Regex privacyService.

Context {I : Type}.
Variable m : matcher I.
Variable fn : str -> I -> State -> str * State.

Lemma Redacts_split (E : list PiiRedactionEntry) (mt rest T : str)
  (U : list PiiRedactionEntry) :
  (forall e, In e E -> bracketed (placeholder e)) ->
  ~ In OPEN mt -> Redacts E T (mt ++ rest) U ->
  exists T', T = mt ++ T' /\ Redacts E T' rest U.
Proof.
  intros B. revert T. induction mt as [| c mt IH]; intros T N H.
  - exists T. split; [reflexivity | exact H].
  - cbn [app] in H. remember (c :: mt ++ rest) as X eqn:Q.
    destruct H as [| c' T0 R0 U0 Nc H0 | e T0 R0 U0 Ie H0]; [discriminate Q | |].
    + injection Q as -> ->.
      destruct (IH T0) as (T' & -> & H'); [| exact H0 |].
      * intros X. apply N. right. exact X.
      * exists T'. split; [reflexivity | exact H'].
    + exfalso. destruct (B e Ie) as (b & P & _). rewrite P in Q.
      cbn [app] in Q. injection Q as Q _. apply N. left. symmetry. exact Q.
Qed.

Lemma added_ext (st st' : State) (ext : list (str * PiiType)) :
  snd st' = snd st ++ ext -> added st st' = ext.
Proof.
  intros E. unfold added. rewrite E, skipn_app, skipn_all, Nat.sub_diag. reflexivity.
Qed.

Lemma added_none (st : State) : added st st = [].
Proof. apply added_ext. symmetry. apply app_nil_r. Qed.

Lemma advances_none (E0 : list PiiRedactionEntry) (st : State) :
  Sound (snd st) (fst st) -> incl E0 (entries (fst st)) -> advances st [] [] ([], st).
Proof.
  intros S Inc. unfold advances, steps. cbn [fst snd].
  split; [exact S |]. split; [exists []; rewrite app_nil_r; reflexivity |].
  exists []. rewrite app_nil_r. split; [reflexivity |].
  intros _. exists []. split; [| apply incl_refl].
  split; [constructor |]. split; [apply incl_refl |].
  rewrite added_none. constructor.
Qed.

Hypothesis Hplain : plainMatch m.
Hypothesis Hrespects : respects m fn.

Variable E0 : list PiiRedactionEntry.
Hypothesis Hshape : forall e, In e E0 -> bracketed (placeholder e).
Hypothesis Hquiet : forall e, In e E0 -> NoHit m (placeholder e).

Lemma pass_redacts (n : nat) :
  forall (R T : str) (U : list PiiRedactionEntry) (prev : option ascii) (st : State),
    List.length R <= n ->
    Redacts E0 T R U -> Sound (snd st) (fst st) -> incl E0 (entries (fst st)) ->
    advances st T U (replaceSegments fn (segmentsFrom m prev 0 R) st).
Proof.
  induction n as [| n IH]; intros R T U prev st L H S Inc.
  - destruct R; [| cbn in L; lia].
    remember [] as X eqn:Q in H.
    destruct H as [| c T0 R0 U0 Nc H0 | e T0 R0 U0 Ie H0]; [| discriminate Q |].
    2: { destruct (Hshape e Ie) as (b & P & _). rewrite P in Q. discriminate Q. }
    cbn [segmentsFrom].
    destruct (m prev []) as [[i k] |] eqn:M.
    { destruct (Hplain _ _ _ _ M) as (mt & rest & E & _ & Ne & _).
      destruct mt; [congruence | discriminate E]. }
    cbn [replaceSegments]. apply (advances_none E0); assumption.
  - destruct (m prev R) as [[i k] |] eqn:M.
    + destruct (Hplain _ _ _ _ M) as (mt & rest & -> & -> & Ne & No).
      destruct (Redacts_split E0 mt rest T U Hshape No H) as (T' & -> & H').
      rewrite (segments_hit m prev mt rest i Ne M). cbn [replaceSegments].
      pose proof (Hrespects prev (mt ++ rest) i (List.length mt) st M S) as A.
      rewrite firstn_app, firstn_all, Nat.sub_diag in A. cbn [firstn] in A.
      rewrite app_nil_r in A.
      destruct (fn mt i st) as [r st1] eqn:F.
      destruct A as (S1 & (ext1 & X1) & new1 & N1 & A1). cbn [fst snd] in *.
      assert (L' : List.length rest <= n).
      { rewrite length_app in L. destruct mt; [congruence | cbn in L; lia]. }
      assert (Inc1 : incl E0 (entries (fst st1))).
      { rewrite N1. apply incl_appl. exact Inc. }
      pose proof (IH rest T' U (lastOr prev mt) st1 L' H' S1 Inc1) as B.
      destruct (replaceSegments fn (segmentsFrom m (lastOr prev mt) 0 rest) st1)
        as [out st2] eqn:G.
      destruct B as (S2 & (ext2 & X2) & new2 & N2 & A2). cbn [fst snd] in *.
      unfold advances, steps. cbn [fst snd].
      split; [exact S2 |].
      split; [exists (ext1 ++ ext2); rewrite X2, X1, app_assoc; reflexivity |].
      exists (new1 ++ new2). split; [rewrite N2, N1, app_assoc; reflexivity |].
      intros Al.
      destruct (A2 Al) as (U2 & (R2 & I2 & P2) & J2).
      destruct A1 as (U1 & [R1 C1] & J1).
      { apply (Alike_incl _ (snd st2)); [| exact Al]. rewrite X2. apply incl_appl, incl_refl. }
      rewrite (added_ext st st1 ext1 X1) in C1.
      rewrite (added_ext st1 st2 ext2 X2) in P2.
      exists (U1 ++ U2). split; [split; [| split] |].
      * apply R1; [| exact R2]. rewrite N2. apply incl_appl, incl_refl.
      * apply incl_appr. exact I2.
      * rewrite (added_ext st st2 (ext1 ++ ext2)) by (rewrite X2, X1, app_assoc; reflexivity).
        rewrite map_app, C1.
        apply (Permutation_trans (Permutation_app_head ext1 P2)).
        rewrite !app_assoc. apply Permutation_app_tail, Permutation_app_comm.
      * apply incl_app; [apply incl_appl; exact J1 | apply incl_appr; exact J2].
    + remember R as X eqn:Q in H.
      destruct H as [| c T0 R0 U0 Nc H0 | e T0 R0 U0 Ie H0]; subst R.
      * cbn [segmentsFrom]. rewrite M. cbn [replaceSegments].
        apply (advances_none E0); assumption.
      * cbn [segmentsFrom]. rewrite M. cbn [replaceSegments].
        assert (L' : List.length R0 <= n) by (cbn in L; lia).
        pose proof (IH R0 T0 U0 (Some c) st L' H0 S Inc) as B.
        destruct (replaceSegments fn (segmentsFrom m (Some c) 0 R0) st) as [out st2] eqn:G.
        destruct B as (S2 & X2 & new2 & N2 & A2). cbn [fst snd] in *.
        unfold advances, steps. cbn [fst snd].
        split; [exact S2 |]. split; [exact X2 |].
        exists new2. split; [exact N2 |]. intros Al.
        destruct (A2 Al) as (U2 & (R2 & I2 & P2) & J2).
        exists U2. split; [split; [| split] |];
          [constructor; assumption | assumption | assumption | assumption].
      * rewrite (segments_token m _ _ prev (Hquiet e Ie)), replaceSegments_lits.
        assert (L' : List.length R0 <= n).
        { rewrite length_app in L. destruct (Hshape e Ie) as (b & P & _).
          rewrite P in L. cbn [List.length] in L. lia. }
        pose proof (IH R0 T0 U0 (lastOr prev (placeholder e)) st L' H0 S Inc) as B.
        destruct (replaceSegments fn (segmentsFrom m (lastOr prev (placeholder e)) 0 R0) st)
          as [out st2] eqn:G.
        destruct B as (S2 & X2 & new2 & N2 & A2). cbn [fst snd] in *.
        unfold advances, steps. cbn [fst snd].
        split; [exact S2 |]. split; [exact X2 |].
        exists new2. split; [exact N2 |]. intros Al.
        destruct (A2 Al) as (U2 & (R2 & I2 & P2) & J2).
        exists (e :: U2). split; [split; [| split] |].
        -- constructor; [| exact R2]. rewrite N2. apply in_or_app. left. apply Inc. exact Ie.
        -- intros x [<- | Hx]; [left; reflexivity | right; apply I2; exact Hx].
        -- cbn [map app]. apply perm_skip. exact P2.
        -- apply incl_tl. exact J2.
Qed.

End PassLemma.

(** ** The digits of a counter *)

Section DigitFacts.

Lemma uint_chars (P : ascii -> bool) (d : Decimal.uint) :
  forallb P (lit "0123456789") = true ->
  forallb P (lit (DecimalString.NilEmpty.string_of_uint d)) = true.
Proof.
  intros H. unfold lit in *. cbn [list_ascii_of_string forallb] in H.
  repeat (apply andb_true_iff in H; destruct H as [? H]).
  induction d; cbn [DecimalString.NilEmpty.string_of_uint list_ascii_of_string forallb];
    rewrite ?IHd, ?andb_true_r; auto.
Qed.

Lemma uint_length (d : Decimal.uint) :
  List.length (lit (DecimalString.NilEmpty.string_of_uint d)) = Decimal.nb_digits d.
Proof.
  unfold lit.
  induction d; cbn [DecimalString.NilEmpty.string_of_uint list_ascii_of_string
                    List.length Decimal.nb_digits]; congruence.
Qed.

Lemma succ_digits (d : Decimal.uint) :
  Decimal.nb_digits (Decimal.Little.succ d) = Decimal.nb_digits d
  \/ (Decimal.nb_digits (Decimal.Little.succ d) = S (Decimal.nb_digits d)
      /\ S (DecimalNat.Unsigned.of_lu d) = 10 ^ Decimal.nb_digits d).
Proof.
  induction d; cbn [Decimal.Little.succ Decimal.nb_digits]; try (left; reflexivity).
  - right. split; reflexivity.
  - destruct IHd as [E | [E V]]; [left; congruence | right].
    split; [congruence |].
    rewrite Nat.pow_succ_r', <- V. cbn [DecimalNat.Unsigned.of_lu]. lia.
Qed.

Lemma to_lu_digits (n : nat) :
  Decimal.nb_digits (DecimalNat.Unsigned.to_lu n) = 1
  \/ 10 ^ (Decimal.nb_digits (DecimalNat.Unsigned.to_lu n) - 1) <= n.
Proof.
  induction n as [| n IH]; [left; reflexivity |].
  cbn [DecimalNat.Unsigned.to_lu].
  pose proof (DecimalNat.Unsigned.of_to_lu n) as V.
  destruct (succ_digits (DecimalNat.Unsigned.to_lu n)) as [E | [E W]].
  - rewrite E. destruct IH as [IH | IH]; [left; exact IH | right; lia].
  - right. rewrite E, V in *. rewrite Nat.sub_succ, Nat.sub_0_r, <- W. lia.
Qed.

(** A counter below 10^8 is written with at most eight digits. *)
Lemma ofNat_short (n : nat) :
  (Z.of_nat n < 100000000)%Z -> List.length (Str.ofNat n) <= 8.
Proof.
  intros H. unfold Str.ofNat. rewrite uint_length, DecimalNat.Unsigned.to_uint_alt.
  rewrite DecimalFacts.nb_digits_rev.
  destruct (to_lu_digits n) as [E | E]; [lia |].
  destruct (le_lt_dec (Decimal.nb_digits (DecimalNat.Unsigned.to_lu n)) 8) as [L | L];
    [exact L | exfalso].
  assert (P : 10 ^ 8 <= n).
  { etransitivity; [| exact E]. apply Nat.pow_le_mono_r; lia. }
  apply Nat2Z.inj_le in P. rewrite Nat2Z.inj_pow in P.
  change (Z.of_nat 10 ^ Z.of_nat 8)%Z with 100000000%Z in P. lia.
Qed.

Lemma ofNat_word (n : nat) : forallb Str.isWord (Str.ofNat n) = true.
Proof. apply uint_chars. reflexivity. Qed.

End DigitFacts.

(** ** The matchers of the redaction *)

Section MatcherFacts.
Import Regex privacyService.

Lemma whole_sound (r : re) (prev : option ascii) (s : str) (i : unit) (n : nat) :
  whole r prev s = Some (i, n) ->
  exists mt rest,
    s = mt ++ rest /\ n = List.length mt
    /\ forallb (alphabet r) mt = true /\ minLen r <= List.length mt.
Proof.
  unfold whole. intros H. apply exec_sound in H.
  destruct H as (mt & rest & -> & H & F & L). injection H as _ <-.
  exists mt, rest. unfold consumed. rewrite length_app.
  repeat split; auto. lia.
Qed.

Lemma twoGroups_sound (h g1 g2 : re) (prev : option ascii) (s a b : str) (n : nat) :
  twoGroups h g1 g2 prev s = Some ((a, b), n) ->
  exists x rest,
    s = (x ++ a ++ b) ++ rest /\ n = List.length (x ++ a ++ b)
    /\ forallb (alphabet h) x = true /\ forallb (alphabet g1) a = true
    /\ forallb (alphabet g2) b = true /\ minLen h <= List.length x.
Proof.
  unfold twoGroups. intros H.
  apply exec_sound in H. destruct H as (x & s1 & -> & H & Fx & Lx).
  apply exec_sound in H. destruct H as (a' & s2 & -> & H & Fa & La).
  apply exec_sound in H. destruct H as (b' & s3 & -> & H & Fb & Lb).
  injection H as <- <- <-.
  unfold consumed. rewrite !length_app.
  replace (List.length a' + (List.length b' + List.length s3)
           - (List.length b' + List.length s3)) with (List.length a') by lia.
  replace (List.length b' + List.length s3 - List.length s3) with (List.length b') by lia.
  rewrite !firstn_app, !firstn_all, !Nat.sub_diag. cbn [firstn]. rewrite !app_nil_r.
  exists x, s3. rewrite <- !app_assoc.
  repeat split; auto. rewrite !length_app. lia.
Qed.

Lemma forallb_excludes (P : ascii -> bool) (c : ascii) (u : str) :
  forallb P u = true -> P c = false -> ~ In c u.
Proof.
  intros F N I. rewrite forallb_forall in F. rewrite (F c I) in N. discriminate.
Qed.

Lemma whole_plain (r : re) :
  alphabet r OPEN = false -> 1 <= minLen r -> plainMatch (whole r).
Proof.
  intros A L prev s i n H. apply whole_sound in H.
  destruct H as (mt & rest & -> & -> & F & M). exists mt, rest.
  repeat split; auto.
  - intros ->. cbn in M. lia.
  - apply (forallb_excludes _ _ _ F A).
Qed.

Lemma twoGroups_plain (h g1 g2 : re) :
  alphabet h OPEN = false -> alphabet g1 OPEN = false -> alphabet g2 OPEN = false ->
  1 <= minLen h -> plainMatch (twoGroups h g1 g2).
Proof.
  intros A A1 A2 L prev s [a b] n H. apply twoGroups_sound in H.
  destruct H as (x & rest & -> & -> & F & F1 & F2 & M). exists (x ++ a ++ b), rest.
  repeat split; auto.
  - intros E. apply app_eq_nil in E. destruct E as [-> _]. cbn in M. lia.
  - intros I. apply in_app_or in I. destruct I as [I | I];
      [exact (forallb_excludes _ _ _ F A I) |].
    apply in_app_or in I. destruct I as [I | I];
      [exact (forallb_excludes _ _ _ F1 A1 I) | exact (forallb_excludes _ _ _ F2 A2 I)].
Qed.

(** Matchers that open with a word boundary. *)
Section WordLed.
Context {I : Type}.
Variable m : matcher I.

Lemma wordBefore_lastOr (p : option ascii) (u : str) :
  wordBefore p = true -> forallb Str.isWord u = true -> wordBefore (lastOr p u) = true.
Proof.
  revert p. induction u as [| c u IH]; intros p W F; [exact W |].
  rewrite lastOr_cons. cbn [forallb] in F. apply andb_true_iff in F.
  apply IH; [apply F | apply F].
Qed.

Lemma run_split (run pre suf : str) (c : ascii) :
  forallb Str.isWord run = true -> run ++ [CLOSE] = pre ++ c :: suf ->
  forallb Str.isWord pre = true /\ (Str.isWord c = true \/ c = CLOSE).
Proof.
  revert run. induction pre as [| y pre IH]; intros [| x run] F E; cbn [app] in E.
  - injection E as <- _. split; [reflexivity | right; reflexivity].
  - injection E as <- _. cbn [forallb] in F. apply andb_true_iff in F.
    split; [reflexivity | left; apply F].
  - injection E as _ E. destruct pre; discriminate E.
  - injection E as <- E. cbn [forallb] in F. apply andb_true_iff in F. destruct F as [Fx F].
    destruct (IH run F E) as [G H]. cbn [forallb]. rewrite Fx, G. split; [reflexivity | exact H].
Qed.

Lemma NoHit_wordLed (ok : ascii -> bool) (w : str) :
  firstIn m ok -> ok OPEN = false -> ok CLOSE = false -> wordLed m -> skipsPI m ->
  forallb Str.isWord w = true ->
  NoHit m (OPEN :: "P"%char :: "I"%char :: w ++ [CLOSE]).
Proof.
  intros Hf Ho Hc Hw Hs F pre c suf rest prev E.
  assert (Z : forall p x s, ok x = false -> m p (x :: s) = None).
  { intros p x s N. destruct (m p (x :: s)) as [[i n] |] eqn:M; [| reflexivity].
    apply Hf in M. congruence. }
  destruct pre as [| a pre]; cbn [app] in E.
  { injection E as <- _. apply Z. exact Ho. }
  injection E as <- E.
  destruct pre as [| a pre]; cbn [app] in E.
  { injection E as <- <-. cbn [app]. apply Hs. }
  injection E as <- E.
  change ("I"%char :: w ++ [CLOSE]) with (("I"%char :: w) ++ [CLOSE]) in E.
  apply run_split in E; [| cbn [forallb]; rewrite F; reflexivity].
  destruct E as [G [H | ->]].
  - apply Hw; [| exact H].
    rewrite !lastOr_cons. apply wordBefore_lastOr; [reflexivity | exact G].
  - apply Z. exact Hc.
Qed.

End WordLed.

Lemma bnd_blocks {A : Type} (r : re) (prev : option ascii) (c : ascii) (s : str)
  (k : option ascii -> str -> option A) :
  wordBefore prev = true -> Str.isWord c = true -> exec (Seq Bnd r) prev (c :: s) k = None.
Proof. intros W C. cbn [exec wordAhead]. rewrite W, C. reflexivity. Qed.

(** The shape of a placeholder. *)
Lemma makePlaceholder_shape (t : PiiType) (n : nat) :
  exists w, makePlaceholder t n = OPEN :: "P"%char :: "I"%char :: w ++ [CLOSE]
            /\ forallb Str.isWord w = true.
Proof.
  unfold makePlaceholder.
  exists (lit "I_" ++ typeName t ++ lit "_" ++ Str.ofNat n). split.
  - rewrite <- !app_assoc. reflexivity.
  - rewrite !forallb_app, ofNat_word. destruct t; reflexivity.
Qed.

Lemma makePlaceholder_bracketed (t : PiiType) (n : nat) : bracketed (makePlaceholder t n).
Proof.
  unfold makePlaceholder, bracketed.
  exists (lit "PII_" ++ typeName t ++ lit "_" ++ Str.ofNat n).
  split; [rewrite <- !app_assoc; reflexivity |].
  assert (F : forallb Str.isWord (lit "PII_" ++ typeName t ++ lit "_" ++ Str.ofNat n) = true).
  { rewrite !forallb_app, ofNat_word. destruct t; reflexivity. }
  split; [apply (forallb_excludes _ _ _ F); reflexivity |].
  split; [apply (forallb_excludes _ _ _ F); reflexivity |].
  apply startsWith_app.
Qed.

End MatcherFacts.

(** ** The five passes *)

Section FivePasses.
Import Regex privacyService.

Lemma whole_firstIn (r : re) : 1 <= minLen r -> firstIn (whole r) (alphabet r).
Proof.
  intros L prev c s i n H. apply whole_sound in H.
  destruct H as ([| x mt] & rest & E & _ & F & M); [cbn in M; lia |].
  cbn [app] in E. injection E as -> _. cbn [forallb] in F.
  apply andb_true_iff in F. apply F.
Qed.

Lemma twoGroups_firstIn (h g1 g2 : re) :
  1 <= minLen h -> firstIn (twoGroups h g1 g2) (alphabet h).
Proof.
  intros L prev c s [a b] n H. apply twoGroups_sound in H.
  destruct H as ([| x mt] & rest & E & _ & F & _ & _ & M); [cbn in M; lia |].
  cbn [app] in E. injection E as -> _. cbn [forallb] in F.
  apply andb_true_iff in F. apply F.
Qed.

Lemma email_plain : plainMatch (whole EMAIL_REGEX).
Proof. apply whole_plain; [reflexivity | vm_compute; lia]. Qed.

Lemma birth_plain : plainMatch BIRTH_DATE_LABELED_REGEX.
Proof. apply twoGroups_plain; try reflexivity. vm_compute; lia. Qed.

Lemma id_plain : plainMatch PERSONAL_ID_LABELED_REGEX.
Proof. apply twoGroups_plain; try reflexivity. vm_compute; lia. Qed.

Lemma phone_plain : plainMatch (whole PHONE_CANDIDATE_REGEX).
Proof. apply whole_plain; [reflexivity | vm_compute; lia]. Qed.

Lemma address_plain : plainMatch (whole STREET_ADDRESS_REGEX).
Proof. apply whole_plain; [reflexivity | vm_compute; lia]. Qed.

(** No labelled date, labelled identifier or street address starts
    inside a placeholder. *)
Lemma birth_quiet (t : PiiType) (n : nat) :
  NoHit BIRTH_DATE_LABELED_REGEX (makePlaceholder t n).
Proof.
  destruct (makePlaceholder_shape t n) as (w & -> & F).
  apply (NoHit_wordLed _ (alphabet BIRTH_DATE_HEAD)); try reflexivity; try exact F.
  - apply twoGroups_firstIn. vm_compute. lia.
  - intros prev c s W C. apply bnd_blocks; assumption.
  - intros s. vm_compute. reflexivity.
Qed.

Lemma id_quiet (t : PiiType) (n : nat) :
  NoHit PERSONAL_ID_LABELED_REGEX (makePlaceholder t n).
Proof.
  destruct (makePlaceholder_shape t n) as (w & -> & F).
  apply (NoHit_wordLed _ (alphabet PERSONAL_ID_HEAD)); try reflexivity; try exact F.
  - apply twoGroups_firstIn. vm_compute. lia.
  - intros prev c s W C. apply bnd_blocks; assumption.
  - intros s. vm_compute. reflexivity.
Qed.

Lemma address_quiet (t : PiiType) (n : nat) :
  NoHit (whole STREET_ADDRESS_REGEX) (makePlaceholder t n).
Proof.
  destruct (makePlaceholder_shape t n) as (w & -> & F).
  apply (NoHit_wordLed _ (alphabet STREET_ADDRESS_REGEX)); try reflexivity; try exact F.
  - apply whole_firstIn. vm_compute. lia.
  - intros prev c s W C. apply bnd_blocks; assumption.
  - intros s. vm_compute. reflexivity.
Qed.

(** A phone candidate has nine code units at least, none of them a
    letter, an underscore or a bracket; a placeholder whose counter has
    at most eight digits leaves no room for one. *)
Lemma phone_quiet (t : PiiType) (n : nat) :
  List.length (Str.ofNat n) <= 8 ->
  NoHit (whole PHONE_CANDIDATE_REGEX) (makePlaceholder t n).
Proof.
  intros L pre c suf rest prev E.
  destruct (whole PHONE_CANDIDATE_REGEX (lastOr prev pre) (c :: suf ++ rest))
    as [[i k] |] eqn:M; [exfalso | reflexivity].
  apply whole_sound in M. destruct M as (mt & rest' & Es & _ & F & Lm).
  assert (Lm' : 9 <= List.length mt) by exact Lm. clear Lm.
  set (ok := alphabet PHONE_CANDIDATE_REGEX) in *.
  unfold makePlaceholder in E.
  rewrite !app_assoc in E. rewrite <- (app_assoc _ (Str.ofNat n)) in E.
  set (A := (lit "[PII_" ++ typeName t) ++ lit "_") in *.
  assert (FA : forallb (fun x => negb (ok x)) A = true) by (destruct t; reflexivity).
  apply app_eq_app in E. destruct E as (l & [[E1 E2] | [E1 E2]]).
  - destruct l as [| x l].
    + (* the candidate would start at the counter's first digit *)
      cbn [app] in E2.
      assert (I : In CLOSE mt).
      { assert (P : firstn 9 (c :: suf ++ rest) = firstn 9 mt).
        { rewrite Es, firstn_app. replace (9 - List.length mt) with 0 by lia.
          cbn [firstn]. apply app_nil_r. }
        change (c :: suf ++ rest) with ((c :: suf) ++ rest) in P.
        rewrite E2, <- app_assoc, firstn_app in P.
        rewrite (firstn_all2 (n := 9)) in P by lia.
        assert (Q : In CLOSE (firstn 9 mt)).
        { rewrite <- P. apply in_or_app. right.
          destruct (9 - List.length (Str.ofNat n)) eqn:D; [lia |]. left. reflexivity. }
        rewrite <- (firstn_skipn 9 mt). apply in_or_app. left. exact Q. }
      rewrite forallb_forall in F. specialize (F _ I). discriminate F.
    + cbn [app] in E2. injection E2 as -> _.
      destruct mt as [| y mt]; [cbn in Lm'; lia |].
      cbn [app] in Es. injection Es as <- _.
      cbn [forallb] in F. apply andb_true_iff in F. destruct F as [F _].
      rewrite E1, forallb_app in FA. apply andb_true_iff in FA. destruct FA as [_ FA].
      cbn [forallb] in FA. apply andb_true_iff in FA. destruct FA as [FA _].
      rewrite F in FA. discriminate FA.
  - (* the candidate would start inside the counter or at the bracket *)
    assert (X : exists d, c :: suf = d ++ [CLOSE] /\ List.length d <= 8).
    { destruct (exists_last (l := c :: suf)) as (d & z & Ed); [discriminate |].
      rewrite Ed, app_assoc in E2. apply app_inj_tail in E2. destruct E2 as [E2 <-].
      exists d. split; [exact Ed |]. rewrite E2, length_app in L. lia. }
    destruct X as (d & Ed & Ld).
    assert (I : In CLOSE mt).
    { assert (P : firstn 9 (c :: suf ++ rest) = firstn 9 mt).
      { rewrite Es, firstn_app. replace (9 - List.length mt) with 0 by lia.
        cbn [firstn]. apply app_nil_r. }
      change (c :: suf ++ rest) with ((c :: suf) ++ rest) in P.
      rewrite Ed, <- app_assoc, firstn_app in P.
      rewrite (firstn_all2 (n := 9)) in P by lia.
      assert (Q : In CLOSE (firstn 9 mt)).
      { rewrite <- P. apply in_or_app. right.
        destruct (9 - List.length d) eqn:D; [lia |]. left. reflexivity. }
      rewrite <- (firstn_skipn 9 mt). apply in_or_app. left. exact Q. }
    rewrite forallb_forall in F. specialize (F _ I). discriminate F.
Qed.

End FivePasses.

(** ** The callbacks *)

Section Callbacks.
Import Regex privacyService.

(** Registering [v], found between [a] and [b], hides it behind the
    placeholder it receives. *)
Lemma registerLogged_hides (a v b : str) (t : PiiType) (st : State) :
  Sound (snd st) (fst st) -> ~ In OPEN a -> ~ In OPEN v -> ~ In OPEN b ->
  steps st (a ++ fst (registerLogged v t st) ++ b, snd (registerLogged v t st))
    (fun U => hides (entries (fst (snd (registerLogged v t st)))) (a ++ v ++ b)
                    (a ++ fst (registerLogged v t st) ++ b) U
              /\ map callOf U = added st (snd (registerLogged v t st))).
Proof.
  intros S Na Nv Nb. destruct st as [r log]. cbn [fst snd] in S.
  destruct (register_sound log r v t S Nv) as (S' & new & e & X & Ie & Pe & Te & Ke & Ne).
  unfold registerLogged, steps. cbn [fst snd].
  destruct (register v t r) as [p r'] eqn:G. cbn [fst snd] in *.
  split; [exact S' |]. split; [exists [(v, t)]; reflexivity |].
  exists new. split; [exact X |]. intros Al.
  assert (O : original e = v).
  { pose proof (so_logged _ _ S' e Ie) as Lg. rewrite Te in Lg.
    apply (Al (original e) v t); [exact Lg | | exact Ke].
    apply in_or_app. right. left. reflexivity. }
  exists ([] ++ [e] ++ []). split; [| exact Ne]. split.
  - apply hides_app; [apply hides_plain; exact Na |].
    apply hides_app; [| apply hides_plain; exact Nb].
    rewrite <- O, <- Pe. apply hides_entry. exact Ie.
  - rewrite (added_ext (r, log) (r', log ++ [(v, t)]) [(v, t)]) by reflexivity.
    cbn [app map]. unfold callOf. rewrite O, Te. reflexivity.
Qed.

Lemma steps_same (st : State) (u : str) :
  Sound (snd st) (fst st) -> ~ In OPEN u ->
  steps st (u, st)
    (fun U => hides (entries (fst st)) u u U /\ map callOf U = added st st).
Proof.
  intros S N. split; [exact S |]. split; [exists []; symmetry; apply app_nil_r |].
  exists []. cbn [fst snd]. rewrite app_nil_r. split; [reflexivity |]. intros _.
  exists []. split; [| apply incl_refl].
  split; [apply hides_plain; exact N | rewrite added_none; reflexivity].
Qed.

Lemma whole_firstn (r : re) (prev : option ascii) (s : str) (i : unit) (n : nat) :
  alphabet r OPEN = false -> whole r prev s = Some (i, n) -> ~ In OPEN (firstn n s).
Proof.
  intros A H. apply whole_sound in H. destruct H as (mt & rest & -> & -> & F & _).
  rewrite firstn_app, firstn_all, Nat.sub_diag. cbn [firstn]. rewrite app_nil_r.
  apply (forallb_excludes _ _ _ F A).
Qed.

Lemma not_in_app (x : ascii) (a b : str) : ~ In x (a ++ b) -> ~ In x a /\ ~ In x b.
Proof. intros N. split; intros I; apply N; apply in_or_app; [left | right]; exact I. Qed.

Lemma email_respects :
  respects (whole EMAIL_REGEX) (fun value _ => registerLogged value EMAIL).
Proof.
  intros prev s i n st M S.
  pose proof (whole_firstn EMAIL_REGEX _ _ _ _ eq_refl M) as N.
  pose proof (registerLogged_hides [] (firstn n s) [] EMAIL st S (fun x => x) N (fun x => x)) as A.
  cbn [app] in A. rewrite !app_nil_r in A.
  destruct (registerLogged (firstn n s) EMAIL st). exact A.
Qed.

Lemma address_respects :
  respects (whole STREET_ADDRESS_REGEX) (fun value _ => registerLogged value STREET_ADDRESS).
Proof.
  intros prev s i n st M S.
  pose proof (whole_firstn STREET_ADDRESS_REGEX _ _ _ _ eq_refl M) as N.
  pose proof (registerLogged_hides [] (firstn n s) [] STREET_ADDRESS st S
                (fun x => x) N (fun x => x)) as A.
  cbn [app] in A. rewrite !app_nil_r in A.
  destruct (registerLogged (firstn n s) STREET_ADDRESS st). exact A.
Qed.

Lemma phone_respects :
  respects (whole PHONE_CANDIDATE_REGEX)
    (fun candidate _ st =>
       if negb (isLikelyPhoneNumber candidate) then (candidate, st)
       else registerLogged candidate PHONE st).
Proof.
  intros prev s i n st M S.
  pose proof (whole_firstn PHONE_CANDIDATE_REGEX _ _ _ _ eq_refl M) as N.
  destruct (negb (isLikelyPhoneNumber (firstn n s))); [apply steps_same; assumption |].
  pose proof (registerLogged_hides [] (firstn n s) [] PHONE st S (fun x => x) N (fun x => x)) as A.
  cbn [app] in A. rewrite !app_nil_r in A.
  destruct (registerLogged (firstn n s) PHONE st). exact A.
Qed.

Lemma groups_firstn (h g1 g2 : re) (prev : option ascii) (s a b : str) (n : nat) :
  alphabet h OPEN = false -> alphabet g1 OPEN = false -> alphabet g2 OPEN = false ->
  twoGroups h g1 g2 prev s = Some ((a, b), n) ->
  ~ In OPEN (firstn n s) /\ exists x, firstn n s = x ++ a ++ b.
Proof.
  intros A A1 A2 H. apply twoGroups_sound in H.
  destruct H as (x & rest & -> & -> & F & F1 & F2 & _).
  rewrite firstn_app, firstn_all, Nat.sub_diag. cbn [firstn]. rewrite app_nil_r.
  split; [| exists x; reflexivity].
  intros I. apply in_app_or in I. destruct I as [I | I];
    [exact (forallb_excludes _ _ _ F A I) |].
  apply in_app_or in I. destruct I as [I | I];
    [exact (forallb_excludes _ _ _ F1 A1 I) | exact (forallb_excludes _ _ _ F2 A2 I)].
Qed.

Lemma birth_respects :
  respects BIRTH_DATE_LABELED_REGEX
    (fun full groups st =>
       let birthDate := snd groups in
       let (p, st') := registerLogged birthDate BIRTH_DATE st in
       (replaceFirst birthDate p full, st')).
Proof.
  intros prev s [g1 g2] n st M S. cbn [snd].
  destruct (groups_firstn BIRTH_DATE_HEAD BIRTH_DATE_SEP BIRTH_DATE_VALUE _ _ _ _ _ eq_refl eq_refl eq_refl M) as (N & x & E).
  destruct (registerLogged g2 BIRTH_DATE st) as [p st'] eqn:G.
  destruct (replaceFirst_spec g2 p (firstn n s) (x ++ g1) [])
    as (a & b & E1 & E2); [rewrite E, app_nil_r, <- app_assoc; reflexivity |].
  rewrite E2. rewrite E1 in N |- *.
  apply not_in_app in N. destruct N as [Na N]. apply not_in_app in N. destruct N as [Nv Nb].
  pose proof (registerLogged_hides a g2 b BIRTH_DATE st S Na Nv Nb) as A.
  rewrite G in A. exact A.
Qed.

Lemma id_respects :
  respects PERSONAL_ID_LABELED_REGEX
    (fun full groups st =>
       let sep := fst groups in
       let idValue := snd groups in
       let (p, st') := registerLogged idValue PERSONAL_ID st in
       (replaceFirst (sep ++ idValue) (sep ++ p) full, st')).
Proof.
  intros prev s [g1 g2] n st M S. cbn [fst snd].
  destruct (groups_firstn PERSONAL_ID_HEAD PERSONAL_ID_SEP PERSONAL_ID_VALUE _ _ _ _ _ eq_refl eq_refl eq_refl M) as (N & x & E).
  destruct (registerLogged g2 PERSONAL_ID st) as [p st'] eqn:G.
  destruct (replaceFirst_spec (g1 ++ g2) (g1 ++ p) (firstn n s) x [])
    as (a & b & E1 & E2); [rewrite E, app_nil_r; reflexivity |].
  rewrite E2. rewrite E1 in N |- *.
  apply not_in_app in N. destruct N as [Na N]. apply not_in_app in N. destruct N as [Nv Nb].
  apply not_in_app in Nv. destruct Nv as [Ns Nv].
  assert (Nas : ~ In OPEN (a ++ g1)).
  { intros I. apply in_app_or in I. destruct I; contradiction. }
  pose proof (registerLogged_hides (a ++ g1) g2 b PERSONAL_ID st S Nas Nv Nb) as A.
  rewrite G in A. cbn [fst snd] in A. rewrite <- !app_assoc in A |- *. exact A.
Qed.

End Callbacks.

(** ** The whole redaction *)

Section WholeRedaction.
Import Regex privacyService.

(** One pass on a redacted text gives a redacted text. *)
Lemma pass_step {I : Type} (m : matcher I) (fn : str -> I -> State -> str * State)
  (T R : str) (U : list PiiRedactionEntry) (st : State) :
  plainMatch m -> respects m fn ->
  Sound (snd st) (fst st) ->
  (forall e, In e (entries (fst st)) -> NoHit m (placeholder e)) ->
  Redacts (entries (fst st)) T R U -> incl (entries (fst st)) U ->
  Permutation (map callOf U) (snd st) ->
  Alike (snd (snd (replaceWith m fn R st))) ->
  Sound (snd (snd (replaceWith m fn R st))) (fst (snd (replaceWith m fn R st)))
  /\ exists U',
       Redacts (entries (fst (snd (replaceWith m fn R st)))) T (fst (replaceWith m fn R st)) U'
       /\ incl (entries (fst (snd (replaceWith m fn R st)))) U'
       /\ Permutation (map callOf U') (snd (snd (replaceWith m fn R st))).
Proof.
  intros Hp Hr S Hq H Inc Pm Al.
  assert (Hs : forall e, In e (entries (fst st)) -> bracketed (placeholder e)).
  { intros e He. destruct (so_shape _ _ S e He) as (n & -> & _).
    apply makePlaceholder_bracketed. }
  pose proof (pass_redacts m fn Hp Hr (entries (fst st)) Hs Hq (List.length R)
                R T U None st (le_n _) H S (incl_refl _)) as A.
  fold (segments m R) in A. fold (replaceWith m fn R st) in A.
  destruct A as (S' & (ext & X) & new & N & A). split; [exact S' |].
  destruct (A Al) as (U' & (H' & I1 & P1) & I2). exists U'. split; [exact H' |].
  split.
  - rewrite N. apply incl_app; [| exact I2].
    intros x Hx. apply I1, Inc, Hx.
  - rewrite (added_ext _ _ ext X) in P1. rewrite X.
    apply (Permutation_trans P1). apply Permutation_app_tail. exact Pm.
Qed.

End WholeRedaction.

Section RoundTrip.
Import Regex privacyService.

(** What the logged run of one text satisfies when its registered
    values are spelled alike and its entries are fewer than 10^8. *)
Lemma pass_result {I : Type} (m : matcher I) (fn : str -> I -> State -> str * State)
  (T R R' : str) (U : list PiiRedactionEntry) (st st' : State) :
  plainMatch m -> respects m fn ->
  replaceWith m fn R st = (R', st') ->
  Sound (snd st) (fst st) ->
  (forall e, In e (entries (fst st)) -> NoHit m (placeholder e)) ->
  Redacts (entries (fst st)) T R U -> incl (entries (fst st)) U ->
  Permutation (map callOf U) (snd st) ->
  Alike (snd st') ->
  Sound (snd st') (fst st')
  /\ exists U', Redacts (entries (fst st')) T R' U' /\ incl (entries (fst st')) U'
                /\ Permutation (map callOf U') (snd st').
Proof.
  intros Hp Hr E S Hq H Inc Pm Al.
  pose proof (pass_step m fn T R U st Hp Hr S Hq H Inc Pm) as A.
  rewrite E in A. exact (A Al).
Qed.

Lemma logged_run (text : str) :
  let out := applyPiiRedaction registerLogged text (createRedactor, []) in
  tokenFree text = true ->
  Alike (snd (snd out)) ->
  (Z.of_nat (List.length (entries (fst (snd out)))) < 100000000)%Z ->
  Sound (snd (snd out)) (fst (snd out))
  /\ exists U, Redacts (entries (fst (snd out))) text (fst out) U
               /\ incl (entries (fst (snd out))) U
               /\ Permutation (map callOf U) (snd (snd out)).
Proof.
  cbv zeta. unfold applyPiiRedaction. intros Hb.
  destruct (redactEmail registerLogged text (createRedactor, [])) as [r1 st1] eqn:E1.
  pose proof (redactBirthDate_grows r1 st1) as G2.
  destruct (redactBirthDate registerLogged r1 st1) as [r2 st2] eqn:E2.
  pose proof (redactPersonalId_grows r2 st2) as G3.
  destruct (redactPersonalId registerLogged r2 st2) as [r3 st3] eqn:E3.
  pose proof (redactPhone_grows r3 st3) as G4.
  destruct (redactPhone registerLogged r3 st3) as [r4 st4] eqn:E4.
  pose proof (redactStreetAddress_grows r4 st4) as G5.
  destruct (redactStreetAddress registerLogged r4 st4) as [r5 st5] eqn:E5.
  cbn [fst snd] in *.
  intros A5 Hn.
  pose proof (grows_length _ _ G4) as L4. pose proof (grows_length _ _ G5) as L5.
  assert (A4 : Alike (snd st4)) by (apply (Alike_incl _ _ (grows_log _ _ G5)); exact A5).
  assert (A3 : Alike (snd st3)) by (apply (Alike_incl _ _ (grows_log _ _ G4)); exact A4).
  assert (A2 : Alike (snd st2)) by (apply (Alike_incl _ _ (grows_log _ _ G3)); exact A3).
  assert (A1 : Alike (snd st1)) by (apply (Alike_incl _ _ (grows_log _ _ G2)); exact A2).
  destruct (pass_result (whole EMAIL_REGEX) _ text text r1 [] _ st1
              email_plain email_respects E1 Sound_fresh
              (fun e (F : In e []) => match F with end)
              (Redacts_self _ _ Hb) (incl_refl _) (perm_nil _) A1)
    as (S1 & U1 & H1 & I1 & P1).
  destruct (pass_result BIRTH_DATE_LABELED_REGEX _ text r1 r2 U1 st1 st2
              birth_plain birth_respects E2 S1) as (S2 & U2 & H2 & I2 & P2); try assumption.
  { intros e He. destruct (so_shape _ _ S1 e He) as (n & -> & _). apply birth_quiet. }
  destruct (pass_result PERSONAL_ID_LABELED_REGEX _ text r2 r3 U2 st2 st3
              id_plain id_respects E3 S2) as (S3 & U3 & H3 & I3 & P3); try assumption.
  { intros e He. destruct (so_shape _ _ S2 e He) as (n & -> & _). apply id_quiet. }
  destruct (pass_result (whole PHONE_CANDIDATE_REGEX) _ text r3 r4 U3 st3 st4
              phone_plain phone_respects E4 S3) as (S4 & U4 & H4 & I4 & P4); try assumption.
  { intros e He. destruct (so_shape _ _ S3 e He) as (n & -> & Ln). apply phone_quiet.
    apply ofNat_short. pose proof (so_count _ _ S3 (type e)). lia. }
  destruct (pass_result (whole STREET_ADDRESS_REGEX) _ text r4 r5 U4 st4 st5
              address_plain address_respects E5 S4) as (S5 & U5 & H5 & I5 & P5); try assumption.
  { intros e He. destruct (so_shape _ _ S4 e He) as (n & -> & _). apply address_quiet. }
  split; [exact S5 | exists U5; repeat split; assumption].
Qed.

Lemma Sound_wellFormed (log : list (str * PiiType)) (r : Redactor) :
  Sound log r -> wellFormed (entries r).
Proof.
  intros S. split.
  - intros e He. destruct (so_shape _ _ S e He) as (n & -> & _).
    apply makePlaceholder_bracketed.
  - apply (so_distinct _ _ S).
  - intros e He. apply (so_plain _ _ S (original e, type e)). apply (so_logged _ _ S). exact He.
Qed.

(** The first pass runs on the text itself: every match of the e-mail
    expression is registered, in the order of the text, before anything
    else is. *)
Lemma emails_logged (segs : list (segment unit)) (st : State) :
  snd (snd (replaceSegments (fun value (_ : unit) => registerLogged value EMAIL) segs st))
  = snd st
    ++ map (fun v => (v, EMAIL))
           (map fst (flat_map (fun g => match g with Lit _ => [] | Hit t i => [(t, i)] end)
                              segs)).
Proof.
  revert st.
  induction segs as [| [c | t i] segs IH]; intros st; cbn [replaceSegments flat_map map app].
  - symmetry. apply app_nil_r.
  - specialize (IH st). destruct (replaceSegments _ segs st). exact IH.
  - destruct (registerLogged t EMAIL st) as [p st1] eqn:G.
    assert (X : snd st1 = snd st ++ [(t, EMAIL)]).
    { unfold registerLogged in G. destruct (register t EMAIL (fst st)).
      injection G as _ <-. reflexivity. }
    specialize (IH st1). destruct (replaceSegments _ segs st1).
    cbn [fst snd] in *. rewrite IH, X, <- app_assoc. reflexivity.
Qed.

Lemma registrations_emails (text : str) :
  exists later,
    registrations text
    = map (fun v => (v, EMAIL)) (matches (whole EMAIL_REGEX) text) ++ later.
Proof.
  unfold registrations, textCalls, applyPiiRedaction.
  pose proof (emails_logged (segments (whole EMAIL_REGEX) text) (createRedactor, [])) as L.
  fold (replaceWith (whole EMAIL_REGEX) (fun value (_ : unit) => registerLogged value EMAIL)
          text (createRedactor, [])) in L.
  fold (redactEmail registerLogged text (createRedactor, [])) in L.
  fold (hits (whole EMAIL_REGEX) text) in L. fold (matches (whole EMAIL_REGEX) text) in L.
  destruct (redactEmail registerLogged text (createRedactor, [])) as [r1 st1].
  pose proof (redactBirthDate_grows r1 st1) as G2.
  destruct (redactBirthDate registerLogged r1 st1) as [r2 st2].
  pose proof (redactPersonalId_grows r2 st2) as G3.
  destruct (redactPersonalId registerLogged r2 st2) as [r3 st3].
  pose proof (redactPhone_grows r3 st3) as G4.
  destruct (redactPhone registerLogged r3 st3) as [r4 st4].
  pose proof (redactStreetAddress_grows r4 st4) as G5.
  destruct (redactStreetAddress registerLogged r4 st4) as [r5 st5].
  cbn [fst snd app] in *.
  destruct (grows_trans _ _ _ (grows_trans _ _ _ (grows_trans _ _ _ G2 G3) G4) G5)
    as (later & X & _).
  exists later. rewrite X, L. reflexivity.
Qed.

(** C2, as amended. Take a text in which no placeholder opens (it does
    not contain "[PII_"), in which the values registered under one type
    and one normalized key are spelled alike, and which gives fewer
    than 10^8 entries. Then restoring the redacted text over the run's
    entries gives the text back. The redacted text is the text with
    occurrences of registered values replaced by the placeholders of
    their entries and nothing else changed; the occurrences replaced
    are, by value and type, the calls of [register], one occurrence for
    each call, so that as many occurrences of a value are replaced as
    were detected, no later pass undoes a placeholder, and every entry
    is used; and the calls start with every match of the e-mail
    expression in the text. Every entry's placeholder is
    [[PII_<TYPE>_<n>]] with [n] from 1 on and occurs in the redacted
    text. *)
Theorem C2_redaction_round_trip (text : str) :
  let redacted := fst (applyPiiRedaction register text createRedactor) in
  let es := entries (snd (applyPiiRedaction register text createRedactor)) in
  tokenFree text = true ->
  spelledAlike (registrations text) = true ->
  (Z.of_nat (List.length es) < 100000000)%Z ->
  reinsertRedactedPii (Some redacted) es = Some text
  /\ (exists U, Redacts es text redacted U /\ incl es U
                /\ Permutation (map callOf U) (registrations text))
  /\ (exists later,
        registrations text
        = map (fun v => (v, EMAIL)) (matches (whole EMAIL_REGEX) text) ++ later)
  /\ (forall e, In e es ->
        (exists n, 1 <= n /\ placeholder e = makePlaceholder (type e) n)
        /\ Str.includes redacted (placeholder e) = true).
Proof.
  cbv zeta. intros Hb Ha Hn.
  pose proof (registrations_emails text) as Em.
  destruct (applyPiiRedaction_agrees text (createRedactor, [])) as [E1 E2].
  cbn [fst] in E1, E2. rewrite <- E1, <- E2 in *.
  apply spelledAlike_Alike in Ha. unfold registrations, textCalls in Ha.
  destruct (logged_run text Hb Ha Hn) as (S & U & H & Inc & Pm).
  split; [| split; [| split]].
  - cbn [reinsertRedactedPii]. f_equal.
    apply (restoreAll_Redacts _ _ _ U); [apply (Sound_wellFormed _ _ S) | exact H].
  - exists U. repeat split; assumption.
  - exact Em.
  - intros e He. split.
    + destruct (so_shape _ _ S e He) as (n & P & L). exists n. split; [lia | exact P].
    + apply includes_infix. apply (Redacts_used _ _ _ _ H). apply Inc. exact He.
Qed.

End RoundTrip.

Section RoundTripExamples.
Import Regex privacyService.

(** C2, counterexamples. Two spellings of one address share a
    placeholder, and restoring writes the first spelling at both places;
    a text that spells a placeholder itself gets it replaced on the way
    back; and a date that was detected behind its label stays in the
    redacted text where it stands without a label. So does a value of
    each of the other types, in texts that meet the conditions of the
    amended claim: an e-mail address before a digit, a telephone number
    inside a longer run of digits, a street address after a letter, an
    identity number without its label. *)
Lemma C2_counterexample :
  (let text := lit "A@B.CO a@b.co" in
   let out := applyPiiRedaction register text createRedactor in
   fst out = lit "[PII_EMAIL_1] [PII_EMAIL_1]"
   /\ reinsertRedactedPii (Some (fst out)) (entries (snd out)) = Some (lit "A@B.CO A@B.CO")
   /\ reinsertRedactedPii (Some (fst out)) (entries (snd out)) <> Some text)
  /\ (let text := lit "[PII_EMAIL_1] a@b.co" in
      let out := applyPiiRedaction register text createRedactor in
      fst out = lit "[PII_EMAIL_1] [PII_EMAIL_1]"
      /\ reinsertRedactedPii (Some (fst out)) (entries (snd out)) = Some (lit "a@b.co a@b.co")
      /\ reinsertRedactedPii (Some (fst out)) (entries (snd out)) <> Some text)
  /\ (let text := lit "dob 1/2/1990, hired 1/2/1990" in
      let out := applyPiiRedaction register text createRedactor in
      fst out = lit "dob [PII_BIRTH_DATE_1], hired 1/2/1990"
      /\ map original (entries (snd out)) = [lit "1/2/1990"]
      /\ Str.includes (fst out) (lit "1/2/1990") = true)
  /\ (let text := lit "a@b.co a@b.co1" in
      let out := applyPiiRedaction register text createRedactor in
      tokenFree text = true /\ spelledAlike (registrations text) = true
      /\ fst out = lit "[PII_EMAIL_1] a@b.co1"
      /\ map original (entries (snd out)) = [lit "a@b.co"]
      /\ Str.includes (fst out) (lit "a@b.co") = true)
  /\ (let text := lit "tel 123456789, ref 1234567890123456789" in
      let out := applyPiiRedaction register text createRedactor in
      tokenFree text = true /\ spelledAlike (registrations text) = true
      /\ fst out = lit "tel [PII_PHONE_1], ref 1234567890123456789"
      /\ map original (entries (snd out)) = [lit "123456789"]
      /\ Str.includes (fst out) (lit "123456789") = true)
  /\ (let text := lit "5 Oak Street, x5 Oak Street" in
      let out := applyPiiRedaction register text createRedactor in
      tokenFree text = true /\ spelledAlike (registrations text) = true
      /\ fst out = lit "[PII_STREET_ADDRESS_1], x5 Oak Street"
      /\ map original (entries (snd out)) = [lit "5 Oak Street"]
      /\ Str.includes (fst out) (lit "5 Oak Street") = true)
  /\ (let text := lit "ssn AB12345, badge AB12345" in
      let out := applyPiiRedaction register text createRedactor in
      tokenFree text = true /\ spelledAlike (registrations text) = true
      /\ fst out = lit "ssn [PII_PERSONAL_ID_1], badge AB12345"
      /\ map original (entries (snd out)) = [lit "AB12345"]
      /\ Str.includes (fst out) (lit "AB12345") = true).
Proof.
  split; [| split; [| split; [| split; [| split; [| split]]]]]; cbv zeta.
  - split; [vm_compute; reflexivity |]. split; [vm_compute; reflexivity |].
    vm_compute. discriminate.
  - split; [vm_compute; reflexivity |]. split; [vm_compute; reflexivity |].
    vm_compute. discriminate.
  - repeat split; vm_compute; reflexivity.
  - repeat split; vm_compute; reflexivity.
  - repeat split; vm_compute; reflexivity.
  - repeat split; vm_compute; reflexivity.
  - repeat split; vm_compute; reflexivity.
Qed.

(** The resume of the redaction test meets the three conditions; four
    values are registered in it, and four occurrences are replaced. *)
Lemma C2_redaction_round_trip_witness :
  tokenFree sampleResume = true
  /\ spelledAlike (registrations sampleResume) = true
  /\ reinsertRedactedPii
       (Some (fst (applyPiiRedaction register sampleResume createRedactor)))
       (entries (snd (applyPiiRedaction register sampleResume createRedactor)))
     = Some sampleResume
  /\ registrations sampleResume
     = [(lit "john.doe@example.com", EMAIL); (lit "01/12/1990", BIRTH_DATE);
        (lit "+1 (415) 555-1212", PHONE); (lit "221 Baker Street.", STREET_ADDRESS)]
  /\ exists U,
       Redacts (entries (snd (applyPiiRedaction register sampleResume createRedactor)))
         sampleResume (fst (applyPiiRedaction register sampleResume createRedactor)) U
       /\ Permutation (map callOf U) (registrations sampleResume).
Proof.
  split; [vm_compute; reflexivity |]. split; [vm_compute; reflexivity |].
  destruct (C2_redaction_round_trip sampleResume) as (R & (U & H & _ & P) & _);
    try (vm_compute; reflexivity).
  split; [exact R |]. split; [vm_compute; reflexivity |].
  exists U. split; [exact H | exact P].
Defined.

End RoundTripExamples.

(** ** Retrieval chunks: bounds, identifiers and cover *)

Section ChunkFacts.
Import Js types retrievalService.

Lemma startsWith_length (p s : str) :
  Str.startsWith p s = true -> List.length p <= List.length s.
Proof.
  intros H. apply startsWith_prefix in H. destruct H as (post & ->).
  rewrite length_app. lia.
Qed.

Lemma lastIndexFrom_bound (needle s : str) (i : nat) (found : option nat) (p : nat) :
  lastIndexFrom needle s i found = Some p ->
  found = Some p \/ (i <= p /\ p - i + List.length needle <= List.length s).
Proof.
  revert i found. induction s as [| c s IH]; intros i found H.
  - cbn [lastIndexFrom] in H.
    destruct (Str.startsWith needle []) eqn:E; [| left; exact H].
    injection H as <-. right. apply startsWith_length in E. simpl in *. lia.
  - cbn [lastIndexFrom] in H. apply IH in H. destruct H as [H | [H1 H2]].
    + destruct (Str.startsWith needle (c :: s)) eqn:E; [| left; exact H].
      injection H as <-. right. apply startsWith_length in E. simpl in *. lia.
    + right. simpl. lia.
Qed.

Lemma lastIndexOf_bound (s needle : str) (p : nat) :
  lastIndexOf s needle = Some p -> p + List.length needle <= List.length s.
Proof.
  unfold lastIndexOf. intros H. apply lastIndexFrom_bound in H.
  destruct H as [H | [_ H]]; [discriminate | lia].
Qed.

Lemma slice_length (s : str) (from to : nat) :
  to <= List.length s -> List.length (slice s from to) = to - from.
Proof.
  intros H. unfold slice. rewrite length_firstn, length_skipn. lia.
Qed.

Lemma atLeastSplit_some (i : option nat) (n : nat) :
  atLeastSplit i = Some n -> i = Some n /\ MIN_SPLIT_POINT <= n.
Proof.
  unfold atLeastSplit. destruct i as [m |]; [| discriminate].
  destruct (MIN_SPLIT_POINT <=? m) eqn:E; [| discriminate].
  intros H. injection H as <-. apply Nat.leb_le in E. split; [reflexivity | exact E].
Qed.

Lemma maxIndex_some (a b : option nat) (n : nat) :
  maxIndex a b = Some n -> a = Some n \/ b = Some n.
Proof.
  destruct a as [x |], b as [y |]; simpl; intros H; try discriminate; auto.
  injection H as <-. destruct (Nat.max_dec x y) as [-> | ->]; auto.
Qed.

(** The split point lies in the window it was searched in, past the
    least chunk length unless it is the window's end. *)
Lemma findSplitPoint_range (text : str) (start end_ : nat) :
  start <= end_ -> end_ <= List.length text ->
  findSplitPoint text start end_ <= end_.
Proof.
  intros L1 L2. unfold findSplitPoint.
  pose proof (slice_length text start end_ L2) as SL.
  destruct (atLeastSplit (maxIndex _ _)) as [p |] eqn:P.
  - apply atLeastSplit_some in P. destruct P as [P _].
    apply maxIndex_some in P. destruct P as [P | P].
    + apply maxIndex_some in P.
      destruct P as [P | P]; apply lastIndexOf_bound in P; simpl in P; lia.
    + apply lastIndexOf_bound in P. simpl in P. lia.
  - destruct (atLeastSplit (lastIndexOf _ [Str.LF])) as [n |] eqn:N.
    + apply atLeastSplit_some in N. destruct N as [N _].
      apply lastIndexOf_bound in N. simpl in N. lia.
    + destruct (atLeastSplit (lastIndexOf _ (lit " "))) as [w |] eqn:W; [| lia].
      apply atLeastSplit_some in W. destruct W as [W _].
      apply lastIndexOf_bound in W. simpl in W. lia.
Qed.

Lemma trim_length (s : str) : List.length (Str.trim s) <= List.length s.
Proof.
  unfold Str.trim, Str.trimEnd, Str.trimStart.
  rewrite length_rev.
  pose proof (dropWhile_length Str.isSpace (rev (Str.dropWhile Str.isSpace s))) as A.
  pose proof (dropWhile_length Str.isSpace s) as B.
  rewrite length_rev in A. lia.
Qed.

Lemma chunkLoop_windows (src : RetrievalSource) (normalized : str) (maxChars overlap : nat)
  (fuel : nat) :
  forall start0 index,
    Forall (fun c => windowOf src normalized maxChars c /\ start0 <= start c)
           (chunkLoop fuel src normalized maxChars overlap start0 index).
Proof.
  induction fuel as [| fuel IH]; intros s idx; cbn [chunkLoop]; [constructor |].
  destruct (s <? List.length normalized) eqn:E; [| constructor].
  apply Nat.ltb_lt in E. cbv zeta.
  set (hardEnd := Nat.min (s + maxChars) (List.length normalized)).
  set (splitPoint := if hardEnd <? List.length normalized
                     then findSplitPoint normalized s hardEnd else hardEnd).
  set (e := Nat.max splitPoint (Nat.min (s + MIN_SPLIT_POINT) (List.length normalized))).
  assert (Hh : s <= hardEnd /\ hardEnd <= List.length normalized /\ hardEnd <= s + maxChars)
    by (unfold hardEnd; lia).
  assert (Hs : splitPoint <= hardEnd).
  { unfold splitPoint. destruct (hardEnd <? List.length normalized); [| lia].
    apply findSplitPoint_range; lia. }
  assert (He : s < e /\ e <= List.length normalized
               /\ e - s <= Nat.max maxChars MIN_SPLIT_POINT).
  { unfold e, MIN_SPLIT_POINT. lia. }
  assert (Here : Forall (fun c => windowOf src normalized maxChars c /\ s <= start c)
                   match Str.trim (slice normalized s e) with
                   | [] => []
                   | _ :: _ =>
                       [{| id := chunkId src idx s e; source := src;
                           text := Str.trim (slice normalized s e); start := s; end_ := e;
                           tokenEstimate := estimateTokens (Str.trim (slice normalized s e)) |}]
                   end).
  { destruct (Str.trim (slice normalized s e)) as [| c t] eqn:T; constructor; [| constructor].
    split; [| cbn; lia]. unfold windowOf. cbn.
    repeat split; try lia; try (symmetry; exact T). discriminate. }
  destruct (List.length normalized <=? e); [exact Here |].
  apply Forall_app. split; [exact Here |].
  eapply Forall_impl; [| apply IH]. cbv beta. intros c [W L]. split; [exact W | lia].
Qed.

Lemma chunkLoop_numbered (src : RetrievalSource) (normalized : str) (maxChars overlap : nat)
  (fuel : nat) :
  forall start0 index,
    let chunks := chunkLoop fuel src normalized maxChars overlap start0 index in
    Forall2 (numbered src) (seq index (List.length chunks)) chunks.
Proof.
  induction fuel as [| fuel IH]; intros s idx; cbn [chunkLoop]; [constructor |].
  destruct (s <? List.length normalized); [| constructor].
  cbv zeta.
  set (e := Nat.max _ _).
  destruct (Str.trim (slice normalized s e)) as [| c t] eqn:T.
  - destruct (List.length normalized <=? e); [constructor |].
    cbn [app]. apply IH.
  - destruct (List.length normalized <=? e).
    + constructor; [reflexivity | constructor].
    + cbn [app List.length seq]. constructor; [reflexivity |].
      replace (S idx) with (idx + 1) by lia. apply IH.
Qed.

Lemma spacedFrom_word (b : bool) (w rest : str) :
  wordy w -> spacedFrom b (w ++ rest) = spacedFrom false rest.
Proof.
  intros [N H]. revert b. induction w as [| c w IH]; intros b; [contradiction |].
  cbn [forallb] in H. apply andb_true_iff in H. destruct H as [Hc Hw].
  apply negb_true_iff in Hc. cbn [app spacedFrom]. rewrite Hc.
  destruct w as [| d w]; [reflexivity |]. apply IH; [discriminate | exact Hw].
Qed.

Lemma spacedFrom_join (w : str) (ws : list str) :
  Forall wordy (w :: ws) -> spacedFrom true (Str.join [SP] (w :: ws)) = true.
Proof.
  revert w. induction ws as [| w' ws IH]; intros w F; inversion F as [| ? ? W F']; subst.
  - rewrite join_cons, <- (app_nil_r w), spacedFrom_word by exact W. reflexivity.
  - rewrite join_cons. rewrite spacedFrom_word by exact W.
    cbn [app spacedFrom]. rewrite isSpace_SP. cbn [negb andb]. apply IH. exact F'.
Qed.

Lemma spacedFrom_pair (b : bool) (s pre post : str) (x y : ascii) :
  spacedFrom b s = true -> s = pre ++ x :: y :: post ->
  Str.isSpace x = true -> Str.isSpace y = false.
Proof.
  revert b s. induction pre as [| c pre IH]; intros b s H -> X.
  - cbn [app spacedFrom] in H. rewrite X in H.
    destruct (Str.isSpace y); [| reflexivity].
    apply andb_true_iff in H. destruct H as [_ H]. discriminate H.
  - cbn [app spacedFrom] in H. destruct (Str.isSpace c).
    + apply andb_true_iff in H. destruct H as [_ H]. eapply IH; eauto.
    + eapply IH; eauto.
Qed.

Lemma spacedFrom_last (b : bool) (s pre : str) (x : ascii) :
  spacedFrom b s = true -> s = pre ++ [x] -> Str.isSpace x = false.
Proof.
  revert b s. induction pre as [| c pre IH]; intros b s H ->.
  - cbn [app spacedFrom] in H. destruct (Str.isSpace x); [| reflexivity].
    apply andb_true_iff in H. destruct H as [_ H]. discriminate H.
  - cbn [app spacedFrom] in H. destruct (Str.isSpace c).
    + apply andb_true_iff in H. destruct H as [_ H]. eapply IH; eauto.
    + eapply IH; eauto.
Qed.

Lemma normalizeText_spaced (text : str) :
  normalizeText text <> [] -> spacedFrom true (normalizeText text) = true.
Proof.
  rewrite normalizeText_words. pose proof (words_all_wordy text) as F.
  destruct (Str.words text) as [| w ws]; [intros N; contradiction N; reflexivity |].
  intros _. apply spacedFrom_join. exact F.
Qed.

Lemma trim_keeps (t : str) (c : ascii) :
  In c t -> Str.isSpace c = false -> Str.trim t <> [].
Proof.
  intros I N. apply in_split in I. destruct I as (a & b & ->).
  unfold Str.trim, Str.trimStart. rewrite dropWhile_app.
  assert (D : Str.dropWhile Str.isSpace (c :: b) = c :: b) by (simpl; rewrite N; reflexivity).
  assert (E : exists x, match Str.dropWhile Str.isSpace a with
                        | [] => Str.dropWhile Str.isSpace (c :: b)
                        | d :: l => (d :: l) ++ c :: b
                        end = x ++ [c] ++ b).
  { destruct (Str.dropWhile Str.isSpace a) as [| d l]; [exists []; rewrite D | exists (d :: l)];
      reflexivity. }
  destruct E as (x & ->).
  rewrite trimEnd_app, trimEnd_app.
  assert (T : Str.trimEnd [c] = [c]) by (unfold Str.trimEnd; simpl; rewrite N; reflexivity).
  destruct (Str.trimEnd b) as [| y l].
  - rewrite T. destruct x; discriminate.
  - destruct x; discriminate.
Qed.

(** A window of a normalized text that reaches its end, or holds two
    characters, has a character that is no white space. *)
Lemma window_not_blank (normalized : str) (s e : nat) :
  spacedFrom true normalized = true ->
  s < e -> e <= List.length normalized ->
  e = List.length normalized \/ s + 2 <= e ->
  Str.trim (slice normalized s e) <> [].
Proof.
  intros T L1 L2 C. unfold slice.
  pose proof (firstn_skipn s normalized) as Sp.
  assert (Ls : List.length (skipn s normalized) = List.length normalized - s)
    by apply length_skipn.
  destruct C as [-> | C].
  - rewrite firstn_all2 by lia.
    destruct (exists_last (l := skipn s normalized)) as (init & x & E).
    { intros Z. rewrite Z in Ls. simpl in Ls. lia. }
    apply trim_keeps with (c := x).
    + rewrite E. apply in_or_app. right. left. reflexivity.
    + apply (spacedFrom_last true normalized (firstn s normalized ++ init) x T).
      rewrite <- app_assoc, <- E. symmetry. exact Sp.
  - destruct (skipn s normalized) as [| x [| y rest]] eqn:E; try (simpl in Ls; lia).
    destruct (e - s) as [| [| k]] eqn:K; try lia. cbn [firstn].
    destruct (Str.isSpace x) eqn:X.
    + apply trim_keeps with (c := y); [right; left; reflexivity |].
      apply (spacedFrom_pair true normalized (firstn s normalized) rest x y T);
        [symmetry; exact Sp | exact X].
    + apply trim_keeps with (c := x); [left; reflexivity | exact X].
Qed.

Lemma chunkLoop_covers (src : RetrievalSource) (normalized : str) (maxChars overlap : nat)
  (fuel : nat) :
  spacedFrom true normalized = true ->
  forall start0 index i,
    List.length normalized - start0 <= fuel ->
    start0 <= i -> i < List.length normalized ->
    Exists (covers i) (chunkLoop fuel src normalized maxChars overlap start0 index).
Proof.
  intros T. induction fuel as [| fuel IH]; intros s idx i F L1 L2; [lia |].
  cbn [chunkLoop].
  assert (E : (s <? List.length normalized) = true) by (apply Nat.ltb_lt; lia).
  rewrite E. cbv zeta.
  set (hardEnd := Nat.min (s + maxChars) (List.length normalized)).
  set (splitPoint := if hardEnd <? List.length normalized
                     then findSplitPoint normalized s hardEnd else hardEnd).
  set (e := Nat.max splitPoint (Nat.min (s + MIN_SPLIT_POINT) (List.length normalized))).
  assert (Hs : splitPoint <= hardEnd).
  { unfold splitPoint. destruct (hardEnd <? List.length normalized); [| lia].
    apply findSplitPoint_range; unfold hardEnd; lia. }
  assert (He : s < e /\ e <= List.length normalized
               /\ (e = List.length normalized \/ s + 2 <= e)).
  { unfold e, hardEnd, MIN_SPLIT_POINT in *. lia. }
  destruct He as (He1 & He2 & He3).
  pose proof (window_not_blank normalized s e T He1 He2 He3) as NB.
  destruct (Str.trim (slice normalized s e)) as [| c t] eqn:Tr; [contradiction |].
  destruct (Nat.lt_ge_cases i e) as [Hi | Hi].
  - assert (Hd : covers i {| id := chunkId src idx s e; source := src; text := c :: t;
                            start := s; end_ := e;
                            tokenEstimate := estimateTokens (c :: t) |})
      by (unfold covers; cbn; lia).
    destruct (List.length normalized <=? e); [apply Exists_cons_hd; exact Hd |].
    apply Exists_app. left. apply Exists_cons_hd. exact Hd.
  - assert (G : (List.length normalized <=? e) = false) by (apply Nat.leb_gt; lia).
    rewrite G. apply Exists_app. right. apply IH; lia.
Qed.

Lemma chunkText_numbered (src : RetrievalSource) (text : str) (maxChars overlap : nat) :
  let chunks := chunkTextForRetrieval src text maxChars overlap in
  Forall2 (numbered src) (seq 0 (List.length chunks)) chunks.
Proof.
  cbv zeta. unfold chunkTextForRetrieval.
  destruct (normalizeText text) as [| c n] eqn:N; [constructor |].
  rewrite <- N. apply chunkLoop_numbered.
Qed.

Lemma chunk_windows_estimate (src : RetrievalSource) (text : str) (maxChars overlap : nat) :
  Forall (fun c => 1 <= tokenEstimate c) (chunkTextForRetrieval src text maxChars overlap).
Proof.
  unfold chunkTextForRetrieval. destruct (normalizeText text) as [| c n] eqn:N; [constructor |].
  rewrite <- N. eapply Forall_impl; [| apply chunkLoop_windows]. cbv beta.
  intros x [(_ & _ & _ & _ & _ & _ & E) _]. rewrite E. unfold estimateTokens. lia.
Qed.

(** X1. Every chunk of [chunkTextForRetrieval] is a window of the
    normalized text: it belongs to the source asked for, its bounds lie
    in the text with [start < end], it is no longer than the larger of
    [maxChars] and the least chunk length of 220, its text is the
    trimmed window and is not empty, and its token estimate is that of
    its text; the chunks carry the indices 0, 1, 2, ... in their
    identifiers, in order. *)
Theorem chunk_windows (src : RetrievalSource) (text : str) (maxChars overlap : nat) :
  let normalized := normalizeText text in
  let chunks := chunkTextForRetrieval src text maxChars overlap in
  Forall (windowOf src normalized maxChars) chunks
  /\ Forall (fun c => List.length (retrievalService.text c) <= Nat.max maxChars MIN_SPLIT_POINT
                      /\ 1 <= tokenEstimate c) chunks
  /\ Forall2 (numbered src) (seq 0 (List.length chunks)) chunks.
Proof.
  cbv zeta. unfold chunkTextForRetrieval.
  destruct (normalizeText text) as [| c n] eqn:N.
  - repeat split; constructor.
  - rewrite <- N.
    assert (W : Forall (windowOf src (normalizeText text) maxChars)
                  (chunkLoop (List.length (normalizeText text)) src (normalizeText text)
                     maxChars overlap 0 0)).
    { eapply Forall_impl; [| apply chunkLoop_windows]. cbv beta. intros x [H _]. exact H. }
    split; [exact W |]. split; [| apply chunkLoop_numbered].
    eapply Forall_impl; [| exact W]. cbv beta.
    intros x (_ & L1 & L2 & L3 & T & _ & E). split.
    + rewrite T. pose proof (trim_length (slice (normalizeText text) (start x) (end_ x))) as A.
      rewrite slice_length in A by exact L2. lia.
    + rewrite E. unfold estimateTokens. lia.
Qed.

(** X2. The chunks of [chunkTextForRetrieval] leave nothing of the
    normalized text out: every position of it lies in the window of some
    chunk; and there is no chunk exactly when the text is blank. *)
Theorem chunk_cover (src : RetrievalSource) (text : str) (maxChars overlap : nat) :
  let normalized := normalizeText text in
  let chunks := chunkTextForRetrieval src text maxChars overlap in
  (forall i, i < List.length normalized -> Exists (covers i) chunks)
  /\ (chunks = [] <-> Str.words text = []).
Proof.
  cbv zeta.
  assert (C : forall i, i < List.length (normalizeText text) ->
                        Exists (covers i) (chunkTextForRetrieval src text maxChars overlap)).
  { intros i L. unfold chunkTextForRetrieval.
    destruct (normalizeText text) as [| c n] eqn:N; [simpl in L; lia |].
    rewrite <- N in *. apply chunkLoop_covers; try lia.
    apply normalizeText_spaced. rewrite N. discriminate. }
  split; [exact C |]. split.
  - intros E. rewrite E in C.
    pose proof (normalizeText_words text) as W.
    destruct (Str.words text) as [| w ws] eqn:Ws; [reflexivity |].
    assert (F : Forall wordy (w :: ws)) by (rewrite <- Ws; apply words_all_wordy).
    inversion F as [| ? ? Hw _]; subst.
    pose proof (join_wordy_nonempty w ws Hw) as NE. rewrite <- W in NE.
    destruct (normalizeText text) as [| c n]; [contradiction |].
    specialize (C 0 ltac:(simpl; lia)). inversion C.
  - intros E. unfold chunkTextForRetrieval. rewrite normalizeText_words, E. reflexivity.
Qed.

End ChunkFacts.

Section SelectionFacts.
Import Js types retrievalService.
Variable host : Host.

Lemma insertSorted_perm (x : RetrievalChunk) (l : list RetrievalChunk) :
  Permutation (insertSorted host x l) (x :: l).
Proof.
  induction l as [| y l IH]; cbn [insertSorted]; [apply Permutation_refl |].
  destruct (keepsOrder host x y); [apply Permutation_refl |].
  eapply Permutation_trans; [apply perm_skip; exact IH | apply perm_swap].
Qed.

Lemma sortChunks_perm (l : list RetrievalChunk) : Permutation (sortChunks host l) l.
Proof.
  unfold sortChunks. induction l as [| x l IH]; cbn [fold_right]; [apply Permutation_refl |].
  eapply Permutation_trans; [apply insertSorted_perm | apply perm_skip; exact IH].
Qed.

Lemma keepsOrder_true (x y : RetrievalChunk) : keepsOrder host x y = true -> scoredBefore x y.
Proof.
  unfold keepsOrder, scoredBefore.
  destruct (Nat.compare_spec (scoreChunk200 y) (scoreChunk200 x)); intros K;
    [lia | lia | discriminate].
Qed.

Lemma keepsOrder_false (x y : RetrievalChunk) : keepsOrder host x y = false -> scoredBefore y x.
Proof.
  unfold keepsOrder, scoredBefore.
  destruct (Nat.compare_spec (scoreChunk200 y) (scoreChunk200 x)); intros K;
    [lia | discriminate | lia].
Qed.

Lemma insertSorted_sorted (x : RetrievalChunk) (l : list RetrievalChunk) :
  StronglySorted scoredBefore l -> StronglySorted scoredBefore (insertSorted host x l).
Proof.
  induction 1 as [| y l S IH F]; cbn [insertSorted].
  - constructor; constructor.
  - destruct (keepsOrder host x y) eqn:K.
    + apply keepsOrder_true in K. constructor; [constructor; assumption |].
      constructor; [exact K |].
      eapply Forall_impl; [| exact F]. unfold scoredBefore in *. intros z Hz. lia.
    + apply keepsOrder_false in K. constructor; [exact IH |].
      apply Forall_forall. intros z Hz.
      apply (Permutation_in _ (insertSorted_perm x l)) in Hz.
      destruct Hz as [<- | Hz]; [exact K |].
      rewrite Forall_forall in F. apply F. exact Hz.
Qed.

Lemma sortChunks_sorted (l : list RetrievalChunk) :
  StronglySorted scoredBefore (sortChunks host l).
Proof.
  unfold sortChunks. induction l as [| x l IH]; cbn [fold_right]; [constructor |].
  apply insertSorted_sorted. exact IH.
Qed.

Lemma StronglySorted_split {A : Type} (R : A -> A -> Prop) (l1 l2 : list A) :
  StronglySorted R (l1 ++ l2) ->
  StronglySorted R l1 /\ (forall a b, In a l1 -> In b l2 -> R a b).
Proof.
  induction l1 as [| x l1 IH]; cbn [app]; intros S.
  - split; [constructor | intros a b []].
  - inversion S as [| ? ? S' F]; subst. destruct (IH S') as [S1 C].
    rewrite Forall_forall in F. split.
    + constructor; [exact S1 |]. apply Forall_forall. intros z Hz.
      apply F. apply in_or_app. left. exact Hz.
    + intros a b [<- | Ha] Hb; [apply F; apply in_or_app; right; exact Hb |].
      apply C; assumption.
Qed.

Lemma built_chunks (input : RetrievalInput) (maxChars overlap : nat) (c : RetrievalChunk) :
  In c (buildRetrievalChunks input maxChars overlap) ->
  exists src, In c (chunkTextForRetrieval src (field input src) maxChars overlap).
Proof.
  unfold buildRetrievalChunks. intros H. apply in_flat_map in H.
  destruct H as (src & _ & H). exists src. exact H.
Qed.

(** X3. [selectRetrievalChunks] keeps the [limit] best-scored chunks of
    those built, best first: it returns [limit] chunks or all of them if
    there are fewer; together with the chunks left out they are the
    chunks built; no chunk left out scores higher than one that is kept;
    the kept ones are in descending order of score, which puts the
    chunks of a source of higher priority before those of lower
    priority. *)
Theorem selection_best_scored (input : RetrievalInput) (limit : nat) :
  let built := buildRetrievalChunks input DEFAULT_MAX_CHARS DEFAULT_OVERLAP in
  let kept := selectRetrievalChunks host input limit in
  List.length kept = Nat.min limit (List.length built)
  /\ (exists left,
        Permutation (kept ++ left) built
        /\ forall k l, In k kept -> In l left -> scoredBefore k l)
  /\ StronglySorted scoredBefore kept
  /\ StronglySorted sourceBefore kept.
Proof.
  cbv zeta. unfold selectRetrievalChunks.
  set (built := buildRetrievalChunks input DEFAULT_MAX_CHARS DEFAULT_OVERLAP).
  pose proof (sortChunks_perm built) as P.
  pose proof (sortChunks_sorted built) as S.
  rewrite <- (firstn_skipn limit (sortChunks host built)) in P, S.
  apply StronglySorted_split in S. destruct S as [S C].
  split; [| split; [| split]].
  - rewrite length_firstn, (Permutation_length (sortChunks_perm built)). reflexivity.
  - exists (skipn limit (sortChunks host built)). split; [exact P | exact C].
  - exact S.
  - assert (T : Forall (fun c => 1 <= tokenEstimate c)
                  (firstn limit (sortChunks host built))).
    { apply Forall_forall. intros c Hc.
      assert (B : In c built).
      { apply (Permutation_in _ P). apply in_or_app. left. exact Hc. }
      apply built_chunks in B. destruct B as (src & B).
      pose proof (chunk_windows_estimate src (field input src) DEFAULT_MAX_CHARS
                    DEFAULT_OVERLAP) as W.
      rewrite Forall_forall in W. apply W. exact B. }
    revert S T. generalize (firstn limit (sortChunks host built)) as l.
    induction l as [| x l IH]; intros S T; [constructor |].
    inversion S as [| ? ? S' F]; subst. inversion T as [| ? ? Tx T']; subst.
    constructor; [apply IH; assumption |].
    rewrite Forall_forall in F, T'. apply Forall_forall. intros y Hy.
    specialize (F y Hy). specialize (T' y Hy).
    unfold scoredBefore, scoreChunk200 in F. unfold sourceBefore. lia.
Qed.

Lemma sourceName_split (s s' : RetrievalSource) (r r' : str) :
  sourceName s ++ lit ":" ++ r = sourceName s' ++ lit ":" ++ r' -> s = s'.
Proof.
  destruct s, s'; intros H; try reflexivity; cbv in H; discriminate H.
Qed.

Lemma chunkId_inj (s s' : RetrievalSource) (k k' a a' b b' : nat) :
  chunkId s k a b = chunkId s' k' a' b' -> s = s' /\ k = k'.
Proof.
  unfold chunkId. intros H.
  pose proof (sourceName_split _ _ _ _ H) as <-. split; [reflexivity |].
  apply app_inv_head in H. change (lit ":" ++ ?x) with (":"%char :: x) in H.
  injection H as H.
  change (lit ":" ++ ?x) with (":"%char :: x) in H.
  apply ofNat_inj.
  apply (first_occurrence ":"%char _ _ _ _) in H; [exact H | |];
    apply (forallb_excludes Str.isWord); try apply ofNat_word; reflexivity.
Qed.

Lemma numbered_distinct (src : RetrievalSource) (l : list RetrievalChunk) :
  forall a, Forall2 (numbered src) (seq a (List.length l)) l ->
            NoDup (map id l)
            /\ Forall (fun c => exists k, a <= k /\ id c = chunkId src k (start c) (end_ c)) l.
Proof.
  induction l as [| c l IH]; intros a F; [split; constructor |].
  cbn [List.length seq] in F. inversion F as [| ? ? ? ? N F']; subst.
  destruct (IH (S a) F') as [D G]. split.
  - cbn [map]. constructor; [| exact D].
    intros I. apply in_map_iff in I. destruct I as (c' & E & I).
    rewrite Forall_forall in G. destruct (G c' I) as (k & L & E').
    unfold numbered in N. rewrite E', N in E. apply chunkId_inj in E. lia.
  - constructor; [exists a; split; [lia | exact N] |].
    eapply Forall_impl; [| exact G]. cbv beta. intros x (k & L & E). exists k. split; [lia | exact E].
Qed.

Lemma chunk_ids (src : RetrievalSource) (text : str) (maxChars overlap : nat) :
  let chunks := chunkTextForRetrieval src text maxChars overlap in
  NoDup (map id chunks)
  /\ Forall (fun c => exists k, id c = chunkId src k (start c) (end_ c)) chunks.
Proof.
  cbv zeta.
  pose proof (chunkText_numbered src text maxChars overlap) as N. cbv zeta in N.
  apply numbered_distinct in N. destruct N as [D G]. split; [exact D |].
  eapply Forall_impl; [| exact G]. cbv beta. intros x (k & _ & E). exists k. exact E.
Qed.

Lemma built_ids (input : RetrievalInput) (maxChars overlap : nat) (srcs : list RetrievalSource) :
  NoDup srcs ->
  NoDup (map id (flat_map (fun src => chunkTextForRetrieval src (field input src) maxChars overlap)
                          srcs)).
Proof.
  induction 1 as [| s ss N D IH]; cbn [flat_map map]; [constructor |].
  rewrite map_app. apply NoDup_app; [apply chunk_ids | exact IH |].
  intros x I1 I2.
  apply in_map_iff in I1. destruct I1 as (c1 & <- & I1).
  apply in_map_iff in I2. destruct I2 as (c2 & E & I2).
  apply in_flat_map in I2. destruct I2 as (s' & Hs & I2).
  destruct (chunk_ids s (field input s) maxChars overlap) as [_ G1].
  destruct (chunk_ids s' (field input s') maxChars overlap) as [_ G2].
  rewrite Forall_forall in G1, G2.
  destruct (G1 c1 I1) as (k1 & E1). destruct (G2 c2 I2) as (k2 & E2).
  rewrite E1, E2 in E. apply chunkId_inj in E. destruct E as [-> _]. contradiction.
Qed.

(** X4. Chunk identifiers are keys: no two chunks built from an input
    have the same identifier, and [selectRetrievalChunkIds] lists no
    identifier twice. *)
Theorem chunk_ids_distinct (input : RetrievalInput) (maxChars overlap limit : nat) :
  NoDup (map id (buildRetrievalChunks input maxChars overlap))
  /\ NoDup (selectRetrievalChunkIds host input limit).
Proof.
  assert (B : forall m o, NoDup (map id (buildRetrievalChunks input m o))).
  { intros m o. unfold buildRetrievalChunks. apply built_ids.
    unfold SOURCES. repeat constructor; simpl; intuition discriminate. }
  split; [apply B |].
  unfold selectRetrievalChunkIds, selectRetrievalChunks.
  pose proof (Permutation_map id (sortChunks_perm
                (buildRetrievalChunks input DEFAULT_MAX_CHARS DEFAULT_OVERLAP))) as P.
  apply Permutation_sym in P.
  pose proof (Permutation_NoDup P (B _ _)) as D.
  rewrite <- (firstn_skipn limit (sortChunks host _)), map_app in D.
  apply NoDup_app_remove_r in D. exact D.
Qed.

End SelectionFacts.

(** ** Keyword coverage: what is kept once, and where *)

Section CoverageFacts.
Import Regex types atsCoverageService.

Lemma mem_In (x : str) (l : list str) : Str.mem x l = true <-> In x l.
Proof.
  unfold Str.mem. rewrite existsb_exists. split.
  - intros (y & I & E). apply Str_eqb_eq in E. subst. exact I.
  - intros I. exists x. split; [exact I | apply Str_eqb_refl].
Qed.

Lemma mem_not_In (x : str) (l : list str) : Str.mem x l = false <-> ~ In x l.
Proof.
  rewrite <- mem_In. destruct (Str.mem x l); split; intros H; congruence.
Qed.

Lemma nonEmpty_iff (s : str) : Str.nonEmpty s = true <-> s <> [].
Proof. destruct s; simpl; split; intros H; congruence. Qed.

Lemma dedupeFrom_spec (items : list str) :
  forall seen,
    let kept := dedupeFrom items seen in
    incl kept items
    /\ NoDup (map normalizeForMatch kept)
    /\ Forall (fun x => normalizeForMatch x <> [] /\ ~ In (normalizeForMatch x) seen) kept
    /\ (forall x, In x items -> normalizeForMatch x <> [] ->
                  In (normalizeForMatch x) seen
                  \/ In (normalizeForMatch x) (map normalizeForMatch kept)).
Proof.
  induction items as [| item rest IH]; intros seen; cbn [dedupeFrom].
  - split; [intros x [] |]. split; [constructor |]. split; [constructor |]. intros x [].
  - cbv zeta.
    destruct (negb (Str.nonEmpty (normalizeForMatch item))) eqn:B; cbn [orb].
    + destruct (IH seen) as (I & D & F & C). repeat split; try assumption.
      * apply incl_tl. exact I.
      * intros x [<- | Hx] N; [| apply C; assumption].
        apply negb_true_iff in B. destruct (normalizeForMatch item); [congruence | discriminate].
    + apply negb_false_iff, nonEmpty_iff in B.
      destruct (Str.mem (normalizeForMatch item) seen) eqn:M.
      * destruct (IH seen) as (I & D & F & C). repeat split; try assumption.
        -- apply incl_tl. exact I.
        -- intros x [<- | Hx] N; [left; apply mem_In; exact M | apply C; assumption].
      * apply mem_not_In in M.
        destruct (IH (normalizeForMatch item :: seen)) as (I & D & F & C).
        repeat split.
        -- apply incl_cons; [left; reflexivity | apply incl_tl; exact I].
        -- cbn [map]. constructor; [| exact D].
           intros J. apply in_map_iff in J. destruct J as (y & E & J).
           rewrite Forall_forall in F. destruct (F y J) as [_ N]. apply N. left. symmetry. exact E.
        -- constructor; [split; assumption |].
           eapply Forall_impl; [| exact F]. cbv beta. intros y [N1 N2].
           split; [exact N1 |]. intros J. apply N2. right. exact J.
        -- intros x [<- | Hx] N; [right; left; reflexivity |].
           destruct (C x Hx N) as [[E | J] | J].
           ++ right. left. exact E.
           ++ left. exact J.
           ++ right. right. exact J.
Qed.

Lemma dedupeFrom_order (items : list str) :
  forall seen, keptFrom (dedupeFrom items seen) items.
Proof.
  induction items as [| item rest IH]; intros seen; cbn [dedupeFrom]; [constructor |].
  cbv zeta. destruct (_ || _); constructor; apply IH.
Qed.

Lemma dedupeFrom_first (items : list str) :
  forall seen pre x post,
    items = pre ++ x :: post ->
    normalizeForMatch x <> [] ->
    ~ In (normalizeForMatch x) (seen ++ map normalizeForMatch pre) ->
    In x (dedupeFrom items seen).
Proof.
  induction items as [| item rest IH]; intros seen pre x post E N F.
  - destruct pre; discriminate E.
  - cbn [dedupeFrom]. cbv zeta. destruct pre as [| y pre]; cbn [app] in E; injection E as -> ->.
    + apply nonEmpty_iff in N. rewrite N. cbn [negb orb].
      rewrite app_nil_r in F. apply mem_not_In in F. rewrite F. left. reflexivity.
    + assert (G : In x (dedupeFrom (pre ++ x :: post) seen)
                  /\ In x (dedupeFrom (pre ++ x :: post) (normalizeForMatch y :: seen))).
      { split.
        - apply (IH seen pre x post eq_refl N). intros J. apply F.
          apply in_app_or in J. apply in_or_app. destruct J as [J | J]; [left; exact J |].
          right. right. exact J.
        - apply (IH _ pre x post eq_refl N). intros J. apply F.
          cbn [app map] in *. destruct J as [J | J].
          + apply in_or_app. right. left. exact J.
          + apply in_app_or in J. apply in_or_app. destruct J as [J | J]; [left; exact J |].
            right. right. exact J. }
      destruct (_ || _); [apply G | right; apply G].
Qed.

(** Items that are already told apart are all kept. *)
Lemma dedupeFrom_fixed (items : list str) :
  forall seen,
    distinctItems items ->
    (forall x, In x items -> ~ In (normalizeForMatch x) seen) ->
    dedupeFrom items seen = items.
Proof.
  induction items as [| item rest IH]; intros seen [D F] S; [reflexivity |].
  cbn [dedupeFrom]. cbv zeta.
  cbn [map] in D. inversion D as [| ? ? N D']; subst.
  inversion F as [| ? ? B F']; subst.
  apply nonEmpty_iff in B. rewrite B. cbn [negb orb].
  assert (M : Str.mem (normalizeForMatch item) seen = false).
  { apply mem_not_In. apply S. left. reflexivity. }
  rewrite M. f_equal. apply IH; [split; assumption |].
  intros x Hx [E | J].
  - apply N. rewrite E. apply in_map. exact Hx.
  - apply (S x); [right; exact Hx | exact J].
Qed.

Lemma dedupe_distinct (items : list str) : distinctItems (dedupePreserveOrder items).
Proof.
  destruct (dedupeFrom_spec items []) as (_ & D & F & _). split; [exact D |].
  eapply Forall_impl; [| exact F]. cbv beta. intros x [N _]. exact N.
Qed.

Lemma dedupe_fixed (items : list str) :
  distinctItems items -> dedupePreserveOrder items = items.
Proof. intros D. apply dedupeFrom_fixed; [exact D | intros x _ []]. Qed.

Lemma distinct_filter (p : str -> bool) (items : list str) :
  distinctItems items -> distinctItems (filter p items).
Proof.
  intros [D F]. split.
  - induction items as [| x l IH]; cbn [filter]; [constructor |].
    cbn [map] in D. inversion D as [| ? ? N D']; subst.
    inversion F as [| ? ? B F']; subst.
    destruct (p x); [| apply IH; assumption].
    cbn [map]. constructor; [| apply IH; assumption].
    intros J. apply N. apply in_map_iff in J. destruct J as (y & E & J).
    apply filter_In in J. rewrite <- E. apply in_map. apply J.
  - apply Forall_forall. intros x Hx. apply filter_In in Hx.
    rewrite Forall_forall in F. apply F. apply Hx.
Qed.

(** X5. [dedupePreserveOrder] keeps the first item of each form, in
    place: what it keeps are items of its input in their order, none
    blank and no two alike once white space and case are normalized; an
    item that is not blank and has no item of its form before it is
    kept, so every form of the input is among those kept; and a list
    that is already so is returned as it is, which makes the function
    idempotent. *)
Theorem dedupe_keeps_one_of_each (items : list str) :
  let kept := dedupePreserveOrder items in
  keptFrom kept items
  /\ distinctItems kept
  /\ (forall pre x post,
        items = pre ++ x :: post -> normalizeForMatch x <> [] ->
        ~ In (normalizeForMatch x) (map normalizeForMatch pre) -> In x kept)
  /\ (forall x, In x items -> normalizeForMatch x <> [] ->
                In (normalizeForMatch x) (map normalizeForMatch kept))
  /\ dedupePreserveOrder kept = kept.
Proof.
  cbv zeta. destruct (dedupeFrom_spec items []) as (_ & _ & _ & C).
  split; [apply dedupeFrom_order |]. split; [apply dedupe_distinct |]. split; [| split].
  - intros pre x post E N F. apply (dedupeFrom_first items [] pre x post E N F).
  - intros x Hx N. destruct (C x Hx N) as [[] | J]. exact J.
  - apply dedupe_fixed, dedupe_distinct.
Qed.

Lemma filter_by_status (l : list str) (status : str -> KeywordStatus) :
  Permutation (filter (fun k => isStatus (status k) k_matched) l
               ++ filter (fun k => isStatus (status k) k_partial) l
               ++ filter (fun k => isStatus (status k) k_missing) l) l.
Proof.
  induction l as [| x l IH]; cbn [filter]; [apply Permutation_refl |].
  destruct (status x); cbn [isStatus app].
  - apply perm_skip. exact IH.
  - eapply Permutation_trans; [apply Permutation_sym, Permutation_middle |].
    apply perm_skip. exact IH.
  - rewrite app_assoc.
    eapply Permutation_trans; [apply Permutation_sym, Permutation_middle |].
    apply perm_skip. rewrite <- app_assoc. exact IH.
Qed.

Lemma distinct_perm (a b : list str) :
  Permutation a b -> distinctItems a -> distinctItems b.
Proof.
  intros P [D F]. split.
  - apply (Permutation_NoDup (Permutation_map normalizeForMatch P) D).
  - apply Forall_forall. intros x Hx. rewrite Forall_forall in F.
    apply F. apply (Permutation_in _ (Permutation_sym P)). exact Hx.
Qed.

Lemma isStatus_eq (a b : KeywordStatus) : isStatus a b = true <-> a = b.
Proof. destruct a, b; simpl; split; intros H; congruence. Qed.

Lemma parsed_distinct (jobDescription : str) :
  let parsed := parseJdRequirements jobDescription in
  distinctItems (hardRequirements parsed)
  /\ distinctItems (softRequirements parsed)
  /\ distinctItems (toolsTechKeywords parsed).
Proof.
  cbv zeta. unfold parseJdRequirements. cbv zeta.
  destruct (classifySentences _ _) as [h s].
  cbn [hardRequirements softRequirements toolsTechKeywords].
  repeat split; apply dedupe_distinct.
Qed.

(** X6. [computeAtsCoverage] reports every keyword of the job description
    once, in the list of its status: the matched, partial and missing
    keywords together are the tools and technologies that
    [parseJdRequirements] found, none twice (also not in two lists);
    each list holds keywords that [classifyKeyword] gives its status
    against the resume; and the hard requirements reported missing are
    those parsed that [hardRequirementSatisfied] refuses. *)
Theorem coverage_partition (host : Js.Host) (jobDescription : str)
  (resumeFacts : ResumeFactsForCoverage) :
  let parsed := parseJdRequirements jobDescription in
  let corpus := buildResumeCorpus resumeFacts in
  let coverage := computeAtsCoverage host jobDescription resumeFacts in
  let matched := types.matched (keywordCoverage coverage) in
  let partial := types.partial (keywordCoverage coverage) in
  let missing := types.missing (keywordCoverage coverage) in
  Permutation (matched ++ partial ++ missing) (toolsTechKeywords parsed)
  /\ distinctItems (matched ++ partial ++ missing)
  /\ Forall (fun k => classifyKeyword k corpus = k_matched) matched
  /\ Forall (fun k => classifyKeyword k corpus = k_partial) partial
  /\ Forall (fun k => classifyKeyword k corpus = k_missing) missing
  /\ hardRequirementsMissing coverage
     = filter (fun requirement =>
                 negb (hardRequirementSatisfied host requirement corpus
                         (map normalizeForMatch matched)))
              (hardRequirements parsed).
Proof.
  cbv zeta. unfold computeAtsCoverage. cbv zeta.
  cbn [keywordCoverage hardRequirementsMissing types.matched types.partial types.missing].
  set (parsed := parseJdRequirements jobDescription).
  set (corpus := buildResumeCorpus resumeFacts).
  destruct (parsed_distinct jobDescription) as (H & _ & K). fold parsed in H, K.
  rewrite !dedupe_fixed by (apply distinct_filter; assumption).
  pose proof (filter_by_status (toolsTechKeywords parsed)
                (fun k => classifyKeyword k corpus)) as P.
  split; [exact P |]. split; [apply (distinct_perm _ _ (Permutation_sym P) K) |].
  repeat split; try (apply Forall_forall; intros k Hk; apply filter_In in Hk;
                     apply isStatus_eq; apply Hk).
Qed.

Lemma exec_letters_nil {A : Type} (c : ascii) (l : str) (prev : option ascii)
  (k : option ascii -> str -> option A) :
  exec (seqOf (map chrI (c :: l))) prev [] k = None.
Proof. destruct l; reflexivity. Qed.

Lemma isWholeWordMatch_nil (keyword : str) :
  keyword <> [] -> isWholeWordMatch keyword [] = false.
Proof.
  intros N. unfold isWholeWordMatch, test.
  destruct (Str.toLowerCase keyword) as [| c l] eqn:E.
  { destruct keyword; [contradiction | discriminate E]. }
  cbn [testFrom]. cbn [seqOf].
  change (exec (Seq ?a (Seq ?b ?d)) None [] ?k)
    with (exec a None [] (fun p s => exec b p s (fun p' s' => exec d p' s' k))).
  cbn [exec]. rewrite exec_letters_nil. reflexivity.
Qed.

Lemma includes_nil (needle : str) : needle <> [] -> Str.includes [] needle = false.
Proof. destruct needle; [contradiction | reflexivity]. Qed.

Lemma classifyKeyword_blank (keyword : str) :
  classifyKeyword keyword {| rawText := []; normalizedText := []; tokenSet := [] |} = k_missing.
Proof.
  unfold classifyKeyword. cbv zeta. cbn [normalizedText tokenSet].
  destruct (Str.nonEmpty (normalizeKeyword keyword)) eqn:N; [| reflexivity].
  apply nonEmpty_iff in N. cbn [negb].
  destruct (_ && negb _); [reflexivity |].
  destruct (Str.includes (normalizeKeyword keyword) (lit " ")).
  - rewrite includes_nil by exact N.
    unfold keywordTokenOverlapScore, atLeastHalf. cbn [fst snd].
    replace (filter _ (significantTokens (normalizeKeyword keyword))) with (@nil str).
    + cbn [List.length]. rewrite Nat.mul_0_r.
      destruct (List.length _); reflexivity.
    + induction (significantTokens (normalizeKeyword keyword)) as [| t l IH]; [reflexivity |].
      cbn [filter existsb Str.mem]. rewrite andb_false_r. exact IH.
  - rewrite isWholeWordMatch_nil by exact N. cbn [existsb]. rewrite andb_false_r. reflexivity.
Qed.

Lemma hardRequirement_blank (host : Js.Host) (requirement : str) :
  hardRequirementSatisfied host requirement
    {| rawText := []; normalizedText := []; tokenSet := [] |} [] = false.
Proof.
  unfold hardRequirementSatisfied. cbv zeta. cbn [existsb tokenSet rawText].
  change (extractMaxYears host []) with (@None Js.JsNumber).
  replace (filter _ (significantTokens (normalizeForMatch requirement))) with (@nil str).
  - cbn [List.length]. unfold atLeastSixTenths.
    destruct (List.length _) as [| n]; cbn [Nat.ltb Nat.leb andb].
    + destruct (firstHit _ _) as [[? ?] |]; [| reflexivity].
      destruct (Js.isFinite _); reflexivity.
    + assert (E : (3 * S n <=? 5 * 0) = false) by (apply Nat.leb_gt; lia).
      rewrite E. destruct (firstHit _ _) as [[? ?] |]; [| reflexivity].
      destruct (Js.isFinite _); reflexivity.
  - induction (significantTokens (normalizeForMatch requirement)) as [| t l IH]; [reflexivity |].
    cbn [filter Str.mem existsb]. exact IH.
Qed.

(** X7. Against a resume without a single fact nothing is covered: no
    keyword is matched or partly matched, the missing keywords are all
    the tools and technologies of the job description, and every hard
    requirement is reported missing. *)
Theorem coverage_without_facts (host : Js.Host) (jobDescription : str) :
  let parsed := parseJdRequirements jobDescription in
  computeAtsCoverage host jobDescription noFacts
  = {| keywordCoverage :=
         {| types.matched := []; types.missing := toolsTechKeywords parsed;
            types.partial := [] |};
       hardRequirementsMissing := hardRequirements parsed |}.
Proof.
  cbv zeta. unfold computeAtsCoverage. cbv zeta.
  change (buildResumeCorpus noFacts)
    with {| rawText := []; normalizedText := []; tokenSet := [] |}.
  set (parsed := parseJdRequirements jobDescription).
  assert (F : forall st,
             filter (fun k => isStatus (classifyKeyword k
                       {| rawText := []; normalizedText := []; tokenSet := [] |}) st)
                    (toolsTechKeywords parsed)
             = match st with k_missing => toolsTechKeywords parsed | _ => [] end).
  { intros st. induction (toolsTechKeywords parsed) as [| k l IH]; cbn [filter].
    - destruct st; reflexivity.
    - rewrite classifyKeyword_blank, IH. destruct st; reflexivity. }
  rewrite !F. cbn [map].
  assert (G : filter (fun requirement =>
                        negb (hardRequirementSatisfied host requirement
                                {| rawText := []; normalizedText := []; tokenSet := [] |} []))
                     (hardRequirements parsed) = hardRequirements parsed).
  { induction (hardRequirements parsed) as [| r l IH]; cbn [filter]; [reflexivity |].
    rewrite hardRequirement_blank. cbn [negb]. f_equal. exact IH. }
  destruct (parsed_distinct jobDescription) as (H & _ & K). fold parsed in H, K.
  rewrite G, !dedupe_fixed by (assumption || (split; constructor)).
  reflexivity.
Qed.

End CoverageFacts.

(** ** Regular expressions: where a match starts *)

Section FirstFacts.
Import Regex.

Lemma startsIn_app (ok : ascii -> bool) (a b : str) :
  startsIn ok a = true -> (a = [] -> startsIn ok b = true) -> startsIn ok (a ++ b) = true.
Proof. destruct a as [| c a]; intros Ha Hb; [apply Hb; reflexivity | exact Ha]. Qed.

Lemma exec_first {A : Type} (r : re) :
  forall (prev : option ascii) (s : str) (k : option ascii -> str -> option A) (x : A),
    exec r prev s k = Some x ->
    exists mt rest,
      s = mt ++ rest
      /\ k (lastOr prev mt) rest = Some x
      /\ minLen r <= List.length mt
      /\ startsIn (firstOf r) mt = true.
Proof.
  induction r as [| p | a IHa b IHb | a IHa b IHb | a IHa | a IHa | | | |];
    intros prev s k x H; cbn [exec firstOf minLen] in *.
  - exists [], s. split; [reflexivity |]. split; [assumption |]. split; [lia | reflexivity].
  - destruct s as [| c s]; [discriminate |].
    destruct (p c) eqn:P; [| discriminate].
    exists [c], s. cbn. rewrite P. split; [reflexivity |]. split; [assumption |].
    split; [lia | reflexivity].
  - apply IHa in H. destruct H as (m1 & r1 & -> & H & L1 & F1).
    apply IHb in H. destruct H as (m2 & r2 & -> & H & L2 & F2).
    exists (m1 ++ m2), r2. rewrite lastOr_app, <- app_assoc.
    split; [reflexivity |]. split; [exact H |]. split; [rewrite length_app; lia |].
    destruct m1 as [| c m1].
    + cbn [app]. cbn [List.length] in L1.
      assert (Z : minLen a = 0) by lia. rewrite Z. cbn [Nat.eqb andb].
      destruct m2 as [| d m2]; [reflexivity |]. cbn [startsIn] in *. rewrite F2.
      apply orb_true_r.
    + cbn [app startsIn] in *. rewrite F1. reflexivity.
  - destruct (exec a prev s k) as [y |] eqn:Ea.
    + injection H as <-. apply IHa in Ea. destruct Ea as (m1 & r1 & -> & H & L1 & F1).
      exists m1, r1. split; [reflexivity |]. split; [exact H |]. split; [lia |].
      destruct m1; [reflexivity |]. cbn [startsIn] in *. rewrite F1. reflexivity.
    + apply IHb in H. destruct H as (m1 & r1 & -> & H & L1 & F1).
      exists m1, r1. split; [reflexivity |]. split; [exact H |]. split; [lia |].
      destruct m1; [reflexivity |]. cbn [startsIn] in *. rewrite F1. apply orb_true_r.
  - revert H. generalize (List.length s) at 1 as fuel. intros fuel.
    revert prev s x. induction fuel as [| fuel IHf]; intros prev s x H.
    + exists [], s. split; [reflexivity |]. split; [assumption |]. split; [lia | reflexivity].
    + match type of H with
      | match ?E with _ => _ end = _ => destruct E as [y |] eqn:Ea
      end.
      * injection H as <-. apply IHa in Ea.
        destruct Ea as (m1 & r1 & -> & H & _ & F1).
        destruct (List.length r1 <? List.length (m1 ++ r1)) eqn:G; [| discriminate].
        apply Nat.ltb_lt in G. rewrite length_app in G.
        apply IHf in H. destruct H as (m2 & r2 & -> & H & _ & F2).
        exists (m1 ++ m2), r2. rewrite lastOr_app, <- app_assoc.
        split; [reflexivity |]. split; [exact H |]. split; [lia |].
        destruct m1 as [| c m1]; [simpl in G; lia | exact F1].
      * exists [], s. split; [reflexivity |]. split; [assumption |]. split; [lia | reflexivity].
  - revert H. generalize (List.length s) at 1 as fuel. intros fuel.
    revert prev s x. induction fuel as [| fuel IHf]; intros prev s x H.
    + destruct (k prev s) as [y |] eqn:K; [| discriminate].
      injection H as <-. exists [], s. split; [reflexivity |]. split; [assumption |]. split; [lia | reflexivity].
    + destruct (k prev s) as [y |] eqn:K.
      * injection H as <-. exists [], s. split; [reflexivity |]. split; [assumption |]. split; [lia | reflexivity].
      * apply IHa in H. destruct H as (m1 & r1 & -> & H & _ & F1).
        destruct (List.length r1 <? List.length (m1 ++ r1)) eqn:G; [| discriminate].
        apply Nat.ltb_lt in G. rewrite length_app in G.
        apply IHf in H. destruct H as (m2 & r2 & -> & H & _ & F2).
        exists (m1 ++ m2), r2. rewrite lastOr_app, <- app_assoc.
        split; [reflexivity |]. split; [exact H |]. split; [lia |].
        destruct m1 as [| c m1]; [simpl in G; lia | exact F1].
  - destruct (xorb (wordBefore prev) (wordAhead s)); [| discriminate].
    exists [], s. split; [reflexivity |]. split; [assumption |]. split; [lia | reflexivity].
  - destruct (lineStart prev); [| discriminate].
    exists [], s. split; [reflexivity |]. split; [assumption |]. split; [lia | reflexivity].
  - destruct prev; [discriminate |].
    exists [], s. split; [reflexivity |]. split; [assumption |]. split; [lia | reflexivity].
  - destruct s; [| discriminate].
    exists [], []. split; [reflexivity |]. split; [assumption |]. split; [lia | reflexivity].
Qed.

(** A matcher of at least one character starts at a first character. *)
Lemma whole_first (r : re) : 1 <= minLen r -> firstIn (whole r) (firstOf r).
Proof.
  intros L prev c s i n H. unfold whole in H. apply exec_first in H.
  destruct H as ([| x mt] & rest & E & _ & M & F); [cbn in M; lia |].
  cbn [app] in E. injection E as -> _. exact F.
Qed.

Lemma whole_nil (r : re) (prev : option ascii) : 1 <= minLen r -> whole r prev [] = None.
Proof.
  intros L. destruct (whole r prev []) as [[i n] |] eqn:H; [| reflexivity].
  apply whole_sound in H. destruct H as (mt & rest & E & _ & _ & M).
  destruct mt; [simpl in M; lia | discriminate E].
Qed.

Section Scan.
Context {I : Type}.
Variable m : matcher I.

(** Where no match can start, nothing is found. *)
Lemma segments_none (ok : ascii -> bool) (s : str) :
  firstIn m ok -> (forall prev, m prev [] = None) ->
  forallb (fun c => negb (ok c)) s = true ->
  forall prev, segmentsFrom m prev 0 s = map (@Lit I) s.
Proof.
  intros F E. induction s as [| c s IH]; intros H prev.
  - cbn [segmentsFrom map]. rewrite E. reflexivity.
  - cbn [forallb] in H. apply andb_true_iff in H. destruct H as [Hc Hs].
    cbn [segmentsFrom map].
    destruct (m prev (c :: s)) as [[i n] |] eqn:M.
    + apply F in M. rewrite M in Hc. discriminate Hc.
    + rewrite IH by exact Hs. reflexivity.
Qed.

Lemma hits_none (ok : ascii -> bool) (s : str) :
  firstIn m ok -> (forall prev, m prev [] = None) ->
  forallb (fun c => negb (ok c)) s = true ->
  hits m s = [] /\ matches m s = [].
Proof.
  intros F E H. unfold matches, hits, segments. rewrite (segments_none ok s F E H).
  assert (Z : forall l : str,
             flat_map (fun g : segment I => match g with Lit _ => [] | Hit t i => [(t, i)] end)
                      (map (@Lit I) l) = []).
  { induction l as [| c l IH]; [reflexivity | exact IH]. }
  rewrite Z. split; reflexivity.
Qed.

(** The literal characters of a scan are characters of the text. *)
Lemma segments_lits (s : str) :
  forall prev skip c, In (Lit c) (segmentsFrom m prev skip s) -> In c s.
Proof.
  induction s as [| x s IH]; intros prev skip c H.
  - cbn [segmentsFrom] in H. destruct skip; [| destruct H].
    destruct (m prev []) as [[i n] |]; [| destruct H].
    destruct H as [H | []]. discriminate H.
  - cbn [segmentsFrom] in H. destruct skip as [| k].
    + destruct (m prev (x :: s)) as [[i [| n]] |].
      * destruct H as [H | [H | H]]; [discriminate H | injection H as ->; left; reflexivity |].
        right. eapply IH. exact H.
      * destruct H as [H | H]; [discriminate H |]. right. eapply IH. exact H.
      * destruct H as [H | H]; [injection H as ->; left; reflexivity |].
        right. eapply IH. exact H.
    + right. eapply IH. exact H.
Qed.

(** Deleting the matches keeps characters of the text only. *)
Lemma replace_deletes (P : ascii -> bool) (s : str) :
  forallb P s = true -> forallb P (Regex.replace m (fun _ _ => []) s) = true.
Proof.
  intros H. apply forallb_forall. intros c Hc. unfold Regex.replace in Hc.
  apply in_flat_map in Hc. destruct Hc as (g & Hg & Hc).
  destruct g as [x | t i]; [| destruct Hc].
  destruct Hc as [<- | []].
  apply segments_lits in Hg. rewrite forallb_forall in H. apply H. exact Hg.
Qed.

End Scan.

End FirstFacts.

(** ** The metrics guard: what it reports *)

Section GuardFacts.
Import Regex Js types metricsGuardService.
Variable host : Host.

Lemma number_first (c : ascii) : firstOf NUMBER_TOKEN_REGEX c = Str.isDigit c.
Proof.
  unfold NUMBER_TOKEN_REGEX, range, plus, opt, digit, chr.
  cbn [firstOf rep upTo minLen Nat.sub Nat.add Nat.min Nat.eqb andb].
  destruct (Str.isDigit c); reflexivity.
Qed.

Lemma number_needs_digit : firstIn (whole NUMBER_TOKEN_REGEX) Str.isDigit.
Proof.
  intros prev c s i n H.
  rewrite <- number_first. apply (whole_first NUMBER_TOKEN_REGEX) in H; [exact H |].
  vm_compute. lia.
Qed.

Lemma dedupeTokens_spec (found : list str) :
  forall seen,
    NoDup (dedupeTokens host found seen)
    /\ Forall (fun t => t <> [] /\ ~ In t seen) (dedupeTokens host found seen).
Proof.
  induction found as [| token rest IH]; intros seen; cbn [dedupeTokens].
  - split; constructor.
  - destruct (normalizeNumberToken host token) as [[| c n] |]; try apply IH.
    destruct (Str.mem (c :: n) seen) eqn:M; [apply IH |].
    apply mem_not_In in M. destruct (IH ((c :: n) :: seen)) as [D F]. split.
    + constructor; [| exact D]. intros J. rewrite Forall_forall in F.
      destruct (F _ J) as [_ N]. apply N. left. reflexivity.
    + constructor; [split; [discriminate | exact M] |].
      eapply Forall_impl; [| exact F]. cbv beta. intros t [N1 N2].
      split; [exact N1 |]. intros J. apply N2. right. exact J.
Qed.

Lemma tokens_distinct (text : str) :
  NoDup (extractNormalizedNumberTokens host text)
  /\ Forall (fun t => t <> []) (extractNormalizedNumberTokens host text).
Proof.
  unfold extractNormalizedNumberTokens. cbv zeta.
  destruct (dedupeTokens_spec
              (matches (whole NUMBER_TOKEN_REGEX)
                 (Regex.replace (whole LIST_NUMBERING_REGEX) (fun _ _ => []) text)) [])
    as [D F].
  split; [exact D |]. eapply Forall_impl; [| exact F]. cbv beta. intros t [N _]. exact N.
Qed.

(** A text without a digit has no number token. *)
Lemma tokens_need_digits (text : str) :
  forallb noDigit text = true -> extractNormalizedNumberTokens host text = [].
Proof.
  intros H. unfold extractNormalizedNumberTokens. cbv zeta.
  pose proof (replace_deletes (whole LIST_NUMBERING_REGEX) noDigit text H) as C.
  destruct (hits_none (whole NUMBER_TOKEN_REGEX) Str.isDigit _ number_needs_digit
              (fun prev => whole_nil NUMBER_TOKEN_REGEX prev ltac:(vm_compute; lia)) C)
    as [_ ->].
  reflexivity.
Qed.

(** X8. What the metrics guard reports for a text: the number tokens of
    the text that are not among the allowed numbers of the vault, each
    once; so it reports nothing exactly when every number token of the
    text is allowed. The number tokens of a text are distinct and not
    empty, and a text without a digit has none, so that it passes the
    guard whatever the vault. *)
Theorem number_guard_reports (text : str) (vault : MetricsVault) :
  let tokens := extractNormalizedNumberTokens host text in
  let allowed := getAllowedMetricNumbers host vault in
  let found := findUnauthorizedNumbersInText host text vault in
  NoDup tokens
  /\ Forall (fun t => t <> []) tokens
  /\ NoDup found
  /\ (forall t, In t found <-> In t tokens /\ ~ In t allowed)
  /\ (found = [] <-> incl tokens allowed)
  /\ (forallb noDigit text = true -> tokens = [] /\ found = []).
Proof.
  cbv zeta. destruct (tokens_distinct text) as [D F].
  assert (I : forall t, In t (findUnauthorizedNumbersInText host text vault)
                        <-> In t (extractNormalizedNumberTokens host text)
                            /\ ~ In t (getAllowedMetricNumbers host vault)).
  { intros t. unfold findUnauthorizedNumbersInText. cbv zeta.
    rewrite filter_In, negb_true_iff, mem_not_In. reflexivity. }
  split; [exact D |]. split; [exact F |]. split.
  { unfold findUnauthorizedNumbersInText. cbv zeta. apply NoDup_filter. exact D. }
  split; [exact I |]. split.
  - split.
    + intros E t Ht.
      destruct (Str.mem t (getAllowedMetricNumbers host vault)) eqn:M;
        [apply mem_In; exact M |].
      apply mem_not_In in M.
      assert (J : In t (findUnauthorizedNumbersInText host text vault))
        by (apply I; split; assumption).
      rewrite E in J. destruct J.
    + intros C.
      destruct (findUnauthorizedNumbersInText host text vault) as [| t l] eqn:E;
        [reflexivity |].
      assert (J : In t (t :: l)) by (left; reflexivity).
      apply I in J. destruct J as [J N]. contradiction N. apply C. exact J.
  - intros H. pose proof (tokens_need_digits text H) as Z. split; [exact Z |].
    unfold findUnauthorizedNumbersInText. cbv zeta. rewrite Z. reflexivity.
Qed.

End GuardFacts.

(** ** The pipeline: what a returned analysis went through *)

Section PipelineFacts.
Import Js types privacyService geminiService.
Variable host : Host.
Variable World : Type.
Variable generateContent :
  StageGenerationParams -> World -> (JsError + GenerationResponse) * World.

Lemma sleepsOf_app (a b : list Event) : sleepsOf (a ++ b) = sleepsOf a + sleepsOf b.
Proof. unfold sleepsOf. rewrite filter_app, length_app. reflexivity. Qed.

Lemma bumped_add (counting : bool) (a b n : nat) :
  bumped counting b (bumped counting a n) = bumped counting (a + b) n.
Proof. unfold bumped. destruct counting; lia. Qed.

Lemma retryLoop_counts (name : str) (params : StageGenerationParams) (counting : bool)
  (maxAttempts remaining attempt : nat) (last : option JsError) (st : Run World) :
  let run := retryLoop name (callGenerator generateContent params) maxAttempts
               (retryCallback counting) remaining attempt last st in
  exists new,
    adds run st new
    /\ requestsOf new = []
    /\ retryCount (snd run) = bumped counting (sleepsOf new) (retryCount st)
    /\ generationsOf new <= remaining.
Proof.
  cbv zeta. revert attempt last st.
  induction remaining as [| remaining IH]; intros attempt last st.
  - exists []. unfold adds. cbn [retryLoop throw snd]. rewrite app_nil_r.
    split; [reflexivity |]. split; [reflexivity |]. split.
    + unfold bumped. destruct counting; cbn; lia.
    + unfold generationsOf. simpl. lia.
  - rewrite retryLoop_step, callGenerator_run.
    destruct (generateContent params (world st)) as [[e | r] w]; cbn [fst snd].
    + destruct (negb ((attempt <? maxAttempts) && isTransientError e)).
      * exists [Generated params]. unfold adds. cbn [snd events retryCount].
        split; [reflexivity |]. split; [reflexivity |]. split.
        -- unfold bumped. destruct counting; cbn; lia.
        -- unfold generationsOf. simpl. lia.
      * match goal with
        | |- context [retryLoop _ _ _ _ _ ?a ?l ?s] =>
            destruct (IH a l s) as (new & A & R & C & G)
        end.
        exists ([Generated params; Slept (BASE_BACKOFF_MS * 2 ^ (attempt - 1))] ++ new).
        unfold adds in *. rewrite A, C. cbn [afterBackoff events retryCount].
        rewrite <- !app_assoc. split; [reflexivity |].
        rewrite requestsOf_app, generationsOf_app, sleepsOf_app, R. split; [reflexivity |].
        change (generationsOf [Generated params; Slept (BASE_BACKOFF_MS * 2 ^ (attempt - 1))])
          with 1.
        change (sleepsOf [Generated params; Slept (BASE_BACKOFF_MS * 2 ^ (attempt - 1))])
          with 1.
        split; [apply bumped_add | lia].
    + exists [Generated params]. unfold adds. cbn [snd events retryCount].
      split; [reflexivity |]. split; [reflexivity |]. split.
      * unfold bumped. destruct counting; cbn; lia.
      * unfold generationsOf. simpl. lia.
Qed.

(** One stage run: one request under the tier, then at most three
    generator calls; the retry counter goes up by the sleeps. *)
Lemma runStructuredStage_counts {T : Type} (tierConfig : TierConfig) (stageName : StageName)
  (instruction prompt : str) (normalize : JsValue -> T) (counting : bool) (st : Run World) :
  let run := runStructuredStage host generateContent tierConfig stageName instruction prompt
               normalize (retryCallback counting) st in
  exists new,
    adds run st new
    /\ requestsOf new = [requestOf tierConfig stageName instruction prompt]
    /\ retryCount (snd run) = bumped counting (sleepsOf new) (retryCount st)
    /\ generationsOf new <= 3.
Proof.
  cbv zeta. unfold runStructuredStage, withRetry, MAX_RETRY_ATTEMPTS.
  unfold bind at 1. cbn [emit].
  match goal with
  | |- context [callGenerator generateContent ?p] => set (params := p)
  end.
  set (loop := retryLoop (stageLabel stageName) (callGenerator generateContent params) 3
                 (retryCallback counting) 3 1 None).
  fold (requestOf tierConfig stageName instruction prompt).
  set (tr := requestOf tierConfig stageName instruction prompt).
  set (st0 := {| world := world st; retryCount := retryCount st;
                 events := events st ++ [StageRequested tr] |}).
  destruct (retryLoop_counts (stageLabel stageName) params counting 3 3 1 None st0)
    as (new & A & R & C & G).
  fold loop in A, C.
  exists ([StageRequested tr] ++ new).
  assert (E : forall (res : (JsError + T) * Run World),
              snd res = snd (loop st0) ->
              adds res st ([StageRequested tr] ++ new)
              /\ retryCount (snd res)
                 = bumped counting (sleepsOf ([StageRequested tr] ++ new)) (retryCount st)).
  { intros res Er. unfold adds in *. rewrite Er, A, C. subst st0. cbn [events retryCount].
    rewrite <- app_assoc, sleepsOf_app. split; reflexivity. }
  assert (S : adds (bind loop
                      (fun response =>
                         bind (parseJsonText host (stageLabel stageName) (text response))
                              (fun raw => ret (normalize raw))) st0) st
                   ([StageRequested tr] ++ new)
              /\ retryCount (snd (bind loop
                      (fun response =>
                         bind (parseJsonText host (stageLabel stageName) (text response))
                              (fun raw => ret (normalize raw))) st0))
                 = bumped counting (sleepsOf ([StageRequested tr] ++ new)) (retryCount st)).
  { apply E. unfold bind.
    destruct (loop st0) as [[e | response] st1]; [reflexivity |]. cbn [snd].
    pose proof (parseJsonText_pure host World (stageLabel stageName) (text response) st1) as P.
    destruct (parseJsonText host (stageLabel stageName) (text response) st1)
      as [[e | raw] st2]; cbn [snd] in P; subst st2; reflexivity. }
  destruct S as [S1 S2]. split; [exact S1 |].
  rewrite requestsOf_app, generationsOf_app, R.
  split; [reflexivity |]. split; [exact S2 |].
  change (generationsOf [StageRequested tr]) with 0. lia.
Qed.

Lemma callOptional_state (counting : bool) (st : Run World) :
  let st' := snd (callOptional (retryCallback counting) st) in
  events st' = events st
  /\ retryCount st' = bumped counting 1 (retryCount st).
Proof. destruct counting; split; reflexivity. Qed.

(** The rewrite stage: one request or two, under the tier; the retry
    counter goes up by the sleeps and by the correction. *)
Lemma rewriteDocs_counts (extracted : ExtractFactsResult)
  (scoring : ScoreMatchResult) (explicitUserAchievements : list str)
  (metricsVault : MetricsVault) (redactionEntries : list PiiRedactionEntry)
  (tierConfig : TierConfig) (counting : bool) (st : Run World) :
  let run :=
    rewriteDocsWithClient host generateContent extracted scoring explicitUserAchievements
      metricsVault redactionEntries tierConfig (retryCallback counting) st in
  exists new prompts,
    adds run st new
    /\ requestsOf new
       = map (requestOf tierConfig rewriteDocs (rewriteDocsInstruction tierConfig)) prompts
    /\ 1 <= List.length prompts <= 2
    /\ retryCount (snd run)
       = bumped counting (sleepsOf new + (List.length prompts - 1)) (retryCount st)
    /\ generationsOf new <= 6.
Proof.
  cbv zeta. rewrite rewriteDocs_unfold. cbv zeta. unfold rewriteStage.
  set (basePrompt := rewriteBasePrompt host extracted scoring explicitUserAchievements
                       metricsVault redactionEntries).
  destruct (runStructuredStage_counts tierConfig rewriteDocs (rewriteDocsInstruction tierConfig)
              basePrompt normalizeRewriteDocs counting st) as (new1 & A1 & R1 & C1 & G1).
  unfold adds in *.
  destruct (runStructuredStage host generateContent tierConfig rewriteDocs
              (rewriteDocsInstruction tierConfig) basePrompt normalizeRewriteDocs
              (retryCallback counting) st) as [[e | d1] st1]; cbn [snd] in *.
  - exists new1, [basePrompt]. cbn [map List.length]. rewrite Nat.sub_diag, Nat.add_0_r.
    repeat split; try assumption; lia.
  - destruct (isValid (validateDraft host metricsVault redactionEntries d1)).
    + exists new1, [basePrompt]. cbn [map List.length snd]. rewrite Nat.sub_diag, Nat.add_0_r.
      repeat split; try assumption; lia.
    + set (correction := rewriteCorrectionPrompt host basePrompt metricsVault redactionEntries
                           (validateDraft host metricsVault redactionEntries d1)).
      destruct (callOptional_state counting st1) as [Ev Rc].
      set (st1' := snd (callOptional (retryCallback counting) st1)) in *.
      destruct (runStructuredStage_counts tierConfig rewriteDocs
                  (rewriteDocsInstruction tierConfig) correction normalizeRewriteDocs
                  counting st1') as (new2 & A2 & R2 & C2 & G2).
      unfold adds in *.
      assert (E : forall (res : (JsError + RewriteDocsResult) * Run World),
                  snd res
                  = snd (runStructuredStage host generateContent tierConfig rewriteDocs
                           (rewriteDocsInstruction tierConfig) correction normalizeRewriteDocs
                           (retryCallback counting) st1') ->
                  events (snd res) = events st ++ new1 ++ new2
                  /\ requestsOf (new1 ++ new2)
                     = map (requestOf tierConfig rewriteDocs (rewriteDocsInstruction tierConfig))
                           [basePrompt; correction]
                  /\ 1 <= List.length [basePrompt; correction] <= 2
                  /\ retryCount (snd res)
                     = bumped counting
                         (sleepsOf (new1 ++ new2) + (List.length [basePrompt; correction] - 1))
                         (retryCount st)
                  /\ generationsOf (new1 ++ new2) <= 6).
      { intros res Er. rewrite Er, A2, C2, Ev, A1, Rc, C1.
        rewrite requestsOf_app, sleepsOf_app, generationsOf_app, R1, R2, <- app_assoc.
        cbn [map app List.length]. repeat split; try lia.
        rewrite !bumped_add. f_equal. lia. }
      exists (new1 ++ new2), [basePrompt; correction]. apply E.
      destruct (runStructuredStage host generateContent tierConfig rewriteDocs
                  (rewriteDocsInstruction tierConfig) correction normalizeRewriteDocs
                  (retryCallback counting) st1') as [[e | d2] st2]; [reflexivity |].
      destruct (isValid (validateDraft host metricsVault redactionEntries d2)); reflexivity.
Qed.

(** A rewrite that the stage returns is a draft of the generator that
    passed the combined validation, with the redacted values put back. *)
Lemma rewriteDocs_validated (extracted : ExtractFactsResult)
  (scoring : ScoreMatchResult) (explicitUserAchievements : list str)
  (metricsVault : MetricsVault) (redactionEntries : list PiiRedactionEntry)
  (tierConfig : TierConfig) (counting : bool) (st st' : Run World)
  (rewritten : RewriteDocsResult) :
  rewriteDocsWithClient host generateContent extracted scoring explicitUserAchievements
    metricsVault redactionEntries tierConfig (retryCallback counting) st
  = (inr rewritten, st') ->
  exists draft,
    isValid (validateDraft host metricsVault redactionEntries draft) = true
    /\ rewritten = correctedDraft (validateDraft host metricsVault redactionEntries draft).
Proof.
  rewrite rewriteDocs_unfold. cbv zeta.
  destruct (rewriteStage host generateContent tierConfig counting _ st) as [[e | d1] st1];
    [discriminate |].
  destruct (isValid (validateDraft host metricsVault redactionEntries d1)) eqn:V1.
  - intros H. injection H as <- _. exists d1. split; [exact V1 | reflexivity].
  - destruct (rewriteStage host generateContent tierConfig counting _ _) as [[e | d2] st2];
      [discriminate |].
    destruct (isValid (validateDraft host metricsVault redactionEntries d2)) eqn:V2;
      [| discriminate].
    intros H. injection H as <- _. exists d2. split; [exact V2 | reflexivity].
Qed.

Lemma isEmpty_nil {A : Type} (l : list A) : isEmpty l = true -> l = [].
Proof. destruct l; [reflexivity | discriminate]. Qed.

(** What a valid draft is free of. *)
Lemma valid_draft (metricsVault : MetricsVault) (redactionEntries : list PiiRedactionEntry)
  (draft : RewriteDocsResult) :
  let v := validateDraft host metricsVault redactionEntries draft in
  isValid v = true ->
  metricsGuardService.findUnauthorizedNumbersForRewrite host
    (optimizedResume draft) (optimizedCoverLetter draft) metricsVault = []
  /\ match redactionEntries with
     | [] => correctedDraft v = draft
     | _ :: _ =>
         correctedDraft v = applyPiiReinsertionToRewrite draft redactionEntries
         /\ findUnauthorizedPii (combinedOutput (correctedDraft v)) redactionEntries = []
         /\ findUnresolvedPiiPlaceholders (combinedOutput (correctedDraft v)) redactionEntries
            = []
     end.
Proof.
  cbv zeta. unfold validateDraft. cbv zeta. cbn [isValid correctedDraft].
  intros V. apply andb_true_iff in V. destruct V as [V V3].
  apply andb_true_iff in V. destruct V as [V1 V2].
  apply isEmpty_nil in V1, V2, V3. split; [exact V1 |].
  destruct redactionEntries as [| e es]; [reflexivity |].
  cbn [isEmpty negb] in *. unfold combinedOutput. repeat split; assumption.
Qed.

(** A returned analysis went through the three stages, and is put
    together from their results. *)
Lemma analysis_stages (data : ApplicationInput) (runtimeOptions : AnalysisRuntimeOptions)
  (st st' : Run World) (result : AnalysisResult) :
  analyzeApplication host generateContent data runtimeOptions st = (inr result, st') ->
  let prepared := prepareApplicationForGemini data in
  let sanitized := sanitizedInput prepared in
  let tierConfig := getTierConfig (selectTier sanitized) in
  exists extracted scored rewritten achievements s2 s3,
    extractFactsWithClient host generateContent sanitized tierConfig (retryCallback true)
      {| world := world st; retryCount := 0; events := events st |}
    = (inr extracted, s2)
    /\ scoreMatchWithClient host generateContent extracted (sourceOf sanitized) tierConfig
         (retryCallback true) s2 = (inr scored, s3)
    /\ rewriteDocsWithClient host generateContent extracted scored achievements
         (metricsVault sanitized) (redactionEntries prepared) tierConfig
         (retryCallback true) s3 = (inr rewritten, st')
    /\ types.optimizedResume result = optimizedResume rewritten
    /\ types.optimizedCoverLetter result = optimizedCoverLetter rewritten
    /\ improvements result
       = map (fun gap => {| point := point gap; category := category gap;
                            impact := impact gap; evidence := evidence gap |})
             (gapAnalysis scored)
    /\ modelName (analysisTrace result) = model tierConfig
    /\ types.tier (analysisTrace result) = tierLabel (tier tierConfig)
    /\ retries (analysisTrace result) = Js.ofNat (retryCount st')
    /\ types.retrievalTrace (analysisTrace result)
       = retrievalService.selectRetrievalTrace host (retrievalInputOf sanitized) 8
    /\ retrievalChunkIds (analysisTrace result)
       = map chunkId (types.retrievalTrace (analysisTrace result))
    /\ evidenceSnippetWordLimit result = Js.ofNat MAX_EVIDENCE_WORDS.
Proof.
  intros H. cbv zeta.
  unfold analyzeApplication in H. cbv zeta in H.
  apply bind_inr in H. destruct H as (u & s0 & H0 & H).
  apply getGeminiClient_pure in H0. subst s0.
  apply bind_inr in H. destruct H as (hash & s1 & H1 & H).
  apply computeInputHash_pure in H1. subst s1.
  apply bind_inr in H. destruct H as (u' & s1 & H1 & H).
  unfold resetRetry in H1. injection H1 as _ <-.
  apply bind_inr in H. destruct H as (extracted & s2 & H2 & H).
  apply bind_inr in H. destruct H as (scored & s3 & H3 & H).
  apply bind_inr in H. destruct H as (rewritten & s4 & H4 & H).
  match type of H with
  | (if ?b then _ else _) = _ => destruct b
  end; [discriminate H |].
  unfold ret in H. injection H as <- <-.
  eexists extracted, scored, rewritten, _, s2, s3.
  split; [exact H2 |]. split; [exact H3 |]. split; [exact H4 |].
  repeat split; reflexivity.
Qed.

Lemma reinsert_none (text : option str) : reinsertRedactedPii text [] = text.
Proof. destruct text; reflexivity. Qed.

Lemma prepare_plain (data : ApplicationInput) :
  privacyMode data = false ->
  prepareApplicationForGemini data = {| redactionEntries := []; sanitizedInput := data |}.
Proof. intros P. unfold prepareApplicationForGemini. rewrite P. reflexivity. Qed.

(** X9. The documents of a returned analysis passed the guards. They are
    a draft of the generator in which the metrics guard found no number
    outside the metrics vault, with the redacted values put back. If
    nothing was redacted (as when privacy mode is off) the documents
    themselves hold no number outside the vault; if something was, no
    PII detector finds in them a value other than the redacted ones, and
    no placeholder that the redaction did not issue. *)
Theorem analysis_documents_validated (data : ApplicationInput)
  (runtimeOptions : AnalysisRuntimeOptions) (st st' : Run World) (result : AnalysisResult) :
  analyzeApplication host generateContent data runtimeOptions st = (inr result, st') ->
  let prepared := prepareApplicationForGemini data in
  let vault := metricsVault (sanitizedInput prepared) in
  let entries := redactionEntries prepared in
  let output :=
    metricsGuardService.orEmpty (types.optimizedResume result) ++ [Str.LF]
    ++ metricsGuardService.orEmpty (types.optimizedCoverLetter result) in
  (exists draft,
     metricsGuardService.findUnauthorizedNumbersForRewrite host
       (optimizedResume draft) (optimizedCoverLetter draft) vault = []
     /\ types.optimizedResume result = reinsertRedactedPii (optimizedResume draft) entries
     /\ types.optimizedCoverLetter result
        = reinsertRedactedPii (optimizedCoverLetter draft) entries)
  /\ (entries = [] ->
      metricsGuardService.findUnauthorizedNumbersForRewrite host
        (types.optimizedResume result) (types.optimizedCoverLetter result) vault = [])
  /\ (privacyMode data = false ->
      metricsGuardService.findUnauthorizedNumbersForRewrite host
        (types.optimizedResume result) (types.optimizedCoverLetter result)
        (metricsVault data) = [])
  /\ (entries <> [] ->
      findUnauthorizedPii output entries = []
      /\ findUnresolvedPiiPlaceholders output entries = []).
Proof.
  intros H. cbv zeta.
  destruct (analysis_stages _ _ _ _ _ H)
    as (extracted & scored & rewritten & ach & s2 & s3 & _ & _ & H4 & E1 & E2 & _).
  apply rewriteDocs_validated in H4. destruct H4 as (draft & V & ->).
  destruct (valid_draft _ _ _ V) as [N C].
  rewrite E1, E2.
  set (entries := redactionEntries (prepareApplicationForGemini data)) in *.
  assert (G : forall es,
             es = entries ->
             es = [] ->
             metricsGuardService.findUnauthorizedNumbersForRewrite host
               (optimizedResume (correctedDraft
                  (validateDraft host (metricsVault (sanitizedInput
                     (prepareApplicationForGemini data))) entries draft)))
               (optimizedCoverLetter (correctedDraft
                  (validateDraft host (metricsVault (sanitizedInput
                     (prepareApplicationForGemini data))) entries draft)))
               (metricsVault (sanitizedInput (prepareApplicationForGemini data))) = []).
  { intros es <- Z. rewrite Z in C. rewrite Z, C. exact N. }
  split; [| split; [| split]].
  - exists draft. split; [exact N |].
    destruct entries as [| e es].
    + rewrite C, !reinsert_none. split; reflexivity.
    + destruct C as (-> & _). split; reflexivity.
  - intros Z. apply (G entries eq_refl Z).
  - intros P. pose proof (G entries eq_refl) as G'.
    unfold entries in *. rewrite (prepare_plain data P) in *.
    cbn [redactionEntries sanitizedInput] in *. apply G'. reflexivity.
  - intros Z. destruct entries as [| e es]; [contradiction |].
    destruct C as (_ & C1 & C2). unfold combinedOutput in C1, C2. split; assumption.
Qed.

Lemma bind_ret_state {A B : Type} (c : M World A) (f : A -> B) (st : Run World) :
  snd (bind c (fun x => ret (f x)) st) = snd (c st).
Proof. unfold bind, ret. destruct (c st) as [[e | x] st1]; reflexivity. Qed.

(** X10. The trace of a returned analysis accounts for what happened.
    The stages were asked in order (extract, score, rewrite, and rewrite
    once more when a correction was needed), every request under the
    model and the tier that the trace names; [retries] is the number of
    back-off sleeps of this call plus one for the correction, whatever
    was counted before the call; the generator was called at most
    twelve times; and the chunk identifiers are those selected for the
    sanitized input, at most eight, each with its trace entry. *)
Theorem analysis_trace_accounts (data : ApplicationInput)
  (runtimeOptions : AnalysisRuntimeOptions) (st st' : Run World) (result : AnalysisResult) :
  analyzeApplication host generateContent data runtimeOptions st = (inr result, st') ->
  let sanitized := sanitizedInput (prepareApplicationForGemini data) in
  let trace := analysisTrace result in
  exists new,
    events st' = events st ++ new
    /\ (map t_stageName (requestsOf new) = [extractFacts; scoreMatch; rewriteDocs]
        \/ map t_stageName (requestsOf new)
           = [extractFacts; scoreMatch; rewriteDocs; rewriteDocs])
    /\ Forall (fun t => t_model t = modelName trace
                        /\ tierLabel (t_tier t) = types.tier trace) (requestsOf new)
    /\ retries trace = Js.ofNat (sleepsOf new + (List.length (requestsOf new) - 3))
    /\ generationsOf new <= 12
    /\ retrievalChunkIds trace
       = retrievalService.selectRetrievalChunkIds host (retrievalInputOf sanitized) 8
    /\ map chunkId (types.retrievalTrace trace) = retrievalChunkIds trace
    /\ List.length (retrievalChunkIds trace) <= 8.
Proof.
  intros H. cbv zeta.
  destruct (analysis_stages _ _ _ _ _ H)
    as (extracted & scored & rewritten & ach & s2 & s3 & H2 & H3 & H4
        & _ & _ & _ & Em & Et & Er & Etr & Eids & _).
  set (sanitized := sanitizedInput (prepareApplicationForGemini data)) in *.
  set (tierConfig := getTierConfig (selectTier sanitized)) in *.
  (* the extract stage *)
  unfold extractFactsWithClient in H2. cbv zeta in H2.
  match type of H2 with
  | runStructuredStage _ _ _ _ ?i ?p _ _ _ = _ =>
      destruct (runStructuredStage_counts tierConfig extractFacts i p normalizeExtractFacts
                  true {| world := world st; retryCount := 0; events := events st |})
        as (new1 & A1 & R1 & C1 & G1)
  end.
  unfold adds in A1. rewrite H2 in A1, C1. cbn [snd events retryCount] in A1, C1.
  (* the score stage *)
  unfold scoreMatchWithClient in H3. cbv zeta in H3.
  match type of H3 with
  | bind (runStructuredStage _ _ _ _ ?i ?p _ _) _ _ = _ =>
      destruct (runStructuredStage_counts tierConfig scoreMatch i p normalizeScoreMatch
                  true s2) as (new2 & A2 & R2 & C2 & G2);
      pose proof (bind_ret_state
                    (runStructuredStage host generateContent tierConfig scoreMatch i p
                       normalizeScoreMatch (retryCallback true))
                    (fun scored => enforceEvidenceFromSource scored (sourceOf sanitized)) s2)
        as B
  end.
  cbv beta in B. rewrite H3 in B. cbn [snd] in B. unfold adds in A2. rewrite <- B in A2, C2.
  (* the rewrite stage *)
  destruct (rewriteDocs_counts extracted scored ach (metricsVault sanitized)
              (redactionEntries (prepareApplicationForGemini data)) tierConfig true s3)
    as (new3 & prompts & A3 & R3 & L3 & C3 & G3).
  unfold adds in A3. rewrite H4 in A3, C3. cbn [snd] in A3, C3.
  exists (new1 ++ new2 ++ new3).
  rewrite !requestsOf_app, !sleepsOf_app, !generationsOf_app, R1, R2, R3.
  split; [rewrite A3, A2, A1, <- !app_assoc; reflexivity |].
  split.
  { cbn [map app requestOf t_stageName].
    destruct prompts as [| p1 [| p2 [| p3 ps]]]; cbn [List.length] in L3; try lia;
      [left | right]; reflexivity. }
  split.
  { rewrite Em, Et. cbn [app].
    constructor; [split; reflexivity |]. constructor; [split; reflexivity |].
    apply Forall_forall. intros t Ht. apply in_map_iff in Ht.
    destruct Ht as (p & <- & _). split; reflexivity. }
  split.
  { rewrite Er, C3, C2, C1. unfold bumped. f_equal.
    cbn [app List.length]. rewrite length_map. lia. }
  split; [lia |].
  rewrite Eids, Etr. unfold retrievalService.selectRetrievalTrace,
    retrievalService.selectRetrievalChunkIds.
  rewrite !map_map. cbn [chunkId].
  split; [reflexivity |]. split; [reflexivity |].
  rewrite length_map. unfold retrievalService.selectRetrievalChunks.
  rewrite length_firstn. lia.
Qed.




(** X11. Without a client nothing is sent. In mock mode no key is asked
    for. Otherwise, when neither the options nor the build environment
    hold a key that is not blank, [analyzeApplication] and the three
    stage functions throw the missing-key error before they prepare
    anything, with no request and no generator call; and with a client
    but without the Web Crypto API, [analyzeApplication] throws before
    its first stage. *)
Theorem analysis_needs_client (data : ApplicationInput)
  (runtimeOptions : AnalysisRuntimeOptions) (st : Run World) :
  let missingKey :=
    newError (lit "Missing Gemini API key: set VITE_GEMINI_API_KEY in .env.local and restart the Vite dev server.") in
  let noCrypto :=
    newError (lit "Web Crypto API is unavailable; cannot compute SHA-256 input hash.") in
  let keyed := nonBlank (apiKey runtimeOptions) || nonBlank (envApiKey host) in
  (modelMode runtimeOptions = Some mock ->
   getGeminiClient host runtimeOptions st = (inr tt, st))
  /\ (modelMode runtimeOptions <> Some mock -> keyed = false ->
      analyzeApplication host generateContent data runtimeOptions st = (inl missingKey, st)
      /\ extractFacts_ host World generateContent data runtimeOptions st = (inl missingKey, st)
      /\ (forall extracted sourceText mode,
            scoreMatch_ host World generateContent extracted sourceText mode runtimeOptions st
            = (inl missingKey, st))
      /\ (forall extracted scoring achievements vault entries mode,
            rewriteDocs_ host World generateContent extracted scoring achievements vault
              entries mode runtimeOptions st = (inl missingKey, st)))
  /\ (modelMode runtimeOptions = Some mock \/ keyed = true ->
      sha256Hex host = None ->
      analyzeApplication host generateContent data runtimeOptions st = (inl noCrypto, st)).
Proof.
  cbv zeta. split; [| split].
  - intros M. unfold getGeminiClient. rewrite M. reflexivity.
  - intros M K.
    assert (G : getGeminiClient host runtimeOptions st
                = (inl (newError (lit "Missing Gemini API key: set VITE_GEMINI_API_KEY in .env.local and restart the Vite dev server.")), st)).
    { unfold getGeminiClient. destruct (modelMode runtimeOptions) as [[] |];
        try (rewrite K; reflexivity). contradiction M; reflexivity. }
    repeat split; intros;
      unfold analyzeApplication, extractFacts_, scoreMatch_, rewriteDocs_;
      unfold bind at 1; rewrite G; reflexivity.
  - intros C S.
    assert (G : getGeminiClient host runtimeOptions st = (inr tt, st)).
    { unfold getGeminiClient. destruct C as [-> | K]; [reflexivity |].
      destruct (modelMode runtimeOptions) as [[] |]; try (rewrite K; reflexivity).
      reflexivity. }
    unfold analyzeApplication. unfold bind at 1. rewrite G. cbv zeta.
    unfold bind at 1. unfold computeInputHash. rewrite S. reflexivity.
Qed.

End PipelineFacts.

Section PipelineExamples.
Import Js types privacyService geminiService.

Lemma analysis_documents_validated_witness :
  exists result st',
    analyzeApplication answeringHost sampleGenerator vaultedInput sampleOptions sampleStart
    = (inr result, st')
    /\ redactionEntries (prepareApplicationForGemini vaultedInput) <> []
    /\ types.optimizedResume result
       = Some (lit "Python developer. Write to jobs@example.com.")
    /\ findUnauthorizedPii
         (metricsGuardService.orEmpty (types.optimizedResume result) ++ [Str.LF]
          ++ metricsGuardService.orEmpty (types.optimizedCoverLetter result))
         (redactionEntries (prepareApplicationForGemini vaultedInput)) = []
    /\ exists draft,
         metricsGuardService.findUnauthorizedNumbersForRewrite answeringHost
           (optimizedResume draft) (optimizedCoverLetter draft)
           (metricsVault (sanitizedInput (prepareApplicationForGemini vaultedInput))) = []
         /\ types.optimizedResume result
            = reinsertRedactedPii (optimizedResume draft)
                (redactionEntries (prepareApplicationForGemini vaultedInput)).
Proof.
  eexists. eexists.
  assert (H : analyzeApplication answeringHost sampleGenerator vaultedInput sampleOptions
                sampleStart = (inr _, _)) by (vm_compute; reflexivity).
  split; [exact H |].
  assert (N : redactionEntries (prepareApplicationForGemini vaultedInput) <> [])
    by (vm_compute; discriminate).
  split; [exact N |]. split; [vm_compute; reflexivity |].
  destruct (analysis_documents_validated answeringHost unit sampleGenerator _ _ _ _ _ H)
    as ((draft & D & R & _) & _ & _ & P).
  split; [exact (proj1 (P N)) |]. exists draft. split; [exact D | exact R].
Defined.

Lemma analysis_trace_accounts_witness :
  let start := {| world := tt; retryCount := 7; events := [] |} in
  exists result st',
    analyzeApplication answeringHost sampleGenerator vaultedInput sampleOptions start
    = (inr result, st')
    /\ retries (analysisTrace result) = Js.ofNat 0
    /\ exists new,
         events st' = events start ++ new
         /\ retries (analysisTrace result)
            = Js.ofNat (sleepsOf new + (List.length (requestsOf new) - 3))
         /\ map chunkId (types.retrievalTrace (analysisTrace result))
            = retrievalChunkIds (analysisTrace result)
         /\ List.length (retrievalChunkIds (analysisTrace result)) <= 8.
Proof.
  cbv zeta. eexists. eexists.
  assert (H : analyzeApplication answeringHost sampleGenerator vaultedInput sampleOptions
                {| world := tt; retryCount := 7; events := [] |} = (inr _, _))
    by (vm_compute; reflexivity).
  split; [exact H |]. split; [vm_compute; reflexivity |].
  destruct (analysis_trace_accounts answeringHost unit sampleGenerator _ _ _ _ _ H)
    as (new & A & _ & _ & R & _ & _ & M & L).
  exists new. split; [exact A |]. split; [exact R |]. split; [exact M | exact L].
Defined.


End PipelineExamples.

(** ** The mock rewrite holds no number *)

Section MockFacts.
Import Regex Js types geminiService geminiMock.

Lemma exec_Star_total {A : Type} (a : re) (prev : option ascii) (s : str)
  (k : option ascii -> str -> option A) :
  (forall p t, k p t <> None) -> exec (Star a) prev s k <> None.
Proof.
  intros K. rewrite exec_Star. destruct (exec a prev s _); [discriminate | apply K].
Qed.

Lemma exec_Seq {A : Type} (a b : re) (prev : option ascii) (s : str)
  (k : option ascii -> str -> option A) :
  exec (Seq a b) prev s k = exec a prev s (fun p t => exec b p t k).
Proof. reflexivity. Qed.

Lemma exec_Chr {A : Type} (p : ascii -> bool) (prev : option ascii) (c : ascii) (s : str)
  (k : option ascii -> str -> option A) :
  exec (Chr p) prev (c :: s) k = if p c then k (Some c) s else None.
Proof. reflexivity. Qed.

Lemma number_run_found (prev : option ascii) (c : ascii) (s : str) :
  Str.isDigit c = true -> whole NUMBER_RUN_REGEX prev (c :: s) <> None.
Proof.
  intros D. unfold whole, NUMBER_RUN_REGEX, plus.
  rewrite !exec_Seq. unfold digit at 1. rewrite exec_Chr, D.
  apply exec_Star_total. intros p t. apply exec_Star_total. intros p' t'. discriminate.
Qed.

Section Removal.
Context {I : Type}.
Variable m : matcher I.
Variable P : ascii -> bool.
Hypothesis found : forall prev c s, P c = true -> exists i n, m prev (c :: s) = Some (i, S n).

Lemma segments_removed (s : str) :
  forall prev skip c, In (Lit c) (segmentsFrom m prev skip s) -> P c = false.
Proof.
  induction s as [| x s IH]; intros prev skip c H.
  - cbn [segmentsFrom] in H. destruct skip; [| destruct H].
    destruct (m prev []) as [[i n] |]; [| destruct H].
    destruct H as [H | []]. discriminate H.
  - cbn [segmentsFrom] in H. destruct skip as [| k]; [| eapply IH; exact H].
    destruct (P x) eqn:Px.
    + destruct (found prev x s Px) as (i & n & M). rewrite M in H.
      destruct H as [H | H]; [discriminate H | eapply IH; exact H].
    + destruct (m prev (x :: s)) as [[i [| n]] |].
      * destruct H as [H | [H | H]]; [discriminate H | injection H as <-; exact Px |].
        eapply IH. exact H.
      * destruct H as [H | H]; [discriminate H | eapply IH; exact H].
      * destruct H as [H | H]; [injection H as <-; exact Px | eapply IH; exact H].
Qed.

Lemma replace_removes (s : str) :
  forallb (fun c => negb (P c)) (Regex.replace m (fun _ _ => []) s) = true.
Proof.
  apply forallb_forall. intros c Hc. unfold Regex.replace in Hc.
  apply in_flat_map in Hc. destruct Hc as (g & Hg & Hc).
  destruct g as [x | t i]; [| destruct Hc].
  destruct Hc as [<- | []]. apply negb_true_iff.
  eapply segments_removed. exact Hg.
Qed.

End Removal.

Lemma forallb_dropWhile (P q : ascii -> bool) (s : str) :
  forallb P s = true -> forallb P (Str.dropWhile q s) = true.
Proof.
  induction s as [| c s IH]; intros H; [reflexivity |].
  cbn [Str.dropWhile]. destruct (q c); [| exact H].
  cbn [forallb] in H. apply andb_true_iff in H. apply IH, H.
Qed.

Lemma forallb_rev (P : ascii -> bool) (s : str) :
  forallb P s = true -> forallb P (rev s) = true.
Proof.
  intros H. apply forallb_forall. intros c Hc. apply in_rev in Hc.
  rewrite forallb_forall in H. apply H. exact Hc.
Qed.

Lemma forallb_trim (P : ascii -> bool) (s : str) :
  forallb P s = true -> forallb P (Str.trim s) = true.
Proof.
  intros H. unfold Str.trim, Str.trimEnd, Str.trimStart.
  apply forallb_rev, forallb_dropWhile, forallb_rev, forallb_dropWhile, H.
Qed.

Lemma forallb_collapse (P : ascii -> bool) (s : str) :
  P SP = true -> forallb P s = true -> forallb P (Str.collapseSpaces s) = true.
Proof.
  intros Sp. unfold Str.collapseSpaces. generalize false as b.
  induction s as [| c s IH]; intros b H; [reflexivity |].
  cbn [forallb] in H. apply andb_true_iff in H. destruct H as [Hc Hs].
  cbn [Str.collapseFrom]. destruct (Str.isSpace c).
  - destruct b; [apply IH; exact Hs |]. cbn [forallb].
    change (P " "%char) with (P SP). rewrite Sp. apply IH. exact Hs.
  - cbn [forallb]. rewrite Hc. apply IH. exact Hs.
Qed.

Lemma forallb_join (P : ascii -> bool) (sep : str) (parts : list str) :
  forallb P sep = true -> Forall (fun p => forallb P p = true) parts ->
  forallb P (Str.join sep parts) = true.
Proof.
  intros S F. induction F as [| p parts Hp F IH]; [reflexivity |].
  cbn [Str.join]. destruct parts as [| q parts]; [exact Hp |].
  rewrite !forallb_app, Hp, S. exact IH.
Qed.

(** What is left of a text has no digit. *)
Lemma sanitize_noDigit (value : str) :
  forallb noDigit (sanitizeTextWithoutNumbers value) = true.
Proof.
  unfold sanitizeTextWithoutNumbers.
  apply forallb_trim, forallb_collapse; [reflexivity |].
  apply (replace_removes (whole NUMBER_RUN_REGEX) Str.isDigit).
  intros prev c s D.
  destruct (whole NUMBER_RUN_REGEX prev (c :: s)) as [[i n] |] eqn:W;
    [| contradiction (number_run_found prev c s D W)].
  exists i. apply whole_sound in W. destruct W as (mt & rest & _ & -> & _ & L).
  destruct mt as [| x mt]; [vm_compute in L; lia |]. exists (List.length mt). reflexivity.
Qed.

Lemma bulleted_noDigit (items : list str) :
  Forall (fun p => forallb noDigit p = true) (bulleted items).
Proof.
  unfold bulleted. apply Forall_forall. intros p Hp.
  apply in_map_iff in Hp. destruct Hp as (x & <- & Hx).
  apply filter_In in Hx. destruct Hx as [Hx _].
  apply in_map_iff in Hx. destruct Hx as (y & <- & _).
  rewrite forallb_app, sanitize_noDigit. reflexivity.
Qed.

Lemma orLines_noDigit (lines fallback : list str) :
  Forall (fun p => forallb noDigit p = true) lines ->
  Forall (fun p => forallb noDigit p = true) fallback ->
  Forall (fun p => forallb noDigit p = true) (orLines lines fallback).
Proof. intros L F. destruct lines; [exact F | exact L]. Qed.

Lemma mock_rewrite_noDigit (extracted : ExtractFactsResult) (achievements : list str) :
  forallb noDigit (combinedOutput (buildMockRewrite extracted achievements)) = true.
Proof.
  unfold buildMockRewrite, combinedOutput. cbv zeta.
  cbn [optimizedResume optimizedCoverLetter metricsGuardService.orEmpty].
  rewrite !forallb_app. unfold Str.lines.
  apply andb_true_iff. split; [| apply andb_true_iff; split; [reflexivity |]];
    (apply forallb_join; [reflexivity |]).
  - cbn [app].
    constructor; [apply sanitize_noDigit |].
    constructor.
    { rewrite forallb_app. apply andb_true_iff. split; [reflexivity |].
      destruct (Str.join _ _) eqn:E; [reflexivity |]. rewrite <- E.
      apply forallb_join; [reflexivity |]. apply Forall_forall. intros p Hp.
      apply filter_In in Hp. destruct Hp as [Hp _].
      apply in_map_iff in Hp. destruct Hp as (y & <- & _). apply sanitize_noDigit. }
    constructor; [reflexivity |].
    apply Forall_app. split.
    { apply orLines_noDigit; [| constructor; [reflexivity | constructor]].
      apply Forall_forall. intros p Hp. apply in_map_iff in Hp.
      destruct Hp as (x & <- & _). cbv zeta.
      rewrite !forallb_app, !sanitize_noDigit. reflexivity. }
    cbn [app]. constructor; [reflexivity |].
    apply orLines_noDigit; [apply bulleted_noDigit |].
    apply orLines_noDigit; [apply bulleted_noDigit |].
    constructor; [reflexivity | constructor].
  - constructor; [reflexivity |].
    constructor; [rewrite !forallb_app, sanitize_noDigit; reflexivity |].
    constructor; [reflexivity |]. constructor; [reflexivity |].
    constructor; [reflexivity |].
    constructor; [apply sanitize_noDigit | constructor].
Qed.

(** X13. The rewrite of the mock client holds no digit: every text it
    takes from the extracted facts or the user's achievements goes
    through [sanitizeTextWithoutNumbers], which deletes the numbers. So
    the metrics guard reports nothing in it, whatever the vault, and
    without redaction entries the draft passes [validateDraft]
    unchanged. *)
Theorem mock_rewrite_passes_guard (host : Host) (extracted : ExtractFactsResult)
  (achievements : list str) (vault : MetricsVault) :
  let draft := buildMockRewrite extracted achievements in
  forallb noDigit (combinedOutput draft) = true
  /\ metricsGuardService.findUnauthorizedNumbersForRewrite host
       (optimizedResume draft) (optimizedCoverLetter draft) vault = []
  /\ isValid (validateDraft host vault [] draft) = true
  /\ correctedDraft (validateDraft host vault [] draft) = draft.
Proof.
  cbv zeta. pose proof (mock_rewrite_noDigit extracted achievements) as D.
  assert (N : metricsGuardService.findUnauthorizedNumbersForRewrite host
                (optimizedResume (buildMockRewrite extracted achievements))
                (optimizedCoverLetter (buildMockRewrite extracted achievements)) vault = []).
  { unfold metricsGuardService.findUnauthorizedNumbersForRewrite,
      metricsGuardService.findUnauthorizedNumbersInText. cbv zeta.
    change (ascii_of_nat 10) with Str.LF.
    fold (combinedOutput (buildMockRewrite extracted achievements)).
    rewrite (tokens_need_digits host _ D). reflexivity. }
  split; [exact D |]. split; [exact N |].
  unfold validateDraft. cbv zeta. cbn [isValid correctedDraft isEmpty negb].
  rewrite N. split; reflexivity.
Qed.

End MockFacts.

(** ** The response of a stage: fences *)

Section FenceFacts.
Import Regex Js types geminiService.

Lemma trimmed_edges (s : str) :
  Str.trim s = s -> s <> [] ->
  startsClean s /\ exists d, lastChar s = Some d /\ Str.isSpace d = false.
Proof.
  intros T N. split.
  - destruct s as [| c s]; [exact I |]. simpl.
    destruct (Str.isSpace c) eqn:E; [| reflexivity].
    exfalso. pose proof (trim_length (c :: s)) as L.
    unfold Str.trim, Str.trimStart in T. simpl in T. rewrite E in T.
    assert (L2 : List.length (Str.trimEnd (Str.dropWhile Str.isSpace s)) <= List.length s).
    { unfold Str.trimEnd. rewrite length_rev.
      etransitivity; [apply dropWhile_length |]. rewrite length_rev. apply dropWhile_length. }
    rewrite T in L2. simpl in L2. lia.
  - unfold lastChar. destruct (rev s) as [| d r] eqn:R.
    + apply (f_equal (@rev ascii)) in R. rewrite rev_involutive in R. contradiction.
    + exists d. split; [reflexivity |].
      destruct (Str.isSpace d) eqn:E; [| reflexivity].
      exfalso.
      assert (L : List.length (Str.trim s) < List.length s).
      { unfold Str.trim, Str.trimEnd. rewrite length_rev.
        pose proof (dropWhile_split Str.isSpace s) as (run & S1 & _).
        unfold Str.trimStart.
        destruct (rev (Str.dropWhile Str.isSpace s)) as [| d' r'] eqn:R'.
        - simpl. destruct s; [contradiction | simpl; lia].
        - assert (d' = d).
          { rewrite S1 in R. rewrite rev_app_distr, R' in R. simpl in R. congruence. }
          subst d'. simpl. rewrite E.
          pose proof (dropWhile_length Str.isSpace r') as L1.
          pose proof (dropWhile_length Str.isSpace s) as L2.
          rewrite <- (length_rev (Str.dropWhile Str.isSpace s)), R' in L2. simpl in L2. lia. }
      rewrite T in L. lia.
Qed.

Lemma trim_padded (p1 x p2 : str) :
  blank p1 -> blank p2 -> startsClean x ->
  (exists d, lastChar x = Some d /\ Str.isSpace d = false) ->
  Str.trim (p1 ++ x ++ p2) = x.
Proof.
  intros B1 B2 C (d & L & D).
  unfold Str.trim, Str.trimStart.
  assert (E1 : Str.dropWhile Str.isSpace (p1 ++ x ++ p2) = x ++ p2).
  { induction p1 as [| c p1 IH]; simpl.
    - destruct x as [| c x]; [unfold lastChar in L; discriminate |].
      simpl in C |- *. rewrite C. reflexivity.
    - unfold blank in B1. simpl in B1. apply andb_true_iff in B1. destruct B1 as [Hc B1].
      rewrite Hc. apply IH. exact B1. }
  rewrite E1. unfold Str.trimEnd. rewrite rev_app_distr.
  rewrite dropWhile_app.
  assert (E2 : Str.dropWhile Str.isSpace (rev p2) = []).
  { assert (F : forallb Str.isSpace (rev p2) = true) by (apply forallb_rev; exact B2).
    induction (rev p2) as [| c r IH]; [reflexivity |].
    simpl in F |- *. apply andb_true_iff in F. destruct F as [Hc F]. rewrite Hc. auto. }
  rewrite E2. unfold lastChar in L. destruct (rev x) as [| d' r] eqn:R; [discriminate |].
  injection L as ->. simpl. rewrite D. rewrite <- R. apply rev_involutive.
Qed.

(** The greedy run of white space takes all of it when what follows
    goes through. *)
Lemma star_spaces {A : Type} (ws s : str) (prev : option ascii)
  (k : option ascii -> str -> option A) (x : A) :
  blank ws -> startsClean s -> k (lastOr prev ws) s = Some x ->
  exec (Star space) prev (ws ++ s) k = Some x.
Proof.
  revert prev. induction ws as [| c ws IH]; intros prev B C K.
  - simpl app. rewrite exec_Star. change (lastOr prev []) with prev in K.
    destruct s as [| c s]; [exact K |].
    unfold space at 1. rewrite exec_Chr. simpl in C. rewrite C. exact K.
  - simpl app. rewrite exec_Star. unfold space at 1. rewrite exec_Chr.
    unfold blank in B. simpl in B. apply andb_true_iff in B. destruct B as [Hc B].
    rewrite Hc.
    assert (L : (List.length (ws ++ s) <? List.length (c :: ws ++ s)) = true)
      by (apply Nat.ltb_lt; simpl; lia).
    rewrite L. rewrite (IH (Some c) B C); [reflexivity |].
    rewrite lastOr_cons in K. exact K.
Qed.

(** The lazy repetition stops at the first place where what follows
    goes through. *)
Lemma lazy_first {A : Type} (u rest : str) (prev : option ascii)
  (k : option ascii -> str -> option A) (x : A) :
  (forall pre c suf, u = pre ++ c :: suf -> k (lastOr prev pre) (c :: suf ++ rest) = None) ->
  k (lastOr prev u) rest = Some x ->
  exec (StarLazy anyChar) prev (u ++ rest) k = Some x.
Proof.
  revert prev. induction u as [| c u IH]; intros prev N K.
  - simpl app. rewrite exec_StarLazy. change (lastOr prev []) with prev in K.
    rewrite K. reflexivity.
  - simpl app. rewrite exec_StarLazy.
    rewrite (N [] c u eq_refl : k prev (c :: u ++ rest) = None).
    unfold anyChar at 1. rewrite exec_Chr.
    assert (L : (List.length (u ++ rest) <? List.length (c :: u ++ rest)) = true)
      by (apply Nat.ltb_lt; simpl; lia).
    rewrite L. apply IH.
    + intros pre d suf E. specialize (N (c :: pre) d suf).
      rewrite lastOr_cons in N. apply N. rewrite E. reflexivity.
    + rewrite lastOr_cons in K. exact K.
Qed.

Lemma exec_chars {A : Type} (l s : str) (prev : option ascii)
  (k : option ascii -> str -> option A) :
  l <> [] -> exec (seqOf (map chr l)) prev (l ++ s) k = k (lastOr prev l) s.
Proof.
  revert prev. induction l as [| a l IH]; intros prev N; [contradiction |].
  destruct l as [| b l].
  - simpl. rewrite Ascii.eqb_refl. reflexivity.
  - change (seqOf (map chr (a :: b :: l))) with (Seq (chr a) (seqOf (map chr (b :: l)))).
    rewrite exec_Seq. simpl app. unfold chr at 1. rewrite exec_Chr, Ascii.eqb_refl.
    rewrite lastOr_cons. apply (IH (Some a)). discriminate.
Qed.

Lemma exec_charsI {A : Type} (l t s : str) (prev : option ascii)
  (k : option ascii -> str -> option A) :
  l <> [] -> Str.toLowerCase t = Str.toLowerCase l ->
  exec (seqOf (map chrI l)) prev (t ++ s) k = k (lastOr prev t) s.
Proof.
  revert prev t. induction l as [| a l IH]; intros prev t N E; [contradiction |].
  destruct t as [| c t]; [discriminate |].
  simpl in E. injection E as E1 E2.
  destruct l as [| b l].
  - destruct t; [| discriminate]. simpl. rewrite E1, Ascii.eqb_refl. reflexivity.
  - change (seqOf (map chrI (a :: b :: l))) with (Seq (chrI a) (seqOf (map chrI (b :: l)))).
    rewrite exec_Seq. simpl app. unfold chrI at 1. rewrite exec_Chr, E1, Ascii.eqb_refl.
    rewrite lastOr_cons. apply (IH (Some c)); [discriminate | exact E2].
Qed.

Lemma space_not_j (c : ascii) : Str.isSpace c = true -> Str.lowerChar c <> "j"%char.
Proof.
  destruct c as [[] [] [] [] [] [] [] []]; vm_compute; intros H; congruence.
Qed.

Lemma blank_last (t : str) (d : ascii) :
  blank t -> lastChar t = Some d -> Str.isSpace d = true.
Proof.
  unfold blank, lastChar. intros B L.
  destruct (rev t) as [| e r] eqn:R; [discriminate |]. injection L as ->.
  rewrite forallb_forall in B. apply B. apply in_rev. rewrite R. left. reflexivity.
Qed.

Lemma exec_Start {A : Type} (s : str) (k : option ascii -> str -> option A) :
  exec Start None s k = k None s.
Proof. reflexivity. Qed.

Lemma exec_Alt {A : Type} (a b : re) (prev : option ascii) (s : str)
  (k : option ascii -> str -> option A) :
  exec (Alt a b) prev s k
  = match exec a prev s k with Some x => Some x | None => exec b prev s k end.
Proof. reflexivity. Qed.

Lemma exec_Eps {A : Type} (prev : option ascii) (s : str)
  (k : option ascii -> str -> option A) :
  exec Eps prev s k = k prev s.
Proof. reflexivity. Qed.

Lemma exec_End {A : Type} (prev : option ascii) (k : option ascii -> str -> option A) :
  exec End prev [] k = k prev [].
Proof. reflexivity. Qed.

Lemma exec_chr {A : Type} (c : ascii) (prev : option ascii) (s : str)
  (k : option ascii -> str -> option A) (x : A) :
  exec (chr c) prev s k = Some x -> exists rest, s = c :: rest /\ k (Some c) rest = Some x.
Proof.
  destruct s as [| d s]; [discriminate |].
  unfold chr. rewrite exec_Chr.
  destruct (Ascii.eqb_spec c d) as [<- | _]; [| discriminate].
  intros K. exists s. split; [reflexivity | exact K].
Qed.

(** What can stand before the end of a fenced text: white space and the
    closing backquotes, nothing else. *)
Lemma closing_fence {A : Type} (prev : option ascii) (s : str)
  (k : option ascii -> str -> option A) (x : A) :
  exec (seqOf [Star space; word "```"; End]) prev s k = Some x ->
  exists sp, blank sp /\ s = sp ++ FENCE.
Proof.
  change (seqOf [Star space; word "```"; End])
    with (Seq (Star space) (Seq (word "```") End)).
  rewrite exec_Seq. intros H. apply exec_sound in H.
  destruct H as (mt & rest & E & K & Al & _).
  exists mt. split; [exact Al |]. subst s. f_equal.
  change (Seq (word "```") End)
    with (Seq (Seq (chr "`") (Seq (chr "`") (chr "`"))) End) in K.
  rewrite !exec_Seq in K.
  apply exec_chr in K. destruct K as (r1 & -> & K).
  rewrite exec_Seq in K.
  apply exec_chr in K. destruct K as (r2 & -> & K).
  apply exec_chr in K. destruct K as (r3 & -> & K).
  destruct r3; [reflexivity | discriminate].
Qed.

Lemma fenceBody_fenced (tag before body after : str) :
  blank before -> blank after -> jsonTag tag body ->
  body <> [] -> Str.trim body = body ->
  fenceBody (fenced tag before body after) = Some body.
Proof.
  intros B1 B2 J N T.
  destruct (trimmed_edges body T N) as (C & d & L & D).
  unfold fenceBody, fenced.
  change (seqOf [Start; word "```"; opt (wordI "json"); Star space])
    with (Seq Start (Seq (seqOf (map chr FENCE)) (Seq (opt (wordI "json")) (Star space)))).
  rewrite exec_Seq, exec_Start, exec_Seq.
  rewrite exec_chars by discriminate. rewrite exec_Seq.
  set (K1 := fun (p1 : option ascii) (s1 : str) =>
               exec (StarLazy anyChar) p1 s1 (fun p2 s2 =>
                 exec (seqOf [Star space; word "```"; End]) p2 s2 (fun _ _ =>
                   Some (firstn (consumed s1 s2) s1)))).
  assert (Body : forall p, K1 p (body ++ after ++ FENCE) = Some body).
  { intros p. unfold K1. apply lazy_first.
    - intros pre c suf E.
      match goal with |- ?X = None => destruct X as [y |] eqn:F; [| reflexivity] end.
      exfalso. apply closing_fence in F. destruct F as (sp & Bs & F).
      assert (F' : (c :: suf ++ after) ++ FENCE = sp ++ FENCE)
        by (rewrite <- F; simpl; rewrite <- app_assoc; reflexivity).
      apply app_inv_tail in F'. subst sp.
      assert (Bc : blank (c :: suf)).
      { unfold blank in *. change (c :: suf ++ after) with ((c :: suf) ++ after) in Bs.
        rewrite forallb_app in Bs. apply andb_true_iff in Bs. apply Bs. }
      assert (Lc : lastChar (c :: suf) = Some d).
      { rewrite E, lastChar_app in L.
        destruct (lastChar (c :: suf)) as [e |] eqn:Q; [exact L |].
        unfold lastChar in Q. destruct (rev (c :: suf)) eqn:R; [| discriminate].
        apply (f_equal (@rev ascii)) in R. rewrite rev_involutive in R. discriminate. }
      pose proof (blank_last _ _ Bc Lc). congruence.
    - change (seqOf [Star space; word "```"; End])
        with (Seq (Star space) (Seq (seqOf (map chr FENCE)) End)).
      rewrite exec_Seq. apply star_spaces; [exact B2 | reflexivity |].
      rewrite exec_Seq.
      rewrite <- (app_nil_r FENCE) at 2. rewrite exec_chars by discriminate.
      rewrite exec_End. f_equal. unfold consumed.
      rewrite length_app, Nat.add_sub, firstn_app, firstn_all, Nat.sub_diag.
      simpl. apply app_nil_r. }
  assert (Run : forall p, exec (Star space) p (before ++ body ++ after ++ FENCE) K1 = Some body).
  { intros p. apply star_spaces; [exact B1 | | apply Body].
    destruct body as [| c body]; [contradiction | exact C]. }
  unfold opt. rewrite exec_Alt, exec_Eps.
  destruct J as [J | [-> J]].
  - unfold wordI. rewrite exec_charsI; [| discriminate | rewrite J; reflexivity].
    fold K1. rewrite Run. reflexivity.
  - simpl app. fold K1.
    assert (Z : exec (wordI "json") (lastOr None FENCE) (before ++ body ++ after ++ FENCE)
                  (fun p t => exec (Star space) p t K1) = None).
    { change (wordI "json") with (Seq (chrI "j") (seqOf (map chrI (lit "son")))).
      rewrite exec_Seq.
      destruct before as [| c before].
      - destruct body as [| c body]; [contradiction |]. simpl app.
        unfold chrI at 1. rewrite exec_Chr.
        destruct (Ascii.eqb_spec (Str.lowerChar c) (Str.lowerChar "j")) as [Q | Q];
          [| reflexivity].
        exfalso. apply (J c body eq_refl). exact Q.
      - simpl app. unfold chrI at 1. rewrite exec_Chr.
        destruct (Ascii.eqb_spec (Str.lowerChar c) (Str.lowerChar "j")) as [Q | Q];
          [| reflexivity].
        exfalso. unfold blank in B1. simpl in B1. apply andb_true_iff in B1.
        apply (space_not_j c); [apply B1 | exact Q]. }
    rewrite Z. apply Run.
Qed.

Lemma fenceBody_plain (text : str) :
  (forall rest, text <> "`"%char :: rest) -> fenceBody text = None.
Proof.
  intros N. unfold fenceBody.
  change (seqOf [Start; word "```"; opt (wordI "json"); Star space])
    with (Seq Start (Seq (Seq (chr "`") (seqOf (map chr (lit "``"))))
                         (Seq (opt (wordI "json")) (Star space)))).
  rewrite exec_Seq, exec_Start, !exec_Seq.
  destruct text as [| c text]; [reflexivity |].
  unfold chr at 1. rewrite exec_Chr.
  destruct (Ascii.eqb_spec "`"%char c) as [Q | Q]; [| reflexivity].
  exfalso. apply (N text). rewrite Q. reflexivity.
Qed.

Section Parse.
Variable host : Host.
Variable World : Type.

(** X14. [parseJsonText] parses the model's answer with the white space
    around it removed and, when the answer comes in a Markdown fence
    (three backquotes, an optional [json] tag in any letter case, the
    body, three backquotes), the body of the fence alone, whatever the
    body holds; an answer that does not begin with a backquote is parsed
    as it is. What [JSON.parse] refuses is reported as an invalid JSON
    response of the stage, and a missing or empty answer as an empty
    response, without touching the run. *)
Theorem fenced_response_unwrapped (stageName before1 tag before body after after1 : str)
  (st : Run World) :
  blank before1 -> blank before -> blank after -> blank after1 ->
  body <> [] -> Str.trim body = body ->
  (jsonTag tag body ->
   parseJsonText host stageName
     (Some (before1 ++ fenced tag before body after ++ after1)) st
   = parsedAs host stageName body st)
  /\ ((forall rest, body <> "`"%char :: rest) ->
      parseJsonText host stageName (Some (before1 ++ body ++ after1)) st
      = parsedAs host stageName body st)
  /\ parseJsonText host stageName None st
     = (inl (newError (stageName ++ lit ": empty response from model")), st)
  /\ parseJsonText host stageName (Some []) st
     = (inl (newError (stageName ++ lit ": empty response from model")), st).
Proof.
  intros P1 B1 B2 P2 N T.
  destruct (trimmed_edges body T N) as (C & d & L & D).
  split; [| split; [| split; reflexivity]].
  - intros J. unfold parseJsonText.
    assert (F : Str.trim (before1 ++ fenced tag before body after ++ after1)
                = fenced tag before body after).
    { apply trim_padded; [exact P1 | exact P2 | reflexivity |].
      exists "`"%char. split; [| reflexivity].
      unfold fenced. rewrite !app_assoc. rewrite lastChar_app. reflexivity. }
    destruct (before1 ++ fenced tag before body after ++ after1) as [| c t] eqn:E.
    { exfalso. destruct before1; discriminate. }
    rewrite F, (fenceBody_fenced tag before body after B1 B2 J N T).
    unfold parsedAs, ret, throw. destruct (JSON_parse host body); reflexivity.
  - intros Q. unfold parseJsonText.
    assert (F : Str.trim (before1 ++ body ++ after1) = body).
    { apply trim_padded; [exact P1 | exact P2 | exact C |]. exists d. split; assumption. }
    destruct (before1 ++ body ++ after1) as [| c t] eqn:E.
    { exfalso. destruct before1; [destruct body; [contradiction | discriminate] | discriminate]. }
    rewrite F, (fenceBody_plain body Q).
    unfold parsedAs, ret, throw. destruct (JSON_parse host body); reflexivity.
Qed.

End Parse.

Lemma fenced_response_unwrapped_witness :
  parseJsonText sampleHost (lit "rewriteDocs")
    (Some (lit " ```JSON" ++ [Str.LF] ++ lit "{ }" ++ [Str.LF] ++ lit "``` ")) sampleStart
  = (inr (JObject []), sampleStart)
  /\ parseJsonText sampleHost (lit "rewriteDocs") (Some (lit " { } ")) sampleStart
     = (inr (JObject []), sampleStart).
Proof.
  pose proof (fenced_response_unwrapped sampleHost unit (lit "rewriteDocs")
                (lit " ") (lit "JSON") [Str.LF] (lit "{ }") [Str.LF] (lit " ") sampleStart
                eq_refl eq_refl eq_refl eq_refl) as H.
  assert (N : lit "{ }" <> []) by discriminate.
  destruct (H N eq_refl) as (F & P & _).
  split.
  - apply F. left. reflexivity.
  - apply P. intros rest. discriminate.
Defined.

End FenceFacts.

(** ** Redaction of a text without detections *)

Section SegmentFacts.
Import Regex.
Context {I : Type}.
Variable m : matcher I.

Lemma segments_text (s : str) :
  forall prev skip, flat_map segmentText (segmentsFrom m prev skip s) = skipn skip s.
Proof.
  induction s as [| c s IH]; intros prev skip.
  - destruct skip; cbn [segmentsFrom]; [| reflexivity].
    destruct (m prev []) as [[i n] |]; reflexivity.
  - destruct skip as [| k]; cbn [segmentsFrom].
    + destruct (m prev (c :: s)) as [[i [| n]] |]; cbn [flat_map segmentText].
      * rewrite IH. reflexivity.
      * rewrite IH. cbn [firstn app skipn]. f_equal. apply firstn_skipn.
      * rewrite IH. reflexivity.
    + rewrite IH. reflexivity.
Qed.

Lemma hits_segments (segs : list (segment I)) (t : str) (i : I) :
  In (Hit t i) segs ->
  In (t, i) (flat_map (fun g => match g with Lit _ => [] | Hit t i => [(t, i)] end) segs).
Proof.
  intros H. apply in_flat_map. exists (Hit t i). split; [exact H | left; reflexivity].
Qed.

(** A callback that answers every match with the match itself, and
    leaves the state alone, leaves the text alone. *)
Lemma replaceSegments_same {S : Type} (fn : str -> I -> S -> str * S)
  (segs : list (segment I)) :
  (forall t i st, In (Hit t i) segs -> fn t i st = (t, st)) ->
  forall st, replaceSegments fn segs st = (flat_map segmentText segs, st).
Proof.
  induction segs as [| g segs IH]; intros H st; [reflexivity |].
  destruct g as [c | t i]; cbn [replaceSegments flat_map segmentText].
  - rewrite IH; [reflexivity |]. intros t i st' J. apply H. right. exact J.
  - rewrite (H t i st) by (left; reflexivity).
    rewrite IH; [reflexivity |]. intros t' i' st' J. apply H. right. exact J.
Qed.

Lemma replaceWith_same {S : Type} (fn : str -> I -> S -> str * S) (s : str) :
  (forall t i st, In (t, i) (hits m s) -> fn t i st = (t, st)) ->
  forall st, replaceWith m fn s st = (s, st).
Proof.
  intros H st. unfold replaceWith.
  rewrite replaceSegments_same.
  - unfold segments. rewrite segments_text. reflexivity.
  - intros t i st' J. apply H. apply hits_segments. exact J.
Qed.

Lemma replaceWith_none {S : Type} (fn : str -> I -> S -> str * S) (s : str) :
  hits m s = [] -> forall st, replaceWith m fn s st = (s, st).
Proof.
  intros H. apply replaceWith_same. rewrite H. intros t i st [].
Qed.

Lemma hit_matched (s t : str) (i : I) :
  In (t, i) (hits m s) -> exists prev rest n, m prev rest = Some (i, n).
Proof.
  unfold hits, segments. generalize (@None ascii) as prev. generalize 0 as skip.
  induction s as [| c s IH]; intros skip prev H.
  - destruct skip; cbn [segmentsFrom] in H; [| destruct H].
    destruct (m prev []) as [[j n] |] eqn:E; cbn in H; [| destruct H].
    destruct H as [H | []]. injection H as _ <-. exists prev, [], n. exact E.
  - destruct skip as [| k]; cbn [segmentsFrom] in H.
    + destruct (m prev (c :: s)) as [[j [| n]] |] eqn:E; cbn [flat_map app] in H.
      * destruct H as [H | H].
        -- injection H as _ <-. exists prev, (c :: s), 0. exact E.
        -- apply (IH _ _ H).
      * destruct H as [H | H].
        -- injection H as _ <-. exists prev, (c :: s), (S n). exact E.
        -- apply (IH _ _ H).
      * apply (IH _ _ H).
    + apply (IH _ _ H).
Qed.

End SegmentFacts.

Section PlainFacts.
Import Regex types privacyService.

(** The second group of a labeled match is at least as long as the
    least match of its expression. *)
Lemma twoGroups_value (h g1 g2 : re) (prev : option ascii) (s a b : str) (n : nat) :
  twoGroups h g1 g2 prev s = Some ((a, b), n) -> minLen g2 <= List.length b.
Proof.
  unfold twoGroups. intros H.
  apply exec_sound in H. destruct H as (x & s1 & -> & H & _ & _).
  apply exec_sound in H. destruct H as (a' & s2 & -> & H & _ & _).
  apply exec_sound in H. destruct H as (b' & s3 & -> & H & _ & Lb).
  injection H as _ <- _.
  unfold consumed. rewrite length_app, Nat.add_sub, firstn_app, firstn_all, Nat.sub_diag.
  cbn [firstn]. rewrite app_nil_r. exact Lb.
Qed.

Lemma labeled_none (h g1 g2 : re) (T : PiiType) (text : str) :
  1 <= minLen g2 ->
  flat_map (fun h => match snd (snd h) with
                     | [] => []
                     | v => [{| d_type := T; d_value := v |}]
                     end) (hits (twoGroups h g1 g2) text) = [] ->
  hits (twoGroups h g1 g2) text = [].
Proof.
  intros L H.
  destruct (hits (twoGroups h g1 g2) text) as [| [t [a b]] rest] eqn:E; [reflexivity |].
  exfalso.
  assert (J : In (t, (a, b)) (hits (twoGroups h g1 g2) text)) by (rewrite E; left; reflexivity).
  apply hit_matched in J. destruct J as (prev & s & n & J).
  apply twoGroups_value in J.
  cbn [flat_map snd] in H. destruct b as [| c b]; [simpl in J; lia | discriminate].
Qed.

Lemma map_nil {A B : Type} (f : A -> B) (l : list A) : map f l = [] -> l = [].
Proof. destruct l; [reflexivity | discriminate]. Qed.

Lemma redaction_plain {S : Type} (register : str -> PiiType -> S -> str * S)
  (text : str) (st : S) :
  piiFree text -> applyPiiRedaction register text st = (text, st).
Proof.
  unfold piiFree, detectPii. intros H.
  apply app_eq_nil in H. destruct H as [He H].
  apply app_eq_nil in H. destruct H as [Hp H].
  apply app_eq_nil in H. destruct H as [Ha H].
  apply app_eq_nil in H. destruct H as [Hb Hi].
  apply map_nil in He, Hp, Ha. unfold matches in He, Ha. apply map_nil in He, Ha.
  apply labeled_none in Hb; [| vm_compute; lia].
  apply labeled_none in Hi; [| vm_compute; lia].
  unfold applyPiiRedaction.
  unfold redactEmail. rewrite (replaceWith_none _ _ _ He).
  unfold redactBirthDate.
  rewrite (replaceWith_none BIRTH_DATE_LABELED_REGEX _ _ Hb).
  unfold redactPersonalId.
  rewrite (replaceWith_none PERSONAL_ID_LABELED_REGEX _ _ Hi).
  unfold redactPhone. rewrite replaceWith_same.
  - unfold redactStreetAddress. apply (replaceWith_none _ _ _ Ha).
  - intros t i st' J.
    destruct (isLikelyPhoneNumber t) eqn:Q; [| reflexivity].
    exfalso.
    assert (K : In t (filter isLikelyPhoneNumber (matches (whole PHONE_CANDIDATE_REGEX) text))).
    { apply filter_In. split; [| exact Q].
      unfold matches. apply in_map_iff. exists (t, i). split; [reflexivity | exact J]. }
    rewrite Hp in K. destruct K.
Qed.

Lemma setField_same (f : TextField) (i : ApplicationInput) : setField f (getField f i) i = i.
Proof. destruct i, f; reflexivity. Qed.

Lemma redactTextFields_plain (fields : list TextField) (i : ApplicationInput) (r : Redactor) :
  Forall (fun f => piiFree (getField f i)) fields ->
  redactTextFields fields i r = (i, r).
Proof.
  induction 1 as [| f fields P _ IH]; [reflexivity |].
  cbn [redactTextFields]. rewrite (redaction_plain register _ r P), setField_same. exact IH.
Qed.

Lemma vaultSet_same (k : MetricKey) (x : str) (v : MetricsVault) :
  vaultGet k v = Some x -> vaultSet k x v = v.
Proof.
  induction v as [| [k' y] v IH]; [discriminate |].
  cbn [vaultGet vaultSet]. destruct (MetricKey_eqb k k').
  - intros H. injection H as ->. reflexivity.
  - intros H. rewrite (IH H). reflexivity.
Qed.

Lemma vaultGet_value (k : MetricKey) (x : str) (v : MetricsVault) :
  vaultGet k v = Some x -> In x (vaultValues v).
Proof.
  induction v as [| [k' y] v IH]; [discriminate |].
  cbn [vaultGet vaultValues map snd]. destruct (MetricKey_eqb k k').
  - intros H. injection H as ->. left. reflexivity.
  - intros H. right. apply (IH H).
Qed.

Lemma redactMetricFields_plain (fields : list MetricKey) (v : MetricsVault) (r : Redactor) :
  Forall piiFree (vaultValues v) -> redactMetricFields fields v r = (v, r).
Proof.
  intros P. induction fields as [| f fields IH]; [reflexivity |].
  cbn [redactMetricFields].
  destruct (vaultGet f v) as [[| c value] |] eqn:G; try exact IH.
  rewrite Forall_forall in P.
  rewrite (redaction_plain register _ r (P _ (vaultGet_value _ _ _ G))).
  rewrite (vaultSet_same _ _ _ G). exact IH.
Qed.

Lemma setVault_same (i : ApplicationInput) : setVault (metricsVault i) i = i.
Proof. destruct i; reflexivity. Qed.

(** X15. An input in which the detectors find nothing is not changed by
    privacy mode: when [detectPii] reports nothing for any of the six
    text fields and for any value of the metrics vault,
    [prepareApplicationForGemini] hands over the input itself, with no
    redaction entry; and [applyPiiRedaction] returns any such text as
    it is, without a call of [register]. *)
Theorem redaction_without_detections (input : ApplicationInput) :
  Forall (fun f => piiFree (getField f input)) TEXT_FIELDS ->
  Forall piiFree (vaultValues (metricsVault input)) ->
  prepareApplicationForGemini input = {| redactionEntries := []; sanitizedInput := input |}
  /\ forall f (S : Type) (register : str -> PiiType -> S -> str * S) (st : S),
       applyPiiRedaction register (getField f input) st = (getField f input, st).
Proof.
  intros T V. split.
  - unfold prepareApplicationForGemini.
    destruct (privacyMode input); [| reflexivity]. cbn [negb].
    rewrite (redactTextFields_plain _ _ _ T).
    rewrite (redactMetricFields_plain _ _ _ V), setVault_same. reflexivity.
  - intros f S register st. apply redaction_plain.
    rewrite Forall_forall in T. apply T. destruct f; simpl; tauto.
Qed.

Lemma redaction_without_detections_witness :
  prepareApplicationForGemini plainInput
  = {| redactionEntries := []; sanitizedInput := plainInput |}.
Proof.
  apply (redaction_without_detections plainInput).
  - repeat constructor.
  - repeat constructor.
Defined.

End PlainFacts.

(** ** What the PII guards report *)

Section GuardReports.
Import Regex types privacyService.

Lemma PiiType_eqb_sym (a b : PiiType) : PiiType_eqb a b = PiiType_eqb b a.
Proof. destruct a, b; reflexivity. Qed.

Lemma countUp_keys (t : PiiType) (counts : list (PiiType * nat)) :
  NoDup (map fst counts) ->
  NoDup (map fst (countUp t counts))
  /\ forall t', In t' (map fst (countUp t counts)) -> t' = t \/ In t' (map fst counts).
Proof.
  induction counts as [| [t0 n] counts IH]; intros D.
  - split; [repeat constructor; intros [] | intros t' [<- | []]; left; reflexivity].
  - cbn [countUp]. destruct (PiiType_eqb t t0) eqn:E.
    + split; [exact D |]. intros t' J. right. exact J.
    + inversion D as [| ? ? N D']. subst. destruct (IH D') as [D1 D2].
      split.
      * cbn [map fst]. constructor; [| exact D1].
        intros J. apply D2 in J. destruct J as [-> | J]; [| exact (N J)].
        rewrite PiiType_eqb_refl in E. discriminate.
      * intros t' [<- | J]; [right; left; reflexivity |].
        apply D2 in J. destruct J as [-> | J]; [left; reflexivity | right; right; exact J].
Qed.

Lemma countUp_positive (t : PiiType) (counts : list (PiiType * nat)) :
  Forall (fun c => 0 < snd c) counts -> Forall (fun c => 0 < snd c) (countUp t counts).
Proof.
  induction 1 as [| [t0 n] counts P F IH]; cbn [countUp].
  - constructor; [simpl; lia | constructor].
  - destruct (PiiType_eqb t t0); constructor; try assumption.
    simpl in P |- *. lia.
Qed.

Lemma countUp_sum (t t' : PiiType) (counts : list (PiiType * nat)) :
  list_sum (map snd (filter (fun c => PiiType_eqb t' (fst c)) (countUp t counts)))
  = list_sum (map snd (filter (fun c => PiiType_eqb t' (fst c)) counts))
    + (if PiiType_eqb t' t then 1 else 0).
Proof.
  induction counts as [| [t0 n] counts IH]; cbn [countUp].
  - cbn [filter fst]. destruct (PiiType_eqb t' t); reflexivity.
  - destruct (PiiType_eqb t t0) eqn:E.
    + apply PiiType_eqb_eq in E. subst t0. cbn [filter fst].
      destruct (PiiType_eqb t' t); cbn [map snd]; unfold list_sum; cbn [fold_right]; lia.
    + cbn [filter fst]. destruct (PiiType_eqb t' t0); cbn [map snd];
        unfold list_sum in *; cbn [fold_right]; rewrite IH;
        destruct (PiiType_eqb t' t); lia.
Qed.

Lemma issueCount_counts (t : PiiType) (counts : list (PiiType * nat)) :
  issueCount t (map (fun c => {| count := snd c; i_type := fst c |}) counts)
  = list_sum (map snd (filter (fun c => PiiType_eqb t (fst c)) counts)).
Proof.
  unfold issueCount.
  induction counts as [| [t0 n] counts IH]; [reflexivity |].
  cbn [map filter i_type fst]. destruct (PiiType_eqb t t0); [| exact IH].
  cbn [map count snd]. unfold list_sum in *. cbn [fold_right]. rewrite IH. reflexivity.
Qed.

Lemma tally_spec (ds : list PiiDetection) :
  forall counts,
    NoDup (map fst counts) -> Forall (fun c => 0 < snd c) counts ->
    let counts' := fold_left (fun counts d => countUp (d_type d) counts) ds counts in
    NoDup (map fst counts')
    /\ Forall (fun c => 0 < snd c) counts'
    /\ forall t,
         list_sum (map snd (filter (fun c => PiiType_eqb t (fst c)) counts'))
         = list_sum (map snd (filter (fun c => PiiType_eqb t (fst c)) counts))
           + List.length (ofType t ds).
Proof.
  induction ds as [| d ds IH]; intros counts D P; cbn [fold_left].
  - cbv zeta. split; [exact D |]. split; [exact P |]. intros t. simpl. lia.
  - destruct (IH (countUp (d_type d) counts)) as (D1 & P1 & S1).
    + apply countUp_keys. exact D.
    + apply countUp_positive. exact P.
    + cbv zeta. split; [exact D1 |]. split; [exact P1 |].
      intros t. rewrite S1, countUp_sum. unfold ofType. cbn [filter].
      destruct (PiiType_eqb t (d_type d)); simpl; lia.
Qed.

Lemma fold_unaccounted (allowed : list str) (ds : list PiiDetection) :
  forall counts,
    fold_left (fun counts d =>
                 if Str.mem (piiKey (d_type d) (d_value d)) allowed then counts
                 else countUp (d_type d) counts) ds counts
    = fold_left (fun counts d => countUp (d_type d) counts)
        (filter (fun d => negb (Str.mem (piiKey (d_type d) (d_value d)) allowed)) ds) counts.
Proof.
  induction ds as [| d ds IH]; intros counts; [reflexivity |].
  cbn [fold_left filter].
  destruct (Str.mem (piiKey (d_type d) (d_value d)) allowed); cbn [negb fold_left]; apply IH.
Qed.

Lemma unique_spec (l : list str) :
  forall seen,
    NoDup (unique l seen)
    /\ forall x, In x (unique l seen) <-> In x l /\ ~ In x seen.
Proof.
  induction l as [| y l IH]; intros seen; cbn [unique].
  - split; [constructor |]. intros x. split; [intros [] | intros [[] _]].
  - destruct (Str.mem y seen) eqn:M.
    + destruct (IH seen) as [D S]. split; [exact D |].
      intros x. rewrite S. apply mem_In in M. split.
      * intros [J N]. split; [right; exact J | exact N].
      * intros [[<- | J] N]; [contradiction | split; assumption].
    + destruct (IH (y :: seen)) as [D S]. apply mem_not_In in M. split.
      * constructor; [| exact D]. intros J. apply S in J. destruct J as [_ N].
        apply N. left. reflexivity.
      * intros x. split.
        -- intros [<- | J]; [split; [left; reflexivity | exact M] |].
           apply S in J. destruct J as [J N]. split; [right; exact J |].
           intros K. apply N. right. exact K.
        -- intros [[<- | J] N]; [left; reflexivity |].
           destruct (list_eq_dec ascii_dec y x) as [<- | Q]; [left; reflexivity |].
           right. apply S. split; [exact J |]. intros [K | K]; [exact (Q K) | exact (N K)].
Qed.

(** X16. What the two PII guards report. [findUnauthorizedPii] counts,
    type by type, the detections of the text whose normalized value is
    not the normalized original of an entry of the same type: it
    reports each type at most once, never with a count of zero, and the
    count of a type is the number of such detections; so it reports
    nothing exactly when every detection is accounted for by an entry.
    [findUnresolvedPiiPlaceholders] reports, each once, exactly the
    placeholder tokens of the text that are no entry's placeholder. *)
Theorem pii_guards_report (text : str) (es : list PiiRedactionEntry) :
  let issues := findUnauthorizedPii text es in
  let unresolved := findUnresolvedPiiPlaceholders text es in
  NoDup (map i_type issues)
  /\ Forall (fun i => 0 < count i) issues
  /\ (forall t, issueCount t issues = List.length (ofType t (unaccounted text es)))
  /\ (issues = [] <-> unaccounted text es = [])
  /\ NoDup unresolved
  /\ (forall p, In p unresolved
                <-> In p (matches (whole PII_PLACEHOLDER_REGEX) text)
                    /\ ~ In p (map placeholder es)).
Proof.
  cbv zeta. unfold findUnauthorizedPii. cbv zeta. rewrite fold_unaccounted.
  fold (unaccounted text es).
  destruct (tally_spec (unaccounted text es) [] (NoDup_nil _) (Forall_nil _)) as (D & P & S).
  cbv zeta in D, P, S.
  set (counts := fold_left (fun counts d => countUp (d_type d) counts)
                   (unaccounted text es) []) in *.
  assert (C : forall t,
             issueCount t (map (fun c => {| count := snd c; i_type := fst c |}) counts)
             = List.length (ofType t (unaccounted text es))).
  { intros t. rewrite issueCount_counts, S. reflexivity. }
  split; [rewrite map_map; exact D |].
  split; [apply Forall_map; exact P |].
  split; [exact C |].
  split.
  - split.
    + intros E. destruct (unaccounted text es) as [| d ds] eqn:U; [reflexivity |].
      exfalso. specialize (C (d_type d)). rewrite E in C.
      unfold ofType in C. cbn [filter] in C. rewrite PiiType_eqb_refl in C. discriminate.
    + intros E. subst counts. rewrite E. reflexivity.
  - unfold findUnresolvedPiiPlaceholders. cbv zeta.
    destruct (unique_spec
                (filter (fun token => negb (Str.mem token (map placeholder es)))
                        (matches (whole PII_PLACEHOLDER_REGEX) text)) []) as [U1 U2].
    split; [exact U1 |].
    intros p. rewrite U2, filter_In. split.
    + intros [[J N] _]. split; [exact J |].
      apply negb_true_iff in N. apply mem_not_In. exact N.
    + intros [J N]. split; [| intros []]. split; [exact J |].
      apply negb_true_iff. destruct (Str.mem p (map placeholder es)) eqn:M; [| reflexivity].
      apply mem_In in M. contradiction.
Qed.

End GuardReports.

(** ** Keywords that the resume names *)

Section NamingFacts.
Import Regex types atsCoverageService.

Lemma lower_space (c : ascii) : Str.isSpace (Str.lowerChar c) = Str.isSpace c.
Proof. destruct c as [[] [] [] [] [] [] [] []]; reflexivity. Qed.

Lemma lower_lower (c : ascii) : Str.lowerChar (Str.lowerChar c) = Str.lowerChar c.
Proof. destruct c as [[] [] [] [] [] [] [] []]; reflexivity. Qed.

Lemma toLowerCase_twice (s : str) : Str.toLowerCase (Str.toLowerCase s) = Str.toLowerCase s.
Proof.
  unfold Str.toLowerCase. rewrite map_map. apply map_ext. intros c. apply lower_lower.
Qed.

Lemma toLowerCase_join (ws : list str) :
  Str.toLowerCase (Str.join [SP] ws) = Str.join [SP] (map Str.toLowerCase ws).
Proof.
  induction ws as [| w ws IH]; [reflexivity |].
  destruct ws as [| w' ws]; [reflexivity |].
  change (Str.join [SP] (w :: w' :: ws)) with (w ++ [SP] ++ Str.join [SP] (w' :: ws)).
  change (Str.join [SP] (map Str.toLowerCase (w :: w' :: ws)))
    with (Str.toLowerCase w ++ [SP] ++ Str.join [SP] (map Str.toLowerCase (w' :: ws))).
  rewrite <- IH. unfold Str.toLowerCase. rewrite !map_app. reflexivity.
Qed.

Lemma wordy_lower (w : str) : wordy w -> wordy (Str.toLowerCase w).
Proof.
  intros [N F]. split.
  - destruct w; [contradiction | discriminate].
  - unfold Str.toLowerCase. rewrite forallb_forall in *. intros c J.
    apply in_map_iff in J. destruct J as (d & <- & J). rewrite lower_space. apply F. exact J.
Qed.

Lemma wordsOf_wordy (x : str) : Forall wordy (wordsOf x).
Proof.
  unfold wordsOf. apply Forall_map. eapply Forall_impl; [| apply words_all_wordy].
  intros w. apply wordy_lower.
Qed.

Lemma normalizeForMatch_words (x : str) : normalizeForMatch x = Str.join [SP] (wordsOf x).
Proof.
  unfold normalizeForMatch, normalizeSpace, wordsOf.
  rewrite trim_collapse_words. apply toLowerCase_join.
Qed.

(** The words of two texts with white space between them. *)
Lemma wordsAcc_spaced (a b : str) (c : ascii) :
  Str.isSpace c = true ->
  forall cur, Str.wordsAcc cur (a ++ c :: b) = Str.wordsAcc cur a ++ Str.words b.
Proof.
  intros Hc. induction a as [| d a IH]; intros cur.
  - cbn [app Str.wordsAcc]. rewrite Hc. destruct cur; reflexivity.
  - cbn [app Str.wordsAcc]. destruct (Str.isSpace d).
    + destruct cur; [apply IH | cbn [app]; f_equal; apply IH].
    + apply IH.
Qed.

Lemma words_joined (items : list str) :
  Str.words (Str.join [SP] items) = flat_map Str.words items.
Proof.
  induction items as [| p items IH]; [reflexivity |].
  destruct items as [| q items].
  - cbn [Str.join flat_map]. rewrite app_nil_r. reflexivity.
  - change (Str.join [SP] (p :: q :: items)) with (p ++ SP :: Str.join [SP] (q :: items)).
    unfold Str.words at 1. rewrite (wordsAcc_spaced _ _ SP isSpace_SP), IH. reflexivity.
Qed.

Lemma corpus_words (resumeFacts : ResumeFactsForCoverage) :
  normalizedText (buildResumeCorpus resumeFacts)
  = Str.join [SP] (flat_map wordsOf (resumeItems resumeFacts)).
Proof.
  unfold buildResumeCorpus. cbv zeta. cbn [normalizedText].
  fold (resumeItems resumeFacts).
  rewrite normalizeForMatch_words. f_equal. unfold wordsOf, normalizeSpace.
  rewrite trim_collapse_words, (words_join _ (words_all_wordy _)).
  change (lit " ") with [SP]. rewrite words_joined.
  generalize (resumeItems resumeFacts) as items.
  induction items as [| p items IH]; [reflexivity |].
  cbn [flat_map]. rewrite map_app, IH. reflexivity.
Qed.

Lemma named_in_corpus (items : list str) (item keyword : str) :
  In item items -> names item keyword ->
  exists P Q, flat_map wordsOf items = P ++ wordsOf keyword ++ Q.
Proof.
  intros J (pre & post & E). apply in_split in J. destruct J as (l1 & l2 & ->).
  rewrite flat_map_app. cbn [flat_map]. rewrite E.
  exists (flat_map wordsOf l1 ++ pre), (post ++ flat_map wordsOf l2).
  rewrite <- !app_assoc. reflexivity.
Qed.

Lemma join_app (a b : list str) :
  a <> [] -> b <> [] ->
  Str.join [SP] (a ++ b) = Str.join [SP] a ++ SP :: Str.join [SP] b.
Proof.
  intros Na Nb. induction a as [| x a IH]; [contradiction |].
  destruct a as [| y a].
  - destruct b; [contradiction | reflexivity].
  - change (Str.join [SP] ((x :: y :: a) ++ b))
      with (x ++ [SP] ++ Str.join [SP] ((y :: a) ++ b)).
    rewrite IH by discriminate.
    change (Str.join [SP] (x :: y :: a)) with (x ++ [SP] ++ Str.join [SP] (y :: a)).
    rewrite <- !app_assoc. reflexivity.
Qed.

(** Where the words of a keyword stand in a text of words: after the
    start or a space, before the end or a space. *)
Lemma join_infix (P ws Q : list str) :
  ws <> [] ->
  exists X Y,
    Str.join [SP] (P ++ ws ++ Q) = X ++ Str.join [SP] ws ++ Y
    /\ (X = [] \/ exists X', X = X' ++ [SP])
    /\ (Y = [] \/ exists Y', Y = SP :: Y').
Proof.
  intros N.
  assert (R : exists Y, Str.join [SP] (ws ++ Q) = Str.join [SP] ws ++ Y
                        /\ (Y = [] \/ exists Y', Y = SP :: Y')).
  { destruct Q as [| q Q].
    - exists []. rewrite !app_nil_r. split; [reflexivity | left; reflexivity].
    - exists (SP :: Str.join [SP] (q :: Q)). split; [| right; eexists; reflexivity].
      apply join_app; [exact N | discriminate]. }
  destruct R as (Y & R & HY).
  destruct P as [| p P].
  - exists [], Y. split; [exact R |]. split; [left; reflexivity | exact HY].
  - exists (Str.join [SP] (p :: P) ++ [SP]), Y.
    split; [| split; [right; eexists; reflexivity | exact HY]].
    rewrite join_app; [| discriminate | destruct ws; [contradiction | discriminate]].
    rewrite R, <- !app_assoc. reflexivity.
Qed.

Lemma collapse_word (w s : str) :
  forallb notSpace w = true ->
  forall b, w <> [] \/ b = false ->
            Str.collapseFrom b (w ++ s) = w ++ Str.collapseFrom false s.
Proof.
  intros F. induction w as [| c w IH]; intros b [N | ->]; try contradiction; try reflexivity.
  - cbn [app Str.collapseFrom]. cbn [forallb] in F. apply andb_true_iff in F.
    destruct F as [Hc F]. unfold notSpace in Hc. apply negb_true_iff in Hc. rewrite Hc.
    f_equal. apply IH; [exact F | right; reflexivity].
  - cbn [app Str.collapseFrom]. cbn [forallb] in F. apply andb_true_iff in F.
    destruct F as [Hc F]. unfold notSpace in Hc. apply negb_true_iff in Hc. rewrite Hc.
    f_equal. apply IH; [exact F | right; reflexivity].
Qed.

Lemma collapse_joined (ws : list str) :
  Forall wordy ws -> Str.collapseSpaces (Str.join [SP] ws) = Str.join [SP] ws.
Proof.
  unfold Str.collapseSpaces. induction 1 as [| w ws [N F] Hws IH]; [reflexivity |].
  destruct ws as [| w' ws].
  - cbn [Str.join]. rewrite <- (app_nil_r w) at 1.
    rewrite collapse_word; [apply app_nil_r | exact F | right; reflexivity].
  - change (Str.join [SP] (w :: w' :: ws)) with (w ++ SP :: Str.join [SP] (w' :: ws)).
    rewrite collapse_word; [| exact F | right; reflexivity].
    f_equal. cbn [Str.collapseFrom]. rewrite isSpace_SP. f_equal.
    rewrite collapseFrom_run, dropWhile_clean; [exact IH |].
    inversion Hws as [| ? ? [N' F'] _]. subst.
    destruct w' as [| c w']; [contradiction |].
    cbn [forallb] in F'. apply andb_true_iff in F'. destruct F' as [Hc _].
    apply negb_true_iff in Hc.
    destruct ws; exact Hc.
Qed.

Lemma normalizeKeyword_words (keyword : str) :
  normalizeKeyword keyword = Str.join [SP] (wordsOf keyword).
Proof.
  unfold normalizeKeyword. rewrite normalizeForMatch_words.
  apply collapse_joined. apply wordsOf_wordy.
Qed.

Lemma word_no_space (w : str) : wordy w -> Str.includes w (lit " ") = false.
Proof.
  intros [_ F]. destruct (Str.includes w (lit " ")) eqn:E; [| reflexivity].
  apply includes_infix in E. destruct E as (pre & post & ->).
  rewrite forallb_app in F. apply andb_true_iff in F. destruct F as [_ F].
  simpl in F. discriminate.
Qed.

(** A word of the text between spaces or the ends of the text is a
    whole-word match. *)
Lemma whole_word_found (w X Y : str) :
  wordy w -> Str.toLowerCase w = w ->
  (X = [] \/ exists X', X = X' ++ [SP]) ->
  (Y = [] \/ exists Y', Y = SP :: Y') ->
  isWholeWordMatch w (X ++ w ++ Y) = true.
Proof.
  intros [N F] Lw HX HY. unfold isWholeWordMatch. cbv zeta.
  set (outside := Chr (fun c => negb (keywordChar c))).
  set (escaped := seqOf (map chrI (Str.toLowerCase w))).
  change (seqOf [Alt Start outside; escaped; Alt outside End])
    with (Seq (Alt Start outside) (Seq escaped (Alt outside End))).
  assert (Tail : forall p, exec (Seq escaped (Alt outside End)) p (w ++ Y)
                             (fun _ _ => Some tt) = Some tt).
  { intros p. rewrite exec_Seq. unfold escaped.
    rewrite exec_charsI; [| rewrite Lw; exact N | rewrite toLowerCase_twice; reflexivity].
    rewrite exec_Alt. destruct HY as [-> | (Y' & ->)]; [reflexivity |].
    unfold outside. rewrite exec_Chr. reflexivity. }
  unfold test. destruct HX as [-> | (X' & ->)].
  - apply (testFrom_found _ [] (w ++ Y) None). cbn [lastChar rev].
    rewrite exec_Seq, exec_Alt, exec_Start, Tail. reflexivity.
  - rewrite <- app_assoc. apply testFrom_found.
    cbn [app]. rewrite exec_Seq, exec_Alt.
    match goal with |- match ?E with _ => _ end = _ => destruct E as [[] |] end;
      [reflexivity |].
    unfold outside at 1. rewrite exec_Chr. cbn [keywordChar]. apply Tail.
Qed.

Lemma classifiable_words (keyword : str) : classifiable keyword -> wordsOf keyword <> [].
Proof.
  unfold classifiable. rewrite normalizeKeyword_words. intros [L | L] E; rewrite E in L.
  - simpl in L. lia.
  - discriminate.
Qed.

Lemma named_matched (resumeFacts : ResumeFactsForCoverage) (item keyword : str) :
  In item (resumeItems resumeFacts) -> names item keyword -> classifiable keyword ->
  classifyKeyword keyword (buildResumeCorpus resumeFacts) = k_matched.
Proof.
  intros J Nm C.
  pose proof (classifiable_words keyword C) as NW.
  destruct (named_in_corpus _ _ _ J Nm) as (P & Q & E).
  destruct (join_infix P (wordsOf keyword) Q NW) as (X & Y & EJ & HX & HY).
  unfold classifyKeyword. cbv zeta.
  rewrite corpus_words, E, EJ. rewrite normalizeKeyword_words.
  pose proof (wordsOf_wordy keyword) as WW.
  assert (NE : Str.nonEmpty (Str.join [SP] (wordsOf keyword)) = true).
  { apply nonEmpty_iff. destruct (wordsOf keyword) as [| w ws]; [contradiction |].
    inversion WW. subst. apply join_wordy_nonempty. assumption. }
  rewrite NE. cbn [negb].
  assert (C2 : (List.length (Str.join [SP] (wordsOf keyword)) <=? 2)
               && negb (inWords SHORT_TECH_ALLOWLIST (Str.join [SP] (wordsOf keyword)))
               = false).
  { unfold classifiable in C. rewrite normalizeKeyword_words in C.
    destruct C as [L | L].
    - apply andb_false_iff. left. apply Nat.leb_gt. exact L.
    - rewrite L. apply andb_false_r. }
  rewrite C2.
  destruct (wordsOf keyword) as [| w [| w' ws]] eqn:W; [contradiction | |].
  - cbn [Str.join] in *. inversion WW as [| ? ? Hw _]. subst.
    rewrite (word_no_space w Hw).
    rewrite whole_word_found; [reflexivity | exact Hw | | exact HX | exact HY].
    assert (Lw : In w (wordsOf keyword)) by (rewrite W; left; reflexivity).
    unfold wordsOf in Lw. apply in_map_iff in Lw. destruct Lw as (u & <- & _).
    apply toLowerCase_twice.
  - assert (S1 : Str.includes (Str.join [SP] (w :: w' :: ws)) (lit " ") = true).
    { apply includes_infix. exists w, (Str.join [SP] (w' :: ws)). reflexivity. }
    rewrite S1.
    assert (S2 : Str.includes (X ++ Str.join [SP] (w :: w' :: ws) ++ Y)
                   (Str.join [SP] (w :: w' :: ws)) = true).
    { apply includes_infix. exists X, Y. reflexivity. }
    rewrite S2. reflexivity.
Qed.

Lemma coverage_lists (host : Js.Host) (jobDescription : str)
  (resumeFacts : ResumeFactsForCoverage) :
  let parsed := parseJdRequirements jobDescription in
  let corpus := buildResumeCorpus resumeFacts in
  let coverage := computeAtsCoverage host jobDescription resumeFacts in
  let withStatus st :=
    filter (fun k => isStatus (classifyKeyword k corpus) st) (toolsTechKeywords parsed) in
  types.matched (keywordCoverage coverage) = withStatus k_matched
  /\ types.partial (keywordCoverage coverage) = withStatus k_partial
  /\ types.missing (keywordCoverage coverage) = withStatus k_missing
  /\ hardRequirementsMissing coverage
     = filter (fun requirement =>
                 negb (hardRequirementSatisfied host requirement corpus
                         (map normalizeForMatch (withStatus k_matched))))
              (hardRequirements parsed).
Proof.
  cbv zeta. unfold computeAtsCoverage. cbv zeta.
  cbn [keywordCoverage hardRequirementsMissing types.matched types.partial types.missing].
  destruct (parsed_distinct jobDescription) as (H & _ & K). cbv zeta in H, K.
  rewrite !dedupe_fixed by (apply distinct_filter; assumption).
  repeat split; reflexivity.
Qed.

(** X17. A keyword of the job description that the resume names is
    reported matched. Take a keyword that [parseJdRequirements] found
    and that is longer than two code units or one of the short ones let
    through. If one of the texts of the resume facts (a skill, an
    achievement, an education or certification entry, an employer, a
    role) holds the words of the keyword in sequence, whatever the
    letter case and the white space, then [classifyKeyword] answers
    matched, [computeAtsCoverage] lists the keyword as matched and
    neither as partial nor as missing, and no hard requirement that
    mentions the keyword is reported missing. *)
Theorem named_keyword_matched (host : Js.Host) (jobDescription : str)
  (resumeFacts : ResumeFactsForCoverage) (item keyword : str) :
  In keyword (toolsTechKeywords (parseJdRequirements jobDescription)) ->
  In item (resumeItems resumeFacts) -> names item keyword -> classifiable keyword ->
  let coverage := computeAtsCoverage host jobDescription resumeFacts in
  classifyKeyword keyword (buildResumeCorpus resumeFacts) = k_matched
  /\ In keyword (types.matched (keywordCoverage coverage))
  /\ ~ In keyword (types.partial (keywordCoverage coverage))
  /\ ~ In keyword (types.missing (keywordCoverage coverage))
  /\ forall requirement,
       In requirement (hardRequirementsMissing coverage) ->
       Str.includes (normalizeForMatch requirement) (normalizeForMatch keyword) = false.
Proof.
  intros T J Nm C. cbv zeta.
  pose proof (named_matched resumeFacts item keyword J Nm C) as M.
  destruct (coverage_lists host jobDescription resumeFacts) as (E1 & E2 & E3 & E4).
  cbv zeta in E1, E2, E3, E4. rewrite E1, E2, E3, E4.
  assert (In1 : In keyword
                  (filter (fun k => isStatus (classifyKeyword k (buildResumeCorpus resumeFacts))
                                      k_matched)
                          (toolsTechKeywords (parseJdRequirements jobDescription)))).
  { apply filter_In. split; [exact T |]. rewrite M. reflexivity. }
  split; [exact M |]. split; [exact In1 |].
  split; [intros K; apply filter_In in K; rewrite M in K; destruct K; discriminate |].
  split; [intros K; apply filter_In in K; rewrite M in K; destruct K; discriminate |].
  intros requirement K. apply filter_In in K. destruct K as [_ K].
  apply negb_true_iff in K. unfold hardRequirementSatisfied in K. cbv zeta in K.
  match type of K with
  | (if existsb ?f ?l then _ else _) = false => destruct (existsb f l) eqn:Ex
  end; [discriminate |].
  destruct (Str.includes (normalizeForMatch requirement) (normalizeForMatch keyword)) eqn:I;
    [| reflexivity].
  exfalso.
  assert (Ex' : existsb (fun k => Str.includes (normalizeForMatch requirement) k)
                  (map normalizeForMatch
                     (filter (fun k => isStatus (classifyKeyword k (buildResumeCorpus resumeFacts))
                                         k_matched)
                             (toolsTechKeywords (parseJdRequirements jobDescription))))
                = true).
  { apply existsb_exists. exists (normalizeForMatch keyword). split; [| exact I].
    apply in_map. exact In1. }
  rewrite Ex' in Ex. discriminate.
Qed.

Lemma named_keyword_matched_witness :
  In (lit "python")
     (types.matched (keywordCoverage
        (computeAtsCoverage sampleHost (lit "Required: Python and SQL.") pythonFacts))).
Proof.
  apply (named_keyword_matched sampleHost (lit "Required: Python and SQL.") pythonFacts
           (lit "Built ETL jobs in  Python 3") (lit "python")).
  - vm_compute. left. reflexivity.
  - vm_compute. right. left. reflexivity.
  - exists [lit "built"; lit "etl"; lit "jobs"; lit "in"], [lit "3"]. reflexivity.
  - left. vm_compute. lia.
Defined.

End NamingFacts.

(** ** Reading a bracketed value back *)

Section BracketFacts.
Import Js geminiJson.

Lemma scan_string (o c : ascii) (l : str) :
  stringTail l ->
  forall depth taken rest,
    scanBalanced o c depth true false taken (l ++ rest)
    = scanBalanced o c depth false false (taken + List.length l) rest.
Proof.
  induction 1 as [| ch t N1 N2 _ IH | ch t _ IH]; intros depth taken rest.
  - cbn [app scanBalanced List.length]. rewrite Nat.add_1_r. reflexivity.
  - cbn [app scanBalanced List.length].
    destruct (Ascii.eqb_spec ch BACKSLASH) as [E | _]; [contradiction |].
    destruct (Ascii.eqb_spec ch Str.DQ) as [E | _]; [contradiction |].
    rewrite IH. f_equal. lia.
  - cbn [app scanBalanced List.length]. rewrite Ascii.eqb_refl.
    rewrite IH. f_equal. lia.
Qed.

Lemma scan_closed (o c : ascii) (body : str) :
  o <> c -> o <> Str.DQ -> c <> Str.DQ ->
  closedText o c body ->
  forall depth taken rest,
    (1 <= depth)%Z ->
    scanBalanced o c depth false false taken (body ++ rest)
    = scanBalanced o c depth false false (taken + List.length body) rest.
Proof.
  intros Noc No Nc.
  induction 1 as [| ch t N1 N2 N3 _ IH | l t L _ IH | inner t _ IHi _ IHt];
    intros depth taken rest D.
  - cbn [app List.length]. rewrite Nat.add_0_r. reflexivity.
  - cbn [app scanBalanced List.length].
    destruct (Ascii.eqb_spec ch Str.DQ) as [E | _]; [contradiction |].
    destruct (Ascii.eqb_spec ch o) as [E | _]; [contradiction |].
    destruct (Ascii.eqb_spec ch c) as [E | _]; [contradiction |].
    cbv zeta. destruct (Z.eqb_spec depth 0) as [E | _]; [lia |].
    rewrite IH by exact D. f_equal. lia.
  - cbn [app scanBalanced]. rewrite Ascii.eqb_refl.
    rewrite <- app_assoc, scan_string by exact L.
    rewrite IH by exact D. f_equal. cbn [List.length]. rewrite length_app. lia.
  - cbn [app scanBalanced].
    destruct (Ascii.eqb_spec o Str.DQ) as [E | _]; [contradiction |].
    rewrite Ascii.eqb_refl.
    destruct (Ascii.eqb_spec o c) as [E | _]; [contradiction |].
    cbv zeta. destruct (Z.eqb_spec (depth + 1) 0) as [E | _]; [lia |].
    rewrite <- app_assoc. rewrite IHi by lia.
    cbn [app scanBalanced].
    destruct (Ascii.eqb_spec c Str.DQ) as [E | _]; [contradiction |].
    destruct (Ascii.eqb_spec c o) as [E | _]; [congruence |].
    rewrite Ascii.eqb_refl. cbv zeta.
    replace (depth + 1 - 1)%Z with depth by lia.
    destruct (Z.eqb_spec depth 0) as [E | _]; [lia |].
    rewrite IHt by exact D. f_equal. cbn [List.length]. rewrite length_app.
    cbn [List.length]. lia.
Qed.

Lemma extract_bracketed (pre value rest : str) :
  bracketedValue value ->
  extractBalancedJson (pre ++ value ++ rest) (List.length pre) = Some value.
Proof.
  intros (o & c & body & -> & B & C).
  assert (F : o <> c /\ o <> Str.DQ /\ c <> Str.DQ /\ closerOf (Some o) = Some c).
  { destruct B as [[-> ->] | [-> ->]]; repeat split; discriminate. }
  destruct F as (Noc & No & Nc & Cl).
  unfold extractBalancedJson. cbv zeta.
  assert (Nth : nth_error (pre ++ (o :: body ++ [c]) ++ rest) (List.length pre) = Some o).
  { rewrite nth_error_app2 by lia. rewrite Nat.sub_diag. reflexivity. }
  rewrite Nth, Cl.
  assert (Sk : skipn (List.length pre) (pre ++ (o :: body ++ [c]) ++ rest)
               = o :: body ++ c :: rest).
  { rewrite skipn_app, Nat.sub_diag, skipn_all. cbn [skipn app].
    rewrite <- app_assoc. reflexivity. }
  rewrite Sk. cbn [scanBalanced].
  destruct (Ascii.eqb_spec o Str.DQ) as [E | _]; [contradiction |].
  rewrite Ascii.eqb_refl.
  destruct (Ascii.eqb_spec o c) as [E | _]; [contradiction |].
  cbv zeta. cbn [Z.add Z.eqb].
  rewrite (scan_closed o c body Noc No Nc C 1%Z 1 (c :: rest)) by lia.
  cbn [scanBalanced].
  destruct (Ascii.eqb_spec c Str.DQ) as [E | _]; [contradiction |].
  destruct (Ascii.eqb_spec c o) as [E | _]; [congruence |].
  rewrite Ascii.eqb_refl. cbv zeta. cbn [Z.sub Z.add Z.opp Z.pos_sub Z.eqb].
  f_equal.
  replace (S (1 + List.length body)) with (List.length (o :: body ++ [c]))
    by (cbn [List.length]; rewrite length_app; cbn [List.length]; lia).
  change (o :: body ++ c :: rest) with ((o :: body) ++ c :: rest).
  replace ((o :: body) ++ c :: rest) with ((o :: body ++ [c]) ++ rest)
    by (cbn [app]; rewrite <- app_assoc; reflexivity).
  rewrite firstn_app, Nat.sub_diag, firstn_all. cbn [firstn]. apply app_nil_r.
Qed.

Lemma indexOfFrom_skips (needle u s : str) (i : nat) :
  (forall a x b, u = a ++ x :: b -> Str.startsWith needle (x :: b ++ s) = false) ->
  indexOfFrom needle (u ++ s) i = indexOfFrom needle s (i + List.length u).
Proof.
  revert i. induction u as [| x u IH]; intros i H.
  - cbn [app List.length]. rewrite Nat.add_0_r. reflexivity.
  - cbn [app indexOfFrom]. rewrite (H [] x u eq_refl).
    rewrite IH.
    + f_equal. cbn [List.length]. lia.
    + intros a y b E. apply (H (x :: a) y b). rewrite E. reflexivity.
Qed.

Lemma indexOfFrom_here (needle s : str) (i : nat) :
  Str.startsWith needle s = true -> indexOfFrom needle s i = Some i.
Proof. intros H. destruct s; cbn [indexOfFrom]; rewrite H; reflexivity. Qed.

Lemma indexOfFrom_least (needle s : str) :
  forall i p, indexOfFrom needle s i = Some p -> i <= p.
Proof.
  induction s as [| x s IH]; intros i p; cbn [indexOfFrom].
  - destruct (Str.startsWith needle []); [| discriminate]. intros H. injection H as <-. lia.
  - destruct (Str.startsWith needle (x :: s)).
    + intros H. injection H as <-. lia.
    + intros H. apply IH in H. lia.
Qed.

Lemma indexOf_at (text needle : str) (n : nat) :
  firstAt needle text n -> n <= List.length text -> indexOf text needle 0 = Some n.
Proof.
  intros [H1 H2] L. unfold indexOf. cbn [Nat.min skipn].
  rewrite <- (firstn_skipn n text) at 1.
  rewrite indexOfFrom_skips.
  - rewrite indexOfFrom_here by exact H1. f_equal. rewrite length_firstn. lia.
  - intros a x b E.
    assert (La : List.length a < n).
    { apply (f_equal (@List.length ascii)) in E.
      rewrite length_firstn, length_app in E. cbn [List.length] in E. lia. }
    specialize (H2 (List.length a) La).
    rewrite <- (firstn_skipn n text) in H2 at 1. rewrite E in H2.
    rewrite <- app_assoc in H2. rewrite skipn_app, Nat.sub_diag, skipn_all in H2.
    exact H2.
Qed.

Lemma findJsonStart_gap (head gap value rest : str) (o : ascii) (tail : str) :
  noBracket gap -> value = o :: tail -> o = "{"%char \/ o = "["%char ->
  findJsonStart (head ++ gap ++ value ++ rest) (List.length head)
  = Some (List.length (head ++ gap)).
Proof.
  intros G -> O. unfold findJsonStart, indexOf. cbv zeta.
  rewrite length_app, Nat.min_l by lia.
  rewrite skipn_app, Nat.sub_diag, skipn_all. cbn [skipn app].
  assert (Skip : forall ch, ch = "{"%char \/ ch = "["%char ->
             indexOfFrom [ch] (gap ++ (o :: tail) ++ rest) (List.length head)
             = indexOfFrom [ch] ((o :: tail) ++ rest) (List.length head + List.length gap)).
  { intros ch Hch. apply indexOfFrom_skips. intros a x b E.
    cbn [Str.startsWith]. unfold noBracket in G. rewrite forallb_forall in G.
    assert (J : In x gap) by (rewrite E; apply in_or_app; right; left; reflexivity).
    specialize (G x J). apply negb_true_iff, orb_false_iff in G. destruct G as [G1 G2].
    destruct Hch as [-> | ->].
    - rewrite Ascii.eqb_sym, G1. reflexivity.
    - rewrite Ascii.eqb_sym, G2. reflexivity. }
  change (lit "{") with ["{"%char]. change (lit "[") with ["["%char].
  rewrite !Skip by auto. rewrite length_app.
  set (L := List.length head + List.length gap).
  destruct O as [-> | ->].
  - rewrite (indexOfFrom_here ["{"%char]) by reflexivity.
    destruct (indexOfFrom ["["%char] (("{"%char :: tail) ++ rest) L) as [a |] eqn:A;
      [| reflexivity].
    apply indexOfFrom_least in A. f_equal. lia.
  - rewrite (indexOfFrom_here ["["%char]) by reflexivity.
    destruct (indexOfFrom ["{"%char] (("["%char :: tail) ++ rest) L) as [a |] eqn:A;
      [| reflexivity].
    apply indexOfFrom_least in A. f_equal. lia.
Qed.

(** X18. The mock client reads back what a stage wrote. Where the marker
    first occurs in a prompt and is followed, after a gap without an
    opening bracket, by an object or an array whose brackets balance
    outside of closed string literals, [parseJsonAfterMarker] hands
    exactly that value to [JSON.parse], whatever comes after it:
    [findJsonStart] finds its first bracket and [extractBalancedJson]
    cuts it out at its closing bracket. Without the marker in the
    prompt the answer is null. *)
Theorem marker_value_read_back (host : Host) (head marker gap value rest : str) :
  firstAt marker (head ++ marker ++ gap ++ value ++ rest) (List.length head) ->
  noBracket gap -> bracketedValue value ->
  findJsonStart (head ++ marker ++ gap ++ value ++ rest) (List.length (head ++ marker))
  = Some (List.length (head ++ marker ++ gap))
  /\ extractBalancedJson (head ++ marker ++ gap ++ value ++ rest)
       (List.length (head ++ marker ++ gap)) = Some value
  /\ parseJsonAfterMarker host (head ++ marker ++ gap ++ value ++ rest) marker
     = JSON_parse host value
  /\ forall prompt, indexOf prompt marker 0 = None ->
                    parseJsonAfterMarker host prompt marker = None.
Proof.
  intros F G B.
  assert (S1 : findJsonStart (head ++ marker ++ gap ++ value ++ rest)
                 (List.length (head ++ marker))
               = Some (List.length (head ++ marker ++ gap))).
  { destruct B as (o & c & body & E & O & _).
    rewrite (app_assoc head marker (gap ++ value ++ rest)).
    rewrite (app_assoc head marker gap).
    apply (findJsonStart_gap (head ++ marker) gap value rest o (body ++ [c]) G E).
    destruct O as [[-> _] | [-> _]]; [left | right]; reflexivity. }
  assert (S2 : extractBalancedJson (head ++ marker ++ gap ++ value ++ rest)
                 (List.length (head ++ marker ++ gap)) = Some value).
  { replace (head ++ marker ++ gap ++ value ++ rest)
      with ((head ++ marker ++ gap) ++ value ++ rest) by (rewrite <- !app_assoc; reflexivity).
    apply extract_bracketed. exact B. }
  split; [exact S1 |]. split; [exact S2 |]. split.
  - unfold parseJsonAfterMarker.
    rewrite (indexOf_at _ _ _ F) by (rewrite length_app; lia).
    rewrite <- length_app, S1, S2.
    destruct B as (o & c & body & -> & _). reflexivity.
  - intros prompt N. unfold parseJsonAfterMarker. rewrite N. reflexivity.
Qed.

Lemma marker_value_read_back_witness :
  parseJsonAfterMarker readingHost
    ([Str.LF] ++ lit "INPUT JSON:" ++ [Str.LF] ++ quotedBrace ++ lit "} tail")
    (lit "INPUT JSON:")
  = Some quotedBraceValue.
Proof.
  assert (B : bracketedValue quotedBrace).
  { exists "{"%char, "}"%char,
      ([Str.DQ] ++ lit "k" ++ [Str.DQ] ++ lit ": [{}, " ++ [Str.DQ] ++ lit "}" ++ [Str.DQ]
       ++ lit "]").
    split; [reflexivity |]. split; [left; split; reflexivity |].
    apply (closed_string "{" "}" ["k"%char; Str.DQ] _).
    { apply tail_char; [discriminate | discriminate | apply tail_close]. }
    do 3 (apply closed_plain; [discriminate | discriminate | discriminate |]).
    apply (closed_nest "{" "}" [] _); [apply closed_nil |].
    do 2 (apply closed_plain; [discriminate | discriminate | discriminate |]).
    apply (closed_string "{" "}" ["}"%char; Str.DQ] _).
    - apply tail_char; [discriminate | discriminate | apply tail_close].
    - apply closed_plain; [discriminate | discriminate | discriminate | apply closed_nil]. }
  destruct (marker_value_read_back readingHost [Str.LF] (lit "INPUT JSON:") [Str.LF]
              quotedBrace (lit "} tail"))
    as (_ & _ & P & _).
  - split; [reflexivity |]. intros i L. destruct i; [reflexivity | simpl in L; lia].
  - reflexivity.
  - exact B.
  - exact P.
Defined.

End BracketFacts.

(** ** Normalized stage results *)

Section NormalFacts.
Import Js types geminiService.

Lemma trim_edges (s : str) :
  exists p1 p2,
    s = p1 ++ Str.trim s ++ p2 /\ blank p1 /\ blank p2
    /\ startsClean (Str.trim s)
    /\ (Str.trim s = [] \/ exists d, lastChar (Str.trim s) = Some d /\ Str.isSpace d = false).
Proof.
  unfold Str.trim, Str.trimStart.
  destruct (dropWhile_split Str.isSpace s) as (p1 & E1 & B1).
  set (t := Str.dropWhile Str.isSpace s) in *.
  pose proof (dropWhile_startsClean s) as C. fold t in C.
  destruct (dropWhile_split Str.isSpace (rev t)) as (r2 & E2 & B2).
  unfold Str.trimEnd. set (u := Str.dropWhile Str.isSpace (rev t)) in *.
  assert (Et : t = rev u ++ rev r2).
  { rewrite <- rev_app_distr, <- E2, rev_involutive. reflexivity. }
  exists p1, (rev r2). split; [rewrite <- Et; exact E1 |].
  split; [exact B1 |]. split; [apply forallb_rev; exact B2 |].
  split.
  - destruct (rev u) as [| c w] eqn:R; [exact I |].
    rewrite Et in C. exact C.
  - pose proof (dropWhile_startsClean (rev t)) as Cu. fold u in Cu.
    destruct u as [| d u']; [left; reflexivity |].
    right. exists d. split; [| exact Cu].
    unfold lastChar. rewrite rev_involutive. reflexivity.
Qed.

Lemma trim_trim (s : str) : Str.trim (Str.trim s) = Str.trim s.
Proof.
  destruct (trim_edges s) as (_ & _ & _ & _ & _ & C & [E | L]).
  - rewrite E. reflexivity.
  - rewrite <- (app_nil_r (Str.trim s)) at 1.
    apply (trim_padded [] (Str.trim s) []); [reflexivity | reflexivity | exact C | exact L].
Qed.

Lemma asNullableString_clean (v : JsValue) : cleanOpt (asNullableString v).
Proof.
  destruct v; try exact I. cbn [asNullableString].
  destruct (Str.trim s) as [| c t] eqn:E; [exact I |].
  cbn [cleanOpt]. split; [discriminate |]. rewrite <- E. apply trim_trim.
Qed.

Lemma asNullableString_string (s : str) : trimmedText s -> asNullableString (JString s) = Some s.
Proof.
  intros [N T]. cbn [asNullableString]. rewrite T. destruct s; [contradiction | reflexivity].
Qed.

Lemma asNullableString_nullable (x : option str) :
  cleanOpt x -> asNullableString (nullable JString x) = x.
Proof. destruct x as [s |]; [apply asNullableString_string | reflexivity]. Qed.

Lemma keepSome_clean (l : list JsValue) :
  Forall trimmedText (keepSome (map asNullableString l)).
Proof.
  induction l as [| v l IH]; [constructor |].
  cbn [map keepSome flat_map]. pose proof (asNullableString_clean v) as C.
  destruct (asNullableString v) as [s |]; [| exact IH].
  cbn [app]. constructor; [exact C | exact IH].
Qed.

Lemma asStringArray_clean (v : JsValue) : Forall trimmedText (asStringArray v).
Proof. apply keepSome_clean. Qed.

Lemma keepSome_strings (l : list str) :
  Forall trimmedText l -> keepSome (map asNullableString (map JString l)) = l.
Proof.
  induction 1 as [| s l T _ IH]; [reflexivity |].
  cbn [map keepSome flat_map]. rewrite (asNullableString_string s T).
  cbn [app]. f_equal. exact IH.
Qed.

Lemma asStringArray_strings (l : list str) :
  Forall trimmedText l -> asStringArray (strings l) = l.
Proof. apply keepSome_strings. Qed.

Lemma wordsAcc_some (s cur : str) : cur <> [] -> Str.wordsAcc cur s <> [].
Proof.
  revert cur. induction s as [| c s IH]; intros cur N; cbn [Str.wordsAcc].
  - destruct cur; [contradiction | discriminate].
  - destruct (Str.isSpace c).
    + destruct cur; [contradiction | discriminate].
    + apply IH. discriminate.
Qed.

Lemma trimmed_words (s : str) : trimmedText s -> Str.words s <> [].
Proof.
  intros [N T]. destruct (trimmed_edges s T N) as [C _].
  destruct s as [| c s]; [contradiction |]. simpl in C.
  unfold Str.words. cbn [Str.wordsAcc]. rewrite C. apply wordsAcc_some. discriminate.
Qed.

Lemma joined_trimmed (ws : list str) :
  Forall wordy ws -> ws <> [] -> trimmedText (Str.join [SP] ws).
Proof.
  intros W N. split.
  - destruct ws as [| w ws]; [contradiction |]. inversion W. subst.
    apply join_wordy_nonempty. assumption.
  - rewrite <- (collapse_joined ws W) at 1.
    rewrite trim_collapse_words, (words_join ws W). reflexivity.
Qed.

Lemma clamp_snippet (s : str) : trimmedText s -> snippetText (clampSnippetWords s).
Proof.
  intros T. pose proof (trimmed_words s T) as N.
  unfold snippetText, clampSnippetWords. change (lit " ") with [SP].
  assert (W : Forall wordy (firstn MAX_EVIDENCE_WORDS (Str.words s)))
    by (apply Forall_firstn; apply words_all_wordy).
  assert (N' : firstn MAX_EVIDENCE_WORDS (Str.words s) <> []).
  { destruct (Str.words s); [contradiction | discriminate]. }
  split; [apply (joined_trimmed _ W N') |].
  rewrite (words_join _ W). f_equal. apply firstn_all2.
  rewrite length_firstn. lia.
Qed.

Lemma snippet_trimmed (s : str) : snippetText s -> trimmedText s.
Proof.
  intros [N C]. rewrite <- C. unfold clampSnippetWords. change (lit " ") with [SP].
  apply joined_trimmed.
  - apply Forall_firstn. apply words_all_wordy.
  - intros E. rewrite <- C in N. unfold clampSnippetWords in N. rewrite E in N.
    apply N. reflexivity.
Qed.

Lemma asSnippetArray_clean (v : JsValue) : Forall snippetText (asSnippetArray v).
Proof.
  unfold asSnippetArray. apply Forall_map.
  eapply Forall_impl; [| apply keepSome_clean]. intros s. apply clamp_snippet.
Qed.

Lemma asSnippetArray_strings (l : list str) :
  Forall snippetText l -> asSnippetArray (strings l) = l.
Proof.
  intros F. unfold asSnippetArray, strings. cbn [asArray].
  rewrite keepSome_strings.
  - induction F as [| s l [_ C] _ IH]; [reflexivity |]. cbn [map]. rewrite C, IH. reflexivity.
  - eapply Forall_impl; [| exact F]. intros s. apply snippet_trimmed.
Qed.

Lemma asNullableNumber_finite (v : JsValue) : finiteOpt (asNullableNumber v).
Proof.
  destruct v; try exact I. cbn [asNullableNumber].
  destruct (isFinite n) eqn:E; [exact E | exact I].
Qed.

Lemma asNullableNumber_nullable (x : option JsNumber) :
  finiteOpt x -> asNullableNumber (nullable JNumber x) = x.
Proof.
  destruct x as [n |]; [| reflexivity]. cbn [finiteOpt nullable asNullableNumber].
  intros ->. reflexivity.
Qed.

Lemma normalizeEvidence_clean (v : JsValue) : cleanEvidence (normalizeEvidence v).
Proof. repeat split; apply asSnippetArray_clean. Qed.

(** Reading the properties of an object that is written out. *)
Ltac fields :=
  cbn [asRecord get lookup lit list_ascii_of_string Str.eqb Ascii.eqb Bool.eqb andb].

Lemma normalizeEvidence_toJs (e : ImprovementEvidence) :
  cleanEvidence e -> normalizeEvidence (evidenceToJs e) = e.
Proof.
  intros (R & J & M). destruct e as [r j m]. cbn [resumeQuotes jdQuotes missingKeywords] in *.
  unfold normalizeEvidence, evidenceToJs. cbv zeta.
  fields.
  cbn [resumeQuotes jdQuotes missingKeywords].
  rewrite !asSnippetArray_strings by assumption. reflexivity.
Qed.

Lemma category_toJs (c : Category) : normalizeGapCategory (JString (categoryName c)) = c.
Proof. destruct c; reflexivity. Qed.

Lemma language_toJs (l : option Language) :
  normalizeLanguage (nullable (fun l => JString (languageName l)) l) = l.
Proof. destruct l as [[] |]; reflexivity. Qed.

Lemma gap_toJs (g : GapItem) :
  cleanGap g ->
  {| point := asNullableString (get (asRecord (improvementToJs g)) "point");
     category := normalizeGapCategory (get (asRecord (improvementToJs g)) "category");
     impact := asNullableString (get (asRecord (improvementToJs g)) "impact");
     evidence := normalizeEvidence (get (asRecord (improvementToJs g)) "evidence") |} = g.
Proof.
  intros (P & I & E). destruct g as [p c i e]. cbn [point impact evidence] in *.
  unfold improvementToJs. cbn [point category impact evidence].
  fields.
  rewrite !asNullableString_nullable by assumption.
  rewrite category_toJs, (normalizeEvidence_toJs e E). reflexivity.
Qed.

Lemma experience_toJs (e : ExtractedExperience) :
  cleanExperience e ->
  {| employer := asNullableString (get (asRecord (experienceToJs e)) "employer");
     role := asNullableString (get (asRecord (experienceToJs e)) "role");
     startDate := asNullableString (get (asRecord (experienceToJs e)) "startDate");
     endDate := asNullableString (get (asRecord (experienceToJs e)) "endDate");
     x_achievements := asStringArray (get (asRecord (experienceToJs e)) "achievements") |} = e.
Proof.
  intros (E1 & E2 & E3 & E4 & E5). destruct e as [a b c d f].
  cbn [employer role startDate endDate x_achievements] in *.
  unfold experienceToJs. cbn [employer role startDate endDate x_achievements].
  fields.
  rewrite !asNullableString_nullable by assumption.
  rewrite asStringArray_strings by assumption. reflexivity.
Qed.

Lemma map_toJs {A : Type} (P : A -> Prop) (f : A -> A) (l : list A) :
  (forall a, P a -> f a = a) -> Forall P l -> map f l = l.
Proof.
  intros H. induction 1 as [| a l Pa _ IH]; [reflexivity |].
  cbn [map]. rewrite (H a Pa), IH. reflexivity.
Qed.

Lemma extracted_clean (raw : JsValue) : cleanExtracted (normalizeExtractFacts raw).
Proof.
  unfold cleanExtracted, normalizeExtractFacts. cbv zeta.
  cbn [jdFacts resumeFacts coverLetterFacts explicitUserAchievements missingData
       roleTitle companyName mustHaveSkills niceToHaveSkills responsibilities
       requiredExperienceYears keywords candidateName skills experience achievements
       education certifications keyClaims motivations].
  repeat split;
    try apply asNullableString_clean; try apply asStringArray_clean;
    try apply asNullableNumber_finite.
  apply Forall_map. apply Forall_forall. intros item _.
  repeat split; try apply asNullableString_clean; apply asStringArray_clean.
Qed.

Lemma scoring_clean (raw : JsValue) : cleanScoring (normalizeScoreMatch raw).
Proof.
  unfold cleanScoring, normalizeScoreMatch. cbv zeta.
  cbn [baselineScore enhancedScore jobFitScore explanation overallFeedback gapAnalysis
       portfolioAdvice recruiterNotes confidenceNotes].
  repeat split;
    try apply asNullableString_clean; try apply asStringArray_clean;
    try apply asNullableNumber_finite.
  apply Forall_map. apply Forall_forall. intros item _.
  repeat split; try apply asNullableString_clean; apply asSnippetArray_clean.
Qed.

(** X19. Whatever JSON value a stage received, the normalized result
    holds no blank and no untrimmed text and no number that is not
    finite: every text field is null or a non-empty text without white
    space at its ends, every list holds only such texts, every evidence
    snippet is a non-empty text of at most 20 words separated by single
    spaces, and every score is null or finite. What is not an object
    yields the empty result of each stage: every text and every number
    null, every list empty. *)
Theorem normalized_results_clean (raw : JsValue) :
  cleanExtracted (normalizeExtractFacts raw)
  /\ cleanScoring (normalizeScoreMatch raw)
  /\ cleanRewrite (normalizeRewriteDocs raw)
  /\ ((forall props, raw <> JObject props) ->
      normalizeExtractFacts raw
      = {| languageDetected := None;
           jdFacts := {| roleTitle := None; companyName := None; mustHaveSkills := [];
                         niceToHaveSkills := []; responsibilities := [];
                         requiredExperienceYears := None; keywords := [] |};
           resumeFacts := {| candidateName := None; skills := []; experience := [];
                             achievements := []; education := []; certifications := [] |};
           coverLetterFacts := {| keyClaims := []; motivations := [] |};
           explicitUserAchievements := []; missingData := [] |}
      /\ normalizeScoreMatch raw
         = {| baselineScore := None; enhancedScore := None; jobFitScore := None;
              explanation := None; overallFeedback := None; gapAnalysis := [];
              portfolioAdvice := None; recruiterNotes := None; confidenceNotes := [] |}
      /\ normalizeRewriteDocs raw
         = {| optimizedResume := None; optimizedCoverLetter := None;
              rewriteNotes := None |}).
Proof.
  split; [apply extracted_clean |]. split; [apply scoring_clean |].
  split; [repeat split; apply asNullableString_clean |].
  intros N. destruct raw; try (repeat split; reflexivity).
  exfalso. apply (N props). reflexivity.
Qed.

(** X20. A result that is clean (no blank or untrimmed text, no number
    that is not finite, snippets of at most 20 single-spaced words) comes back
    unchanged from its JSON form: [normalizeExtractFacts] undoes
    [JSON.stringify]'s view of an [ExtractFactsResult], and
    [normalizeScoreMatch] that of a [ScoreMatchResult]; so normalizing
    what a normalizer returned changes nothing. *)
Theorem normalize_round_trip (x : ExtractFactsResult) (y : ScoreMatchResult) :
  cleanExtracted x -> cleanScoring y ->
  normalizeExtractFacts (extractedToJs x) = x
  /\ normalizeScoreMatch (scoringToJs y) = y.
Proof.
  intros ((J1 & J2 & J3 & J4 & J5 & J6 & J7) & (R1 & R2 & R3 & R4 & R5 & R6)
          & (C1 & C2) & U & M)
         (S1 & S2 & S3 & S4 & S5 & S6 & S7 & S8 & S9).
  split.
  - destruct x as [l [a1 a2 a3 a4 a5 a6 a7] [b1 b2 b3 b4 b5 b6] [c1 c2] u m].
    cbn [jdFacts resumeFacts coverLetterFacts explicitUserAchievements missingData
         roleTitle companyName mustHaveSkills niceToHaveSkills responsibilities
         requiredExperienceYears keywords candidateName skills experience achievements
         education certifications keyClaims motivations] in *.
    unfold normalizeExtractFacts, extractedToJs. cbv zeta.
    cbn [jdFacts resumeFacts coverLetterFacts explicitUserAchievements missingData
         roleTitle companyName mustHaveSkills niceToHaveSkills responsibilities
         requiredExperienceYears keywords candidateName skills experience achievements
         education certifications keyClaims motivations languageDetected].
    fields.
    rewrite language_toJs.
    rewrite !asNullableString_nullable by assumption.
    rewrite !asStringArray_strings by assumption.
    rewrite asNullableNumber_nullable by assumption.
    cbn [asArray]. rewrite map_map.
    rewrite (map_toJs cleanExperience _ b3 experience_toJs R3). reflexivity.
  - destruct y as [b e j ex o g p r c].
    cbn [baselineScore enhancedScore jobFitScore explanation overallFeedback gapAnalysis
         portfolioAdvice recruiterNotes confidenceNotes] in *.
    unfold normalizeScoreMatch, scoringToJs. cbv zeta.
    cbn [baselineScore enhancedScore jobFitScore explanation overallFeedback gapAnalysis
         portfolioAdvice recruiterNotes confidenceNotes].
    fields.
    rewrite !asNullableString_nullable by assumption.
    rewrite !asNullableNumber_nullable by assumption.
    rewrite asStringArray_strings by assumption.
    cbn [asArray]. rewrite map_map.
    f_equal. exact (map_toJs cleanGap _ g gap_toJs S6).
Qed.

Lemma normalize_round_trip_witness :
  normalizeScoreMatch (scoringToJs (normalizeScoreMatch untidyScoring))
  = normalizeScoreMatch untidyScoring
  /\ map (fun g => jdQuotes (evidence g)) (gapAnalysis (normalizeScoreMatch untidyScoring))
     = [[lit "Required: Python"]]
  /\ explanation (normalizeScoreMatch untidyScoring) = Some (lit "close match")
  /\ baselineScore (normalizeScoreMatch untidyScoring) = None.
Proof.
  split; [| repeat split; reflexivity].
  apply (normalize_round_trip (normalizeExtractFacts JNull) (normalizeScoreMatch untidyScoring)).
  - apply extracted_clean.
  - apply scoring_clean.
Defined.

End NormalFacts.

(** ** The input hash *)

Section HashFacts.
Import Js types privacyService geminiService.
Variable host : Host.
Variable World : Type.
Variable generateContent :
  StageGenerationParams -> World -> (JsError + GenerationResponse) * World.

Lemma normalizeInputText_words (a b : str) :
  sameTextWords a b -> normalizeInputText a = normalizeInputText b.
Proof.
  unfold sameTextWords, normalizeInputText. intros E.
  rewrite !trim_collapse_words, E. reflexivity.
Qed.

Lemma analysis_hash (data : ApplicationInput) (runtimeOptions : AnalysisRuntimeOptions)
  (st st' : Run World) (result : AnalysisResult) :
  analyzeApplication host generateContent data runtimeOptions st = (inr result, st') ->
  computeInputHash host (sanitizedInput (prepareApplicationForGemini data)) st
  = (inr (inputHash (analysisTrace result)), st).
Proof.
  intros H. unfold analyzeApplication in H. cbv zeta in H.
  apply bind_inr in H. destruct H as (u & s0 & H0 & H).
  apply getGeminiClient_pure in H0. subst s0.
  apply bind_inr in H. destruct H as (hash & s1 & H1 & H).
  pose proof H1 as P. apply computeInputHash_pure in P. subst s1.
  apply bind_inr in H. destruct H as (u' & s1 & _ & H).
  apply bind_inr in H. destruct H as (extracted & s2 & H2 & H).
  apply bind_inr in H. destruct H as (scored & s3 & H3 & H).
  apply bind_inr in H. destruct H as (rewritten & s4 & H4 & H).
  match type of H with
  | (if ?b then _ else _) = _ => destruct b
  end; [discriminate H |].
  unfold ret in H. injection H as <- <-. exact H1.
Qed.

(** X21. The input hash reads the words of the input, not its white
    space: two inputs whose six text fields and six metrics have the
    same words, and which agree on the analysis mode and on privacy
    mode, get the same hash from [computeInputHash], whatever else
    differs; so with privacy mode off their analyses, when they return,
    carry the same [inputHash] in their traces. *)
Theorem input_hash_ignores_spacing (a b : ApplicationInput) :
  sameSpacedInput a b ->
  (forall st : Run World, computeInputHash host a st = computeInputHash host b st)
  /\ (privacyMode a = false ->
      forall options1 options2 st1 st2 st1' st2' result1 result2,
        analyzeApplication host generateContent a options1 st1 = (inr result1, st1') ->
        analyzeApplication host generateContent b options2 st2 = (inr result2, st2') ->
        inputHash (analysisTrace result1) = inputHash (analysisTrace result2)).
Proof.
  intros (T & Md & Pm & V).
  assert (Hs : forall st : Run World, computeInputHash host a st = computeInputHash host b st).
  { intros st. unfold computeInputHash. cbv zeta.
    rewrite Forall_forall in T.
    pose proof (fun f J => normalizeInputText_words _ _ (T f J)) as N.
    pose proof (N f_jobDescription) as N1. pose proof (N f_companyInfo) as N2.
    pose proof (N f_resumeContent) as N3. pose proof (N f_coverLetterContent) as N4.
    pose proof (N f_portfolioLinks) as N5. pose proof (N f_additionalContext) as N6.
    cbn [getField] in N1, N2, N3, N4, N5, N6.
    rewrite N1, N2, N3, N4, N5, N6, Md, Pm by (simpl; tauto).
    assert (E : map (fun key =>
                       (metricName key,
                        JString (normalizeInputText
                                   (metricsGuardService.orEmpty (vaultGet key (metricsVault a))))))
                    METRICS_HASH_FIELDS
                = map (fun key =>
                         (metricName key,
                          JString (normalizeInputText
                                     (metricsGuardService.orEmpty
                                        (vaultGet key (metricsVault b))))))
                      METRICS_HASH_FIELDS).
    { apply map_ext_in. intros k J. rewrite Forall_forall in V.
      rewrite (normalizeInputText_words _ _ (V k J)). reflexivity. }
    rewrite E. reflexivity. }
  split; [exact Hs |].
  intros Pa options1 options2 st1 st2 st1' st2' result1 result2 R1 R2.
  apply analysis_hash in R1, R2.
  assert (Pb : privacyMode b = false) by (rewrite <- Pm; exact Pa).
  unfold prepareApplicationForGemini in R1, R2. rewrite Pa in R1. rewrite Pb in R2.
  cbn [negb sanitizedInput] in R1, R2.
  rewrite Hs in R1. unfold computeInputHash in R1, R2. cbv zeta in R1, R2.
  destruct (sha256Hex host); [| discriminate R1].
  unfold ret in R1, R2. injection R1 as <-. injection R2 as <-. reflexivity.
Qed.

End HashFacts.

Section HashExample.
Import Js types privacyService geminiService.

Lemma input_hash_ignores_spacing_witness :
  computeInputHash sampleHost plainInput sampleStart
  = computeInputHash sampleHost spacedInput sampleStart.
Proof.
  apply (input_hash_ignores_spacing sampleHost unit sampleGenerator plainInput spacedInput).
  split; [| split; [reflexivity | split; [reflexivity |]]];
    repeat (apply Forall_cons; [vm_compute; reflexivity |]); apply Forall_nil.
Defined.

End HashExample.
